(** * SeleniumDB: the paged B+ tree and the indices built on it

    A shallow embedding of [src/inc/bptree.hh] (Pager, Node, Iterator,
    BplusTree), [database.hh] (Key, Database::insert, Database::find),
    [inverted_index.hh] (IvKey, InvertedIndex) and [topk.hh] (TkKey,
    TkRecord, TopK), followed by the properties of the specification that
    were checked against them.

    Conventions.  [int64_t] values (page ids, counts, indices) are [Z];
    no computation of the tree comes near 2^63, so their wrap-around is
    not written out, except in the byte offset of [Pager] where the
    claim is about every slot number.  The fixed arrays [data] and
    [children] of a node are lists of length [ORDER + 1] and [ORDER + 2],
    read with [nth] and written with stdpp's list insert.  A file of
    fixed-size records is a finite map from slot number to record. *)

From Stdlib Require Import ZArith Lia Bool List Ascii String.
From stdpp Require Import base tactics option list gmap sorting.

Local Open Scope Z_scope.

(** ** Key interface

    [BplusTree<T, ORDER>] uses [operator<], [operator<=] and [operator==]
    of [T], and default-constructs [T] inside fresh nodes.  The three key
    types of the repository leave the key bytes of a default-constructed
    value uninitialised, so [key_default] stands for whatever such a
    value holds. *)

Class KeyOps (T : Type) := {
  key_lt : T -> T -> bool;
  key_le : T -> T -> bool;
  key_eq : T -> T -> bool;
  key_default : T
}.

(** What the three operators have in common in [Key], [IvKey] and
    [TkKey]: they are the strict part, the reflexive part and the
    equivalence of one total preorder. *)
Class KeyLaws (T : Type) `{KeyOps T} : Prop := {
  key_lt_irrefl : forall a, key_lt a a = false;
  key_lt_trans : forall a b c,
    key_lt a b = true -> key_lt b c = true -> key_lt a c = true;
  key_nlt_trans : forall a b c,
    key_lt a b = false -> key_lt b c = false -> key_lt a c = false;
  key_le_lt : forall a b, key_le a b = negb (key_lt b a);
  key_eq_lt : forall a b, key_eq a b = negb (key_lt a b) && negb (key_lt b a)
}.

(** ** Nodes, iterators and the tree ([bptree.hh]) *)

Module BPT.

Section Tree.

Context {T : Type} `{KO : KeyOps T}.

(** The template parameter [ORDER]; every tree of the repository is
    instantiated at 64. *)
Variable ORDER : Z.

Record Node := mkNode {
  page_id : Z;
  count : Z;
  right : Z;
  data : list T;
  children : list Z
}.

(** [Node(int64_t page_id)]: [data{}] default-constructs the keys,
    [children{0}] fills with 0. *)
Definition Node_new (pid : Z) : Node :=
  {| page_id := pid; count := 0; right := 0;
     data := replicate (Z.to_nat (ORDER + 1)) key_default;
     children := replicate (Z.to_nat (ORDER + 2)) 0 |}.

Definition get_data (n : Node) (i : Z) : T :=
  nth (Z.to_nat i) (data n) key_default.
Definition get_child (n : Node) (i : Z) : Z :=
  nth (Z.to_nat i) (children n) 0.

Definition set_data (n : Node) (i : Z) (v : T) : Node :=
  {| page_id := page_id n; count := count n; right := right n;
     data := <[Z.to_nat i := v]> (data n); children := children n |}.
Definition set_child (n : Node) (i : Z) (c : Z) : Node :=
  {| page_id := page_id n; count := count n; right := right n;
     data := data n; children := <[Z.to_nat i := c]> (children n) |}.
Definition set_count (n : Node) (c : Z) : Node :=
  {| page_id := page_id n; count := c; right := right n;
     data := data n; children := children n |}.
Definition set_right (n : Node) (r : Z) : Node :=
  {| page_id := page_id n; count := count n; right := r;
     data := data n; children := children n |}.

(** [Node::insert_in_node]: the [while (j > pos)] loop moves entry
    [j - 1] to [j] and child [j] to [j + 1]. *)
Fixpoint insert_in_node_loop (fuel : nat) (pos j : Z) (n : Node) : Z * Node :=
  match fuel with
  | O => (j, n)
  | S fuel' =>
      if pos <? j then
        let n1 := set_data n j (get_data n (j - 1)) in
        let n2 := set_child n1 (j + 1) (get_child n1 j) in
        insert_in_node_loop fuel' pos (j - 1) n2
      else (j, n)
  end.

Definition insert_in_node (pos : Z) (value : T) (n : Node) : Node :=
  let '(j, n1) :=
    insert_in_node_loop (Z.to_nat (count n - pos)) pos (count n) n in
  let n2 := set_data n1 j value in
  let n3 := set_child n2 (j + 1) (get_child n2 j) in
  set_count n3 (count n3 + 1).

Definition is_overflow (n : Node) : bool := ORDER <? count n.
Definition is_leaf (n : Node) : bool := get_child n 0 =? 0.

(** *** The index file

    [Pager::save] and [Pager::recover] at record type [Node]: slot [n]
    holds the node last saved there.  A seek to a negative offset fails
    and the transfer after it moves nothing. *)
Definition save (n : Z) (reg : Node) (pg : gmap Z Node) : gmap Z Node :=
  if n <? 0 then pg else <[n := reg]> pg.

Definition recover (n : Z) (reg : Node) (pg : gmap Z Node) : bool * Node :=
  match pg !! n with
  | Some r => (true, r)
  | None => (false, reg)
  end.

Record Header := mkHeader { root_id : Z; hcount : Z }.

(** A [BplusTree] object: its pager and its header.  Every change of
    the header is followed by [pager->save(0, header)], so slot 0 of the
    file always holds a copy of [header]; the model keeps the one. *)
Record BplusTree := mkTree { pager : gmap Z Node; header : Header }.

(** The constructor on an empty pager. *)
Definition create : BplusTree :=
  let root := Node_new 1 in
  {| pager := save (page_id root) root ∅;
     header := {| root_id := 1; hcount := 0 + 1 |} |}.

Definition write_node (id : Z) (n : Node) (bt : BplusTree) : BplusTree :=
  {| pager := save id n (pager bt); header := header bt |}.

Definition read_node (id : Z) (bt : BplusTree) : Node :=
  snd (recover id (Node_new (-1)) (pager bt)).

Definition new_node (bt : BplusTree) : Node * BplusTree :=
  let h := {| root_id := root_id (header bt);
              hcount := hcount (header bt) + 1 |} in
  (Node_new (hcount h), {| pager := pager bt; header := h |}).

(** *** Iterator *)

Record Iterator := mkIter { index : Z; current_pos : Node }.

Definition deref (it : Iterator) : T := get_data (current_pos it) (index it).

(** [operator++]; the postfix form used by the callers discards the
    copy it returns, so both forms are this function.  The sentinel
    built off the last entry is [Node_new (-1)], whose keys stand for
    one content of its block of memory; [Sentinel.incr] has the content
    of the block as an argument. *)
Definition incr (bt : BplusTree) (it : Iterator) : Iterator :=
  if index it <? count (current_pos it) - 1 then
    {| index := index it + 1; current_pos := current_pos it |}
  else if right (current_pos it) =? 0 then
    {| index := 0; current_pos := Node_new (-1) |}
  else
    {| index := 0;
       current_pos :=
         snd (recover (right (current_pos it)) (current_pos it) (pager bt)) |}.

(** [end()], with the same content of its block; [Sentinel.end_] has
    the content as an argument. *)
Definition end_ : Iterator := {| index := 0; current_pos := Node_new (-1) |}.

(** [operator!=]: iterators on different pages differ; on the same page
    the entries they stand at are compared. *)
Definition iter_ne (this that : Iterator) : bool :=
  if page_id (current_pos this) =? page_id (current_pos that) then
    negb (key_eq (get_data (current_pos this) (index this))
                 (get_data (current_pos that) (index that)))
  else true.

(** *** Search *)

(** [while (pos < count && cond(data[pos])) pos++]. *)
Fixpoint scan (cond : T -> bool) (fuel : nat) (pos : Z) (n : Node) : Z :=
  match fuel with
  | O => pos
  | S fuel' =>
      if (pos <? count n) && cond (get_data n pos)
      then scan cond fuel' (pos + 1) n
      else pos
  end.

Definition scan_le (value : T) (n : Node) : Z :=
  scan (fun d => key_le d value) (Z.to_nat (count n)) 0 n.
Definition scan_lt (value : T) (n : Node) : Z :=
  scan (fun d => key_lt d value) (Z.to_nat (count n)) 0 n.

(** [find_helper]; [fuel] bounds the depth of the recursion, [None]
    means it ran out. *)
Fixpoint find_helper (fuel : nat) (value : T) (root : Node) (bt : BplusTree)
  : option Iterator :=
  match fuel with
  | O => None
  | S fuel' =>
      if negb (is_leaf root) then
        let pos := scan_le value root in
        let child := read_node (get_child root pos) bt in
        find_helper fuel' value child bt
      else
        let pos := scan_lt value root in
        let it := {| index := pos; current_pos := root |} in
        Some (if pos =? count root then incr bt it else it)
  end.

(** A descent visits pages with distinct ids, at most [header.count] of
    them. *)
Definition depth_bound (bt : BplusTree) : nat :=
  S (Z.to_nat (hcount (header bt))).

Definition find_geq (value : T) (bt : BplusTree) : option Iterator :=
  find_helper (depth_bound bt) value (read_node (root_id (header bt)) bt) bt.

Definition find (value : T) (bt : BplusTree) : option Iterator :=
  match find_geq value bt with
  | Some it => Some (if key_eq (deref it) value then it else end_)
  | None => None
  end.

Fixpoint begin_loop (fuel : nat) (root : Node) (bt : BplusTree)
  : option Node :=
  match fuel with
  | O => None
  | S fuel' =>
      if negb (is_leaf root)
      then begin_loop fuel' (read_node (get_child root 0) bt) bt
      else Some root
  end.

Definition begin (bt : BplusTree) : option Iterator :=
  match begin_loop (depth_bound bt) (read_node (root_id (header bt)) bt) bt with
  | Some leaf => Some {| index := 0; current_pos := leaf |}
  | None => None
  end.

(** *** Insertion *)

Inductive State := BT_OVERFLOW | BT_UNDERFLOW | OK.
Inductive InNode := LEFT | RIGHT.

(** [ceil(flag ? ORDER / 2.0 : ORDER + 1)]. *)
Definition reset_bound (p : InNode) : Z :=
  match p with
  | LEFT => (ORDER + 1) / 2
  | RIGHT => ORDER + 1
  end.

(** [reset_children(parent, child, p, &iter)] for two distinct node
    objects; returns the child and the final [*iter]. *)
Fixpoint reset_children_loop (fuel : nat) (bound : Z) (parent child : Node)
    (i iter : Z) : Node * Z * Z :=
  match fuel with
  | O => (child, i, iter)
  | S fuel' =>
      if iter <? bound then
        let c1 := set_child child i (get_child parent iter) in
        let c2 := set_data c1 i (get_data parent iter) in
        let c3 := set_count c2 (count c2 + 1) in
        reset_children_loop fuel' bound parent c3 (i + 1) (iter + 1)
      else (child, i, iter)
  end.

Definition reset_children (parent child : Node) (p : InNode) (iter : Z)
  : Node * Z :=
  let '(c, i, iter') :=
    reset_children_loop (Z.to_nat (reset_bound p - iter)) (reset_bound p)
                        parent child 0 iter in
  (set_child c i (get_child parent iter'), iter').

(** The same function when [parent] and [child] are one object, as in
    [insert_helper] where [left_child = overflow]: every read sees the
    writes made before it. *)
Fixpoint reset_children_self_loop (fuel : nat) (bound : Z) (node : Node)
    (i iter : Z) : Node * Z * Z :=
  match fuel with
  | O => (node, i, iter)
  | S fuel' =>
      if iter <? bound then
        let c1 := set_child node i (get_child node iter) in
        let c2 := set_data c1 i (get_data c1 iter) in
        let c3 := set_count c2 (count c2 + 1) in
        reset_children_self_loop fuel' bound c3 (i + 1) (iter + 1)
      else (node, i, iter)
  end.

Definition reset_children_self (node : Node) (p : InNode) (iter : Z)
  : Node * Z :=
  let '(c, i, iter') :=
    reset_children_self_loop (Z.to_nat (reset_bound p - iter)) (reset_bound p)
                             node 0 iter in
  (set_child c i (get_child c iter'), iter').

(** [write_these_nodes]; the first node is returned too, since the
    caller goes on using it. *)
Definition write_these_nodes (n1 n2 n3 : Node) (pos : Z) (bt : BplusTree)
  : Node * BplusTree :=
  let n1a := set_child n1 pos (page_id n2) in
  let n1b := set_child n1a (pos + 1) (page_id n3) in
  (n1b,
   write_node (page_id n3) n3
     (write_node (page_id n2) n2 (write_node (page_id n1b) n1b bt))).

(** [insert_helper(n, value)].  The node [n] is changed in place by the
    source; no caller reads it afterwards, so only the state and the
    tree are returned. *)
Fixpoint insert_helper (fuel : nat) (n : Node) (value : T) (bt : BplusTree)
  : option (State * BplusTree) :=
  match fuel with
  | O => None
  | S fuel' =>
      let pos := scan_lt value n in
      if negb (get_child n pos =? 0) then
        let id := get_child n pos in
        let child := read_node id bt in
        match insert_helper fuel' child value bt with
        | None => None
        | Some (BT_OVERFLOW, bt1) =>
            let overflow := read_node (get_child n pos) bt1 in
            let left_child0 := set_count overflow 0 in
            let '(right_child0, bt2) := new_node bt1 in
            let '(left_child1, iter) :=
              reset_children_self left_child0 LEFT 0 in
            let n1 := insert_in_node pos (get_data left_child1 iter) n in
            let '(iter1, left_child2, right_child1, n2) :=
              if negb (is_leaf left_child1) then
                (iter + 1, left_child1, right_child0, n1)
              else
                let rc := set_right right_child0 (right left_child1) in
                let lc := set_right left_child1 (page_id rc) in
                (iter, lc, rc, set_child n1 (pos + 1) (page_id rc)) in
            let '(right_child2, _) :=
              reset_children left_child2 right_child1 RIGHT iter1 in
            let '(n3, bt3) :=
              write_these_nodes n2 left_child2 right_child2 pos bt2 in
            Some (if is_overflow n3 then BT_OVERFLOW else OK, bt3)
        | Some (_, bt1) =>
            Some (if is_overflow n then BT_OVERFLOW else OK, bt1)
        end
      else
        let n1 := insert_in_node pos value n in
        let bt1 := write_node (page_id n1) n1 bt in
        Some (if is_overflow n1 then BT_OVERFLOW else OK, bt1)
  end.

(** [BplusTree::insert]. *)
Definition insert (value : T) (bt : BplusTree) : option BplusTree :=
  let root := read_node (root_id (header bt)) bt in
  match insert_helper (depth_bound bt) root value bt with
  | None => None
  | Some (BT_OVERFLOW, bt1) =>
      let overflow := read_node (root_id (header bt1)) bt1 in
      let '(left_child0, bt2) := new_node bt1 in
      let '(right_child0, bt3) := new_node bt2 in
      let '(left_child1, iter) := reset_children overflow left_child0 LEFT 0 in
      let overflow1 := set_data overflow 0 (get_data overflow iter) in
      let left_child2 := set_right left_child1 (page_id right_child0) in
      let iter1 := if negb (is_leaf overflow1) then iter + 1 else iter in
      let '(right_child1, _) :=
        reset_children overflow1 right_child0 RIGHT iter1 in
      let overflow2 := set_count overflow1 1 in
      Some (snd (write_these_nodes overflow2 left_child2 right_child1 0 bt3))
  | Some (_, bt1) => Some bt1
  end.

Fixpoint insert_all (values : list T) (bt : BplusTree) : option BplusTree :=
  match values with
  | [] => Some bt
  | v :: rest =>
      match insert v bt with
      | Some bt1 => insert_all rest bt1
      | None => None
      end
  end.

End Tree.

End BPT.

(** ** Hashed keys ([IvKey] of inverted_index.hh, [TkKey] of topk.hh)

    Both structs are [size_t key; int64_t id = -1] compared on [key]
    alone.  [size_t] is 64 bits wide. *)

Record HashedKey := mkHK { hk_key : Z; hk_id : Z }.

Definition size_t_wrap (z : Z) : Z := z mod 2 ^ 64.

(** The default constructor sets [id = -1] and leaves [key] as it is. *)
Definition HashedKey_ops (uninit : Z) : KeyOps HashedKey :=
  {| key_lt := fun a b => hk_key a <? hk_key b;
     key_le := fun a b => hk_key a <=? hk_key b;
     key_eq := fun a b => hk_key a =? hk_key b;
     key_default := {| hk_key := uninit; hk_id := -1 |} |}.

(** ** Record files

    The [*_rec_*] files hold one fixed-size record per slot and are
    written whole records at a time, so such a file is the list of its
    records.  [get_id] is [file_size / sizeof(Register)].  [save] at a
    slot past the end extends the file, the skipped slots reading as
    zero bytes; a negative slot makes the seek fail and nothing is
    transferred. *)

Module RecFile.
Section RecFile.

Context {R : Type}.
Variable zero : R.

Definition get_id (f : list R) : Z := Z.of_nat (length f).

Definition save (n : Z) (reg : R) (f : list R) : list R :=
  if n <? 0 then f
  else if n <? Z.of_nat (length f) then <[Z.to_nat n := reg]> f
  else f ++ replicate (Z.to_nat n - length f) zero ++ [reg].

Definition recover (n : Z) (reg : R) (f : list R) : bool * R :=
  if n <? 0 then (false, reg)
  else match f !! Z.to_nat n with
       | Some r => (true, r)
       | None => (false, reg)
       end.

End RecFile.
End RecFile.

(** [struct Record] of util.hh: two [uint32_t]. *)
Record Record_ := mkRecord { pos : Z; len : Z }.
Definition Record_default : Record_ := {| pos := 0; len := 0 |}.

(** ** C strings *)

Definition NUL : ascii := Ascii.zero.

(** [std::string::c_str()] read as a C string: the bytes before the
    first NUL. *)
Fixpoint c_str (s : string) : string :=
  match s with
  | EmptyString => EmptyString
  | String c r => if Ascii.eqb c NUL then EmptyString else String c (c_str r)
  end.

(** [snprintf(buf, size, "%s", s.c_str())]: at most [size - 1] bytes. *)
Definition snprintf (size : nat) (s : string) : string :=
  substring 0 (size - 1) (c_str s).

Definition byte_val (c : ascii) : Z := Z.of_N (N_of_ascii c).

(** [strcmp] on two NUL-terminated texts: the difference of the first
    pair of bytes that differ, the terminator counting as byte 0. *)
Fixpoint strcmp (a b : string) : Z :=
  match a, b with
  | EmptyString, EmptyString => 0
  | EmptyString, String d _ => 0 - byte_val d
  | String c _, EmptyString => byte_val c - 0
  | String c a', String d b' =>
      if Ascii.eqb c d then strcmp a' b' else byte_val c - byte_val d
  end.

(** ** Primary index ([database.hh]) *)

Module DB.

(** [struct Key]: [char key[64]; int64_t id = -1].  [key] is the text
    in the buffer up to its NUL. *)
Record Key := mkKey { key : string; id : Z }.

Definition Key_ops (uninit : string) : KeyOps Key :=
  {| key_lt := fun a b => strcmp (key a) (key b) <? 0;
     key_le := fun a b => strcmp (key a) (key b) <=? 0;
     key_eq := fun a b => strcmp (key a) (key b) =? 0;
     key_default := {| key := uninit; id := -1 |} |}.

Section Database.

(** The bytes found in an uninitialised [char key[64]]. *)
Variable uninit : string.
#[local] Instance KO : KeyOps Key := Key_ops uninit.

(** [struct SubDatabase] with [ORDER = 64]; [page_manager] is the pager
    inside [bt]. *)
Record SubDatabase := mkSub {
  sub_id : Z;
  record_manager : list Record_;
  bt : BPT.BplusTree (T := Key)
}.

(** [db_open(name, true)] for one field. *)
Definition sub_create : SubDatabase :=
  {| sub_id := RecFile.get_id (R := Record_) [];
     record_manager := [];
     bt := BPT.create 64 |}.

(** [Database::insert] on the sub-database selected by [state]. *)
Definition insert (r : Record_) (k : string) (here : SubDatabase)
  : option SubDatabase :=
  let rm := RecFile.save Record_default (sub_id here) r (record_manager here) in
  let kk := {| key := snprintf 64 k; id := sub_id here |} in
  match BPT.insert 64 kk (bt here) with
  | Some bt1 =>
      Some {| sub_id := sub_id here + 1; record_manager := rm; bt := bt1 |}
  | None => None
  end.

(** The [while (true)] loop of [Database::find]; [None] when [fuel]
    turns were not enough. *)
Fixpoint find_loop (fuel : nat) (value : string) (here : SubDatabase)
    (iter : BPT.Iterator (T := Key)) (results : list (Record_ * string))
  : option (list (Record_ * string)) :=
  match fuel with
  | O => None
  | S fuel' =>
      let cur := BPT.deref iter in
      if String.prefix value (key cur) then
        let s := snd (RecFile.recover (id cur) Record_default
                                      (record_manager here)) in
        find_loop fuel' value here (BPT.incr 64 (bt here) iter)
                  (results ++ [(s, key cur)])
      else Some results
  end.

(** [Database::find], up to the call of [select_in], which prints and
    leaves the vector as it is.  Each turn of the loop stops or steps to
    the next entry, and there are [sub_id] entries; a loop still running
    one turn after that is looking at the end sentinel, which
    [operator++] maps to itself here, so it never stops.
    [DBFind.find_results] is the loop with the content of the blocks of
    the sentinels as arguments. *)
Definition find (value : string) (here : SubDatabase)
  : option (list (Record_ * string)) :=
  let k := {| key := snprintf 64 value; id := -1 |} in
  match BPT.find_geq 64 k (bt here) with
  | Some iter =>
      find_loop (S (S (Z.to_nat (sub_id here)))) value here iter []
  | None => None
  end.

Fixpoint insert_all (l : list (Record_ * string)) (here : SubDatabase)
  : option SubDatabase :=
  match l with
  | [] => Some here
  | (r, k) :: rest =>
      match insert r k here with
      | Some here1 => insert_all rest here1
      | None => None
      end
  end.

End Database.
End DB.

(** ** Inverted index ([inverted_index.hh]) *)

Module InvIdx.

(** [operator<] of [std::pair<uint32_t, uint32_t>]. *)
Definition pair_lt (a b : Z * Z) : bool :=
  (fst a <? fst b) || ((fst a =? fst b) && (snd a <? snd b)).

(** [result_set] is a [std::set] of pairs: an increasing list. *)
Fixpoint set_insert (x : Z * Z) (s : list (Z * Z)) : list (Z * Z) :=
  match s with
  | [] => [x]
  | y :: r =>
      if pair_lt x y then x :: s
      else if pair_lt y x then y :: set_insert x r
      else s
  end.

(** [std::set_intersection] of two increasing ranges. *)
Fixpoint set_intersection (a b : list (Z * Z)) : list (Z * Z) :=
  match a with
  | [] => []
  | x :: a' =>
      (fix scan_b (b : list (Z * Z)) : list (Z * Z) :=
         match b with
         | [] => []
         | y :: b' =>
             if pair_lt x y then set_intersection a' b
             else if pair_lt y x then scan_b b'
             else x :: set_intersection a' b'
         end) b
  end.

Definition is_space (c : ascii) : bool :=
  let n := N_of_ascii c in ((9 <=? n) && (n <=? 13))%N || (n =? 32)%N.

(** [while (in >> word)]: the maximal runs of non-space characters. *)
Fixpoint words_aux (cur : string) (s : string) : list string :=
  match s with
  | EmptyString =>
      match cur with EmptyString => [] | _ => [cur] end
  | String c r =>
      if is_space c then
        match cur with
        | EmptyString => words_aux EmptyString r
        | _ => cur :: words_aux EmptyString r
        end
      else words_aux (cur ++ String c EmptyString) r
  end.
Definition words (s : string) : list string := words_aux EmptyString s.

Section InvertedIndex.

(** [std::hash<std::string>], which the C++ library supplies; its
    values are taken modulo 2^64. *)
Variable hash_fn : string -> Z.
(** The contents of an uninitialised [size_t key]. *)
Variable uninit : Z.
#[local] Instance KO : KeyOps HashedKey := HashedKey_ops uninit.

Record InvertedIndex := mkII {
  ii_id : Z;
  record_manager : list Record_;
  bt : BPT.BplusTree (T := HashedKey)
}.

(** [init_ii(name, true)]. *)
Definition init_ii : InvertedIndex :=
  {| ii_id := RecFile.get_id (R := Record_) [];
     record_manager := [];
     bt := BPT.create 64 |}.

Fixpoint insert_words (ws : list string) (p l : Z) (ii : InvertedIndex)
  : option InvertedIndex :=
  match ws with
  | [] => Some ii
  | word :: rest =>
      let pphash := size_t_wrap (hash_fn word) in
      let r := {| pos := p; len := l |} in
      let rm := RecFile.save Record_default (ii_id ii) r (record_manager ii) in
      match BPT.insert 64 {| hk_key := pphash; hk_id := ii_id ii |} (bt ii) with
      | Some bt1 =>
          insert_words rest p l
            {| ii_id := ii_id ii + 1; record_manager := rm; bt := bt1 |}
      | None => None
      end
  end.

(** [InvertedIndex::insert(key, pos, len)]. *)
Definition insert (k : string) (p l : Z) (ii : InvertedIndex)
  : option InvertedIndex :=
  insert_words (words k) p l ii.

(** [InvertedIndex::build(source, pos, len)]. *)
Fixpoint build (source : list string) (p l : Z) (ii : InvertedIndex)
  : option InvertedIndex :=
  match source with
  | [] => Some ii
  | s :: rest =>
      match insert s p l ii with
      | Some ii1 => build rest p l ii1
      | None => None
      end
  end.

Fixpoint find_single_loop (fuel : nat) (hash_code : Z) (ii : InvertedIndex)
    (iter : BPT.Iterator (T := HashedKey)) (result : list (Z * Z))
  : option (list (Z * Z)) :=
  match fuel with
  | O => None
  | S fuel' =>
      let cur := BPT.deref iter in
      if hk_key cur =? hash_code then
        let s := snd (RecFile.recover (hk_id cur) Record_default
                                      (record_manager ii)) in
        find_single_loop fuel' hash_code ii (BPT.incr 64 (bt ii) iter)
                         (set_insert (pos s, len s) result)
      else Some result
  end.

(** [find_single_value]; the bound on the loop is as in
    [Database::find]. *)
Definition find_single_value (v : string) (ii : InvertedIndex)
  : option (list (Z * Z)) :=
  let hash_code := size_t_wrap (hash_fn v) in
  let k := {| hk_key := size_t_wrap (hash_code - 1); hk_id := -1 |} in
  match BPT.find_geq 64 k (bt ii) with
  | Some iter =>
      find_single_loop (S (S (Z.to_nat (ii_id ii)))) hash_code ii iter []
  | None => None
  end.

(** [intersection(result_list)]; [result_list[0]] of an empty vector is
    not defined and is given as the empty set here. *)
Definition intersection (result_list : list (list (Z * Z))) : list (Z * Z) :=
  match result_list with
  | r0 :: r1 :: rest =>
      fold_left (fun acc ri => set_intersection ri acc) rest
                (set_intersection r0 r1)
  | [r0] => r0
  | [] => []
  end.

Fixpoint find_each (value_list : list string) (ii : InvertedIndex)
  : option (list (list (Z * Z))) :=
  match value_list with
  | [] => Some []
  | v :: rest =>
      match find_single_value v ii, find_each rest ii with
      | Some r, Some rs => Some (r :: rs)
      | _, _ => None
      end
  end.

(** [InvertedIndex::find(value_list)]. *)
Definition find (value_list : list string) (ii : InvertedIndex)
  : option (list (Record_ * string)) :=
  match find_each value_list ii with
  | Some result_list =>
      Some (map (fun i => ({| pos := fst i; len := snd i |}, EmptyString))
                (intersection result_list))
  | None => None
  end.

End InvertedIndex.
End InvIdx.

(** ** Top-K ranker ([topk.hh]) *)

Module TopK.

(** [struct TkRecord]: [uint32_t count = 0; char tkname[64]], compared
    on [count]. *)
Record TkRecord := mkTk { tk_count : Z; tkname : string }.

Definition uint32_wrap (z : Z) : Z := z mod 2 ^ 32.

(** [operator>] of [TkRecord], the order of [std::greater<TkRecord>]. *)
Definition tk_gt (a b : TkRecord) : bool := tk_count b <? tk_count a.

Section TopK.

Variable hash_fn : string -> Z.
(** The contents of an uninitialised [size_t key] and of an
    uninitialised [char tkname[64]]. *)
Variable uninit_key : Z.
Variable uninit_name : string.
#[local] Instance KO : KeyOps HashedKey := HashedKey_ops uninit_key.

(** [TkRecord()]: [count = 0], [tkname] as found. *)
Definition TkRecord_default : TkRecord :=
  {| tk_count := 0; tkname := uninit_name |}.
(** A slot of zero bytes. *)
Definition TkRecord_zero : TkRecord :=
  {| tk_count := 0; tkname := EmptyString |}.

Record TopK := mkTopK {
  tk_id : Z;
  record_manager : list TkRecord;
  bt : BPT.BplusTree (T := HashedKey);
  vec : list TkRecord
}.

(** [init_topk(name, true)] on a new object. *)
Definition init_topk : TopK :=
  {| tk_id := RecFile.get_id (R := TkRecord) [];
     record_manager := [];
     bt := BPT.create 64;
     vec := [] |}.

(** [word != r.tkname] compares a [std::string] with a C string. *)
Definition string_ne_cstr (word name : string) : bool :=
  negb (String.eqb word name).

(** [TopK::insert(word)]. *)
Definition insert (word : string) (tk : TopK) : option TopK :=
  let pphash := size_t_wrap (hash_fn word) in
  match BPT.find 64 {| hk_key := pphash; hk_id := -1 |} (bt tk) with
  | None => None
  | Some iter =>
      let r := snd (RecFile.recover (hk_id (BPT.deref iter)) TkRecord_default
                                    (record_manager tk)) in
      if string_ne_cstr word (tkname r) then
        match BPT.insert 64 {| hk_key := pphash; hk_id := tk_id tk |} (bt tk) with
        | None => None
        | Some bt1 =>
            let r1 := {| tk_count := 1; tkname := snprintf 64 word |} in
            Some {| tk_id := tk_id tk + 1;
                    record_manager :=
                      RecFile.save TkRecord_zero (tk_id tk) r1 (record_manager tk);
                    bt := bt1;
                    vec := vec tk |}
        end
      else
        let r1 := {| tk_count := uint32_wrap (tk_count r + 1);
                     tkname := tkname r |} in
        Some {| tk_id := tk_id tk;
                record_manager :=
                  RecFile.save TkRecord_zero (hk_id (BPT.deref iter)) r1
                               (record_manager tk);
                bt := bt tk;
                vec := vec tk |}
  end.

Fixpoint insert_all (ws : list string) (tk : TopK) : option TopK :=
  match ws with
  | [] => Some tk
  | w :: rest =>
      match insert w tk with
      | Some tk1 => insert_all rest tk1
      | None => None
      end
  end.

(** The three algorithms of the C++ library that [make_topk] and
    [print] call: [std::make_heap] with [std::greater], [std::pop_heap]
    with the default [operator<], and [std::sort] with [std::greater]. *)
Variable make_heap_greater : list TkRecord -> list TkRecord.
Variable pop_heap : list TkRecord -> list TkRecord.
Variable sort_greater : list TkRecord -> list TkRecord.

(** [while (vec.size() > N) { make_heap; pop_heap; pop_back }]; the
    comparison is made in [size_t], where a negative [N] is huge. *)
Fixpoint shrink (fuel : nat) (N : Z) (v : list TkRecord) : list TkRecord :=
  match fuel with
  | O => v
  | S fuel' =>
      if size_t_wrap N <? Z.of_nat (length v) then
        shrink fuel' N (removelast (pop_heap (make_heap_greater v)))
      else v
  end.

(** The body of the [for] loop of [make_topk] at slot [i]. *)
Definition make_topk_step (N : Z) (tk : TopK) (i : Z) : TopK :=
  let r := snd (RecFile.recover i TkRecord_default (record_manager tk)) in
  let v1 := make_heap_greater (vec tk ++ [r]) in
  {| tk_id := tk_id tk; record_manager := record_manager tk; bt := bt tk;
     vec := shrink (length v1) N v1 |}.

(** [TopK::make_topk(N)]. *)
Definition make_topk (N : Z) (tk : TopK) : TopK :=
  fold_left (make_topk_step N)
            (map Z.of_nat (seq 0 (Z.to_nat (RecFile.get_id (record_manager tk)))))
            tk.

(** [TopK::print(K)]: the lines printed, as (name, count), and the
    object with its [vec] sorted.  [vec[i]] past the end of the vector
    is not defined; the model stops there. *)
Definition print (K : Z) (tk : TopK) : list (string * Z) * TopK :=
  let v := sort_greater (vec tk) in
  (map (fun r => (tkname r, tk_count r)) (take (Z.to_nat K) v),
   {| tk_id := tk_id tk; record_manager := record_manager tk; bt := bt tk;
      vec := v |}).

End TopK.
End TopK.

(** ** The pager on bytes ([class Pager] of bptree.hh)

    The file is the list of its bytes and a register is the list of its
    [sizeof(Register)] bytes. *)

Module Pager.

(** How the file named in the constructor is found on disk. *)
Inductive FileStatus :=
  | Absent
  | Unreadable
  | Present (content : list Byte.byte).

Inductive Error := DatabaseNotExist | DatabaseOpeningError.

(** The stream after the constructor: whether a file is open, the
    [failbit], and the file's bytes when one is open. *)
Record Stream := mkStream {
  is_open : bool;
  fail : bool;
  content : list Byte.byte;
  empty : bool
}.

(** [std::fstream(name, in | out | binary)]: opens an existing file
    that can be read and written and never creates one; on failure the
    stream is closed with [failbit] set. *)
Definition fstream_ctor (f : FileStatus) : bool * bool * list Byte.byte :=
  match f with
  | Present c => (true, false, c)
  | _ => (false, true, [])
  end.

(** [open(name, in | out | trunc | binary)]: fails with [failbit] when
    the stream already has a file open; otherwise creates or truncates
    the file, unless it may not be written. *)
Definition fstream_open_trunc (f : FileStatus) (s : bool * bool * list Byte.byte)
  : bool * bool * list Byte.byte :=
  let '(opened, failed, c) := s in
  if opened then (true, true, c)
  else match f with
       | Unreadable => (false, true, [])
       | _ => (true, false, [])
       end.

(** [Pager::Pager(file_name, create)]. *)
Definition Pager_ctor (f : FileStatus) (create : bool) : Error + Stream :=
  let s := fstream_ctor f in
  let '(opened, failed, c) := s in
  if negb create && negb opened then inl DatabaseNotExist
  else if negb create && failed then inl DatabaseOpeningError
  else
    if create then
      let '(opened1, failed1, c1) := fstream_open_trunc f s in
      inr {| is_open := opened1; fail := failed1; content := c1; empty := true |}
    else
      inr {| is_open := opened; fail := failed; content := c; empty := false |}.

Section Register.

(** [sizeof(Register)]. *)
Variable S : Z.

(** [n * sizeof(Register)] is computed in [size_t] and handed to
    [seekg] as a signed 64-bit offset. *)
Definition offset (n : Z) : Z :=
  let u := (n * S) mod 2 ^ 64 in
  if u <? 2 ^ 63 then u else u - 2 ^ 64.

(** [read(buf, S)] at offset [off]: the bytes the file has there, at
    most [S] of them. *)
Definition read_at (file : list Byte.byte) (off : Z) : list Byte.byte :=
  take (Z.to_nat S) (drop (Z.to_nat off) file).

(** [Pager::recover(n, reg)]: [clear()], [seekg], [read], and
    [gcount() > 0].  A seek to a negative offset fails and the read
    after it transfers nothing; a read moves [gcount()] bytes into the
    front of [reg] and leaves the rest. *)
Definition recover (n : Z) (reg : list Byte.byte) (file : list Byte.byte)
  : bool * list Byte.byte :=
  let off := offset n in
  let got := if off <? 0 then [] else read_at file off in
  let gcount := Z.of_nat (length got) in
  (0 <? gcount, got ++ drop (length got) reg).

End Register.
End Pager.

Module BPTStructure.

Import BPT.
Local Open Scope Z_scope.

Section NodeLemmas.
Context {T : Type} `{KO : KeyOps T}.
Variable ORDER : Z.

Implicit Types (n : Node (T := T)) (v : T).

Lemma get_data_lookup n (i : Z) x :
  0 <= i -> data n !! Z.to_nat i = Some x -> get_data n i = x.
Proof. intros _ H. unfold get_data. by rewrite nth_lookup, H. Qed.

Lemma lookup_set_data n i v (k : nat) :
  data (set_data n i v) !! k =
    if decide (Z.to_nat i = k ∧ (Z.to_nat i < length (data n))%nat)
    then Some v else data n !! k.
Proof. unfold set_data; simpl. apply list_lookup_insert. Qed.

Lemma lookup_set_child n i c (k : nat) :
  children (set_child n i c) !! k =
    if decide (Z.to_nat i = k ∧ (Z.to_nat i < length (children n))%nat)
    then Some c else children n !! k.
Proof. unfold set_child; simpl. apply list_lookup_insert. Qed.

(** The loop of insert_in_node, pointwise. *)
Lemma insert_in_node_loop_spec (fuel : nat) pos j n :
  0 <= pos <= j -> fuel = Z.to_nat (j - pos) ->
  (Z.to_nat j < length (data n))%nat ->
  (Z.to_nat j + 1 < length (children n))%nat ->
  exists n', insert_in_node_loop fuel pos j n = (pos, n') /\
    page_id n' = page_id n /\ count n' = count n /\ right n' = right n /\
    length (data n') = length (data n) /\
    length (children n') = length (children n) /\
    (forall k : nat, data n' !! k =
       if decide (Z.to_nat pos < k <= Z.to_nat j)%nat
       then data n !! ((k - 1)%nat) else data n !! k) /\
    (forall k : nat, children n' !! k =
       if decide (Z.to_nat pos + 1 < k <= Z.to_nat j + 1)%nat
       then children n !! ((k - 1)%nat) else children n !! k).
Proof.
  revert j n. induction fuel as [|fuel IH]; intros j n Hpos Hf Hd Hc.
  - assert (j = pos) by lia. subst j. exists n. simpl.
    repeat split; auto; intros k; case_decide; auto; lia.
  - simpl. assert ((pos <? j) = true) as -> by lia.
    set (n1 := set_data n j (get_data n (j - 1))).
    set (n2 := set_child n1 (j + 1) (get_child n1 j)).
    destruct (IH (j - 1) n2) as (n' & E & Hp & Hcnt & Hr & Hld & Hlc & HD & HC).
    { lia. } { lia. }
    { subst n2 n1. simpl. rewrite length_insert. lia. }
    { subst n2 n1. simpl. rewrite length_insert. lia. }
    exists n'. rewrite E. split; [done|].
    split; [by rewrite Hp|]. split; [by rewrite Hcnt|]. split; [by rewrite Hr|].
    split. { rewrite Hld. subst n2 n1; simpl. by rewrite length_insert. }
    split. { rewrite Hlc. subst n2 n1; simpl. by rewrite length_insert. }
    split.
    + intros k. rewrite HD. subst n2 n1. simpl.
      rewrite !list_lookup_insert. unfold get_data.
      repeat case_decide; try lia; auto.
      * destruct_and!. subst k. rewrite nth_lookup.
        replace (Z.to_nat (j - 1)) with (Z.to_nat j - 1)%nat by lia.
        destruct (data n !! (Z.to_nat j - 1)%nat) eqn:E1; [done|].
        apply lookup_ge_None_1 in E1. lia.
    + intros k. rewrite HC. subst n2 n1. simpl.
      rewrite !list_lookup_insert. unfold get_child. simpl.
      repeat case_decide; try lia; auto.
      * destruct_and!. subst k. rewrite nth_lookup.
        replace (Z.to_nat (j + 1) - 1)%nat with (Z.to_nat j) by lia.
        destruct (children n !! (Z.to_nat j)) eqn:E1; [done|].
        apply lookup_ge_None_1 in E1. lia.
Qed.


Lemma lookup_app_dec {A} (l1 l2 : list A) (i : nat) :
  (l1 ++ l2) !! i =
    if decide (i < length l1)%nat then l1 !! i else l2 !! (i - length l1)%nat.
Proof.
  case_decide; [by apply lookup_app_l | apply lookup_app_r; lia].
Qed.

Lemma lookup_cons_dec {A} (x : A) (l : list A) (i : nat) :
  (x :: l) !! i = if decide (i = 0)%nat then Some x else l !! (i - 1)%nat.
Proof.
  case_decide; subst; [done|]. destruct i; [lia|]. simpl. f_equal; lia.
Qed.

Ltac lk_norm :=
  repeat (rewrite ?lookup_take, ?lookup_drop, ?lookup_app_dec,
      ?lookup_cons_dec, ?length_take, ?length_drop, ?length_app,
      ?length_insert, ?list_lookup_insert, ?length_replicate; simpl length).
Ltac lk := lk_norm; repeat case_decide; try lia; try done;
  try (f_equal; lia).

Definition ins_at {A} (p : nat) (x : A) (l : list A) : list A :=
  take p l ++ x :: drop p l.

Lemma insert_in_node_spec pos v n :
  0 <= pos <= count n ->
  (Z.to_nat (count n) < length (data n))%nat ->
  (Z.to_nat (count n) + 1 < length (children n))%nat ->
  let n' := insert_in_node pos v n in
  page_id n' = page_id n /\ count n' = count n + 1 /\ right n' = right n /\
  length (data n') = length (data n) /\
  length (children n') = length (children n) /\
  take (Z.to_nat (count n) + 1) (data n') =
    ins_at (Z.to_nat pos) v (take (Z.to_nat (count n)) (data n)) /\
  take (Z.to_nat (count n) + 2) (children n') =
    take (Z.to_nat pos + 1) (children n) ++
    drop (Z.to_nat pos) (take (Z.to_nat (count n) + 1) (children n)) /\
  (forall m, children n = replicate m 0 -> children n' = replicate m 0).
Proof.
  intros Hpos Hd Hc n'. subst n'. unfold insert_in_node.
  destruct (insert_in_node_loop_spec (Z.to_nat (count n - pos)) pos (count n) n)
    as (n1 & E & Hp & Hcnt & Hr & Hld & Hlc & HD & HC); auto.
  rewrite E. simpl.
  rewrite Hp, Hcnt, Hr, !length_insert, Hld, Hlc.
  repeat split; auto.
  - apply list_eq. intros k. unfold ins_at. lk_norm. rewrite !HD.
    repeat case_decide; try lia; try done; try (f_equal; lia).
  - apply list_eq. intros k. lk_norm. rewrite !HC.
    unfold get_child; simpl. rewrite nth_lookup, HC.
    repeat case_decide; try lia; try done; try (f_equal; lia).
    destruct_and!.
    destruct (children n !! Z.to_nat pos) eqn:E1.
    + simpl. rewrite <- E1. f_equal. lia.
    + apply lookup_ge_None_1 in E1. lia.
  - intros m Hm. apply list_eq. intros k. lk_norm. rewrite !HC.
    unfold get_child; simpl. rewrite nth_lookup, HC.
    assert (Hlen : length (children n) = m) by (rewrite Hm; apply length_replicate).
    rewrite Hm. 
    repeat case_decide; try lia; try done;
      rewrite ?lookup_replicate_2 by lia; try done.
    all: destruct (decide (k < m)%nat);
      [rewrite ?lookup_replicate_2 by lia; done|].
    all: rewrite ?(proj1 (lookup_replicate_None _ _ _)) by lia; try done.
Qed.


Lemma set_child_same n i : set_child n i (get_child n i) = n.
Proof.
  destruct n as [p c r d ch]. unfold set_child, get_child. simpl. f_equal.
  apply list_insert_id'. intros Hlt.
  destruct (nth_lookup_or_length ch (Z.to_nat i) 0); [done|lia].
Qed.

Lemma set_data_same n i : set_data n i (get_data n i) = n.
Proof.
  destruct n as [p c r d ch]. unfold set_data, get_data. simpl. f_equal.
  apply list_insert_id'. intros Hlt.
  destruct (nth_lookup_or_length d (Z.to_nat i) key_default); [done|lia].
Qed.

Lemma reset_children_self_loop_spec (fuel : nat) bound n i :
  i <= bound -> fuel = Z.to_nat (bound - i) ->
  reset_children_self_loop fuel bound n i i =
    (set_count n (count n + (bound - i)), bound, bound).
Proof.
  revert n i. induction fuel as [|fuel IH]; intros n i Hi Hf.
  - assert (i = bound) by lia. subst. simpl.
    destruct n; unfold set_count; simpl.
    replace (count0 + (bound - bound)) with count0 by lia. done.
  - simpl. assert ((i <? bound) = true) as -> by lia.
    rewrite set_child_same, set_data_same.
    rewrite IH by lia.
    destruct n; unfold set_count; simpl.
    replace (count0 + 1 + (bound - (i + 1))) with (count0 + (bound - i)) by lia.
    done.
Qed.

Lemma reset_children_self_spec n (p : InNode) :
  0 <= reset_bound ORDER p ->
  reset_children_self ORDER n p 0 =
    (set_count n (count n + reset_bound ORDER p), reset_bound ORDER p).
Proof.
  intros Hb. unfold reset_children_self.
  rewrite reset_children_self_loop_spec by lia.
  rewrite set_child_same. by rewrite Z.sub_0_r.
Qed.

Lemma reset_children_loop_spec (fuel : nat) bound parent child i iter :
  0 <= i -> 0 <= iter <= bound -> fuel = Z.to_nat (bound - iter) ->
  (Z.to_nat bound <= length (data parent))%nat ->
  (Z.to_nat bound <= length (children parent))%nat ->
  (Z.to_nat (i + (bound - iter)) <= length (data child))%nat ->
  (Z.to_nat (i + (bound - iter)) <= length (children child))%nat ->
  exists c, reset_children_loop fuel bound parent child i iter
              = (c, i + (bound - iter), bound) /\
    page_id c = page_id child /\ right c = right child /\
    count c = count child + (bound - iter) /\
    length (data c) = length (data child) /\
    length (children c) = length (children child) /\
    (forall k : nat, data c !! k =
       if decide (Z.to_nat i <= k < Z.to_nat (i + (bound - iter)))%nat
       then data parent !! (k - Z.to_nat i + Z.to_nat iter)%nat
       else data child !! k) /\
    (forall k : nat, children c !! k =
       if decide (Z.to_nat i <= k < Z.to_nat (i + (bound - iter)))%nat
       then children parent !! (k - Z.to_nat i + Z.to_nat iter)%nat
       else children child !! k).
Proof.
  revert child i iter.
  induction fuel as [|fuel IH]; intros child i iter Hi Hit Hf Hpd Hpc Hcd Hcc.
  - assert (iter = bound) by lia. subst iter. simpl. exists child.
    replace (i + (bound - bound)) with i by lia.
    split; [done|]. repeat split; auto; try lia;
      intros k; case_decide; auto; lia.
  - cbn [reset_children_loop].
    assert ((iter <? bound) = true) as -> by lia. cbv zeta.
    set (c1 := set_child child i (get_child parent iter)).
    set (c2 := set_data c1 i (get_data parent iter)).
    set (c3 := set_count c2 (count c2 + 1)).
    destruct (IH c3 (i + 1) (iter + 1))
      as (c & E & Hp & Hr & Hcnt & Hld & Hlc & HD & HC); try lia.
    { subst c3 c2 c1; simpl; rewrite length_insert; lia. }
    { subst c3 c2 c1; simpl; rewrite length_insert; lia. }
    exists c. rewrite E.
    replace (i + 1 + (bound - (iter + 1))) with (i + (bound - iter)) in * by lia.
    split; [done|].
    split; [by rewrite Hp|]. split; [by rewrite Hr|].
    split. { rewrite Hcnt. subst c3 c2 c1; simpl. lia. }
    split. { rewrite Hld. subst c3 c2 c1; simpl. by rewrite length_insert. }
    split. { rewrite Hlc. subst c3 c2 c1; simpl. by rewrite length_insert. }
    split.
    + intros k. rewrite HD. subst c3 c2 c1. simpl.
      rewrite list_lookup_insert. unfold get_data.
      repeat case_decide; try lia; auto; try (f_equal; lia).
      destruct_and!. subst k. rewrite nth_lookup.
      replace (Z.to_nat i - Z.to_nat i + Z.to_nat iter)%nat
        with (Z.to_nat iter) by lia.
      destruct (data parent !! Z.to_nat iter) eqn:E1; [done|].
      apply lookup_ge_None_1 in E1. lia.
    + intros k. rewrite HC. subst c3 c2 c1. simpl.
      rewrite list_lookup_insert. unfold get_child.
      repeat case_decide; try lia; auto; try (f_equal; lia).
      destruct_and!. subst k. rewrite nth_lookup.
      replace (Z.to_nat i - Z.to_nat i + Z.to_nat iter)%nat
        with (Z.to_nat iter) by lia.
      destruct (children parent !! Z.to_nat iter) eqn:E1; [done|].
      apply lookup_ge_None_1 in E1. lia.
Qed.

(** reset_children into a node that holds nothing yet. *)
Lemma reset_children_spec parent child (p : InNode) iter :
  0 <= iter <= reset_bound ORDER p ->
  (Z.to_nat (reset_bound ORDER p) <= length (data parent))%nat ->
  (Z.to_nat (reset_bound ORDER p) < length (children parent))%nat ->
  (Z.to_nat (reset_bound ORDER p - iter) <= length (data child))%nat ->
  (Z.to_nat (reset_bound ORDER p - iter) < length (children child))%nat ->
  exists c, reset_children ORDER parent child p iter = (c, reset_bound ORDER p) /\
    page_id c = page_id child /\ right c = right child /\
    count c = count child + (reset_bound ORDER p - iter) /\
    length (data c) = length (data child) /\
    length (children c) = length (children child) /\
    take (Z.to_nat (reset_bound ORDER p - iter)) (data c) =
      take (Z.to_nat (reset_bound ORDER p - iter)) (drop (Z.to_nat iter) (data parent)) /\
    take (Z.to_nat (reset_bound ORDER p - iter) + 1) (children c) =
      take (Z.to_nat (reset_bound ORDER p - iter) + 1)
           (drop (Z.to_nat iter) (children parent)) /\
    (forall m m', children parent = replicate m 0 ->
                  children child = replicate m' 0 ->
                  children c = replicate m' 0).
Proof.
  set (bound := reset_bound ORDER p).
  intros Hit Hpd Hpc Hcd Hcc. unfold reset_children. fold bound.
  destruct (reset_children_loop_spec (Z.to_nat (bound - iter)) bound
              parent child 0 iter)
    as (c & E & Hp & Hr & Hcnt & Hld & Hlc & HD & HC); try lia.
  rewrite E. eexists. split; [reflexivity|]. simpl.
  rewrite length_insert.
  repeat split; auto.
  - apply list_eq. intros k. lk_norm. rewrite !HD.
    repeat case_decide; try lia; try done; try (f_equal; lia).
  - apply list_eq. intros k. lk_norm. rewrite !HC.
    unfold get_child. rewrite nth_lookup.
    repeat case_decide; try lia; try done; try (f_equal; lia).
    destruct_and!.
    destruct (children parent !! Z.to_nat bound) eqn:E1.
    + simpl. rewrite <- E1. f_equal. lia.
    + apply lookup_ge_None_1 in E1. lia.
  - intros m m' Hm Hm'. apply list_eq. intros k. lk_norm. rewrite !HC.
    unfold get_child. rewrite nth_lookup.
    assert (length (children parent) = m) by (rewrite Hm; apply length_replicate).
    assert (length (children child) = m') by (rewrite Hm'; apply length_replicate).
    rewrite Hm, Hm'.
    destruct (decide (k < m')%nat).
    2:{ rewrite (proj1 (lookup_replicate_None m' 0 k)) by lia.
        repeat case_decide; try lia; try done. }
    rewrite (lookup_replicate_2 m') by lia.
    repeat case_decide; try lia; try done;
      rewrite ?lookup_replicate_2 by lia; done.
Qed.

(** The scans. *)
Fixpoint lbound (cond : T -> bool) (l : list T) : nat :=
  match l with
  | [] => O
  | x :: r => if cond x then S (lbound cond r) else O
  end.

Lemma scan_spec cond (fuel : nat) pos n :
  0 <= pos <= count n -> fuel = Z.to_nat (count n - pos) ->
  (Z.to_nat (count n) <= length (data n))%nat ->
  scan cond fuel pos n =
    pos + Z.of_nat (lbound cond (drop (Z.to_nat pos)
                                      (take (Z.to_nat (count n)) (data n)))).
Proof.
  revert pos. induction fuel as [|fuel IH]; intros pos Hpos Hf Hd.
  - assert (pos = count n) by lia. subst pos. simpl.
    rewrite drop_ge by (rewrite length_take; lia). simpl. lia.
  - simpl. assert ((pos <? count n) = true) as -> by lia. simpl.
    assert (Hl : take (Z.to_nat (count n)) (data n) !! Z.to_nat pos
                 = Some (get_data n pos)).
    { rewrite lookup_take_lt by lia. unfold get_data.
      destruct (nth_lookup_or_length (data n) (Z.to_nat pos) key_default);
        [done|lia]. }
    rewrite (drop_S _ _ _ Hl). simpl.
    destruct (cond (get_data n pos)); [|lia].
    rewrite IH by lia.
    replace (Z.to_nat (pos + 1)) with (S (Z.to_nat pos)) by lia. lia.
Qed.


(** ** The tree a pager holds *)

Inductive tree := Tr (pid : Z) (keys : list T) (kids : list tree).

Definition tpid (t : tree) : Z := match t with Tr p _ _ => p end.
Definition tkeys (t : tree) : list T := match t with Tr _ k _ => k end.
Definition tkids (t : tree) : list tree := match t with Tr _ _ k => k end.

Fixpoint height (t : tree) : nat :=
  match t with Tr _ _ kids => S (list_max (map height kids)) end.

Fixpoint pids (t : tree) : list Z :=
  match t with Tr p _ kids => p :: concat (map pids kids) end.

Fixpoint flat (t : tree) : list T :=
  match t with
  | Tr _ keys [] => keys
  | Tr _ _ kids => concat (map flat kids)
  end.

Fixpoint first_leaf (t : tree) : Z :=
  match t with
  | Tr p _ [] => p
  | Tr _ _ (k :: _) => first_leaf k
  end.

Fixpoint Every {A} (P : A -> Prop) (l : list A) : Prop :=
  match l with
  | [] => True
  | x :: r => P x /\ Every P r
  end.

Lemma Every_Forall {A} (P : A -> Prop) l : Every P l <-> Forall P l.
Proof.
  induction l; simpl; [split; auto|].
  rewrite Forall_cons. tauto.
Qed.

Lemma tree_ind' (P : tree -> Prop) :
  (forall p keys kids, Forall P kids -> P (Tr p keys kids)) ->
  forall t, P t.
Proof.
  intros H. fix IH 1. intros [p keys kids]. apply H.
  induction kids as [|k kids IHk]; constructor; [apply IH | apply IHk].
Qed.

Definition half : nat := Z.to_nat ((ORDER + 1) / 2).
Definition ord : nat := Z.to_nat ORDER.

(** Key counts: between [lo] and [hi] at the root, between [half] and
    [ORDER] below it; an inner node has one child more than keys. *)
Fixpoint sized (lo hi : nat) (t : tree) : Prop :=
  match t with
  | Tr _ keys kids =>
      (lo <= length keys <= hi)%nat /\
      (kids = [] \/ length kids = S (length keys)) /\
      Every (sized half ord) kids
  end.

(** Splitting an overflowed node [c] into the pages [lp] and [rp]. *)
Definition tsplit (lp rp : Z) (c : tree) : tree * T * tree :=
  let ks := tkeys c in
  let sep := nth half ks key_default in
  match tkids c with
  | [] => (Tr lp (take half ks) [], sep, Tr rp (drop half ks) [])
  | kids =>
      (Tr lp (take half ks) (take (S half) kids), sep,
       Tr rp (drop (S half) ks) (drop (S half) kids))
  end.

Definition lb_lt (v : T) (l : list T) : nat :=
  lbound (fun d => key_lt d v) l.
Definition lb_le (v : T) (l : list T) : nat :=
  lbound (fun d => key_le d v) l.

Definition overflowed (t : tree) : bool :=
  ORDER <? Z.of_nat (length (tkeys t)).

(** What [insert_helper] does to the tree; [hc] is [header.count]. *)
Fixpoint tinsert (fuel : nat) (hc : Z) (v : T) (t : tree) : tree * Z :=
  match fuel with
  | O => (t, hc)
  | S fuel' =>
      let p := lb_lt v (tkeys t) in
      match tkids t !! p with
      | None => (Tr (tpid t) (ins_at p v (tkeys t)) (tkids t), hc)
      | Some c =>
          let '(c', hc1) := tinsert fuel' hc v c in
          if overflowed c' then
            let '(l, sep, r) := tsplit (tpid c') (hc1 + 1) c' in
            (Tr (tpid t) (ins_at p sep (tkeys t))
                (take p (tkids t) ++ l :: r :: drop (S p) (tkids t)),
             hc1 + 1)
          else (Tr (tpid t) (tkeys t)
                   (take p (tkids t) ++ c' :: drop (S p) (tkids t)), hc1)
      end
  end.

(** What [insert] does. *)
Definition tinsert_root (fuel : nat) (hc : Z) (v : T) (t : tree) : tree * Z :=
  let '(t', hc1) := tinsert fuel hc v t in
  if overflowed t' then
    let '(l, sep, r) := tsplit (hc1 + 1) (hc1 + 2) t' in
    (Tr (tpid t') [sep] [l; r], hc1 + 2)
  else (t', hc1).


Hypothesis ORDER_ge : 2 <= ORDER.
Hypothesis ORDER_even : ORDER mod 2 = 0.

Lemma half_ord : (2 * half = ord)%nat /\ (1 <= half)%nat /\
  Z.of_nat ord = ORDER /\ Z.of_nat half = (ORDER + 1) / 2.
Proof.
  pose proof (Z.div_mod ORDER 2 ltac:(lia)) as Hdm.
  rewrite ORDER_even in Hdm.
  assert (Hq : (ORDER + 1) / 2 = ORDER / 2).
  { symmetry. apply (Z.div_unique _ _ _ 1); lia. }
  unfold half, ord. rewrite Hq. lia.
Qed.

Lemma sized_unfold lo hi t :
  sized lo hi t <->
  (lo <= length (tkeys t) <= hi)%nat /\
  (tkids t = [] \/ length (tkids t) = S (length (tkeys t))) /\
  Forall (sized half ord) (tkids t).
Proof. destruct t; simpl. by rewrite Every_Forall. Qed.

Lemma sized_weaken lo hi lo' hi' t :
  sized lo hi t -> (lo' <= lo)%nat -> (hi <= hi')%nat -> sized lo' hi' t.
Proof. rewrite !sized_unfold. intuition lia. Qed.

Lemma pids_unfold t : pids t = tpid t :: concat (map pids (tkids t)).
Proof. by destruct t. Qed.

Lemma height_unfold t : height t = S (list_max (map height (tkids t))).
Proof. by destruct t. Qed.

Lemma height_kid t k : k ∈ tkids t -> (height k < height t)%nat.
Proof.
  intros Hk. rewrite (height_unfold t).
  assert (H : Forall (fun x => (x <= list_max (map height (tkids t)))%nat)
                (map height (tkids t))).
  { apply list_max_le. lia. }
  rewrite Forall_forall in H.
  specialize (H (height k)). 
  assert (height k ∈ map height (tkids t)).
  { apply list_elem_of_fmap. eauto. }
  specialize (H H0). lia.
Qed.

Lemma height_le_kids p keys kids (m : nat) :
  Forall (fun k => (height k <= m)%nat) kids ->
  (height (Tr p keys kids) <= S m)%nat.
Proof.
  intros H. simpl. apply le_n_S. apply list_max_le.
  by apply Forall_fmap.
Qed.

Lemma height_sub p keys kids t :
  (forall k, k ∈ kids -> k ∈ tkids t) ->
  (height (Tr p keys kids) <= height t)%nat.
Proof.
  intros H. rewrite (height_unfold t), (height_unfold (Tr _ _ _)).
  cbn [tkids]. apply le_n_S, list_max_le, Forall_fmap, Forall_forall.
  intros k Hk. apply H, height_kid in Hk.
  rewrite (height_unfold t) in Hk. simpl. lia.
Qed.

Lemma height_kids_bound t :
  Forall (fun k => (S (height k) <= height t)%nat) (tkids t).
Proof.
  apply Forall_forall. intros k Hk. apply height_kid in Hk. lia.
Qed.

Lemma first_leaf_unfold t :
  first_leaf t = match tkids t with [] => tpid t | k :: _ => first_leaf k end.
Proof. by destruct t as [? ? []]. Qed.

Lemma flat_unfold t :
  flat t = match tkids t with [] => tkeys t | _ => concat (map flat (tkids t)) end.
Proof. by destruct t as [? ? []]. Qed.

Lemma tsplit_basic lp rp c lo :
  sized lo (S ord) c -> length (tkeys c) = S ord ->
  forall l sep r, tsplit lp rp c = (l, sep, r) ->
  tpid l = lp /\ tpid r = rp /\
  sized half ord l /\ sized half ord r /\
  pids l ++ pids r ≡ₚ lp :: rp :: concat (map pids (tkids c)) /\
  (tkids l = [] <-> tkids c = []) /\ (tkids r = [] <-> tkids c = []) /\
  first_leaf l = match tkids c with [] => lp | k :: _ => first_leaf k end /\
  (height l <= height c)%nat /\ (height r <= height c)%nat /\
  flat l ++ flat r = flat c.
Proof.
  intros Hs Hlen l sep r E.
  destruct half_ord as (H2 & H1 & _).
  apply sized_unfold in Hs. destruct Hs as (_ & Har & Hk).
  destruct c as [cp ks kids]. cbn [tkids tkeys tpid] in *.
  unfold tsplit in E. cbn [tkids tkeys tpid] in E.
  destruct kids as [|k0 kids0].
  - inversion E; subst; clear E.
    split_and!; try done; try (simpl; lia).
    + apply sized_unfold; simpl. rewrite length_take. split_and!; auto; lia.
    + apply sized_unfold; simpl. rewrite length_drop. split_and!; auto; lia.
    + simpl. by rewrite take_drop.
  - destruct Har as [Har|Har]; [done|].
    remember (k0 :: kids0) as kids eqn:Ekids.
    injection E as <- <- <-.
    assert (Hkl : length kids = S (S ord)) by lia.
    assert (Hsplit : kids = take (S half) kids ++ drop (S half) kids)
      by (by rewrite take_drop).
    split_and!.
    + done.
    + done.
    + apply sized_unfold. cbn [tkeys tkids]. rewrite !length_take.
      split; [lia|]. split; [right; lia|]. by apply Forall_take.
    + apply sized_unfold. cbn [tkeys tkids]. rewrite !length_drop.
      split; [lia|]. split; [right; lia|]. by apply Forall_drop.
    + rewrite !pids_unfold. cbn [tpid tkids].
      rewrite Hsplit at 3. rewrite map_app, concat_app.
      simpl. apply perm_skip. symmetry. apply Permutation_middle.
    + cbn [tkids]. split; [|by intros ->].
      intros H. assert (H0 : length (take (S half) kids) = 0%nat) by (by rewrite H).
      rewrite length_take in H0. lia.
    + cbn [tkids]. split; [|by intros ->].
      intros H. assert (H0 : length (drop (S half) kids) = 0%nat) by (by rewrite H).
      rewrite length_drop in H0. lia.
    + rewrite first_leaf_unfold. cbn [tkids]. rewrite Ekids. done.
    + apply height_sub. cbn [tkids]. intros k Hin.
      eapply subseteq_take, Hin.
    + apply height_sub. cbn [tkids]. intros k Hin.
      eapply subseteq_drop, Hin.
    + rewrite (flat_unfold (Tr lp _ _)), (flat_unfold (Tr rp _ _)),
        (flat_unfold (Tr cp _ _)).
      cbn [tkids tkeys].
      assert (Hc : match kids with [] => ks | _ :: _ => concat (map flat kids) end
                   = concat (map flat (take (S half) kids ++ drop (S half) kids))).
      { rewrite take_drop. by rewrite Ekids. }
      rewrite Hc. clear Hc Hsplit.
      destruct (take (S half) kids) eqn:Et.
      { assert (H0 : length (take (S half) kids) = 0%nat) by (by rewrite Et).
        rewrite length_take in H0. lia. }
      destruct (drop (S half) kids) eqn:Ed.
      { assert (H0 : length (drop (S half) kids) = 0%nat) by (by rewrite Ed).
        rewrite length_drop in H0. lia. }
      by rewrite map_app, concat_app.
Qed.


Lemma lbound_le cond (l : list T) : (lbound cond l <= length l)%nat.
Proof. induction l; simpl; [lia|]. destruct (cond a); simpl; lia. Qed.

Lemma length_ins_at {A} (p : nat) (x : A) l :
  length (ins_at p x l) = S (length l).
Proof.
  unfold ins_at. rewrite length_app. simpl.
  rewrite length_take, length_drop. lia.
Qed.

Lemma seqZ_snoc (m n : Z) : 0 <= n -> seqZ m (n + 1) = seqZ m n ++ [m + n].
Proof.
  intros Hn. rewrite seqZ_app by lia. reflexivity.
Qed.

Lemma pids_kids_middle (A : list tree) X B :
  concat (map pids (A ++ X ++ B)) =
  concat (map pids A) ++ concat (map pids X) ++ concat (map pids B).
Proof. by rewrite !map_app, !concat_app. Qed.

Lemma first_leaf_kids_take p keys (kids X : list tree) (pos : nat) c B x :
  kids !! pos = Some c ->
  hd_error X = Some x -> first_leaf x = first_leaf c ->
  first_leaf (Tr p keys (take pos kids ++ X ++ B)) =
  first_leaf (Tr p keys kids).
Proof.
  intros Hc Hx Hfl. destruct X as [|x' X]; [done|]. simpl in Hx.
  injection Hx as ->.
  destruct pos as [|pos].
  - destruct kids as [|k kids]; [done|]. simpl in Hc. injection Hc as ->.
    simpl. done.
  - destruct kids as [|k kids]; [done|]. simpl. done.
Qed.

Lemma perm_replace (tp : Z) (A B C C' N : list Z) :
  C' ≡ₚ C ++ N -> tp :: A ++ C' ++ B ≡ₚ (tp :: A ++ C ++ B) ++ N.
Proof.
  intros ->. rewrite <- app_comm_cons. apply perm_skip.
  rewrite <- !(assoc (++)). do 2 apply Permutation_app_head.
  apply (comm (++)).
Qed.

Lemma tinsert_basic (fuel : nat) : forall hc v t lo hi t' hc',
  tinsert fuel hc v t = (t', hc') -> sized lo hi t -> (hi <= ord)%nat ->
  tpid t' = tpid t /\ first_leaf t' = first_leaf t /\
  (tkids t' = [] <-> tkids t = []) /\ hc <= hc' /\
  sized lo (S hi) t' /\
  pids t' ≡ₚ pids t ++ seqZ (hc + 1) (hc' - hc) /\
  (height t' <= height t)%nat.
Proof.
  induction fuel as [|fuel IH]; intros hc v t lo hi t' hc' E Hs Hhi.
  { simpl in E. injection E as <- <-. split_and!; try done; try lia.
    - eapply sized_weaken; eauto.
    - rewrite Z.sub_diag. rewrite seqZ_nil by lia. by rewrite app_nil_r. }
  simpl in E.
  pose proof (lbound_le (fun d => key_lt d v) (tkeys t)) as Hlb.
  fold (lb_lt v (tkeys t)) in Hlb.
  set (p := lb_lt v (tkeys t)) in *.
  pose proof Hs as Hs'. apply sized_unfold in Hs'.
  destruct Hs' as (Hlen & Har & Hkids).
  destruct (tkids t !! p) as [c|] eqn:Ec.
  2:{ (* a leaf *)
    injection E as <- <-.
    assert (Hleaf : tkids t = []).
    { destruct Har as [?|Har]; [done|].
      apply lookup_ge_None_1 in Ec. lia. }
    split_and!; try done; try lia.
    - rewrite !first_leaf_unfold. cbn [tkids tpid]. by rewrite Hleaf.
    - apply sized_unfold. cbn [tkeys tkids]. rewrite length_ins_at.
      split_and!; [lia|lia|by left|done].
    - rewrite Z.sub_diag, seqZ_nil by lia. rewrite app_nil_r.
      by rewrite !pids_unfold.
    - rewrite !height_unfold. cbn [tkids]. lia. }
  (* an inner node *)
  assert (Hin : c ∈ tkids t) by (eapply list_elem_of_lookup_2; eauto).
  assert (Hsc : sized half ord c).
  { rewrite Forall_forall in Hkids. by apply Hkids. }
  assert (Hne : tkids t <> []) by (intros H0; rewrite H0 in Ec; done).
  destruct Har as [?|Har]; [done|].
  pose proof (take_drop_middle _ _ _ Ec) as Hmid.
  assert (HpT : pids t = tpid t :: concat (map pids (take p (tkids t))) ++
                  pids c ++ concat (map pids (drop (S p) (tkids t)))).
  { rewrite (pids_unfold t). f_equal. rewrite <- Hmid at 1.
    change (c :: drop (S p) (tkids t)) with ([c] ++ drop (S p) (tkids t)).
    rewrite pids_kids_middle. simpl. by rewrite app_nil_r. }
  destruct (tinsert fuel hc v c) as [c' hc1] eqn:Ei.
  destruct (IH _ _ _ _ _ _ _ Ei Hsc (le_n _))
    as (Hp & Hfl & Hlf & Hhc & Hsc' & Hperm & Hh).
  assert (Hhk : Forall (fun k => (height k < height t)%nat) (tkids t)).
  { apply Forall_forall. intros k. apply height_kid. }
  assert (HhA : Forall (fun k => (height k < height t)%nat) (take p (tkids t)))
    by (by apply Forall_take).
  assert (HhB : Forall (fun k => (height k < height t)%nat)
                  (drop (S p) (tkids t))) by (by apply Forall_drop).
  assert (Hhc' : (height c' < height t)%nat).
  { apply height_kid in Hin. lia. }
  destruct (overflowed c') eqn:Eo.
  - (* the child is split *)
    unfold overflowed in Eo.
    apply sized_unfold in Hsc' as Hsc''. destruct Hsc'' as (Hlc' & _ & _).
    destruct half_ord as (H2 & H1 & Hord & _).
    assert (Hlen' : length (tkeys c') = S ord) by lia.
    destruct (tsplit (tpid c') (hc1 + 1) c') as [[l sep] r] eqn:Et.
    destruct (tsplit_basic _ _ _ _ Hsc' Hlen' _ _ _ Et)
      as (Hlp & Hrp & Hsl & Hsr & Hpp & Hll & Hlr & Hfll & Hhl & Hhr & _).
    injection E as <- <-.
    split_and!.
    + done.
    + change (l :: r :: drop (S p) (tkids t))
        with ([l; r] ++ drop (S p) (tkids t)).
      rewrite (first_leaf_kids_take _ _ _ [l; r] _ c _ l Ec eq_refl).
      * by rewrite !first_leaf_unfold.
      * rewrite Hfll, <- Hfl. rewrite (first_leaf_unfold c'). by rewrite Hp.
    + cbn [tkids]. split; [|done]. intros H0.
      apply (f_equal length) in H0. rewrite length_app in H0. simpl in H0. lia.
    + lia.
    + apply sized_unfold. cbn [tkeys tkids]. rewrite length_ins_at.
      split; [lia|]. split.
      * right. rewrite length_app, length_take. simpl.
        rewrite length_drop. apply lookup_lt_Some in Ec. lia.
      * apply Forall_app. split; [by apply Forall_take|].
        repeat constructor; auto. by apply Forall_drop.
    + rewrite HpT.
      rewrite (pids_unfold (Tr _ _ _)). cbn [tpid tkids].
      change (l :: r :: drop (S p) (tkids t))
        with ([l; r] ++ drop (S p) (tkids t)).
      rewrite !pids_kids_middle. simpl concat. rewrite !app_nil_r.
      apply perm_replace.
      rewrite Hpp. rewrite (pids_unfold c') in Hperm.
      rewrite (Permutation_swap (hc1 + 1)).
      rewrite Hperm.
      replace (hc1 + 1 - hc) with ((hc1 - hc) + 1) by lia.
      rewrite seqZ_snoc by lia.
      replace (hc + 1 + (hc1 - hc)) with (hc1 + 1) by lia.
      rewrite (assoc (++)). apply Permutation_cons_append.
    + apply (Nat.le_trans _ (S (height t - 1))); [|lia].
      apply height_le_kids. apply Forall_app. split.
      * eapply Forall_impl; [exact HhA|]. simpl; intros; lia.
      * repeat constructor; try lia.
        eapply Forall_impl; [exact HhB|]. simpl; intros; lia.
  - (* the child has room *)
    unfold overflowed in Eo. injection E as <- <-.
    apply sized_unfold in Hsc' as Hsc''. destruct Hsc'' as (Hlc' & Har' & Hk').
    destruct half_ord as (H2 & H1 & Hord & _).
    assert (Hsc2 : sized half ord c').
    { apply sized_unfold. split_and!; try done; lia. }
    split_and!.
    + done.
    + change (c' :: drop (S p) (tkids t))
        with ([c'] ++ drop (S p) (tkids t)).
      rewrite (first_leaf_kids_take _ _ _ [c'] _ c _ c' Ec eq_refl Hfl).
      by rewrite !first_leaf_unfold.
    + cbn [tkids]. split; [|done]. intros H0.
      apply (f_equal length) in H0. rewrite length_app in H0. simpl in H0. lia.
    + lia.
    + apply sized_unfold. cbn [tkeys tkids].
      split; [lia|]. split.
      * right. rewrite length_app, length_take. simpl.
        rewrite length_drop. apply lookup_lt_Some in Ec. lia.
      * apply Forall_app. split; [by apply Forall_take|].
        repeat constructor; auto. by apply Forall_drop.
    + rewrite HpT.
      rewrite (pids_unfold (Tr _ _ _)). cbn [tpid tkids].
      change (c' :: drop (S p) (tkids t))
        with ([c'] ++ drop (S p) (tkids t)).
      rewrite !pids_kids_middle. simpl concat. rewrite !app_nil_r.
      by apply perm_replace.
    + apply (Nat.le_trans _ (S (height t - 1))); [|lia].
      apply height_le_kids. apply Forall_app. split.
      * eapply Forall_impl; [exact HhA|]. simpl; intros; lia.
      * repeat constructor; try lia.
        eapply Forall_impl; [exact HhB|]. simpl; intros; lia.
Qed.


(** ** Trees stored in a pager *)

Definition node_rep (n : Node) (t : tree) (nxt : Z) : Prop :=
  page_id n = tpid t /\ count n = Z.of_nat (length (tkeys t)) /\
  length (data n) = Z.to_nat (ORDER + 1) /\
  length (children n) = Z.to_nat (ORDER + 2) /\
  take (length (tkeys t)) (data n) = tkeys t /\
  match tkids t with
  | [] => children n = replicate (Z.to_nat (ORDER + 2)) 0 /\ right n = nxt
  | kids => take (length kids) (children n) = map tpid kids
  end.

Definition next_of (l : list tree) (nxt : Z) : Z :=
  match l with [] => nxt | k :: _ => first_leaf k end.

Fixpoint rep_list (P : tree -> Z -> Prop) (l : list tree) (nxt : Z) : Prop :=
  match l with
  | [] => True
  | k :: r => P k (next_of r nxt) /\ rep_list P r nxt
  end.

(** [rep pg t nxt]: the pages of [pg] hold the tree [t], and the leaf
    chain of [t] ends in [nxt]. *)
Fixpoint rep (pg : gmap Z Node) (t : tree) (nxt : Z) {struct t} : Prop :=
  match t with
  | Tr p keys kids =>
      1 <= p /\
      (exists n, pg !! p = Some n /\ node_rep n (Tr p keys kids) nxt) /\
      rep_list (rep pg) kids nxt
  end.

Lemma rep_unfold pg t nxt :
  rep pg t nxt <->
  1 <= tpid t /\ (exists n, pg !! tpid t = Some n /\ node_rep n t nxt) /\
  rep_list (rep pg) (tkids t) nxt.
Proof. by destruct t. Qed.

Lemma rep_list_app P l1 l2 nxt :
  rep_list P (l1 ++ l2) nxt <->
  rep_list P l1 (next_of l2 nxt) /\ rep_list P l2 nxt.
Proof.
  induction l1 as [|k l1 IH]; simpl; [tauto|].
  rewrite IH. destruct l1; simpl; tauto.
Qed.

Lemma rep_list_impl (P Q : tree -> Z -> Prop) l nxt :
  (forall k nx, k ∈ l -> P k nx -> Q k nx) ->
  rep_list P l nxt -> rep_list Q l nxt.
Proof.
  induction l as [|k l IH]; simpl; [done|]. intros H [H1 H2]. split.
  - apply H; [left|done].
  - apply IH; [|done]. intros k' nx Hk'. apply H. by right.
Qed.

Lemma rep_list_lookup P l nxt (i : nat) k :
  rep_list P l nxt -> l !! i = Some k ->
  P k (next_of (drop (S i) l) nxt).
Proof.
  revert i. induction l as [|k0 l IH]; intros i Hr Hi; [done|].
  destruct i as [|i]; simpl in *.
  - injection Hi as ->. rewrite drop_0. tauto.
  - apply IH; tauto.
Qed.

Lemma pids_kid t k p : k ∈ tkids t -> p ∈ pids k -> p ∈ pids t.
Proof.
  intros Hk Hp. rewrite (pids_unfold t). right.
  apply list_elem_of_In, in_concat. exists (pids k). split.
  - apply in_map. by apply list_elem_of_In.
  - by apply list_elem_of_In.
Qed.

Lemma rep_frame pg pg' t : forall nxt,
  rep pg t nxt -> (forall p, p ∈ pids t -> pg' !! p = pg !! p) ->
  rep pg' t nxt.
Proof.
  induction t as [p keys kids IH] using tree_ind'. intros nxt Hr Hf.
  apply rep_unfold in Hr. destruct Hr as (Hp & (n & Hn & Hnr) & Hl).
  apply rep_unfold. cbn [tpid tkids] in *. split; [done|]. split.
  - exists n. split; [|done]. rewrite Hf; [done|]. simpl. left.
  - revert Hl IH Hf. generalize nxt. clear.
    induction kids as [|k kids IHk]; intros nxt Hl IH Hf; [done|].
    simpl in *. apply Forall_cons in IH. destruct IH as [IH1 IH2].
    destruct Hl as [Hl1 Hl2]. split.
    + apply IH1; [done|]. intros q Hq. apply Hf. right.
      apply elem_of_app. by left.
    + apply IHk; auto. intros q Hq. apply Hf.
      apply elem_of_cons in Hq. destruct Hq as [->|Hq]; [left|].
      right. apply elem_of_app. by right.
Qed.

Lemma rep_list_frame pg pg' l nxt :
  rep_list (rep pg) l nxt ->
  (forall k p, k ∈ l -> p ∈ pids k -> pg' !! p = pg !! p) ->
  rep_list (rep pg') l nxt.
Proof.
  intros Hr Hf. eapply rep_list_impl; [|exact Hr].
  intros k nx Hk Hrk. eapply rep_frame; [exact Hrk|].
  intros q Hq. eapply Hf; eauto.
Qed.

Lemma rep_pid_pos pg t nxt : rep pg t nxt -> 1 <= tpid t.
Proof. rewrite rep_unfold. tauto. Qed.


Lemma node_rep_len n t nxt :
  node_rep n t nxt -> (length (tkeys t) <= S ord)%nat.
Proof.
  intros (_ & _ & Hd & _ & Ht & _).
  apply (f_equal length) in Ht. rewrite length_take in Ht.
  unfold ord. lia.
Qed.

Lemma node_rep_scan cond n t nxt :
  node_rep n t nxt ->
  scan cond (Z.to_nat (count n)) 0 n = Z.of_nat (lbound cond (tkeys t)).
Proof.
  intros Hn. pose proof (node_rep_len _ _ _ Hn) as Hlen.
  destruct Hn as (_ & Hc & Hd & _ & Ht & _).
  rewrite scan_spec; try lia.
  - rewrite Hc, Nat2Z.id. simpl. rewrite drop_0, Ht. lia.
  - rewrite Hd, Hc. unfold ord in Hlen. lia.
Qed.

Lemma node_rep_scan_lt v n t nxt :
  node_rep n t nxt -> scan_lt v n = Z.of_nat (lb_lt v (tkeys t)).
Proof. apply node_rep_scan. Qed.

Lemma node_rep_scan_le v n t nxt :
  node_rep n t nxt -> scan_le v n = Z.of_nat (lb_le v (tkeys t)).
Proof. apply node_rep_scan. Qed.

Lemma node_rep_child n t nxt (i : nat) c :
  node_rep n t nxt -> tkids t !! i = Some c ->
  get_child n (Z.of_nat i) = tpid c.
Proof.
  intros (_ & _ & _ & _ & _ & Hk) Hi. unfold get_child.
  rewrite Nat2Z.id. destruct (tkids t) as [|k0 kids] eqn:Ek; [done|].
  rewrite nth_lookup.
  assert (H : take (length (k0 :: kids)) (children n) !! i = Some (tpid c)).
  { rewrite Hk. by rewrite list_lookup_fmap, Hi. }
  apply lookup_lt_Some in Hi.
  rewrite lookup_take_lt in H by done. by rewrite H.
Qed.

Lemma node_rep_leaf_child n t nxt i :
  node_rep n t nxt -> tkids t = [] -> get_child n i = 0.
Proof.
  intros (_ & _ & _ & _ & _ & Hk) Hl. rewrite Hl in Hk.
  destruct Hk as [Hk _]. unfold get_child. rewrite Hk, nth_lookup.
  destruct (replicate _ _ !! _) eqn:E; [|done].
  apply lookup_replicate in E. by destruct E as [-> _].
Qed.

Lemma node_rep_data n t nxt (i : nat) :
  node_rep n t nxt -> (i < length (tkeys t))%nat ->
  get_data n (Z.of_nat i) = nth i (tkeys t) key_default.
Proof.
  intros (_ & _ & _ & _ & Ht & _) Hi. unfold get_data.
  rewrite Nat2Z.id, <- Ht, !nth_lookup, lookup_take_lt by lia. done.
Qed.

Lemma node_rep_leaf_insert v n t nxt :
  node_rep n t nxt -> tkids t = [] -> (length (tkeys t) <= ord)%nat ->
  let p := lb_lt v (tkeys t) in
  node_rep (insert_in_node (Z.of_nat p) v n)
           (Tr (tpid t) (ins_at p v (tkeys t)) []) nxt.
Proof.
  intros Hn Hl Hlen p.
  assert (Hp : (p <= length (tkeys t))%nat) by apply lbound_le.
  destruct Hn as (Hpid & Hc & Hd & Hch & Ht & Hk).
  rewrite Hl in Hk. destruct Hk as [Hk Hr].
  destruct half_ord as (_ & _ & Hord & _).
  destruct (insert_in_node_spec (Z.of_nat p) v n
              ltac:(lia) ltac:(lia) ltac:(lia))
    as (Hp' & Hc' & Hr' & Hd' & Hch' & HD & _ & Hz).
  unfold node_rep. cbn [tpid tkeys tkids].
  rewrite Hp', Hc', Hr', Hd', Hch', length_ins_at.
  split_and!; try done; try lia.
  - rewrite Hc, !Nat2Z.id in HD.
    replace (S (length (tkeys t))) with (length (tkeys t) + 1)%nat by lia.
    by rewrite HD, Ht.
  - by apply Hz.
Qed.


Lemma Node_new_fields p :
  page_id (Node_new ORDER p) = p /\ count (Node_new ORDER p) = 0 /\
  right (Node_new ORDER p) = 0 /\
  length (data (Node_new ORDER p)) = Z.to_nat (ORDER + 1) /\
  length (children (Node_new ORDER p)) = Z.to_nat (ORDER + 2) /\
  children (Node_new ORDER p) = replicate (Z.to_nat (ORDER + 2)) 0.
Proof. unfold Node_new; simpl. rewrite !length_replicate. tauto. Qed.

Lemma take_take_le {A} (l : list A) (a b : nat) :
  (a <= b)%nat -> take a (take b l) = take a l.
Proof. intros. rewrite take_take. f_equal. lia. Qed.

(** The separator and the two halves of an overflowed node. *)
Section Split.

Variables (c : tree) (q : Node (T := T)) (nxt : Z).
Hypothesis Hq : node_rep q c nxt.
Hypothesis Hlen : length (tkeys c) = S ord.
Hypothesis Har : tkids c = [] \/ length (tkids c) = S (length (tkeys c)).

Lemma split_sep : get_data q (Z.of_nat half) = nth half (tkeys c) key_default.
Proof.
  destruct half_ord as (H2 & H1 & _).
  eapply node_rep_data; eauto. lia.
Qed.

Lemma split_is_leaf (q' : Node (T := T)) :
  children q' = children q ->
  (forall k, k ∈ tkids c -> 1 <= tpid k) ->
  is_leaf q' = bool_decide (tkids c = []).
Proof.
  intros Hch Hpos. unfold is_leaf, get_child. rewrite Hch.
  fold (get_child q 0). destruct (tkids c) as [|k0 kids] eqn:Ek.
  - rewrite (node_rep_leaf_child _ _ _ _ Hq Ek). done.
  - assert (H0 : get_child q (Z.of_nat 0) = tpid k0)
      by (apply (node_rep_child q c nxt); [done|by rewrite Ek]).
    change (Z.of_nat 0) with 0 in H0. rewrite H0.
    assert (1 <= tpid k0) by (apply Hpos; left).
    rewrite bool_decide_eq_false_2 by done. lia.
Qed.

(** The left half kept in the page of [c], as [insert_helper] makes
    it. *)
Lemma split_left_self (r' : Z) l sep r rp :
  tsplit (tpid c) rp c = (l, sep, r) ->
  let lc := set_count q (Z.of_nat half) in
  node_rep (if bool_decide (tkids c = []) then set_right lc r' else lc)
           l r'.
Proof.
  intros Et lc. destruct half_ord as (H2 & H1 & Hord & _).
  destruct Hq as (Hpid & Hc & Hd & Hch & Ht & Hk).
  unfold tsplit in Et. destruct (tkids c) as [|k0 kids] eqn:Ek.
  - injection Et as <- <- <-. rewrite bool_decide_eq_true_2 by done.
    subst lc.
    unfold node_rep; cbn [tpid tkeys tkids set_right set_count page_id
      count right data children].
    rewrite length_take.
    replace (Init.Nat.min half (length (tkeys c))) with half by lia.
    split_and!; try done; try lia.
    + rewrite <- (take_take_le (data q) half (length (tkeys c))) by lia.
      by rewrite Ht.
    + tauto.
  - injection Et as <- <- <-. rewrite bool_decide_eq_false_2 by done.
    destruct Har as [?|Har']; [done|]. subst lc.
    unfold node_rep; cbn [tpid tkeys tkids set_right set_count page_id
      count right data children].
    rewrite !length_take.
    replace (Init.Nat.min half (length (tkeys c))) with half by lia.
    assert (Hm : Init.Nat.min (S half) (length (k0 :: kids)) = S half) by lia.
    change (k0 :: take half kids) with (take (S half) (k0 :: kids)).
    rewrite length_take, Hm. cbv zeta in Hk.
    split_and!; try done; try lia.
    + rewrite <- (take_take_le (data q) half (length (tkeys c))) by lia.
      by rewrite Ht.
    + rewrite <- firstn_map, <- Hk.
      rewrite take_take_le by lia. done.
Qed.

(** The right half in a fresh page, read out of a node [q'] that
    agrees with [q] from the separator on. *)
Lemma split_right (q' rc0 : Node (T := T)) lp rp l sep r :
  tsplit lp rp c = (l, sep, r) ->
  length (data q') = length (data q) ->
  drop half (data q') = drop half (data q) ->
  children q' = children q ->
  page_id rc0 = rp -> count rc0 = 0 ->
  length (data rc0) = Z.to_nat (ORDER + 1) ->
  children rc0 = replicate (Z.to_nat (ORDER + 2)) 0 ->
  let iter := if bool_decide (tkids c = [])
              then Z.of_nat half else Z.of_nat half + 1 in
  node_rep (fst (reset_children ORDER q' rc0 RIGHT iter)) r (right rc0).
Proof.
  intros Et Hld Hdd Hcc Hrp Hrc Hrd Hrch iter.
  destruct half_ord as (H2 & H1 & Hord & _).
  destruct Hq as (Hpid & Hc & Hd & Hch & Ht & Hk).
  assert (Hdata : data q = tkeys c).
  { rewrite <- Ht. symmetry. apply take_ge. lia. }
  assert (Hrl : length (children rc0) = Z.to_nat (ORDER + 2))
    by (by rewrite Hrch, length_replicate).
  assert (Hcl : length (children q') = Z.to_nat (ORDER + 2))
    by (by rewrite Hcc).
  unfold tsplit in Et. destruct (tkids c) as [|k0 kids] eqn:Ek.
  - injection Et as <- <- <-. subst iter.
    rewrite bool_decide_eq_true_2 by done.
    destruct (reset_children_spec q' rc0 RIGHT (Z.of_nat half))
      as (rc & E & Hp' & Hr' & Hc' & Hd' & Hch' & HD & HC & Hz);
      cbn [reset_bound]; try lia.
    rewrite E. cbn [fst]. cbn [reset_bound] in *.
    destruct Hk as [Hk _].
    unfold node_rep; cbn [tpid tkeys tkids].
    rewrite length_drop.
    split_and!; try done; try lia.
    + replace (length (tkeys c) - half)%nat
        with (Z.to_nat (ORDER + 1 - Z.of_nat half)) by lia.
      rewrite HD, Nat2Z.id, Hdd, Hdata. apply take_ge.
      rewrite length_drop. lia.
    + eapply Hz; [|exact Hrch]. rewrite Hcc. exact Hk.
  - injection Et as <- <- <-. subst iter.
    rewrite bool_decide_eq_false_2 by done.
    destruct Har as [?|Har']; [done|].
    destruct (reset_children_spec q' rc0 RIGHT (Z.of_nat half + 1))
      as (rc & E & Hp' & Hr' & Hc' & Hd' & Hch' & HD & HC & Hz);
      cbn [reset_bound]; try lia.
    rewrite E. cbn [fst]. cbn [reset_bound] in *.
    unfold node_rep; cbn [tpid tkeys tkids].
    rewrite !length_drop.
    split_and!; try done; try lia.
    + replace (length (tkeys c) - S half)%nat
        with (Z.to_nat (ORDER + 1 - (Z.of_nat half + 1))) by lia.
      rewrite HD.
      replace (Z.to_nat (Z.of_nat half + 1)) with (half + 1)%nat by lia.
      rewrite <- drop_drop, Hdd, drop_drop, Hdata.
      replace (half + 1)%nat with (S half) by lia. apply take_ge.
      rewrite length_drop. lia.
    + assert (Hm : (Z.to_nat (ORDER + 1 - (Z.of_nat half + 1)) + 1 =
                   length (k0 :: kids) - S half)%nat) by lia.
      rewrite Hm in HC.
      change (drop half kids) with (drop (S half) (k0 :: kids)).
      assert (Hdk : drop (S half) (k0 :: kids) <> []).
      { intros H0. apply (f_equal length) in H0.
        rewrite length_drop in H0. simpl in H0. simpl in Har'. lia. }
      destruct (drop (S half) (k0 :: kids)) as [|k1 kids1] eqn:Ed; [done|].
      rewrite <- Ed. rewrite length_drop, HC.
      replace (Z.to_nat (Z.of_nat half + 1)) with (S half) by lia.
      rewrite take_drop_commute.
      replace (S half + (length (k0 :: kids) - S half))%nat
        with (length (k0 :: kids)) by lia.
      rewrite Hcc, Hk. by rewrite skipn_map.
Qed.

End Split.


(** The parent after one of its children was split. *)
Lemma parent_update n t nxt (p : nat) c l r sep (extra : bool) :
  node_rep n t nxt -> tkids t !! p = Some c ->
  (p <= length (tkeys t))%nat -> (length (tkeys t) <= ord)%nat ->
  length (tkids t) = S (length (tkeys t)) ->
  tpid l = tpid c ->
  let n1 := insert_in_node (Z.of_nat p) sep n in
  let n2 := if extra then set_child n1 (Z.of_nat p + 1) (tpid r) else n1 in
  let n3 := set_child (set_child n2 (Z.of_nat p) (tpid l))
                      (Z.of_nat p + 1) (tpid r) in
  node_rep n3 (Tr (tpid t) (ins_at p sep (tkeys t))
                     (take p (tkids t) ++ l :: r :: drop (S p) (tkids t)))
           nxt /\
  count n3 = count n + 1.
Proof.
  intros Hn Hc Hp Hlen Har Hl n1 n2 n3.
  destruct half_ord as (_ & _ & Hord & _).
  pose proof Hn as (Hpid & Hcnt & Hd & Hch & Ht & Hk).
  destruct (insert_in_node_spec (Z.of_nat p) sep n
              ltac:(lia) ltac:(lia) ltac:(lia))
    as (Hp' & Hc' & Hr' & Hd' & Hch' & HD & HC & _).
  fold n1 in Hp', Hc', Hr', Hd', Hch', HD, HC.
  assert (Hne : tkids t <> []) by (intros H0; rewrite H0 in Hc; done).
  destruct (tkids t) as [|k0 kids0] eqn:Ek; [done|].
  rewrite <- Ek in *. cbv zeta in Hk. rewrite Ek in Hk at 1.
  rewrite <- Ek in Hk.
  assert (E2 : page_id n3 = page_id n1 /\ count n3 = count n1 /\
               right n3 = right n1 /\ data n3 = data n1 /\
               children n3 = <[S p := tpid r]> (<[p := tpid l]> (children n1))).
  { subst n3 n2. destruct extra; simpl; rewrite ?Nat2Z.id;
      replace (Z.to_nat (Z.of_nat p + 1)) with (S p) by lia;
      split_and!; try done.
    rewrite (list_insert_insert_ne _ p (S p)) by lia.
    by rewrite list_insert_insert_eq. }
  destruct E2 as (E2p & E2c & E2r & E2d & E2ch).
  split; [|lia].
  unfold node_rep. cbn [tpid tkeys tkids].
  rewrite E2p, E2c, E2d, E2ch, !length_insert, length_ins_at.
  split_and!; try lia.
  - rewrite Hcnt, !Nat2Z.id in HD.
    replace (S (length (tkeys t))) with (length (tkeys t) + 1)%nat by lia.
    by rewrite HD, Ht.
  - assert (Hl3 : length (take p (tkids t) ++ l :: r :: drop (S p) (tkids t))
                  = (length (tkeys t) + 2)%nat).
    { rewrite length_app, length_take. simpl. rewrite length_drop.
      apply lookup_lt_Some in Hc. lia. }
    destruct (take p (tkids t) ++ l :: r :: drop (S p) (tkids t))
      as [|k1 kids1] eqn:E3; [simpl in Hl3; lia|].
    rewrite <- E3 in Hl3 |- *. rewrite Hl3.
    rewrite !take_insert_lt by lia.
    rewrite Hcnt, !Nat2Z.id in HC. rewrite HC.
    rewrite map_app. simpl map. rewrite <- firstn_map, <- skipn_map, <- Hk.
    rewrite Hl.
    assert (Hcp : children n !! p = Some (tpid c)).
    { assert (H0 : take (length (tkids t)) (children n) !! p = Some (tpid c)).
      { rewrite Hk. change (map tpid (tkids t)) with (tpid <$> tkids t).
        by rewrite list_lookup_fmap, Hc. }
      apply lookup_lt_Some in Hc.
      by rewrite lookup_take_lt in H0 by lia. }
    apply lookup_lt_Some in Hc as Hplt.
    apply list_eq. intros k. lk_norm.
    repeat case_decide; try lia; try done; try (f_equal; lia).
    all: destruct_and?; subst; try lia.
Qed.


Lemma node_rep_inner_nxt n t nxt nxt' :
  tkids t <> [] -> node_rep n t nxt -> node_rep n t nxt'.
Proof.
  unfold node_rep. destruct (tkids t); [done|]. tauto.
Qed.

Lemma tsplit_kids lp rp c l sep r :
  tsplit lp rp c = (l, sep, r) ->
  tpid l = lp /\ tpid r = rp /\
  tkids l = take (if tkids c is [] then 0 else S half) (tkids c) /\
  tkids r = drop (if tkids c is [] then 0 else S half) (tkids c) /\
  sep = nth half (tkeys c) key_default.
Proof.
  unfold tsplit. destruct (tkids c) eqn:Ek; intros E;
    injection E as <- <- <-; cbn [tpid tkids]; split_and!; try done.
Qed.

Lemma rep_split pg1 pg3 c nxt lp rp l sep r lc rc lo :
  rep pg1 c nxt -> sized lo (S ord) c -> length (tkeys c) = S ord ->
  tsplit lp rp c = (l, sep, r) -> 1 <= lp -> 1 <= rp ->
  pg3 !! lp = Some lc -> pg3 !! rp = Some rc ->
  node_rep lc l (first_leaf r) -> node_rep rc r nxt ->
  (forall k q, k ∈ tkids c -> q ∈ pids k -> pg3 !! q = pg1 !! q) ->
  rep pg3 l (first_leaf r) /\ rep pg3 r nxt.
Proof.
  intros Hr Hs Hlen Et Hlp Hrp Hl3 Hr3 Hnl Hnr Hf.
  destruct half_ord as (H2 & H1 & _).
  apply sized_unfold in Hs. destruct Hs as (_ & Har & _).
  destruct (tsplit_kids _ _ _ _ _ _ Et) as (Hpl & Hpr & Hkl & Hkr & _).
  apply rep_unfold in Hr. destruct Hr as (_ & _ & Hrl).
  assert (Hrl3 : rep_list (rep pg3) (tkids c) nxt).
  { eapply rep_list_frame; eauto. }
  rewrite <- (take_drop (if tkids c is [] then 0 else S half)%nat (tkids c))
    in Hrl3.
  apply rep_list_app in Hrl3. rewrite <- Hkl, <- Hkr in Hrl3.
  destruct Hrl3 as [HA HB].
  split; apply rep_unfold.
  - rewrite Hpl. split; [done|]. split; [eauto|].
    destruct (tkids c) as [|k0 kids] eqn:Ek.
    + rewrite Hkl. done.
    + destruct Har as [?|Har]; [done|].
      assert (Hne : tkids r <> []).
      { rewrite Hkr. intros H0. apply (f_equal length) in H0.
        rewrite length_drop in H0. simpl in H0, Har. lia. }
      rewrite (first_leaf_unfold r).
      destruct (tkids r) eqn:Ekr; [done|]. exact HA.
  - rewrite Hpr. split; [done|]. split; [eauto|]. exact HB.
Qed.


Lemma save_pos (id : Z) (n : Node (T := T)) pg :
  1 <= id -> save id n pg = <[id := n]> pg.
Proof. intros. unfold save. by assert ((id <? 0) = false) as -> by lia. Qed.

Lemma read_node_lookup pg hdr id (n : Node (T := T)) :
  pg !! id = Some n -> read_node ORDER id (mkTree pg hdr) = n.
Proof. intros H. unfold read_node, recover. simpl. by rewrite H. Qed.

Lemma rep_node pg t nxt :
  rep pg t nxt -> exists n, pg !! tpid t = Some n /\ node_rep n t nxt.
Proof. rewrite rep_unfold. tauto. Qed.

Lemma elem_of_pids_kids (l : list tree) q :
  q ∈ concat (map pids l) <-> exists k, k ∈ l /\ q ∈ pids k.
Proof.
  rewrite list_elem_of_In, in_concat. split.
  - intros (x & Hx & Hq). apply in_map_iff in Hx.
    destruct Hx as (k & <- & Hk). exists k.
    by rewrite !list_elem_of_In.
  - intros (k & Hk & Hq). exists (pids k). split.
    + apply in_map. by apply list_elem_of_In.
    + by apply list_elem_of_In.
Qed.

(** What a step of the descent knows about the child it enters. *)
Lemma descend_facts t (p : nat) c hc :
  tkids t !! p = Some c -> NoDup (pids t) ->
  Forall (fun q => 1 <= q <= hc) (pids t) ->
  NoDup (pids c) /\ Forall (fun q => 1 <= q <= hc) (pids c) /\
  (tpid t ∉ pids c) /\
  (forall k q, k ∈ take p (tkids t) ++ drop (S p) (tkids t) ->
               q ∈ pids k -> (q ∉ pids c) /\ q <> tpid t) /\
  (forall q, q ∈ pids c -> q <> tpid t) /\
  1 <= tpid t <= hc.
Proof.
  intros Hc Hnd Hrg.
  pose proof (take_drop_middle _ _ _ Hc) as Hmid.
  assert (HpT : pids t = tpid t :: concat (map pids (take p (tkids t))) ++
                  pids c ++ concat (map pids (drop (S p) (tkids t)))).
  { rewrite (pids_unfold t). f_equal. rewrite <- Hmid at 1.
    change (c :: drop (S p) (tkids t)) with ([c] ++ drop (S p) (tkids t)).
    rewrite pids_kids_middle. simpl. by rewrite app_nil_r. }
  rewrite HpT in Hnd, Hrg.
  apply NoDup_cons in Hnd. destruct Hnd as [Hn1 Hn2].
  apply NoDup_app in Hn2. destruct Hn2 as (HnA & HAB & Hn3).
  apply NoDup_app in Hn3. destruct Hn3 as (HnC & HCB & HnB).
  apply Forall_cons in Hrg. destruct Hrg as [Hr1 Hr2].
  apply Forall_app in Hr2. destruct Hr2 as [HrA Hr3].
  apply Forall_app in Hr3. destruct Hr3 as [HrC HrB].
  split_and!; auto.
  - intros Hin. apply Hn1. apply elem_of_app. right.
    apply elem_of_app. by left.
  - intros k q Hk Hq. apply elem_of_app in Hk. destruct Hk as [Hk|Hk].
    + assert (HqA : q ∈ concat (map pids (take p (tkids t))))
        by (apply elem_of_pids_kids; eauto).
      split.
      * intros HqC. apply (HAB q HqA). apply elem_of_app. by left.
      * intros ->. apply Hn1. apply elem_of_app. by left.
    + assert (HqB : q ∈ concat (map pids (drop (S p) (tkids t))))
        by (apply elem_of_pids_kids; eauto).
      split.
      * intros HqC. by apply (HCB q HqC).
      * intros ->. apply Hn1. apply elem_of_app. right.
        apply elem_of_app. by right.
  - intros q Hq ->. apply Hn1. apply elem_of_app. right.
    apply elem_of_app. by left.
  - lia.
  - lia.
Qed.


Definition status (t : tree) : State :=
  if overflowed t then BT_OVERFLOW else OK.

Lemma insert_helper_spec (fuel : nat) :
  forall pg hc rid v t nxt n lo hi t' hc',
  rep pg t nxt -> pg !! tpid t = Some n ->
  sized lo hi t -> (hi <= ord)%nat ->
  NoDup (pids t) -> Forall (fun q => 1 <= q <= hc) (pids t) ->
  (height t <= fuel)%nat ->
  tinsert fuel hc v t = (t', hc') ->
  exists pg',
    insert_helper ORDER fuel n v (mkTree pg (mkHeader rid hc)) =
      Some (status t', mkTree pg' (mkHeader rid hc')) /\
    rep pg' t' nxt /\
    (forall q, q ∉ pids t' -> pg' !! q = pg !! q).
Proof.
  induction fuel as [|fuel IH];
    intros pg hc rid v t nxt n lo hi t' hc' Hrep Hn Hs Hhi Hnd Hrg Hh E.
  { rewrite height_unfold in Hh. lia. }
  destruct half_ord as (H2 & H1 & Hord & Hhalf).
  pose proof Hrep as Hrep'. apply rep_unfold in Hrep'.
  destruct Hrep' as (Hpid & (n0 & Hn0 & Hnr) & Hrl).
  rewrite Hn in Hn0. injection Hn0 as <-.
  pose proof Hs as Hs'. apply sized_unfold in Hs'.
  destruct Hs' as (Hlen & Har & Hkids).
  cbn [insert_helper tinsert] in *.
  rewrite (node_rep_scan_lt v n t nxt Hnr).
  assert (Hlb : (lb_lt v (tkeys t) <= length (tkeys t))%nat)
    by apply lbound_le.
  set (p := lb_lt v (tkeys t)) in *.
  destruct (tkids t !! p) as [c|] eqn:Ec.
  2:{ (* a leaf *)
    assert (Hleaf : tkids t = []).
    { destruct Har as [?|Har]; [done|].
      apply lookup_ge_None_1 in Ec. lia. }
    injection E as <- <-. rewrite Hleaf.
    rewrite (node_rep_leaf_child _ _ _ _ Hnr Hleaf). cbn [Z.eqb negb].
    pose proof (node_rep_leaf_insert v n t nxt Hnr Hleaf ltac:(lia)) as Hn1.
    fold p in Hn1. cbv zeta in Hn1.
    set (n1 := insert_in_node (Z.of_nat p) v n) in *.
    pose proof Hn1 as (Hp1 & Hc1 & _). cbn [tpid tkeys] in Hp1, Hc1.
    unfold write_node. cbn [pager header]. rewrite Hp1.
    rewrite save_pos by done.
    exists (<[tpid t := n1]> pg). split_and!.
    - unfold status, overflowed, is_overflow. cbn [tkeys]. by rewrite Hc1.
    - apply rep_unfold. cbn [tpid tkids]. split; [done|]. split; [|done].
      exists n1. by rewrite lookup_insert_eq.
    - intros q Hq. rewrite lookup_insert_ne; [done|].
      intros <-. apply Hq. rewrite pids_unfold. left. }
  (* an inner node *)
  destruct Har as [Har|Har]; [by rewrite Har in Ec|].
  destruct (descend_facts t p c hc Ec Hnd Hrg)
    as (Hndc & Hrgc & Htc & Hsib & Hct & Htr).
  assert (Hin : c ∈ tkids t) by (eapply list_elem_of_lookup_2; eauto).
  assert (Hsc : sized half ord c).
  { rewrite Forall_forall in Hkids. by apply Hkids. }
  pose proof (take_drop_middle _ _ _ Ec) as Hmid.
  pose proof Hrl as Hrl'. rewrite <- Hmid in Hrl'.
  apply rep_list_app in Hrl'. destruct Hrl' as [HrA HrcB].
  cbn [rep_list next_of] in HrA, HrcB. destruct HrcB as [Hrc HrB].
  destruct (rep_node _ _ _ Hrc) as (nc & Hnc & Hncr).
  pose proof (rep_pid_pos _ _ _ Hrc) as Hcpos.
  rewrite (node_rep_child n t nxt p c Hnr Ec).
  assert ((tpid c =? 0) = false) as -> by lia. cbn [negb].
  rewrite (read_node_lookup _ _ _ _ Hnc).
  destruct (tinsert fuel hc v c) as [c' hc1] eqn:Ei.
  assert (Hhc : (height c <= fuel)%nat).
  { apply height_kid in Hin. lia. }
  destruct (IH pg hc rid v c _ nc _ _ c' hc1 Hrc Hnc Hsc (le_n _)
              Hndc Hrgc Hhc Ei) as (pg1 & E1 & Hrc' & Hfr1).
  rewrite E1.
  destruct (tinsert_basic _ _ _ _ _ _ _ _ Ei Hsc (le_n _))
    as (Hp' & Hfl' & Hlf' & Hhc1 & Hsc' & Hperm & _).
  assert (Hin' : forall q, q ∈ pids c' -> q ∈ pids c \/ hc < q <= hc1).
  { intros q Hq. rewrite Hperm in Hq. apply elem_of_app in Hq.
    destruct Hq as [Hq|Hq]; [by left|right].
    apply elem_of_seqZ in Hq. lia. }
  assert (Hndc' : NoDup (pids c')).
  { rewrite Hperm. apply NoDup_app. split_and!; [done| |apply NoDup_seqZ].
    intros q Hq Hq2. apply elem_of_seqZ in Hq2.
    rewrite Forall_forall in Hrgc. specialize (Hrgc q Hq). lia. }
  assert (Hpt1 : pg1 !! tpid t = Some n).
  { rewrite Hfr1; [done|]. intros Hq. apply Hin' in Hq.
    destruct Hq as [Hq|Hq]; [by apply Hct in Hq|lia]. }
  assert (Hsib1 : forall k q,
            k ∈ take p (tkids t) ++ drop (S p) (tkids t) ->
            q ∈ pids k -> pg1 !! q = pg !! q /\ 1 <= q <= hc /\ q <> tpid t
                          /\ q <> tpid c).
  { intros k q Hk Hq. destruct (Hsib k q Hk Hq) as [Hq1 Hq2].
    assert (Hqt : q ∈ pids t).
    { eapply pids_kid; [|exact Hq].
      apply elem_of_app in Hk. destruct Hk as [Hk|Hk].
      - eapply subseteq_take, Hk.
      - eapply subseteq_drop, Hk. }
    rewrite Forall_forall in Hrg. specialize (Hrg q Hqt).
    split_and!; try done; try lia.
    - apply Hfr1. intros Hq'. apply Hin' in Hq'. destruct Hq'; [done|lia].
    - intros ->. apply Hq1. rewrite (pids_unfold c). left. }
  unfold status at 1. destruct (overflowed c') eqn:Eo.
  - (* the child is split *)
    destruct (rep_node _ _ _ Hrc') as (nc' & Hnc' & Hncr').
    rewrite Hp' in Hnc'.
    rewrite (read_node_lookup _ _ _ _ Hnc').
    unfold new_node. cbn [header hcount root_id pager].
    rewrite reset_children_self_spec by (cbn [reset_bound]; lia).
    cbn [reset_bound count set_count].
    change (set_count (set_count nc' 0) ?x) with (set_count nc' x).
    rewrite Z.add_0_l, <- Hhalf.
    set (lc := set_count nc' (Z.of_nat half)).
    unfold overflowed in Eo.
    apply sized_unfold in Hsc' as Hsc''. destruct Hsc'' as (Hlc' & Har' & _).
    assert (Hlenc' : length (tkeys c') = S ord) by lia.
    destruct (tsplit (tpid c') (hc1 + 1) c') as [[l sep] r] eqn:Et.
    injection E as <- <-.
    destruct (tsplit_basic _ _ _ _ Hsc' Hlenc' _ _ _ Et)
      as (Hlp & Hrp & Hsl & Hsr & Hpp & Hll & Hlr & Hfll & _ & _ & _).
    destruct (tsplit_kids _ _ _ _ _ _ Et) as (_ & _ & Hkl & Hkr & Hsep).
    assert (Hkpos : forall k, k ∈ tkids c' -> 1 <= tpid k).
    { intros k Hk. apply rep_unfold in Hrc'. destruct Hrc' as (_ & _ & Hl').
      apply list_elem_of_lookup_1 in Hk. destruct Hk as [i Hi].
      eapply rep_pid_pos. eapply (rep_list_lookup _ _ _ _ _ Hl' Hi). }
    change (get_data lc (Z.of_nat half)) with (get_data nc' (Z.of_nat half)).
    rewrite (split_sep c' nc' _ Hncr' Hlenc' Har'), <- Hsep.
    rewrite (split_is_leaf c' nc' _ Hncr' Hlenc' Har' lc eq_refl Hkpos).
    pose proof (split_left_self c' nc' _ Hncr' Hlenc' Har' (first_leaf r)
                  l sep r _ Et) as HL. cbv zeta in HL. fold lc in HL.
    pose proof (fun q' rc0 => split_right c' nc' _ Hncr' Hlenc' Har' q' rc0
                  _ _ l sep r Et) as HR. cbv zeta in HR.
    pose proof (fun extra => parent_update n t nxt p c l r sep extra Hnr Ec
                  Hlb ltac:(lia) Har ltac:(lia)) as HP. cbv zeta in HP.
    rewrite Hrp in HP.
    destruct (Node_new_fields (hc1 + 1)) as (Nf1 & Nf2 & Nf3 & Nf4 & Nf5 & Nf6).
    assert (Hfr : first_leaf r = if bool_decide (tkids c' = []) then hc1 + 1
                                 else first_leaf r).
    { case_bool_decide as Hb; [|done].
      rewrite first_leaf_unfold, Hkr, Hb, Hrp. done. }
    assert (Hnxt : bool_decide (tkids c' = []) = true ->
                   right nc' = next_of (drop (S p) (tkids t)) nxt).
    { intros Hb. apply bool_decide_eq_true_1 in Hb.
      destruct Hncr' as (_ & _ & _ & _ & _ & Hk'). rewrite Hb in Hk'. tauto. }
    set (t'' := Tr (tpid t) (ins_at p sep (tkeys t))
                   (take p (tkids t) ++ l :: r :: drop (S p) (tkids t))).
    assert (Hpl_in : forall q, q ∈ pids c' \/ q = hc1 + 1 -> q ∈ pids t'').
    { intros q Hq. unfold t''. rewrite pids_unfold. cbn [tpid tkids]. right.
      change (l :: r :: drop (S p) (tkids t))
        with ([l; r] ++ drop (S p) (tkids t)).
      rewrite pids_kids_middle. simpl concat. rewrite app_nil_r.
      apply elem_of_app. right. apply elem_of_app. left.
      rewrite Hpp. rewrite (pids_unfold c') in Hq.
      rewrite (Permutation_swap (hc1 + 1)).
      destruct Hq as [Hq| ->]; [by right|left]. }
    assert (Hfin : forall n2 lc2 rc2 : Node,
      node_rep lc2 l (first_leaf r) ->
      node_rep rc2 r (next_of (drop (S p) (tkids t)) nxt) ->
      node_rep (set_child (set_child n2 (Z.of_nat p) (tpid l))
                          (Z.of_nat p + 1) (hc1 + 1)) t'' nxt ->
      count (set_child (set_child n2 (Z.of_nat p) (tpid l))
                       (Z.of_nat p + 1) (hc1 + 1)) = count n + 1 ->
      exists pg',
        (let '(n3, bt3) :=
           write_these_nodes n2 lc2 rc2 (Z.of_nat p)
             (mkTree pg1 (mkHeader rid (hc1 + 1))) in
         Some (if is_overflow ORDER n3 then BT_OVERFLOW else OK, bt3)) =
        Some (status t'', mkTree pg' (mkHeader rid (hc1 + 1))) /\
        rep pg' t'' nxt /\ (forall q, q ∉ pids t'' -> pg' !! q = pg !! q)).
    { intros n2 lc2 rc2 HL2 HR2 HP2 HPc2.
      unfold write_these_nodes, write_node. cbn [pager header].
      pose proof HL2 as (HLp & _). pose proof HR2 as (HRp & _).
      rewrite HLp, HRp, Hrp.
      set (n3 := set_child (set_child n2 (Z.of_nat p) (tpid l))
                           (Z.of_nat p + 1) (hc1 + 1)) in *.
      pose proof HP2 as (HPp & _). cbn [tpid t''] in HPp. rewrite HPp.
      rewrite Hlp, Hp'.
      rewrite !save_pos by lia.
      exists (<[hc1 + 1 := rc2]> (<[tpid c := lc2]> (<[tpid t := n3]> pg1))).
      assert (Hne1 : tpid t <> hc1 + 1) by lia.
      assert (Hne2 : tpid c <> hc1 + 1).
      { rewrite Forall_forall in Hrgc.
        assert (Hcc : tpid c ∈ pids c) by (rewrite pids_unfold; left).
        specialize (Hrgc _ Hcc). lia. }
      assert (Hne3 : tpid t <> tpid c).
      { intros Heq. apply Htc. rewrite Heq, pids_unfold. left. }
      split_and!.
      - f_equal. f_equal. unfold status, overflowed, is_overflow.
        unfold t''. cbn [tkeys]. rewrite HPc2, length_ins_at.
        destruct Hnr as (_ & -> & _). rewrite Nat2Z.inj_succ. done.
      - apply rep_unfold. unfold t'' at 1 2. cbn [tpid tkids].
        split; [done|]. split.
        + exists n3. split; [|done].
          rewrite lookup_insert_ne by done. rewrite lookup_insert_ne by done.
          by rewrite lookup_insert_eq.
        + assert (Hsib3 : forall k q,
              k ∈ take p (tkids t) ++ drop (S p) (tkids t) -> q ∈ pids k ->
              <[hc1 + 1 := rc2]> (<[tpid c := lc2]> (<[tpid t := n3]> pg1))
                !! q = pg !! q).
          { intros k q Hk Hq.
            destruct (Hsib1 k q Hk Hq) as (Hq1 & Hq2 & Hq3 & Hq4).
            rewrite !lookup_insert_ne by lia. done. }
          assert (HLR :
            rep (<[hc1 + 1 := rc2]> (<[tpid c := lc2]> (<[tpid t := n3]> pg1)))
                l (first_leaf r) /\
            rep (<[hc1 + 1 := rc2]> (<[tpid c := lc2]> (<[tpid t := n3]> pg1)))
                r (next_of (drop (S p) (tkids t)) nxt)).
          { apply (rep_split pg1 _ c' _ (tpid c') (hc1 + 1) l sep r lc2 rc2
                     half); try done; try lia.
            - rewrite Hp'. rewrite lookup_insert_ne by done.
              by rewrite lookup_insert_eq.
            - by rewrite lookup_insert_eq.
            - intros k q Hk Hq.
              assert (Hqc : q ∈ pids c') by (eapply pids_kid; eauto).
              assert (Hq1 : q <> tpid c).
              { rewrite <- Hp'. intros ->.
                rewrite (pids_unfold c') in Hndc'.
                apply NoDup_cons in Hndc'. destruct Hndc' as [Hx _].
                apply Hx. apply elem_of_pids_kids. eauto. }
              destruct (Hin' q Hqc) as [Hq2|Hq2].
              + rewrite Forall_forall in Hrgc. specialize (Hrgc q Hq2).
                apply Hct in Hq2.
                rewrite !lookup_insert_ne by lia. done.
              + rewrite !lookup_insert_ne by lia. done. }
          unfold t''. cbn [tkids].
          apply rep_list_app. cbn [rep_list next_of]. split_and!.
          * rewrite Hfll, <- (first_leaf_unfold c'), Hfl'.
            eapply rep_list_frame; [exact HrA|].
            intros k q Hk Hq. apply (Hsib3 k q); [|done].
            apply elem_of_app. by left.
          * tauto.
          * tauto.
          * eapply rep_list_frame; [exact HrB|].
            intros k q Hk Hq. apply (Hsib3 k q); [|done].
            apply elem_of_app. by right.
      - intros q Hq.
        assert (Hq1 : q <> tpid t).
        { intros ->. apply Hq. unfold t''. rewrite pids_unfold. left. }
        assert (Hq2 : q <> hc1 + 1).
        { intros ->. apply Hq. apply Hpl_in. by right. }
        assert (Hq3 : q ∉ pids c').
        { intros Hq3. apply Hq. apply Hpl_in. by left. }
        assert (Hq4 : q <> tpid c).
        { intros ->. apply Hq3. rewrite <- Hp', pids_unfold. left. }
        rewrite !lookup_insert_ne by done. by apply Hfr1. }
    destruct (bool_decide (tkids c' = [])) eqn:Eleaf; cbn [negb].
    + (* a leaf *)
      cbn [set_right page_id right]. fold lc. rewrite Nf1.
      specialize (HR (set_right lc (hc1 + 1))
                     (set_right (Node_new ORDER (hc1 + 1)) (right lc))
                     eq_refl eq_refl eq_refl Nf1 Nf2 Nf4 Nf6).
      cbn [right set_right] in HR.
      destruct (reset_children ORDER (set_right lc (hc1 + 1))
                  (set_right (Node_new ORDER (hc1 + 1)) (right lc))
                  RIGHT (Z.of_nat half)) as [rc2 it'] eqn:Erc.
      cbn [fst] in HR. unfold lc at 1 in HR. cbn [right set_count] in HR.
      rewrite (Hnxt eq_refl) in HR. rewrite Hfr in HL.
      specialize (HP true). cbn [negb] in HP. destruct HP as [HP HPc].
      apply Hfin; try done. by rewrite Hfr.
    + (* an inner node *)
      specialize (HR lc (Node_new ORDER (hc1 + 1))
                     eq_refl eq_refl eq_refl Nf1 Nf2 Nf4 Nf6).
      destruct (reset_children ORDER lc (Node_new ORDER (hc1 + 1))
                  RIGHT (Z.of_nat half + 1)) as [rc2 it'] eqn:Erc.
      cbn [fst] in HR.
      specialize (HP false). destruct HP as [HP HPc].
      apply Hfin; try done.
      eapply node_rep_inner_nxt; [|exact HR].
      rewrite Hkr. apply bool_decide_eq_false_1 in Eleaf.
      destruct (tkids c') as [|k0 ks0] eqn:Ekc; [done|].
      destruct Har' as [?|Har'']; [done|].
      intros H0. apply (f_equal length) in H0.
      rewrite length_drop in H0. simpl in H0, Har''. lia.
  - (* the child has room *)
    injection E as <- <-.
    exists pg1. split_and!.
    + f_equal. f_equal. unfold status, overflowed, is_overflow.
      cbn [tkeys]. destruct Hnr as (_ & -> & _). done.
    + apply rep_unfold. cbn [tpid tkids]. split; [done|]. split.
      * exists n. split; [done|].
        destruct Hnr as (Hn1 & Hn2 & Hn3 & Hn4 & Hn5 & Hn6).
        unfold node_rep. cbn [tpid tkeys tkids]. split_and!; try done.
        assert (Hk' : map tpid (take p (tkids t) ++ c' :: drop (S p) (tkids t))
                      = map tpid (tkids t)).
        { rewrite <- Hmid at 3. rewrite !map_app. simpl. by rewrite Hp'. }
        assert (Hl' : length (take p (tkids t) ++ c' :: drop (S p) (tkids t))
                      = length (tkids t)).
        { rewrite <- Hmid at 3. by rewrite !length_app. }
        destruct (take p (tkids t) ++ c' :: drop (S p) (tkids t)) eqn:E3.
        { apply (f_equal length) in E3. rewrite length_app in E3.
          simpl in E3. lia. }
        rewrite Hk', Hl'. destruct (tkids t); [done|]. exact Hn6.
      * apply rep_list_app. cbn [rep_list next_of]. split_and!.
        -- rewrite Hfl'. eapply rep_list_frame; [exact HrA|].
           intros k q Hk Hq. apply (Hsib1 k q); [|done].
           apply elem_of_app. by left.
        -- done.
        -- eapply rep_list_frame; [exact HrB|].
           intros k q Hk Hq. apply (Hsib1 k q); [|done].
           apply elem_of_app. by right.
    + intros q Hq. apply Hfr1. intros Hq'. apply Hq.
      rewrite pids_unfold. cbn [tpid tkids]. right.
      apply elem_of_pids_kids. exists c'. split; [|done].
      apply elem_of_app. right. left.
Qed.


(** The left half copied into a fresh page, as [insert] makes it when
    the root is split. *)
Lemma split_left_fresh c (q : Node (T := T)) nxt lp rp l sep r x :
  node_rep q c nxt -> length (tkeys c) = S ord ->
  tkids c = [] \/ length (tkids c) = S (length (tkeys c)) ->
  tsplit lp rp c = (l, sep, r) ->
  exists lc, reset_children ORDER q (Node_new ORDER lp) LEFT 0
             = (lc, Z.of_nat half) /\
    node_rep (set_right lc x) l x.
Proof.
  intros Hq Hlen Har Et.
  destruct half_ord as (H2 & H1 & Hord & Hhalf).
  destruct Hq as (Hpid & Hc & Hd & Hch & Ht & Hk).
  destruct (Node_new_fields lp) as (Nf1 & Nf2 & Nf3 & Nf4 & Nf5 & Nf6).
  destruct (reset_children_spec q (Node_new ORDER lp) LEFT 0)
    as (lc & E & Hp' & Hr' & Hc' & Hd' & Hch' & HD & HC & Hz);
    cbn [reset_bound]; try lia.
  cbn [reset_bound] in *. rewrite <- Hhalf in *.
  exists lc. split; [exact E|].
  rewrite Z.sub_0_r, Nat2Z.id in *. change (Z.to_nat 0) with 0%nat in *.
  rewrite drop_0 in *.
  assert (Hdata : take half (data q) = take half (tkeys c)).
  { rewrite <- (take_take_le (data q) half (length (tkeys c))) by lia.
    by rewrite Ht. }
  destruct (tsplit_kids _ _ _ _ _ _ Et) as (Hpl & _ & Hkl & _ & _).
  assert (Hkeys : tkeys l = take half (tkeys c)).
  { unfold tsplit in Et. destruct (tkids c); by injection Et as <- <- <-. }
  unfold node_rep. cbn [set_right page_id count right data children].
  rewrite Hkeys, Hkl, length_take.
  replace (Init.Nat.min half (length (tkeys c))) with half by lia.
  split_and!; try lia.
  - by rewrite HD.
  - destruct (tkids c) as [|k0 kids] eqn:Ek.
    + simpl. split; [|done]. destruct Hk as [Hk _]. eapply Hz; eauto.
    + destruct Har as [?|Har]; [done|]. cbv zeta in Hk.
      assert (Hm : length (take (S half) (k0 :: kids)) = (half + 1)%nat).
      { rewrite length_take. simpl in Har. simpl length. lia. }
      destruct (take (S half) (k0 :: kids)) as [|k1 kids1] eqn:Etk;
        [simpl in Hm; lia|].
      rewrite <- Etk in Hm |- *. rewrite Hm, HC.
      rewrite <- firstn_map, <- Hk.
      rewrite take_take_le by (simpl in Har; simpl length; lia).
      f_equal. lia.
Qed.

(** The root after it was split. *)
Lemma root_update (q : Node (T := T)) c nxt l r sep :
  node_rep q c nxt -> (1 <= length (tkeys c))%nat ->
  let q1 := set_count (set_data q 0 sep) 1 in
  let q2 := set_child (set_child q1 0 (tpid l)) (0 + 1) (tpid r) in
  node_rep q2 (Tr (tpid c) [sep] [l; r]) nxt.
Proof.
  intros Hq Hlen q1 q2.
  destruct half_ord as (H2 & H1 & Hord & Hhalf).
  destruct Hq as (Hpid & Hc & Hd & Hch & Ht & Hk).
  unfold node_rep. subst q2 q1.
  cbn [set_child set_count set_data page_id count right data children
       tpid tkeys tkids length].
  rewrite !length_insert.
  split_and!; try done.
  - destruct (data q) as [|d0 ds] eqn:Ed; [simpl in Hd; lia|]. done.
  - destruct (children q) as [|c0 [|c1 cs]] eqn:Ec; simpl in Hch; try lia.
    done.
Qed.


(** ** The invariant of a tree object *)

Definition Inv (bt : BplusTree (T := T)) (t : tree) : Prop :=
  root_id (header bt) = 1 /\ tpid t = 1 /\
  rep (pager bt) t 0 /\ sized 0 ord t /\
  NoDup (pids t) /\
  Forall (fun q => 1 <= q <= hcount (header bt)) (pids t) /\
  (height t <= Z.to_nat (hcount (header bt)))%nat /\
  (forall q, is_Some (pager bt !! q) -> q ∈ pids t).

Lemma Inv_create : Inv (create ORDER) (Tr 1 [] []).
Proof.
  destruct half_ord as (H2 & H1 & Hord & Hhalf).
  unfold Inv, create. cbn [header pager root_id hcount tpid page_id Node_new].
  rewrite save_pos by lia.
  split_and!; try done.
  - apply rep_unfold. cbn [tpid tkids]. split; [lia|]. split; [|done].
    eexists. split; [apply lookup_insert_eq|].
    unfold node_rep, Node_new. simpl. rewrite !length_replicate.
    split_and!; try done.
  - apply sized_unfold. simpl. split_and!; auto; lia.
  - simpl. apply NoDup_singleton.
  - simpl. repeat constructor; lia.
  - intros q [x Hx]. simpl. apply lookup_insert_Some in Hx.
    destruct Hx as [[<- _]|[_ Hx]]; [left|]. by rewrite lookup_empty in Hx.
Qed.

Lemma insert_spec v bt t :
  Inv bt t ->
  forall t' hc',
  tinsert_root (depth_bound bt) (hcount (header bt)) v t = (t', hc') ->
  exists bt', insert ORDER v bt = Some bt' /\ Inv bt' t' /\
              hcount (header bt') = hc'.
Proof.
  intros (Hrid & Hpid & Hrep & Hs & Hnd & Hrg & Hh & Hdom) t' hc' E.
  destruct half_ord as (H2 & H1 & Hord & Hhalf).
  destruct bt as [pg [rid hc]]. cbn [header pager root_id hcount] in *.
  subst rid. unfold tinsert_root in E. unfold insert, depth_bound in *.
  cbn [header pager root_id hcount] in *.
  destruct (rep_node _ _ _ Hrep) as (n & Hn & Hnr).
  rewrite Hpid in Hn.
  rewrite (read_node_lookup _ _ _ _ Hn).
  destruct (tinsert (S (Z.to_nat hc)) hc v t) as [t1 hc1] eqn:Ei.
  rewrite <- Hpid in Hn.
  destruct (insert_helper_spec (S (Z.to_nat hc)) pg hc 1 v t 0 n _ _ t1 hc1 Hrep Hn Hs
              (le_n _) Hnd Hrg ltac:(lia) Ei) as (pg1 & E1 & Hrep1 & Hfr1).
  rewrite E1.
  destruct (tinsert_basic _ _ _ _ _ _ _ _ Ei Hs (le_n _))
    as (Hp1 & Hfl1 & Hlf1 & Hhc1 & Hs1 & Hperm & Hh1).
  assert (Hnd1 : NoDup (pids t1)).
  { rewrite Hperm. apply NoDup_app. split_and!; [done| |apply NoDup_seqZ].
    intros q Hq Hq2. apply elem_of_seqZ in Hq2.
    rewrite Forall_forall in Hrg. specialize (Hrg q Hq). lia. }
  assert (Hhc0 : 1 <= hc).
  { rewrite (pids_unfold t) in Hrg. apply Forall_cons in Hrg. lia. }
  assert (Hrg1 : Forall (fun q => 1 <= q <= hc1) (pids t1)).
  { rewrite Hperm. apply Forall_app. split.
    - eapply Forall_impl; [exact Hrg|]. simpl. intros; lia.
    - apply Forall_seqZ. intros; lia. }
  assert (Hdom1 : forall q, is_Some (pg1 !! q) -> q ∈ pids t1).
  { intros q Hq. destruct (decide (q ∈ pids t1)) as [|Hni]; [done|].
    rewrite (Hfr1 q Hni) in Hq. apply Hdom in Hq.
    rewrite Hperm. apply elem_of_app. by left. }
  unfold status at 1. destruct (overflowed t1) eqn:Eo.
  - (* the root is split *)
    cbn [header root_id].
    destruct (rep_node _ _ _ Hrep1) as (n1 & Hn1 & Hnr1).
    rewrite Hp1, Hpid in Hn1.
    rewrite (read_node_lookup _ _ _ _ Hn1).
    unfold new_node. cbn [header hcount root_id pager].
    unfold overflowed in Eo.
    apply sized_unfold in Hs1 as Hs1'. destruct Hs1' as (Hl1 & Har1 & _).
    assert (Hlen1 : length (tkeys t1) = S ord) by lia.
    destruct (tsplit (hc1 + 1) (hc1 + 1 + 1) t1) as [[l sep] r] eqn:Et.
    replace (hc1 + 2) with (hc1 + 1 + 1) in E by lia.
    rewrite Et in E. injection E as <- <-.
    destruct (tsplit_basic _ _ _ _ Hs1 Hlen1 _ _ _ Et)
      as (Hlp & Hrp & Hsl & Hsr & Hpp & Hll & Hlr & Hfll & Hhl & Hhr & _).
    destruct (tsplit_kids _ _ _ _ _ _ Et) as (_ & _ & Hkl & Hkr & Hsep).
    destruct (split_left_fresh t1 n1 0 _ _ l sep r (hc1 + 1 + 1)
                Hnr1 Hlen1 Har1 Et) as (lc & Elc & HL).
    rewrite Elc.
    destruct (Node_new_fields (hc1 + 1 + 1))
      as (Nf1 & Nf2 & Nf3 & Nf4 & Nf5 & Nf6).
    rewrite Nf1.
    rewrite (split_sep t1 n1 _ Hnr1 Hlen1 Har1), <- Hsep.
    assert (Hkpos : forall k, k ∈ tkids t1 -> 1 <= tpid k).
    { intros k Hk. apply rep_unfold in Hrep1.
      destruct Hrep1 as (_ & _ & Hl').
      apply list_elem_of_lookup_1 in Hk. destruct Hk as [i Hi].
      eapply rep_pid_pos. eapply (rep_list_lookup _ _ _ _ _ Hl' Hi). }
    rewrite (split_is_leaf t1 n1 _ Hnr1 Hlen1 Har1 (set_data n1 0 sep)
               eq_refl Hkpos).
    pose proof (split_right t1 n1 _ Hnr1 Hlen1 Har1 (set_data n1 0 sep)
                  (Node_new ORDER (hc1 + 1 + 1)) _ _ l sep r Et) as HR.
    cbv zeta in HR.
    assert (HR' : node_rep
              (reset_children ORDER (set_data n1 0 sep)
                 (Node_new ORDER (hc1 + 1 + 1)) RIGHT
                 (if bool_decide (tkids t1 = []) then Z.of_nat half
                  else Z.of_nat half + 1)).1 r 0).
    { rewrite <- Nf3. apply HR; try done.
      - cbn [set_data data]. by rewrite length_insert.
      - cbn [set_data data]. by rewrite drop_insert_lt by lia. }
    clear HR.
    assert (Hiter : (if negb (bool_decide (tkids t1 = []))
                     then Z.of_nat half + 1 else Z.of_nat half) =
                    (if bool_decide (tkids t1 = []) then Z.of_nat half
                     else Z.of_nat half + 1)).
    { by destruct (bool_decide _). }
    rewrite Hiter.
    destruct (reset_children ORDER (set_data n1 0 sep)
                (Node_new ORDER (hc1 + 1 + 1)) RIGHT
                (if bool_decide (tkids t1 = []) then Z.of_nat half
                 else Z.of_nat half + 1)) as [rc it'] eqn:Erc.
    cbn [fst] in HR'.
    unfold write_these_nodes, write_node. cbn [pager header snd].
    pose proof HL as (HLp & _). pose proof HR' as (HRp & _).
    cbn [set_right page_id] in HLp.
    cbn [set_right set_child set_count set_data page_id].
    rewrite HLp, HRp, Hlp, Hrp.
    assert (Hp1' : page_id n1 = 1).
    { destruct Hnr1 as (-> & _). by rewrite Hp1. }
    rewrite Hp1'. rewrite !save_pos by lia.
    pose proof (root_update n1 t1 0 l r sep Hnr1 ltac:(lia)) as HQ.
    cbv zeta in HQ. rewrite Hlp, Hrp, Hp1, Hpid in HQ.
    set (n3 := set_child (set_child (set_count (set_data n1 0 sep) 1) 0
                            (hc1 + 1)) (0 + 1) (hc1 + 1 + 1)) in *.
    eexists. split; [reflexivity|].
    cbn [header hcount]. split; [|lia]. rewrite Hp1, Hpid.
    unfold Inv. cbn [header pager root_id hcount tpid].
    assert (Hrg1' : forall q, q ∈ pids t1 -> 1 <= q <= hc1).
    { by apply Forall_forall. }
    assert (Hkid1 : forall k q, k ∈ tkids t1 -> q ∈ pids k ->
                                q <> 1 /\ 1 <= q <= hc1).
    { intros k q Hk Hq. split.
      - intros ->. rewrite (pids_unfold t1) in Hnd1.
        apply NoDup_cons in Hnd1. destruct Hnd1 as [Hx _].
        apply Hx. rewrite Hp1, Hpid. apply elem_of_pids_kids. eauto.
      - apply Hrg1'. eapply pids_kid; eauto. }
    assert (Hpids : pids (Tr 1 [sep] [l; r]) ≡ₚ
              1 :: (hc1 + 1) :: (hc1 + 1 + 1) :: concat (map pids (tkids t1))).
    { simpl. rewrite app_nil_r. by rewrite Hpp. }
    assert (Hsub : forall q, q ∈ pids t1 -> q ∈ pids (Tr 1 [sep] [l; r])).
    { intros q Hq. rewrite Hpids. rewrite (pids_unfold t1), Hp1, Hpid in Hq.
      apply elem_of_cons in Hq. destruct Hq as [->|Hq]; [left|].
      right. right. by right. }
    split_and!; try done.
    + apply rep_unfold. cbn [tpid tkids]. split; [lia|]. split.
      * exists n3. split; [|exact HQ].
        rewrite !lookup_insert_ne by lia. by rewrite lookup_insert_eq.
      * cbn [rep_list next_of].
        assert (HLR :
          rep (<[hc1 + 1 + 1 := rc]>
                 (<[hc1 + 1 := set_right lc (hc1 + 1 + 1)]> (<[1 := n3]> pg1)))
              l (first_leaf r) /\
          rep (<[hc1 + 1 + 1 := rc]>
                 (<[hc1 + 1 := set_right lc (hc1 + 1 + 1)]> (<[1 := n3]> pg1)))
              r 0).
        { apply (rep_split pg1 _ t1 _ (hc1 + 1) (hc1 + 1 + 1) l sep r
                   (set_right lc (hc1 + 1 + 1)) rc 0%nat);
            try done; try lia.
          - rewrite lookup_insert_ne by lia. by rewrite lookup_insert_eq.
          - by rewrite lookup_insert_eq.
          - destruct (decide (tkids t1 = [])) as [Hb|Hb].
            + assert (Hfr : first_leaf r = hc1 + 1 + 1).
              { rewrite first_leaf_unfold, Hkr, Hb, Hrp. done. }
              by rewrite Hfr.
            + eapply node_rep_inner_nxt; [|exact HL].
              rewrite Hll. done.
          - intros k q Hk Hq. destruct (Hkid1 k q Hk Hq).
            rewrite !lookup_insert_ne by lia. done. }
        tauto.
    + apply sized_unfold. cbn [tkeys tkids]. simpl length.
      split; [lia|]. split; [by right|]. repeat constructor; done.
    + rewrite Hpids.
      rewrite (pids_unfold t1), Hp1, Hpid in Hnd1.
      apply NoDup_cons in Hnd1. destruct Hnd1 as [Hx Hnd1].
      assert (Hle : forall q, q ∈ concat (map pids (tkids t1)) ->
                              1 <= q <= hc1).
      { intros q Hq. apply elem_of_pids_kids in Hq.
        destruct Hq as (k & Hk & Hq). by apply (Hkid1 k q). }
      repeat (apply NoDup_cons; split); auto.
      * rewrite !elem_of_cons. intros [?|[?|Hq]]; try lia. done.
      * rewrite !elem_of_cons. intros [?|Hq]; try lia.
        apply Hle in Hq. lia.
      * intros Hq. apply Hle in Hq. lia.
    + rewrite Hpids.
      repeat (apply Forall_cons; split); try lia.
      apply Forall_forall. intros q Hq. apply elem_of_pids_kids in Hq.
      destruct Hq as (k & Hk & Hq). destruct (Hkid1 k q Hk Hq). lia.
    + apply (Nat.le_trans _ (S (height t1))); [|lia].
      apply height_le_kids. repeat constructor; done.
    + intros q [x Hx].
      apply lookup_insert_Some in Hx. destruct Hx as [[<- _]|[_ Hx]].
      { rewrite Hpids. right. right. left. }
      apply lookup_insert_Some in Hx. destruct Hx as [[<- _]|[_ Hx]].
      { rewrite Hpids. right. left. }
      apply lookup_insert_Some in Hx. destruct Hx as [[<- _]|[_ Hx]].
      { rewrite Hpids. left. }
      apply Hsub, Hdom1. eauto.
  - (* the root has room *)
    injection E as <- <-. eexists. split; [reflexivity|].
    cbn [header hcount]. split; [|done].
    unfold Inv. cbn [header pager root_id hcount].
    unfold overflowed in Eo.
    apply sized_unfold in Hs1 as Hs1'. destruct Hs1' as (Hl1 & Har1 & Hk1).
    split_and!; try done.
    + by rewrite Hp1.
    + apply sized_unfold. split_and!; try done; lia.
    + lia.
Qed.

Lemma rep_list_elem P l nxt k :
  rep_list P l nxt -> k ∈ l -> exists nx, P k nx.
Proof.
  intros Hr Hk. apply list_elem_of_lookup in Hk. destruct Hk as [i Hi].
  exists (next_of (drop (S i) l) nxt). by apply rep_list_lookup.
Qed.

(** The page of every node of a stored tree holds as many keys as the
    node has: the root between its own bounds, any other node between
    [half] and [ORDER]. *)
Lemma rep_count pg t : forall nxt lo hi p n,
  rep pg t nxt -> sized lo hi t -> p ∈ pids t -> pg !! p = Some n ->
  (p = tpid t /\ Z.of_nat lo <= count n <= Z.of_nat hi) \/
  (Z.of_nat half <= count n <= Z.of_nat ord).
Proof.
  induction t as [pid keys kids IH] using tree_ind'.
  intros nxt lo hi p n Hr Hs Hp Hn.
  apply rep_unfold in Hr. destruct Hr as (_ & (n0 & Hn0 & Hnr) & Hkids).
  apply sized_unfold in Hs. destruct Hs as (Hl & _ & Hsk).
  cbn [tpid tkeys tkids] in *.
  rewrite pids_unfold in Hp. cbn [tpid tkids] in Hp.
  apply elem_of_cons in Hp. destruct Hp as [->|Hp].
  - left. split; [done|]. rewrite Hn0 in Hn. injection Hn as <-.
    destruct Hnr as (_ & Hc & _). cbn [tkeys] in Hc. lia.
  - right. apply elem_of_pids_kids in Hp. destruct Hp as (k & Hk & Hp).
    rewrite Forall_forall in IH, Hsk.
    destruct (rep_list_elem _ _ _ _ Hkids Hk) as [nx Hrk].
    destruct (IH k Hk nx half ord p n Hrk (Hsk k Hk) Hp Hn) as [[_ ?]|?];
      lia.
Qed.

Lemma insert_all_spec values : forall bt t,
  Inv bt t -> exists bt' t', insert_all ORDER values bt = Some bt' /\ Inv bt' t'.
Proof.
  induction values as [|v values IH]; intros bt t HI.
  - exists bt, t. done.
  - destruct (tinsert_root (depth_bound bt) (hcount (header bt)) v t)
      as [t1 hc1] eqn:E.
    destruct (insert_spec v bt t HI t1 hc1 E) as (bt1 & E1 & HI1 & _).
    destruct (IH bt1 t1 HI1) as (bt' & t' & E' & HI').
    exists bt', t'. simpl. by rewrite E1.
Qed.

Lemma Inv_count bt t p n :
  Inv bt t -> pager bt !! p = Some n ->
  0 <= count n <= ORDER /\
  (p <> root_id (header bt) -> (ORDER + 1) / 2 <= count n).
Proof.
  intros (Hrid & Hpid & Hrep & Hs & _ & _ & _ & Hdom) Hn.
  destruct half_ord as (_ & _ & Hord & Hhalf).
  assert (Hp : p ∈ pids t) by (apply Hdom; eauto).
  destruct (rep_count _ _ _ _ _ _ _ Hrep Hs Hp Hn) as [[-> Hc]|Hc].
  - assert (0 <= count n).
    { apply rep_node in Hrep. destruct Hrep as (n0 & Hn0 & _ & Hc0 & _).
      rewrite Hn0 in Hn. injection Hn as <-. lia. }
    split; [lia|]. intros Hne. congruence.
  - split; [|lia]. unfold half in *. lia.
Qed.

End NodeLemmas.

End BPTStructure.

Module BPTFind.

Import BPTStructure.
Import BPT.
Local Open Scope Z_scope.

(** * Searching a stored tree

    What [find_helper] reaches in the tree a pager holds, and what the
    iterator it returns enumerates. *)

Section Find.
Context {T : Type} `{KO : KeyOps T}.
Variable ORDER : Z.
Hypothesis ORDER_ge : 2 <= ORDER.
Hypothesis ORDER_even : ORDER mod 2 = 0.

Implicit Types (n : Node (T := T)) (v k : T) (t c : tree (T := T)).

(** The entries from the place [find_helper] reaches in [t] to the end
    of [t]: at an inner node the search enters the child at the first
    key that is not [<= k]; at a leaf it stops at the first key that is
    not [< k]. *)
Fixpoint tseek (k : T) (t : tree) {struct t} : list T :=
  match t with
  | Tr _ keys kids =>
      match kids with
      | [] => drop (lb_lt k keys) keys
      | _ :: _ =>
          (fix go (i : nat) (l : list tree) {struct l} : list T :=
             match l with
             | [] => []
             | c :: r =>
                 match i with
                 | O => tseek k c ++ concat (map flat r)
                 | S i' => go i' r
                 end
             end) (lb_le k keys) kids
      end
  end.

Lemma tseek_leaf k t :
  tkids t = [] -> tseek k t = drop (lb_lt k (tkeys t)) (tkeys t).
Proof. destruct t as [p keys kids]. simpl. by intros ->. Qed.

Lemma tseek_inner k t c :
  tkids t !! lb_le k (tkeys t) = Some c ->
  tseek k t =
    tseek k c ++ concat (map flat (drop (S (lb_le k (tkeys t))) (tkids t))).
Proof.
  destruct t as [p keys kids]. cbn [tkids tkeys].
  intros Hi.
  assert (Hgo : forall (l : list tree) (j : nat), l !! j = Some c ->
    (fix go (i : nat) (l : list tree) {struct l} : list T :=
       match l with
       | [] => []
       | c :: r =>
           match i with
           | O => tseek k c ++ concat (map flat r)
           | S i' => go i' r
           end
       end) j l = tseek k c ++ concat (map flat (drop (S j) l))).
  { induction l as [|c0 l IHl]; intros j Hj; [done|].
    destruct j as [|j]; simpl in Hj.
    - by injection Hj as ->.
    - by apply IHl. }
  destruct kids as [|k0 kids]; [done|].
  rewrite <- (Hgo (k0 :: kids) (lb_le k keys) Hi). reflexivity.
Qed.

(** ** Iterators *)

(** [iterates bt it L]: stepping [it] with [operator++] visits the
    entries [L], each on a stored page, and then arrives at [end()]. *)
Inductive iterates (bt : BplusTree (T := T)) : Iterator -> list T -> Prop :=
  | iterates_end : iterates bt (end_ ORDER) []
  | iterates_step it L :
      1 <= page_id (current_pos it) ->
      iterates bt (incr ORDER bt it) L ->
      iterates bt it (deref it :: L).

(** The iterator that a step off the last entry of a leaf whose [right]
    is [nxt] arrives at, when it enumerates [L]. *)
Definition continues (bt : BplusTree (T := T)) (nxt : Z) (L : list T) : Prop :=
  (nxt = 0 /\ L = []) \/
  (nxt <> 0 /\
   exists m, pager bt !! nxt = Some m /\ iterates bt (mkIter 0 m) L).

Lemma incr_inside bt (j : Z) n :
  j < count n - 1 -> incr ORDER bt (mkIter j n) = mkIter (j + 1) n.
Proof.
  intros Hj. unfold incr. cbn [index current_pos].
  by assert ((j <? count n - 1) = true) as -> by lia.
Qed.

Lemma incr_last bt (j : Z) n L :
  count n - 1 <= j -> continues bt (right n) L ->
  iterates bt (incr ORDER bt (mkIter j n)) L.
Proof.
  intros Hj HL. unfold incr. cbn [index current_pos].
  assert ((j <? count n - 1) = false) as -> by lia.
  destruct HL as [[Hz ->]|[Hnz (m & Hm & Hit)]].
  - rewrite Hz. cbn [Z.eqb]. apply iterates_end.
  - assert ((right n =? 0) = false) as -> by lia.
    unfold recover, save. destruct (right n <? 0); rewrite ?Hm; exact Hit.
Qed.

(** Inside a leaf the iterator visits the keys from its slot on. *)
Lemma iterates_leaf bt n t nxt L (m : nat) : forall j : nat,
  node_rep ORDER n t nxt -> tkids t = [] -> 1 <= tpid t ->
  continues bt nxt L ->
  (j + m = length (tkeys t))%nat -> (0 < m)%nat ->
  iterates bt (mkIter (Z.of_nat j) n) (drop j (tkeys t) ++ L).
Proof.
  induction m as [|m IH]; intros j Hn Hl Hp HL Hj Hm; [lia|].
  assert (Hlt : (j < length (tkeys t))%nat) by lia.
  destruct (lookup_lt_is_Some_2 _ _ Hlt) as [x Hx].
  rewrite (drop_S _ _ _ Hx). cbn [app].
  assert (Hd : deref (mkIter (Z.of_nat j) n) = x).
  { unfold deref. cbn [index current_pos].
    rewrite (node_rep_data ORDER n t nxt j Hn Hlt).
    by rewrite nth_lookup, Hx. }
  rewrite <- Hd. apply iterates_step.
  - cbn [current_pos]. destruct Hn as (-> & _). done.
  - pose proof Hn as (_ & Hc & _ & _ & _ & Hk).
    rewrite Hl in Hk. destruct Hk as [_ Hr].
    destruct (decide (m = 0%nat)) as [->|Hm0].
    + rewrite drop_ge by lia. cbn [app].
      apply incr_last; [lia|]. by rewrite Hr.
    + rewrite incr_inside by lia.
      replace (Z.of_nat j + 1) with (Z.of_nat (S j)) by lia.
      apply IH; try done; lia.
Qed.

(** From its first leaf on, a stored tree with no empty leaf is
    enumerated in the order of [flat]. *)
Lemma continues_list bt (kids : list tree) : forall nxt L,
  Forall (fun c => forall nxt L,
            rep ORDER (pager bt) c nxt -> continues bt nxt L ->
            continues bt (first_leaf c) (flat c ++ L)) kids ->
  rep_list (rep ORDER (pager bt)) kids nxt ->
  continues bt nxt L ->
  continues bt (next_of kids nxt) (concat (map flat kids) ++ L).
Proof.
  induction kids as [|c kids IH]; intros nxt L HF Hr HL; [done|].
  apply Forall_cons in HF. destruct HF as [Hc HF].
  cbn [rep_list] in Hr. destruct Hr as [Hrc Hr].
  cbn [next_of map concat]. rewrite <- (assoc (++)).
  apply Hc with (nxt := next_of kids nxt); [done|].
  by apply IH.
Qed.

Lemma continues_tree bt t : forall lo hi nxt L,
  rep ORDER (pager bt) t nxt -> sized ORDER lo hi t -> (1 <= lo)%nat ->
  continues bt nxt L ->
  continues bt (first_leaf t) (flat t ++ L).
Proof.
  induction t as [p keys kids IH] using tree_ind'.
  intros lo hi nxt L Hr Hs Hlo HL.
  destruct (half_ord ORDER ORDER_ge ORDER_even) as (_ & Hh & _).
  pose proof Hr as Hr'. apply rep_unfold in Hr'.
  destruct Hr' as (Hp & (n & Hn & Hnr) & Hrl).
  apply sized_unfold in Hs. destruct Hs as (Hlen & Har & Hsk).
  cbn [tpid tkeys tkids] in *.
  destruct kids as [|k0 kids].
  - cbn [first_leaf flat]. right. split; [lia|]. exists n. split; [done|].
    apply (iterates_leaf bt n (Tr p keys []) nxt L (length keys) 0%nat);
      try done; cbn [tkeys]; lia.
  - rewrite first_leaf_unfold, flat_unfold. cbn [tkids].
    apply (continues_list bt (k0 :: kids) nxt L); try done.
    rewrite Forall_forall in IH, Hsk. apply Forall_forall.
    intros c Hc nxt' L' Hrc HL'.
    apply (IH c Hc (half ORDER) (ord ORDER) nxt' L'); try done.
    by apply Hsk.
Qed.

Lemma node_rep_inner_not_leaf pg t nxt n :
  rep ORDER pg t nxt -> node_rep ORDER n t nxt -> tkids t <> [] ->
  is_leaf n = false.
Proof.
  intros Hr Hn Hk. destruct (tkids t) as [|k0 kids] eqn:Ek; [done|].
  unfold is_leaf.
  assert (Hc : get_child n 0 = tpid k0).
  { apply (node_rep_child ORDER n t nxt 0 k0 Hn). by rewrite Ek. }
  rewrite Hc.
  apply rep_unfold in Hr. destruct Hr as (_ & _ & Hrl).
  rewrite Ek in Hrl. cbn [rep_list] in Hrl. destruct Hrl as [Hr0 _].
  apply rep_pid_pos in Hr0. lia.
Qed.

Lemma node_rep_leaf_is_leaf t nxt n :
  node_rep ORDER n t nxt -> tkids t = [] -> is_leaf n = true.
Proof.
  intros Hn Hk. unfold is_leaf.
  by rewrite (node_rep_leaf_child ORDER n t nxt 0 Hn Hk).
Qed.

(** [find_helper] on the page of a stored tree returns an iterator
    that enumerates the tree from the place the search reaches. *)
Lemma find_helper_spec k pg hdr (fuel : nat) : forall t nxt n lo hi L,
  let bt := mkTree pg hdr in
  rep ORDER pg t nxt -> pg !! tpid t = Some n ->
  sized ORDER lo hi t -> (hi <= ord ORDER)%nat ->
  (height t <= fuel)%nat ->
  continues bt nxt L ->
  exists it, find_helper ORDER fuel k n bt = Some it /\
             iterates bt it (tseek k t ++ L).
Proof.
  induction fuel as [|fuel IH]; intros t nxt n lo hi L bt Hr Hn Hs Hhi Hh HL.
  { rewrite height_unfold in Hh. lia. }
  destruct (half_ord ORDER ORDER_ge ORDER_even) as (_ & Hhalf & Hord & _).
  pose proof Hr as Hr'. apply rep_unfold in Hr'.
  destruct Hr' as (Hp & (n0 & Hn0 & Hnr) & Hrl).
  rewrite Hn in Hn0. injection Hn0 as <-.
  pose proof Hs as Hs'. apply sized_unfold in Hs'.
  destruct Hs' as (Hlen & Har & Hsk).
  cbn [find_helper].
  destruct (decide (tkids t = [])) as [Hleaf|Hinner].
  - rewrite (node_rep_leaf_is_leaf t nxt n Hnr Hleaf). cbn [negb].
    rewrite (node_rep_scan_lt ORDER ORDER_ge k n t nxt Hnr).
    rewrite (tseek_leaf k t Hleaf).
    pose proof (lbound_le (fun d => key_lt d k) (tkeys t)) as Hlb.
    fold (lb_lt k (tkeys t)) in Hlb.
    set (p := lb_lt k (tkeys t)) in *.
    pose proof Hnr as (_ & Hc & _ & _ & _ & Hk).
    rewrite Hleaf in Hk. destruct Hk as [_ Hright].
    eexists. split; [reflexivity|].
    destruct (decide (p = length (tkeys t))) as [Hpe|Hpn].
    + assert ((Z.of_nat p =? count n) = true) as -> by lia.
      rewrite drop_ge by lia. cbn [app].
      apply incr_last; [lia|]. by rewrite Hright.
    + assert ((Z.of_nat p =? count n) = false) as -> by lia.
      apply (iterates_leaf bt n t nxt L (length (tkeys t) - p) p);
        try done; lia.
  - rewrite (node_rep_inner_not_leaf pg t nxt n Hr Hnr Hinner). cbn [negb].
    rewrite (node_rep_scan_le ORDER ORDER_ge k n t nxt Hnr).
    pose proof (lbound_le (fun d => key_le d k) (tkeys t)) as Hlb.
    fold (lb_le k (tkeys t)) in Hlb.
    destruct Har as [Har|Har]; [done|].
    destruct (lookup_lt_is_Some_2 (tkids t) (lb_le k (tkeys t))
                ltac:(lia)) as [c Ec].
    rewrite (tseek_inner k t c Ec).
    set (p := lb_le k (tkeys t)) in *.
    assert (Hin : c ∈ tkids t) by (eapply list_elem_of_lookup_2; eauto).
    assert (Hsc : sized ORDER (half ORDER) (ord ORDER) c).
    { rewrite Forall_forall in Hsk. by apply Hsk. }
    pose proof (take_drop_middle _ _ _ Ec) as Hmid.
    pose proof Hrl as Hrl'. rewrite <- Hmid in Hrl'.
    apply rep_list_app in Hrl'. destruct Hrl' as [_ HrcB].
    cbn [rep_list next_of] in HrcB. destruct HrcB as [Hrc HrB].
    destruct (rep_node _ _ _ _ Hrc) as (nc & Hnc & Hncr).
    rewrite (node_rep_child ORDER n t nxt p c Hnr Ec).
    unfold bt at 1. rewrite (read_node_lookup ORDER _ _ _ _ Hnc).
    rewrite <- app_assoc.
    apply (IH c (next_of (drop (S p) (tkids t)) nxt) nc
              (half ORDER) (ord ORDER)); try done.
    + apply height_kid in Hin. lia.
    + apply (continues_list bt (drop (S p) (tkids t)) nxt L); try done.
      apply Forall_forall. intros c' Hc' nxt' L' Hrc' HL'.
      apply (continues_tree bt c' (half ORDER) (ord ORDER) nxt' L');
        try done.
      rewrite Forall_forall in Hsk. apply Hsk.
      by apply (subseteq_drop (S p)).
Qed.

(** [find_geq] on a tree that satisfies the invariant. *)
Lemma find_geq_spec k bt t :
  Inv ORDER bt t ->
  exists it, find_geq ORDER k bt = Some it /\ iterates bt it (tseek k t).
Proof.
  intros (Hrid & Hpid & Hrep & Hs & _ & _ & Hh & _).
  destruct (rep_node _ _ _ _ Hrep) as (n & Hn & Hnr).
  unfold find_geq. rewrite Hrid, <- Hpid.
  destruct bt as [pg hdr]. cbn [pager header] in *.
  rewrite (read_node_lookup ORDER _ _ _ _ Hn).
  destruct (find_helper_spec k pg hdr (depth_bound (mkTree pg hdr))
              t 0 n 0%nat (ord ORDER) [] Hrep Hn Hs (le_n _))
    as (it & E & Hit).
  - unfold depth_bound. cbn [header]. lia.
  - by left.
  - exists it. split; [done|]. by rewrite app_nil_r in Hit.
Qed.

End Find.

End BPTFind.

Module BPTOrder.

Import BPTStructure BPTFind.
Import BPT.
Local Open Scope Z_scope.

(** * The order of the keys in a tree *)

Section Order.
Context {T : Type} `{KL : KeyLaws T}.
Variable ORDER : Z.
Hypothesis ORDER_ge : 2 <= ORDER.
Hypothesis ORDER_even : ORDER mod 2 = 0.

Implicit Types (v k s x y z : T) (t : tree (T := T)).

(** [le a b]: [a] is not above [b]. *)
Definition le (a b : T) : Prop := key_lt b a = false.

Lemma le_refl a : le a a.
Proof. apply key_lt_irrefl. Qed.

Lemma le_trans a b c : le a b -> le b c -> le a c.
Proof. unfold le. intros Hab Hbc. by apply (key_nlt_trans c b a). Qed.

Lemma lt_asym a b : key_lt a b = true -> key_lt b a = false.
Proof.
  intros Hab. destruct (key_lt b a) eqn:Hba; [|done].
  by rewrite <- (key_lt_irrefl a), (key_lt_trans a b a).
Qed.

Lemma lt_le a b : key_lt a b = true -> le a b.
Proof. apply lt_asym. Qed.

Lemma le_total a b : le a b \/ le b a.
Proof.
  unfold le. destruct (key_lt b a) eqn:E; [|by left].
  right. by apply lt_asym.
Qed.

Lemma lt_le_trans a b c : key_lt a b = true -> le b c -> key_lt a c = true.
Proof.
  unfold le. intros Hab Hbc. destruct (key_lt a c) eqn:E; [done|].
  by rewrite (key_nlt_trans a c b E Hbc) in Hab.
Qed.

Lemma le_lt_trans a b c : le a b -> key_lt b c = true -> key_lt a c = true.
Proof.
  unfold le. intros Hab Hbc. destruct (key_lt a c) eqn:E; [done|].
  by rewrite (key_nlt_trans b a c Hab E) in Hbc.
Qed.

Lemma key_eq_le a b : key_eq a b = true <-> le a b /\ le b a.
Proof.
  unfold le. rewrite key_eq_lt, andb_true_iff, !negb_true_iff. tauto.
Qed.

Lemma key_le_le a b : key_le a b = true <-> le a b.
Proof. unfold le. by rewrite key_le_lt, negb_true_iff. Qed.

Lemma key_le_false a b : key_le a b = false <-> key_lt b a = true.
Proof. by rewrite key_le_lt, negb_false_iff. Qed.

Lemma key_eq_refl a : key_eq a a = true.
Proof. apply key_eq_le. split; apply le_refl. Qed.

Lemma key_eq_sym a b : key_eq a b = true -> key_eq b a = true.
Proof. rewrite !key_eq_le. tauto. Qed.

Lemma key_eq_trans a b c :
  key_eq a b = true -> key_eq b c = true -> key_eq a c = true.
Proof.
  rewrite !key_eq_le. intros [? ?] [? ?].
  split; eapply le_trans; eauto.
Qed.

(** ** The scans *)

Lemma lbound_before (cond : T -> bool) l (i : nat) x :
  l !! i = Some x -> (i < lbound cond l)%nat -> cond x = true.
Proof.
  revert i. induction l as [|a l IH]; intros i Hi Hlt; [done|].
  simpl in Hlt. destruct (cond a) eqn:Ea; [|lia].
  destruct i as [|i]; simpl in Hi.
  - by injection Hi as <-.
  - apply (IH i); [done|lia].
Qed.

Lemma lbound_at (cond : T -> bool) l x :
  l !! lbound cond l = Some x -> cond x = false.
Proof.
  induction l as [|a l IH]; [done|]. simpl.
  destruct (cond a) eqn:Ea; simpl; [done|]. by intros [= <-].
Qed.

(** ** Lists with an entry put in *)

Lemma lookup_ins_at {A} (p : nat) (a : A) l (i : nat) :
  (p <= length l)%nat ->
  ins_at p a l !! i =
    if decide (i < p)%nat then l !! i
    else if decide (i = p) then Some a else l !! (i - 1)%nat.
Proof.
  intros Hp. unfold ins_at.
  destruct (decide (i < p)%nat) as [Hlt|Hge].
  - rewrite lookup_app_l by (rewrite length_take; lia).
    by rewrite lookup_take_lt.
  - rewrite lookup_app_r by (rewrite length_take; lia).
    rewrite length_take. replace (p `min` length l)%nat with p by lia.
    destruct (decide (i = p)) as [->|Hne].
    + by rewrite Nat.sub_diag.
    + destruct (i - p)%nat as [|d] eqn:Ed; [lia|]. simpl.
      rewrite lookup_drop. f_equal. lia.
Qed.

Lemma lookup_two_for_one {A} (p : nat) (a b : A) l (j : nat) :
  (p < length l)%nat ->
  (take p l ++ a :: b :: drop (S p) l) !! j =
    if decide (j < p)%nat then l !! j
    else if decide (j = p) then Some a
    else if decide (j = S p) then Some b else l !! (j - 1)%nat.
Proof.
  intros Hp.
  destruct (decide (j < p)%nat) as [Hlt|Hge].
  - rewrite lookup_app_l by (rewrite length_take; lia).
    by rewrite lookup_take_lt.
  - rewrite lookup_app_r by (rewrite length_take; lia).
    rewrite length_take. replace (p `min` length l)%nat with p by lia.
    destruct (decide (j = p)) as [->|Hne].
    + by rewrite Nat.sub_diag.
    + destruct (j - p)%nat as [|[|d]] eqn:Ed; [lia| |].
      * rewrite decide_True by lia. done.
      * rewrite decide_False by lia. simpl.
        rewrite lookup_drop. f_equal. lia.
Qed.

Lemma lookup_one_for_one {A} (p : nat) (a : A) l (j : nat) :
  (p < length l)%nat ->
  (take p l ++ a :: drop (S p) l) !! j =
    if decide (j = p) then Some a else l !! j.
Proof.
  intros Hp. rewrite <- insert_take_drop by done.
  rewrite list_lookup_insert.
  destruct (decide (j = p)) as [->|Hne].
  - by rewrite decide_True.
  - by rewrite decide_False by (intros [? ?]; congruence).
Qed.

(** ** Ordered trees *)

(** The keys of a leaf stand in non-decreasing order. *)
Definition srt (l : list T) : Prop :=
  forall (i j : nat) a b,
    l !! i = Some a -> l !! j = Some b -> (i < j)%nat -> le a b.

(** The keys [keys] of an inner node separate its children [kids]:
    nothing in the children up to the one left of a key is above the
    key, nothing in the children right of it is below the key, and the
    child just right of it has an entry equal to the key. *)
Definition kid_ok (keys : list T) (kids : list tree) : Prop :=
  (forall (i j : nat) s c x,
     keys !! i = Some s -> kids !! j = Some c -> x ∈ flat c ->
     (j <= i)%nat -> le x s) /\
  (forall (i j : nat) s c x,
     keys !! i = Some s -> kids !! j = Some c -> x ∈ flat c ->
     (i < j)%nat -> le s x) /\
  (forall (i : nat) s,
     keys !! i = Some s ->
     exists c y, kids !! S i = Some c /\ y ∈ flat c /\ key_eq y s = true).

Fixpoint ordered (t : tree) : Prop :=
  match t with
  | Tr _ keys kids =>
      (kids = [] -> srt keys) /\ (kids <> [] -> kid_ok keys kids) /\
      Every ordered kids
  end.

Lemma ordered_unfold t :
  ordered t <->
  (tkids t = [] -> srt (tkeys t)) /\
  (tkids t <> [] -> kid_ok (tkeys t) (tkids t)) /\
  Forall ordered (tkids t).
Proof. destruct t; simpl. by rewrite Every_Forall. Qed.

Lemma elem_of_flat_inner t x :
  tkids t <> [] ->
  x ∈ flat t <-> exists (j : nat) c, tkids t !! j = Some c /\ x ∈ flat c.
Proof.
  intros Hk. rewrite flat_unfold. destruct (tkids t) as [|k0 kids]; [done|].
  rewrite list_elem_of_In, in_concat. split.
  - intros (l & Hl & Hx). apply in_map_iff in Hl.
    destruct Hl as (c & <- & Hc). apply list_elem_of_In in Hc.
    apply list_elem_of_lookup in Hc. destruct Hc as [j Hj].
    exists j, c. by rewrite list_elem_of_In.
  - intros (j & c & Hj & Hx). exists (flat c). split.
    + apply in_map. apply list_elem_of_In.
      by eapply list_elem_of_lookup_2.
    + by apply list_elem_of_In.
Qed.

Lemma srt_nil : srt [].
Proof. by intros i j a b Hi. Qed.

Lemma kid_ok_srt keys kids : kid_ok keys kids -> srt keys.
Proof.
  intros (K1 & K2 & K3) i j a b Hi Hj Hij.
  destruct (K3 i a Hi) as (c & y & Hc & Hy & Heq).
  apply key_eq_le in Heq. destruct Heq as [_ Hay].
  apply (le_trans a y b); [done|].
  apply (K1 j (S i) b c y); first [done|lia].
Qed.

(** Putting [v] in at the place the scan for [v] stops keeps the
    order. *)
Lemma srt_ins v l : srt l -> srt (ins_at (lb_lt v l) v l).
Proof.
  intros Hs i j a b.
  pose proof (lbound_le (fun d => key_lt d v) l) as Hp.
  fold (lb_lt v l) in Hp.
  rewrite !lookup_ins_at by done. intros Hi Hj Hij.
  assert (Hlo : forall (q : nat) d, l !! q = Some d -> (q < lb_lt v l)%nat ->
                                    le d v).
  { intros q d Hq Hlt. apply lt_le.
    apply (lbound_before (fun d => key_lt d v) l q d Hq Hlt). }
  assert (Hhi : forall (q : nat) d, l !! q = Some d -> (lb_lt v l <= q)%nat ->
                                    le v d).
  { intros q d Hq Hge.
    destruct (lookup_lt_is_Some_2 l (lb_lt v l)) as [e He].
    { apply lookup_lt_Some in Hq. lia. }
    pose proof (lbound_at (fun d => key_lt d v) l e He) as Hev.
    destruct (decide (q = lb_lt v l)) as [->|Hne].
    - rewrite He in Hq. by injection Hq as <-.
    - apply (le_trans v e d); [done|].
      apply (Hs (lb_lt v l) q); try done. lia. }
  repeat case_decide; simplify_eq; try lia.
  - by apply (Hs i j).
  - by apply (Hlo i).
  - apply (le_trans a v b); [by apply (Hlo i)|].
    apply (Hhi (j - 1)%nat); [done|lia].
  - apply (Hhi (j - 1)%nat); [done|lia].
  - apply (Hs (i - 1)%nat (j - 1)%nat); try done. lia.
Qed.

Lemma flat_nonempty t : forall lo hi,
  sized ORDER lo hi t -> (1 <= lo)%nat -> flat t <> [].
Proof.
  induction t as [p keys kids IH] using tree_ind'. intros lo hi Hs Hlo.
  destruct (half_ord ORDER ORDER_ge ORDER_even) as (_ & Hh & _).
  apply sized_unfold in Hs. destruct Hs as (Hlen & Har & Hsk).
  cbn [tkeys tkids] in *.
  destruct kids as [|k0 kids].
  - simpl. destruct keys; [simpl in Hlen; lia|done].
  - rewrite flat_unfold. cbn [tkids map concat].
    apply Forall_cons in IH, Hsk. destruct IH as [IH0 _].
    destruct Hsk as [Hs0 _].
    specialize (IH0 _ _ Hs0 Hh). destruct (flat k0); [done|done].
Qed.

(** ** Splitting keeps the order *)

Lemma kid_ok_take keys kids (h : nat) :
  kid_ok keys kids -> kid_ok (take h keys) (take (S h) kids).
Proof.
  intros (K1 & K2 & K3). split_and!.
  - intros i j s c x Hi Hj Hx Hji.
    apply lookup_take_Some in Hi. destruct Hi as [Hi _].
    apply lookup_take_Some in Hj. destruct Hj as [Hj _].
    by apply (K1 i j s c x).
  - intros i j s c x Hi Hj Hx Hij.
    apply lookup_take_Some in Hi. destruct Hi as [Hi _].
    apply lookup_take_Some in Hj. destruct Hj as [Hj _].
    by apply (K2 i j s c x).
  - intros i s Hi. apply lookup_take_Some in Hi. destruct Hi as [Hi Hlt].
    destruct (K3 i s Hi) as (c & y & Hc & Hy & Heq).
    exists c, y. split_and!; try done.
    rewrite lookup_take_lt by lia. done.
Qed.

Lemma kid_ok_drop keys kids (h : nat) :
  kid_ok keys kids -> kid_ok (drop h keys) (drop h kids).
Proof.
  intros (K1 & K2 & K3). split_and!.
  - intros i j s c x Hi Hj Hx Hji. rewrite lookup_drop in Hi; rewrite lookup_drop in Hj.
    apply (K1 (h + i)%nat (h + j)%nat s c x); try done. lia.
  - intros i j s c x Hi Hj Hx Hij. rewrite lookup_drop in Hi; rewrite lookup_drop in Hj.
    apply (K2 (h + i)%nat (h + j)%nat s c x); try done. lia.
  - intros i s Hi. rewrite lookup_drop in Hi.
    destruct (K3 _ s Hi) as (c & y & Hc & Hy & Heq).
    exists c, y. split_and!; try done.
    rewrite lookup_drop. by replace (h + S i)%nat with (S (h + i)) by lia.
Qed.

Lemma srt_take l (h : nat) : srt l -> srt (take h l).
Proof.
  intros Hs i j a b Hi Hj Hij.
  apply lookup_take_Some in Hi. destruct Hi as [Hi _].
  apply lookup_take_Some in Hj. destruct Hj as [Hj _].
  by apply (Hs i j).
Qed.

Lemma srt_drop l (h : nat) : srt l -> srt (drop h l).
Proof.
  intros Hs i j a b Hi Hj Hij. rewrite lookup_drop in Hi; rewrite lookup_drop in Hj.
  apply (Hs (h + i)%nat (h + j)%nat); try done. lia.
Qed.

Lemma tsplit_ordered lp rp (c : tree) lo l sep r :
  ordered c -> sized ORDER lo (S (ord ORDER)) c ->
  length (tkeys c) = S (ord ORDER) ->
  tsplit ORDER lp rp c = (l, sep, r) ->
  ordered l /\ ordered r /\
  (forall x, x ∈ flat l -> le x sep) /\
  (forall x, x ∈ flat r -> le sep x) /\
  (exists y, y ∈ flat r /\ key_eq y sep = true).
Proof.
  intros Ho Hs Hlen E.
  destruct (half_ord ORDER ORDER_ge ORDER_even) as (H2 & H1 & _).
  apply sized_unfold in Hs. destruct Hs as (_ & Har & _).
  apply ordered_unfold in Ho. destruct Ho as (Hleaf & Hinner & Hkids).
  destruct c as [cp ks kids]. cbn [tkids tkeys tpid] in *.
  assert (Hsep : ks !! half ORDER = Some (nth (half ORDER) ks key_default)).
  { destruct (nth_lookup_or_length ks (half ORDER) key_default); [done|lia]. }
  unfold tsplit in E. cbn [tkids tkeys tpid] in E.
  destruct kids as [|k0 kids0].
  - injection E as <- <- <-. specialize (Hleaf eq_refl).
    split_and!.
    + apply ordered_unfold. cbn [tkids tkeys]. split_and!; try done.
      intros _. by apply srt_take.
    + apply ordered_unfold. cbn [tkids tkeys]. split_and!; try done.
      intros _. by apply srt_drop.
    + intros x Hx. cbn [flat] in Hx.
      apply list_elem_of_lookup in Hx. destruct Hx as [i Hi].
      apply lookup_take_Some in Hi. destruct Hi as [Hi Hlt].
      by apply (Hleaf i (half ORDER)).
    + intros x Hx. cbn [flat] in Hx.
      apply list_elem_of_lookup in Hx. destruct Hx as [i Hi].
      rewrite lookup_drop in Hi.
      destruct (decide (i = 0%nat)) as [->|Hne].
      * rewrite Nat.add_0_r, Hsep in Hi. injection Hi as <-. apply le_refl.
      * apply (Hleaf (half ORDER) (half ORDER + i)%nat); try done. lia.
    + exists (nth (half ORDER) ks key_default). split; [|apply key_eq_refl].
      cbn [flat]. apply list_elem_of_lookup. exists 0%nat.
      by rewrite lookup_drop, Nat.add_0_r.
  - destruct Har as [Har|Har]; [done|].
    specialize (Hinner ltac:(done)).
    remember (k0 :: kids0) as kids eqn:Ekids.
    assert (Hkl : take (S (half ORDER)) kids <> []).
    { rewrite Ekids. done. }
    assert (Hkr : drop (S (half ORDER)) kids <> []).
    { intros Hnil. apply (f_equal length) in Hnil.
      rewrite length_drop in Hnil. cbn [length] in Hnil, Har. lia. }
    injection E as <- <- <-.
    pose proof Hinner as (K1 & K2 & K3).
    split_and!.
    + apply ordered_unfold. cbn [tkids tkeys]. split_and!; try done.
      * intros _. by apply kid_ok_take.
      * by apply Forall_take.
    + apply ordered_unfold. cbn [tkids tkeys]. split_and!; try done.
      * intros _. by apply kid_ok_drop.
      * by apply Forall_drop.
    + intros x Hx. apply elem_of_flat_inner in Hx; [|done].
      cbn [tkids] in Hx. destruct Hx as (j & c & Hj & Hx).
      apply lookup_take_Some in Hj. destruct Hj as [Hj Hlt].
      apply (K1 (half ORDER) j _ c x); try done. lia.
    + intros x Hx. apply elem_of_flat_inner in Hx; [|done].
      cbn [tkids] in Hx. destruct Hx as (j & c & Hj & Hx).
      rewrite lookup_drop in Hj.
      apply (K2 (half ORDER) (S (half ORDER) + j)%nat _ c x); try done. lia.
    + destruct (K3 _ _ Hsep) as (c & y & Hc & Hy & Heq).
      exists y. split; [|done].
      apply elem_of_flat_inner; [done|]. cbn [tkids].
      exists 0%nat, c. split; [|done].
      by rewrite lookup_drop, Nat.add_0_r.
Qed.

(** ** Insertion keeps the order *)

Lemma lookup_ins_at_Some {A} (p : nat) (a : A) l (i : nat) (e : A) :
  (p <= length l)%nat -> ins_at p a l !! i = Some e ->
  ((i < p)%nat /\ l !! i = Some e) \/ (i = p /\ e = a) \/
  ((p < i)%nat /\ l !! (i - 1)%nat = Some e).
Proof.
  intros Hp. rewrite lookup_ins_at by done.
  repeat case_decide; intros He; simplify_eq; auto.
  right. right. split; [lia|done].
Qed.

Lemma lookup_two_for_one_Some {A} (p : nat) (a b : A) l (j : nat) (e : A) :
  (p < length l)%nat ->
  (take p l ++ a :: b :: drop (S p) l) !! j = Some e ->
  ((j < p)%nat /\ l !! j = Some e) \/ (j = p /\ e = a) \/
  (j = S p /\ e = b) \/ ((S p < j)%nat /\ l !! (j - 1)%nat = Some e).
Proof.
  intros Hp. rewrite lookup_two_for_one by done.
  repeat case_decide; intros He; simplify_eq; auto.
  right. right. right. split; [lia|done].
Qed.

Lemma flat_inner p (keys : list T) (kids : list tree) :
  kids <> [] -> flat (Tr p keys kids) = concat (map flat kids).
Proof. by destruct kids. Qed.

Lemma flat_middle (A B X : list (tree (T := T))) :
  concat (map flat (A ++ X ++ B)) =
  concat (map flat A) ++ concat (map flat X) ++ concat (map flat B).
Proof. by rewrite !map_app, !concat_app. Qed.

(** What the parent of a child knows about an entry of the child it
    descended into, before and after [v] went in. *)
Lemma child_bounds v keys (kids : list tree) (c : tree) z :
  kid_ok keys kids -> kids !! lb_lt v keys = Some c ->
  z = v \/ z ∈ flat c ->
  (forall (i : nat) s, keys !! i = Some s -> (i < lb_lt v keys)%nat -> le s z) /\
  (forall (i : nat) s, keys !! i = Some s -> (lb_lt v keys <= i)%nat -> le z s).
Proof.
  intros HK Hc Hz. pose proof (kid_ok_srt _ _ HK) as Hsrt.
  destruct HK as (K1 & K2 & K3). split.
  - intros i s Hi Hlt. destruct Hz as [->|Hz].
    + apply lt_le.
      apply (lbound_before (fun d => key_lt d v) keys i s Hi Hlt).
    + by apply (K2 i (lb_lt v keys) s c z).
  - intros i s Hi Hge. destruct Hz as [->|Hz].
    + destruct (lookup_lt_is_Some_2 keys (lb_lt v keys)) as [e He].
      { apply lookup_lt_Some in Hi. lia. }
      pose proof (lbound_at (fun d => key_lt d v) keys e He) as Hev.
      destruct (decide (i = lb_lt v keys)) as [->|Hne].
      * rewrite He in Hi. by injection Hi as <-.
      * apply (le_trans v e s); [done|].
        apply (Hsrt (lb_lt v keys) i); try done. lia.
    + by apply (K1 i (lb_lt v keys) s c z).
Qed.

(** The child [c] the insertion of [v] descended into is replaced by
    [c'], which holds [v] and what [c] held. *)
Lemma kid_ok_replace v keys (kids : list tree) (c c' : tree) :
  kid_ok keys kids -> kids !! lb_lt v keys = Some c ->
  (forall z, z ∈ flat c' <-> z = v \/ z ∈ flat c) ->
  kid_ok keys (take (lb_lt v keys) kids ++ c' :: drop (S (lb_lt v keys)) kids).
Proof.
  intros HK Hc Hmem. set (p := lb_lt v keys) in *.
  assert (Hp : (p < length kids)%nat) by (by eapply lookup_lt_Some).
  assert (Hlo : forall z (i : nat) s, z ∈ flat c' ->
    keys !! i = Some s -> (i < p)%nat -> le s z).
  { intros z i s Hz. apply (child_bounds v keys kids c z HK Hc).
    by apply Hmem. }
  assert (Hhi : forall z (i : nat) s, z ∈ flat c' ->
    keys !! i = Some s -> (p <= i)%nat -> le z s).
  { intros z i s Hz. apply (child_bounds v keys kids c z HK Hc).
    by apply Hmem. }
  destruct HK as (K1 & K2 & K3). split_and!.
  - intros i j s c0 x Hi Hj Hx Hji.
    rewrite lookup_one_for_one in Hj by done.
    destruct (decide (j = p)) as [->|Hne].
    + injection Hj as <-. by apply (Hhi x i s).
    + by apply (K1 i j s c0 x).
  - intros i j s c0 x Hi Hj Hx Hij.
    rewrite lookup_one_for_one in Hj by done.
    destruct (decide (j = p)) as [->|Hne].
    + injection Hj as <-. by apply (Hlo x i s).
    + by apply (K2 i j s c0 x).
  - intros i s Hi. destruct (K3 i s Hi) as (c0 & y & Hc0 & Hy & Heq).
    rewrite lookup_one_for_one by done.
    destruct (decide (S i = p)) as [Hip|Hne].
    + exists c', y. split_and!; try done.
      apply Hmem. right. rewrite Hip, Hc in Hc0. by injection Hc0 as <-.
    + by exists c0, y.
Qed.

(** The child [c] is replaced by the two halves [l] and [r] of what
    became of it, and the separator [sep] is put in between. *)
Lemma kid_ok_split v keys (kids : list tree) (c l r : tree) sep :
  kid_ok keys kids -> kids !! lb_lt v keys = Some c ->
  length kids = S (length keys) ->
  (forall z, z ∈ flat l \/ z ∈ flat r <-> z = v \/ z ∈ flat c) ->
  flat l <> [] ->
  (forall x, x ∈ flat l -> le x sep) ->
  (forall x, x ∈ flat r -> le sep x) ->
  (exists y, y ∈ flat r /\ key_eq y sep = true) ->
  kid_ok (ins_at (lb_lt v keys) sep keys)
         (take (lb_lt v keys) kids ++ l :: r :: drop (S (lb_lt v keys)) kids).
Proof.
  intros HK Hc Har Hmem Hlne Hl Hr (y0 & Hy0 & Hy0s).
  set (p := lb_lt v keys) in *.
  assert (Hp : (p < length kids)%nat) by (by eapply lookup_lt_Some).
  assert (Hpk : (p <= length keys)%nat) by lia.
  assert (Hlo : forall z (i : nat) s, z ∈ flat l \/ z ∈ flat r ->
    keys !! i = Some s -> (i < p)%nat -> le s z).
  { intros z i s Hz. apply (child_bounds v keys kids c z HK Hc).
    by apply Hmem. }
  assert (Hhi : forall z (i : nat) s, z ∈ flat l \/ z ∈ flat r ->
    keys !! i = Some s -> (p <= i)%nat -> le z s).
  { intros z i s Hz. apply (child_bounds v keys kids c z HK Hc).
    by apply Hmem. }
  apply key_eq_le in Hy0s. destruct Hy0s as [Hys Hsy].
  assert (Hsa : forall (i : nat) s, keys !! i = Some s -> (i < p)%nat ->
                                    le s sep).
  { intros i s Hi Hlt. apply (le_trans s y0 sep); [|done].
    apply (Hlo y0 i s); auto. }
  assert (Hsb : forall (i : nat) s, keys !! i = Some s -> (p <= i)%nat ->
                                    le sep s).
  { intros i s Hi Hge. apply (le_trans sep y0 s); [done|].
    apply (Hhi y0 i s); auto. }
  destruct HK as (K1 & K2 & K3). split_and!.
  - intros i j s c0 x Hi Hj Hx Hji.
    apply lookup_ins_at_Some in Hi; [|done].
    apply lookup_two_for_one_Some in Hj; [|done].
    destruct Hi as [[Hi1 Hi]|[[-> ->]|[Hi1 Hi]]];
      destruct Hj as [[Hj1 Hj]|[[-> ->]|[[-> ->]|[Hj1 Hj]]]];
      try (exfalso; lia).
    + by apply (K1 i j s c0 x).
    + destruct (lookup_lt_is_Some_2 keys (p - 1)%nat ltac:(lia)) as [e He].
      apply (le_trans x e sep).
      * apply (K1 (p - 1)%nat j e c0 x); try done. lia.
      * apply (Hsa (p - 1)%nat); [done|lia].
    + by apply Hl.
    + apply (K1 (i - 1)%nat j s c0 x); try done. lia.
    + apply (Hhi x (i - 1)%nat s); [by left|done|lia].
    + apply (Hhi x (i - 1)%nat s); [by right|done|lia].
    + apply (K1 (i - 1)%nat (j - 1)%nat s c0 x); try done. lia.
  - intros i j s c0 x Hi Hj Hx Hij.
    apply lookup_ins_at_Some in Hi; [|done].
    apply lookup_two_for_one_Some in Hj; [|done].
    destruct Hi as [[Hi1 Hi]|[[-> ->]|[Hi1 Hi]]];
      destruct Hj as [[Hj1 Hj]|[[-> ->]|[[-> ->]|[Hj1 Hj]]]];
      try (exfalso; lia).
    + by apply (K2 i j s c0 x).
    + apply (Hlo x i s); [by left|done|lia].
    + apply (Hlo x i s); [by right|done|lia].
    + apply (K2 i (j - 1)%nat s c0 x); try done. lia.
    + by apply Hr.
    + apply lookup_lt_Some in Hj as Hjl.
      destruct (lookup_lt_is_Some_2 keys p ltac:(lia)) as [e He].
      apply (le_trans sep e x).
      * by apply (Hsb p).
      * apply (K2 p (j - 1)%nat e c0 x); try done. lia.
    + apply (K2 (i - 1)%nat (j - 1)%nat s c0 x); try done. lia.
  - intros i s Hi.
    apply lookup_ins_at_Some in Hi; [|done].
    destruct Hi as [[Hi1 Hi]|[[-> ->]|[Hi1 Hi]]].
    + destruct (K3 i s Hi) as (c0 & y & Hc0 & Hy & Heq).
      rewrite lookup_two_for_one by done.
      destruct (decide (S i < p)%nat) as [Hlt|Hge].
      { by exists c0, y. }
      assert (S i = p) as Hip by lia.
      rewrite decide_True by done.
      rewrite Hip, Hc in Hc0. injection Hc0 as <-.
      assert (Hyc : y ∈ flat l \/ y ∈ flat r) by (apply Hmem; by right).
      destruct Hyc as [Hyl|Hyr]; [by exists l, y|].
      assert (Hz : exists z, z ∈ flat l).
      { destruct (flat l) as [|z fl]; [done|]. exists z. left. }
      destruct Hz as [z Hzl].
      exists l, z. split_and!; [done|done|].
      apply key_eq_le in Heq. destruct Heq as [Hy1 Hy2].
      apply key_eq_le. split.
      * apply (le_trans z sep s); [by apply Hl|].
        apply (le_trans sep y s); [by apply Hr|done].
      * apply (Hlo z i s); [by left|done|lia].
    + rewrite lookup_two_for_one by done.
      rewrite decide_False by lia. rewrite decide_False by lia.
      rewrite decide_True by done.
      exists r, y0. split_and!; try done. apply key_eq_le. by split.
    + destruct (K3 (i - 1)%nat s Hi) as (c0 & y & Hc0 & Hy & Heq).
      rewrite lookup_two_for_one by done.
      rewrite !decide_False by lia.
      exists c0, y. split_and!; try done.
      rewrite <- Hc0. f_equal. lia.
Qed.

(** [insert_helper] adds [v] to the entries of the tree and keeps them
    ordered. *)
Lemma tinsert_ordered (fuel : nat) : forall hc v t lo hi t' hc',
  tinsert ORDER fuel hc v t = (t', hc') ->
  sized ORDER lo hi t -> (hi <= ord ORDER)%nat -> (height t <= fuel)%nat ->
  flat t' ≡ₚ v :: flat t /\ (ordered t -> ordered t').
Proof.
  induction fuel as [|fuel IH]; intros hc v t lo hi t' hc' E Hs Hhi Hh.
  { rewrite height_unfold in Hh. lia. }
  destruct (half_ord ORDER ORDER_ge ORDER_even) as (H2 & H1 & Hord & _).
  simpl in E.
  pose proof (lbound_le (fun d => key_lt d v) (tkeys t)) as Hlb.
  fold (lb_lt v (tkeys t)) in Hlb.
  pose proof Hs as Hs'. apply sized_unfold in Hs'.
  destruct Hs' as (Hlen & Har & Hkids).
  destruct (tkids t !! lb_lt v (tkeys t)) as [c|] eqn:Ec.
  2:{ (* a leaf *)
    injection E as <- <-.
    assert (Hleaf : tkids t = []).
    { destruct Har as [?|Har]; [done|].
      apply lookup_ge_None_1 in Ec. lia. }
    split.
    - rewrite !flat_unfold. cbn [tkids tkeys]. rewrite Hleaf.
      unfold ins_at. rewrite <- Permutation_middle. by rewrite take_drop.
    - intros Ho. apply ordered_unfold in Ho. destruct Ho as (Hl & _ & _).
      apply ordered_unfold. cbn [tkids tkeys]. rewrite Hleaf.
      split_and!; [|done|done]. intros _. apply srt_ins. by apply Hl. }
  (* an inner node *)
  assert (Hin : c ∈ tkids t) by (eapply list_elem_of_lookup_2; eauto).
  assert (Hsc : sized ORDER (half ORDER) (ord ORDER) c).
  { rewrite Forall_forall in Hkids. by apply Hkids. }
  assert (Hne : tkids t <> []) by (intros H0; rewrite H0 in Ec; done).
  destruct Har as [?|Har]; [done|].
  pose proof (take_drop_middle _ _ _ Ec) as Hmid.
  assert (Hft : flat t =
    concat (map flat (take (lb_lt v (tkeys t)) (tkids t))) ++ flat c ++
    concat (map flat (drop (S (lb_lt v (tkeys t))) (tkids t)))).
  { rewrite flat_unfold. destruct (tkids t) as [|k0 ks] eqn:Ek; [done|].
    rewrite <- Hmid at 1.
    change (c :: drop (S (lb_lt v (tkeys t))) (k0 :: ks))
      with ([c] ++ drop (S (lb_lt v (tkeys t))) (k0 :: ks)).
    rewrite flat_middle. simpl. by rewrite app_nil_r. }
  destruct (tinsert ORDER fuel hc v c) as [c' hc1] eqn:Ei.
  assert (Hhc : (height c <= fuel)%nat).
  { apply height_kid in Hin. lia. }
  destruct (IH _ _ _ _ _ _ _ Ei Hsc (le_n _) Hhc) as (Hfc & Hoc).
  destruct (tinsert_basic ORDER ORDER_ge ORDER_even _ _ _ _ _ _ _ _
              Ei Hsc (le_n _)) as (_ & _ & _ & _ & Hsc' & _ & _).
  assert (Hmem : forall z, z ∈ flat c' <-> z = v \/ z ∈ flat c).
  { intros z. rewrite Hfc. apply elem_of_cons. }
  destruct (overflowed ORDER c') eqn:Eo.
  - (* the child is split *)
    unfold overflowed in Eo.
    apply sized_unfold in Hsc' as Hsc''. destruct Hsc'' as (Hlc' & _ & _).
    assert (Hlen' : length (tkeys c') = S (ord ORDER)) by lia.
    destruct (tsplit ORDER (tpid c') (hc1 + 1) c') as [[l sep] r] eqn:Et.
    destruct (tsplit_basic ORDER ORDER_ge ORDER_even _ _ _ _ Hsc' Hlen'
                _ _ _ Et)
      as (_ & _ & Hsl & _ & _ & _ & _ & _ & _ & _ & Hflr).
    injection E as <- <-.
    assert (Hk' : take (lb_lt v (tkeys t)) (tkids t) ++
                  l :: r :: drop (S (lb_lt v (tkeys t))) (tkids t) <> []).
    { intros H0. apply (f_equal length) in H0.
      rewrite length_app in H0. simpl in H0. lia. }
    split.
    + rewrite flat_inner by done.
      change (l :: r :: drop (S (lb_lt v (tkeys t))) (tkids t))
        with ([l; r] ++ drop (S (lb_lt v (tkeys t))) (tkids t)).
      rewrite flat_middle, Hft. simpl. rewrite app_nil_r, Hflr, Hfc.
      cbn [app]. by rewrite <- Permutation_middle.
    + intros Ho. apply ordered_unfold in Ho.
      destruct Ho as (_ & Hinner & Hok). specialize (Hinner Hne).
      assert (Hoc' : ordered c').
      { apply Hoc. rewrite Forall_forall in Hok. by apply Hok. }
      destruct (tsplit_ordered _ _ _ _ _ _ _ Hoc' Hsc' Hlen' Et)
        as (Hol & Hor & Hlsep & Hrsep & Hy).
      apply ordered_unfold. cbn [tkids tkeys]. split_and!; [done| |].
      * intros _. apply (kid_ok_split v (tkeys t) (tkids t) c l r sep);
          try done.
        -- intros z. rewrite <- Hmem, <- Hflr. by rewrite elem_of_app.
        -- by apply (flat_nonempty l (half ORDER) (ord ORDER)).
      * apply Forall_app. split; [by apply Forall_take|].
        repeat (apply Forall_cons; split; [done|]). by apply Forall_drop.
  - (* the child has room *)
    injection E as <- <-.
    assert (Hk' : take (lb_lt v (tkeys t)) (tkids t) ++
                  c' :: drop (S (lb_lt v (tkeys t))) (tkids t) <> []).
    { intros H0. apply (f_equal length) in H0.
      rewrite length_app in H0. simpl in H0. lia. }
    split.
    + rewrite flat_inner by done.
      change (c' :: drop (S (lb_lt v (tkeys t))) (tkids t))
        with ([c'] ++ drop (S (lb_lt v (tkeys t))) (tkids t)).
      rewrite flat_middle, Hft. simpl. rewrite app_nil_r, Hfc.
      cbn [app]. by rewrite <- Permutation_middle.
    + intros Ho. apply ordered_unfold in Ho.
      destruct Ho as (_ & Hinner & Hok). specialize (Hinner Hne).
      assert (Hoc' : ordered c').
      { apply Hoc. rewrite Forall_forall in Hok. by apply Hok. }
      apply ordered_unfold. cbn [tkids tkeys]. split_and!; [done| |].
      * intros _. by apply (kid_ok_replace v (tkeys t) (tkids t) c c').
      * apply Forall_app. split; [by apply Forall_take|].
        apply Forall_cons. split; [done|]. by apply Forall_drop.
Qed.

(** The same for [insert], which may split the root. *)
Lemma tinsert_root_ordered (fuel : nat) hc v t t' hc' :
  tinsert_root ORDER fuel hc v t = (t', hc') ->
  sized ORDER 0 (ord ORDER) t -> (height t <= fuel)%nat ->
  flat t' ≡ₚ v :: flat t /\ (ordered t -> ordered t').
Proof.
  intros E Hs Hh. unfold tinsert_root in E.
  destruct (half_ord ORDER ORDER_ge ORDER_even) as (H2 & H1 & Hord & _).
  destruct (tinsert ORDER fuel hc v t) as [t1 hc1] eqn:Ei.
  destruct (tinsert_ordered _ _ _ _ _ _ _ _ Ei Hs (le_n _) Hh) as (Hf & Ho).
  destruct (tinsert_basic ORDER ORDER_ge ORDER_even _ _ _ _ _ _ _ _
              Ei Hs (le_n _)) as (_ & _ & _ & _ & Hs1 & _ & _).
  destruct (overflowed ORDER t1) eqn:Eo.
  - unfold overflowed in Eo.
    apply sized_unfold in Hs1 as Hs1'. destruct Hs1' as (Hl1 & _ & _).
    assert (Hlen1 : length (tkeys t1) = S (ord ORDER)) by lia.
    destruct (tsplit ORDER (hc1 + 1) (hc1 + 2) t1) as [[l sep] r] eqn:Et.
    destruct (tsplit_basic ORDER ORDER_ge ORDER_even _ _ _ _ Hs1 Hlen1
                _ _ _ Et)
      as (_ & _ & Hsl & Hsr & _ & _ & _ & _ & _ & _ & Hflr).
    injection E as <- <-. split.
    + rewrite flat_inner by done. simpl. by rewrite app_nil_r, Hflr.
    + intros Hot.
      destruct (tsplit_ordered _ _ _ _ _ _ _ (Ho Hot) Hs1 Hlen1 Et)
        as (Hol & Hor & Hlsep & Hrsep & (y & Hy & Hys)).
      apply ordered_unfold. cbn [tkids tkeys]. split_and!; [done| |].
      * intros _. split_and!.
        -- intros i j s c x Hi Hj Hx Hji.
           destruct i as [|i]; [|done]. injection Hi as <-.
           destruct j as [|j]; [|lia]. injection Hj as <-. by apply Hlsep.
        -- intros i j s c x Hi Hj Hx Hij.
           destruct i as [|i]; [|done]. injection Hi as <-.
           destruct j as [|[|j]]; [lia| |done].
           injection Hj as <-. by apply Hrsep.
        -- intros i s Hi. destruct i as [|i]; [|done]. injection Hi as <-.
           by exists r, y.
      * by repeat (apply Forall_cons; split; [done|]).
  - injection E as <- <-. done.
Qed.

(** ** Where the search arrives *)

(** What the search reaches is a final part of the entries. *)
Lemma tseek_suffix k t : forall lo hi,
  sized ORDER lo hi t -> exists pre, flat t = pre ++ tseek k t.
Proof.
  induction t as [p keys kids IH] using tree_ind'. intros lo hi Hs.
  apply sized_unfold in Hs. destruct Hs as (Hlen & Har & Hsk).
  cbn [tkeys tkids] in *.
  destruct (decide (kids = [])) as [->|Hne].
  - exists (take (lb_lt k keys) keys).
    rewrite (tseek_leaf k (Tr p keys [])) by done. cbn [flat tkeys].
    by rewrite take_drop.
  - destruct Har as [?|Har]; [done|].
    pose proof (lbound_le (fun d => key_le d k) keys) as Hlb.
    fold (lb_le k keys) in Hlb.
    destruct (lookup_lt_is_Some_2 kids (lb_le k keys) ltac:(lia)) as [c Ec].
    rewrite (tseek_inner k (Tr p keys kids) c Ec). cbn [tkids tkeys].
    assert (Hin : c ∈ kids) by (eapply list_elem_of_lookup_2; eauto).
    rewrite Forall_forall in IH, Hsk.
    destruct (IH c Hin _ _ (Hsk c Hin)) as [pre Hpre].
    exists (concat (map flat (take (lb_le k keys) kids)) ++ pre).
    rewrite flat_inner by done.
    rewrite <- (take_drop_middle _ _ _ Ec) at 1.
    change (c :: drop (S (lb_le k keys)) kids)
      with ([c] ++ drop (S (lb_le k keys)) kids).
    rewrite flat_middle. simpl. rewrite app_nil_r, Hpre.
    by rewrite <- !app_assoc.
Qed.

(** When the tree has an entry equal to [k], the search arrives at
    one. *)
Lemma tseek_hit k t : forall lo hi,
  ordered t -> sized ORDER lo hi t ->
  (exists x, x ∈ flat t /\ key_eq x k = true) ->
  exists y rest, tseek k t = y :: rest /\ key_eq y k = true.
Proof.
  induction t as [p keys kids IH] using tree_ind'. intros lo hi Ho Hs Hx.
  apply sized_unfold in Hs. destruct Hs as (Hlen & Har & Hsk).
  apply ordered_unfold in Ho. destruct Ho as (Hleaf & Hinner & Hok).
  cbn [tkeys tkids] in *. destruct Hx as (x & Hx & Hxk).
  apply key_eq_le in Hxk as Hxk'. destruct Hxk' as [Hxk1 Hxk2].
  destruct (decide (kids = [])) as [->|Hne].
  - (* a leaf *)
    specialize (Hleaf eq_refl).
    rewrite (tseek_leaf k (Tr p keys [])) by done. cbn [flat tkeys] in *.
    apply list_elem_of_lookup in Hx. destruct Hx as [q Hq].
    set (i := lb_lt k keys).
    assert (Hiq : (i <= q)%nat).
    { destruct (decide (i <= q)%nat) as [|Hn]; [done|].
      pose proof (lbound_before (fun d => key_lt d k) keys q x Hq
                    ltac:(unfold i, lb_lt in *; lia)) as Hlt.
      cbv beta in Hlt. unfold le in Hxk2. congruence. }
    destruct (lookup_lt_is_Some_2 keys i) as [y Hy].
    { apply lookup_lt_Some in Hq. lia. }
    rewrite (drop_S _ _ _ Hy). exists y, (drop (S i) keys).
    split; [done|]. apply key_eq_le.
    pose proof (lbound_at (fun d => key_lt d k) keys y Hy) as Hyk.
    split; [|exact Hyk].
    destruct (decide (i = q)) as [Heq|Hneq].
    + rewrite Heq, Hq in Hy. by injection Hy as <-.
    + apply (le_trans y x k); [|done].
      apply (Hleaf i q); try done. lia.
  - (* an inner node *)
    destruct Har as [?|Har]; [done|]. specialize (Hinner Hne).
    pose proof (kid_ok_srt _ _ Hinner) as Hsrt.
    destruct Hinner as (K1 & K2 & K3).
    pose proof (lbound_le (fun d => key_le d k) keys) as Hlb.
    fold (lb_le k keys) in Hlb.
    set (i := lb_le k keys) in *.
    destruct (lookup_lt_is_Some_2 kids i ltac:(lia)) as [c Ec].
    rewrite (tseek_inner k (Tr p keys kids) c Ec). cbn [tkids tkeys].
    assert (Hin : c ∈ kids) by (eapply list_elem_of_lookup_2; eauto).
    rewrite Forall_forall in IH, Hsk, Hok.
    assert (Hc : exists y, y ∈ flat c /\ key_eq y k = true).
    { apply (elem_of_flat_inner (Tr p keys kids)) in Hx; [|done].
      cbn [tkids] in Hx. destruct Hx as (j & cj & Hj & Hxj).
      destruct (Nat.lt_trichotomy j i) as [Hlt|[->|Hgt]].
      - (* left of the child: the key before the child equals [k] *)
        destruct (lookup_lt_is_Some_2 keys (i - 1)%nat ltac:(lia))
          as [s Hs].
        pose proof (lbound_before (fun d => key_le d k) keys (i - 1)%nat s
                      Hs ltac:(unfold i, lb_le in *; lia)) as Hsk'.
        cbv beta in Hsk'. apply key_le_le in Hsk'.
        assert (Hxs : le x s).
        { apply (K1 (i - 1)%nat j s cj x); try done. lia. }
        destruct (K3 (i - 1)%nat s Hs) as (c0 & y & Hc0 & Hy & Hys).
        replace (S (i - 1)) with i in Hc0 by lia.
        rewrite Ec in Hc0. injection Hc0 as <-.
        exists y. split; [done|].
        apply (key_eq_trans y s k); [done|].
        apply key_eq_le. split; [done|].
        by apply (le_trans k x s).
      - rewrite Ec in Hj. injection Hj as <-. by exists x.
      - (* right of the child: above [k] *)
        exfalso. apply lookup_lt_Some in Hj as Hjl.
        destruct (lookup_lt_is_Some_2 keys i ltac:(lia)) as [s Hs].
        pose proof (lbound_at (fun d => key_le d k) keys s Hs) as Hsk'.
        cbv beta in Hsk'. apply key_le_false in Hsk'.
        assert (Hsx : le s x) by (by apply (K2 i j s cj x)).
        pose proof (lt_le_trans k s x Hsk' Hsx) as Hkx.
        unfold le in Hxk1. congruence. }
    destruct (IH c Hin _ _ (Hok c Hin) (Hsk c Hin) Hc)
      as (y & rest & Ey & Hyk).
    rewrite Ey. exists y. eexists. split; [reflexivity|done].
Qed.

(** ** The tree after a sequence of insertions *)

Lemma ordered_create : ordered (Tr 1 [] []).
Proof.
  apply ordered_unfold. cbn [tkids tkeys].
  split_and!; try done; intros _; apply srt_nil.
Qed.

Lemma insert_all_ordered values : forall bt t,
  Inv ORDER bt t -> ordered t ->
  exists bt' t', insert_all ORDER values bt = Some bt' /\
    Inv ORDER bt' t' /\ ordered t' /\ flat t' ≡ₚ flat t ++ values.
Proof.
  induction values as [|v values IH]; intros bt t HI Ho.
  - exists bt, t. by rewrite app_nil_r.
  - destruct (tinsert_root ORDER (depth_bound bt) (hcount (header bt)) v t)
      as [t1 hc1] eqn:E.
    destruct (insert_spec ORDER ORDER_ge ORDER_even v bt t HI t1 hc1 E)
      as (bt1 & E1 & HI1 & _).
    pose proof HI as (_ & _ & _ & Hs & _ & _ & Hh & _).
    destruct (tinsert_root_ordered _ _ _ _ _ _ E Hs) as (Hf1 & Ho1).
    { unfold depth_bound. lia. }
    destruct (IH bt1 t1 HI1 (Ho1 Ho)) as (bt' & t' & E' & HI' & Ho' & Hf').
    exists bt', t'. cbn [insert_all]. rewrite E1. split_and!; try done.
    rewrite Hf', Hf1. cbn [app]. by rewrite <- Permutation_middle.
Qed.

(** [find] on an ordered tree: it arrives at an entry equal to [k]
    when there is one, and at [end()] when there is none. *)
Lemma find_spec k bt t :
  Inv ORDER bt t -> ordered t ->
  exists it, find ORDER k bt = Some it /\
    ((exists x, x ∈ flat t /\ key_eq x k = true) ->
       1 <= page_id (current_pos it) /\ deref it ∈ flat t /\
       key_eq (deref it) k = true) /\
    (~ (exists x, x ∈ flat t /\ key_eq x k = true) -> it = end_ ORDER).
Proof.
  intros HI Ho. pose proof HI as (_ & _ & _ & Hs & _).
  destruct (find_geq_spec ORDER ORDER_ge ORDER_even k bt t HI)
    as (it & E & Hit).
  destruct (tseek_suffix k t _ _ Hs) as [pre Hpre].
  unfold find. rewrite E.
  inversion Hit as [Hend Hnil|it' L Hpage Hrest Hit' HL].
  - (* the search ran off the end *)
    exists (end_ ORDER). split; [by destruct (key_eq _ _)|]. split; [|done].
    intros Hx. destruct (tseek_hit k t _ _ Ho Hs Hx) as (y & rest & Ey & _).
    congruence.
  - (* the search stands at an entry *)
    subst it'.
    assert (Hin : deref it ∈ flat t).
    { rewrite Hpre, <- HL. apply elem_of_app. right. left. }
    destruct (key_eq (deref it) k) eqn:Ek.
    + exists it. split; [done|]. split; [done|].
      intros Hn. exfalso. apply Hn. by exists (deref it).
    + exists (end_ ORDER). split; [done|]. split; [|done].
      intros Hx. destruct (tseek_hit k t _ _ Ho Hs Hx) as (y & rest & Ey & Hy).
      rewrite Ey in HL. injection HL as HL _. congruence.
Qed.

End Order.

End BPTOrder.

Module TopKHeap.

Import TopK.
Local Open Scope Z_scope.

(** * The ranking pass of [TopK]

    [make_topk] and [print] against what the three library algorithms
    they call guarantee. *)

#[export] Instance TkRecord_eq_dec : EqDecision TkRecord.
Proof. solve_decision. Defined.

(** [v] holds [n] records of [recs], or all of them when there are
    fewer, and none of the records left out has a larger count than one
    of [v]. *)
Definition best_of (recs v : list TkRecord) (n : nat) : Prop :=
  exists rest, recs ≡ₚ v ++ rest /\
    length v = Nat.min (length recs) n /\
    forall x y, x ∈ v -> y ∈ rest -> tk_count y <= tk_count x.

(** Non-increasing counts. *)
Definition count_ge (a b : TkRecord) : Prop := tk_count b <= tk_count a.

Section Heap.

Variable uninit_name : string.
Variables make_heap_greater pop_heap sort_greater
  : list TkRecord -> list TkRecord.

(** [std::make_heap] with [std::greater] rearranges the vector and puts
    a record of least count first. *)
Hypothesis make_heap_perm : forall v, make_heap_greater v ≡ₚ v.
Hypothesis make_heap_min : forall v x rest,
  make_heap_greater v = x :: rest ->
  forall y, y ∈ rest -> tk_count x <= tk_count y.
(** [std::pop_heap] moves the first record to the end and rearranges
    the others. *)
Hypothesis pop_heap_last : forall x rest,
  exists rest', pop_heap (x :: rest) = rest' ++ [x] /\ rest' ≡ₚ rest.
(** [std::sort] with [std::greater] rearranges the vector into
    non-increasing order. *)
Hypothesis sort_perm : forall v, sort_greater v ≡ₚ v.
Hypothesis sort_sorted : forall v, Sorted count_ge (sort_greater v).

(** One turn of the loop takes out a record of least count. *)
Lemma shrink_turn v :
  v <> [] ->
  exists x, v ≡ₚ removelast (pop_heap (make_heap_greater v)) ++ [x] /\
    forall y, y ∈ removelast (pop_heap (make_heap_greater v)) ->
              tk_count x <= tk_count y.
Proof.
  intros Hv. destruct (make_heap_greater v) as [|x rest] eqn:E.
  { pose proof (make_heap_perm v) as Hp. rewrite E in Hp.
    apply Permutation_nil in Hp. done. }
  destruct (pop_heap_last x rest) as (rest' & Ep & Hp).
  rewrite Ep, removelast_last. exists x. split.
  - rewrite <- (make_heap_perm v), E, Hp. apply Permutation_cons_append.
  - intros y Hy. apply (make_heap_min v x rest E). by rewrite <- Hp.
Qed.

Lemma shrink_spec (N : Z) (fuel : nat) : forall v,
  0 <= N < 2 ^ 64 -> (length v <= fuel + Z.to_nat N)%nat ->
  exists dropped,
    v ≡ₚ TopK.shrink make_heap_greater pop_heap fuel N v ++ dropped /\
    length (TopK.shrink make_heap_greater pop_heap fuel N v)
      = Nat.min (length v) (Z.to_nat N) /\
    forall x y,
      x ∈ TopK.shrink make_heap_greater pop_heap fuel N v -> y ∈ dropped ->
      tk_count y <= tk_count x.
Proof.
  intros v HN. revert v.
  assert (Hw : size_t_wrap N = N).
  { unfold size_t_wrap. apply Z.mod_small. lia. }
  induction fuel as [|fuel IH]; intros v Hlen.
  - exists []. cbn [TopK.shrink]. rewrite app_nil_r.
    split; [done|]. split; [lia|]. intros x y _ Hy. by apply elem_of_nil in Hy.
  - cbn [TopK.shrink]. rewrite Hw.
    destruct (Z.ltb_spec N (Z.of_nat (length v))) as [Hlt|Hge].
    + assert (Hv : v <> []) by (intros ->; simpl in Hlt; lia).
      destruct (shrink_turn v Hv) as (x & Hp & Hmin).
      set (v1 := removelast (pop_heap (make_heap_greater v))) in *.
      assert (Hl1 : length v = S (length v1)).
      { rewrite Hp, length_app. simpl. lia. }
      destruct (IH v1 ltac:(lia)) as (dropped & Hp1 & Hlen1 & Hb1).
      exists (dropped ++ [x]). split_and!.
      * rewrite Hp, Hp1 at 1. by rewrite <- app_assoc.
      * rewrite Hlen1. lia.
      * intros a b Ha Hb. apply elem_of_app in Hb.
        destruct Hb as [Hb|Hb]; [by apply Hb1|].
        apply list_elem_of_singleton in Hb. subst b.
        apply Hmin. rewrite Hp1. apply elem_of_app. by left.
    + exists []. rewrite app_nil_r. split; [done|]. split; [lia|].
      intros x y _ Hy. by apply elem_of_nil in Hy.
Qed.

(** The body of the loop of [make_topk] on the next record [r]. *)
Lemma step_best (N : Z) (seen v : list TkRecord) (r : TkRecord) :
  0 <= N < 2 ^ 64 ->
  best_of seen v (Z.to_nat N) ->
  let v1 := make_heap_greater (v ++ [r]) in
  best_of (seen ++ [r])
          (TopK.shrink make_heap_greater pop_heap (length v1) N v1)
          (Z.to_nat N).
Proof.
  intros HN (rest & Hp & Hlen & Hb) v1.
  destruct (shrink_spec N (length v1) v1 HN ltac:(lia))
    as (dropped & Hp1 & Hlen1 & Hb1).
  set (v' := TopK.shrink make_heap_greater pop_heap (length v1) N v1) in *.
  assert (Hv1 : v1 ≡ₚ v ++ [r]) by apply make_heap_perm.
  assert (Hlv1 : length v1 = S (length v)).
  { rewrite Hv1, length_app. simpl. lia. }
  assert (Hls : length seen = (length v + length rest)%nat).
  { by rewrite Hp, length_app. }
  assert (Hlvd : (length v' + length dropped = S (length v))%nat).
  { pose proof (Permutation_length Hp1) as HL.
    rewrite length_app in HL. lia. }
  exists (dropped ++ rest). split_and!.
  - rewrite Hp. rewrite (assoc (++)), <- Hp1, Hv1.
    rewrite <- !(assoc (++)). apply Permutation_app_head.
    apply Permutation_app_comm.
  - rewrite Hlen1, length_app, Hlv1. cbn [length]. lia.
  - intros x y Hx Hy. apply elem_of_app in Hy.
    destruct Hy as [Hy|Hy]; [by apply Hb1|].
    assert (Hxv : x ∈ v ++ [r]).
    { rewrite <- Hv1, Hp1. apply elem_of_app. by left. }
    apply elem_of_app in Hxv. destruct Hxv as [Hxv|Hxr]; [by apply Hb|].
    apply list_elem_of_singleton in Hxr. subst x.
    (* [r] is kept, so what was dropped came from [v] *)
    apply list_elem_of_In, in_split in Hx.
    destruct Hx as (va & vb & Ev').
    assert (Hd : va ++ vb ++ dropped ≡ₚ v).
    { apply (Permutation_cons_inv (a := r)).
      transitivity (v' ++ dropped).
      - rewrite Ev', <- app_assoc. cbn [app]. apply Permutation_middle.
      - rewrite <- Hp1, Hv1. symmetry. apply Permutation_cons_append. }
    assert (Hyr : rest <> []) by (intros ->; by apply elem_of_nil in Hy).
    assert (Hfull : length v = Z.to_nat N).
    { destruct rest; [done|]. simpl in Hls. lia. }
    destruct dropped as [|m dropped].
    { simpl in Hlvd. lia. }
    assert (Hm : m ∈ v).
    { rewrite <- Hd. apply elem_of_app. right. apply elem_of_app. right.
      left. }
    apply (Z.le_trans _ (tk_count m)).
    + by apply Hb.
    + apply Hb1; [|left]. rewrite Ev'.
      apply elem_of_app. right. left.
Qed.

Lemma best_of_nil (n : nat) : best_of [] [] n.
Proof.
  exists []. split; [done|]. split; [done|].
  intros x y Hx. by apply elem_of_nil in Hx.
Qed.

Lemma fold_best (N : Z) (n : nat) : forall (i : nat) tk,
  0 <= N < 2 ^ 64 -> (i + n = length (record_manager tk))%nat ->
  best_of (take i (record_manager tk)) (vec tk) (Z.to_nat N) ->
  let tk' := fold_left (make_topk_step uninit_name make_heap_greater pop_heap N)
                       (map Z.of_nat (seq i n)) tk in
  record_manager tk' = record_manager tk /\
  best_of (take (i + n) (record_manager tk)) (vec tk') (Z.to_nat N).
Proof.
  induction n as [|n IH]; intros i tk HN Hin Hb; cbn zeta.
  - cbn [seq map fold_left]. by rewrite Nat.add_0_r.
  - cbn [seq map fold_left].
    destruct (lookup_lt_is_Some_2 (record_manager tk) i ltac:(lia)) as [r Hr].
    set (tk1 := make_topk_step uninit_name make_heap_greater pop_heap N tk
                               (Z.of_nat i)).
    assert (Hrm : record_manager tk1 = record_manager tk) by done.
    assert (Hrec : snd (RecFile.recover (Z.of_nat i) (TkRecord_default uninit_name)
                          (record_manager tk)) = r).
    { unfold RecFile.recover.
      assert ((Z.of_nat i <? 0) = false) as -> by lia.
      by rewrite Nat2Z.id, Hr. }
    assert (Hb1 : best_of (take (S i) (record_manager tk1)) (vec tk1)
                          (Z.to_nat N)).
    { rewrite Hrm, (take_S_r _ _ _ Hr).
      unfold tk1, make_topk_step. cbn [vec]. rewrite Hrec.
      by apply step_best. }
    destruct (IH (S i) tk1 HN ltac:(rewrite Hrm; lia) Hb1) as [Hrm' Hb'].
    cbn zeta in Hrm', Hb'. rewrite Hrm', Hrm. split; [done|].
    rewrite Hrm in Hb'. by replace (i + S n)%nat with (S i + n)%nat by lia.
Qed.

(** [make_topk(N)] on an object whose vector is empty. *)
Lemma make_topk_best (N : Z) tk :
  0 <= N < 2 ^ 64 -> vec tk = [] ->
  best_of (record_manager tk)
          (vec (make_topk uninit_name make_heap_greater pop_heap N tk))
          (Z.to_nat N).
Proof.
  intros HN Hv. unfold make_topk, RecFile.get_id. rewrite Nat2Z.id.
  destruct (fold_best N (length (record_manager tk)) 0 tk HN eq_refl)
    as [_ Hb].
  - rewrite Hv. cbn [take]. apply best_of_nil.
  - cbn zeta in Hb. by rewrite take_ge in Hb by (cbn; lia).
Qed.

#[export] Instance count_ge_trans : Transitive count_ge.
Proof. intros a b c. unfold count_ge. lia. Qed.

(** [print(K)] with [K] no larger than the vector. *)
Lemma print_sorted (K : Z) tk :
  0 <= K <= Z.of_nat (length (vec tk)) ->
  exists sorted,
    sorted ≡ₚ vec tk /\ StronglySorted count_ge sorted /\
    fst (print sort_greater K tk) =
      map (fun r => (tkname r, tk_count r)) (take (Z.to_nat K) sorted) /\
    length (fst (print sort_greater K tk)) = Z.to_nat K.
Proof.
  intros HK. exists (sort_greater (vec tk)). split_and!.
  - apply sort_perm.
  - apply Sorted_StronglySorted; [apply _|apply sort_sorted].
  - done.
  - unfold print. cbn [fst]. rewrite length_map, length_take.
    rewrite (Permutation_length (sort_perm (vec tk))). lia.
Qed.

End Heap.

(** ** Which records are the best *)


End TopKHeap.

Module BPTIter.

Import BPTStructure BPTFind BPTOrder.
Import BPT.
Local Open Scope Z_scope.

(** * Walking the leaves

    The entries of an ordered tree in the order of the leaf chain, what
    [begin] and [find_geq] stand at, and the pages a tree occupies. *)

Section Iter.
Context {T : Type} `{KL : KeyLaws T}.
Variable ORDER : Z.
Hypothesis ORDER_ge : 2 <= ORDER.
Hypothesis ORDER_even : ORDER mod 2 = 0.

Implicit Types (k x y : T) (t : tree (T := T)).

Lemma srt_cons_inv x (l : list T) :
  srt (x :: l) -> Forall (le x) l /\ srt l.
Proof.
  intros Hs. split.
  - apply Forall_lookup. intros i y Hy.
    apply (Hs 0%nat (S i) x y); [done|done|lia].
  - intros i j a b Hi Hj Hij. apply (Hs (S i) (S j) a b); try done. lia.
Qed.

Lemma srt_sorted (l : list T) : srt l -> StronglySorted le l.
Proof.
  induction l as [|x l IH]; intros Hs; [constructor|].
  apply srt_cons_inv in Hs. destruct Hs as [Hx Hs].
  constructor; [by apply IH|done].
Qed.

Lemma sorted_concat (ls : list (list T)) :
  Forall (StronglySorted le) ls ->
  (forall (i j : nat) li lj x y,
     ls !! i = Some li -> ls !! j = Some lj -> (i < j)%nat ->
     x ∈ li -> y ∈ lj -> le x y) ->
  StronglySorted le (concat ls).
Proof.
  induction ls as [|l ls IH]; intros Hs Hx; [constructor|].
  apply Forall_cons in Hs. destruct Hs as [Hl Hs]. cbn [concat].
  apply StronglySorted_app_2; [|done|].
  - intros x y Hxl Hy. apply list_elem_of_In, in_concat in Hy.
    destruct Hy as (lj & Hlj & Hy). apply list_elem_of_In in Hlj, Hy.
    apply list_elem_of_lookup in Hlj. destruct Hlj as [j Hj].
    apply (Hx 0%nat (S j) l lj); try done. lia.
  - apply IH; [done|]. intros i j li lj x y Hi Hj Hij.
    apply (Hx (S i) (S j)); try done. lia.
Qed.

(** The entries of an ordered tree, leaf after leaf, are in
    non-decreasing order. *)
Lemma flat_sorted t : forall lo hi,
  ordered t -> sized ORDER lo hi t -> StronglySorted le (flat t).
Proof.
  induction t as [p keys kids IH] using tree_ind'. intros lo hi Ho Hs.
  apply sized_unfold in Hs. destruct Hs as (Hlen & Har & Hsk).
  apply ordered_unfold in Ho. destruct Ho as (Hleaf & Hinner & Hok).
  cbn [tkeys tkids] in *.
  destruct (decide (kids = [])) as [->|Hne].
  - cbn [flat]. apply srt_sorted. by apply Hleaf.
  - destruct Har as [?|Har]; [done|]. specialize (Hinner Hne).
    destruct Hinner as (K1 & K2 & _).
    rewrite flat_inner by done. apply sorted_concat.
    + apply Forall_fmap. rewrite Forall_forall in IH, Hok, Hsk.
      apply Forall_forall. intros c Hc.
      apply (IH c Hc (half ORDER) (ord ORDER)); auto.
    + intros i j li lj x y Hi Hj Hij Hx Hy.
      rewrite list_lookup_fmap in Hi, Hj.
      destruct (kids !! i) as [ci|] eqn:Eci; [|done].
      destruct (kids !! j) as [cj|] eqn:Ecj; [|done].
      cbn in Hi, Hj. injection Hi as <-. injection Hj as <-.
      apply lookup_lt_Some in Ecj as Hjl.
      destruct (lookup_lt_is_Some_2 keys i ltac:(lia)) as [s Hs].
      apply (le_trans x s y).
      * by apply (K1 i i s ci x).
      * by apply (K2 i j s cj y).
Qed.

(** Nothing before the place the search reaches is above [k], and
    nothing from there on is below [k]. *)
Lemma tseek_bounds k t : forall lo hi,
  ordered t -> sized ORDER lo hi t ->
  exists pre, flat t = pre ++ tseek k t /\
    Forall (fun x => le x k) pre /\ Forall (fun x => le k x) (tseek k t).
Proof.
  induction t as [p keys kids IH] using tree_ind'. intros lo hi Ho Hs.
  apply sized_unfold in Hs. destruct Hs as (Hlen & Har & Hsk).
  apply ordered_unfold in Ho. destruct Ho as (Hleaf & Hinner & Hok).
  cbn [tkeys tkids] in *.
  destruct (decide (kids = [])) as [->|Hne].
  - (* a leaf *)
    specialize (Hleaf eq_refl).
    exists (take (lb_lt k keys) keys).
    rewrite (tseek_leaf k (Tr p keys [])) by done. cbn [flat tkeys].
    split; [by rewrite take_drop|]. split.
    + apply Forall_lookup. intros i x Hi.
      apply lookup_take_Some in Hi. destruct Hi as [Hi Hlt].
      apply lt_le.
      apply (lbound_before (fun d => key_lt d k) keys i x Hi Hlt).
    + apply Forall_lookup. intros i x Hi. rewrite lookup_drop in Hi.
      destruct (lookup_lt_is_Some_2 keys (lb_lt k keys)) as [e He].
      { apply lookup_lt_Some in Hi. lia. }
      pose proof (lbound_at (fun d => key_lt d k) keys e He) as Hek.
      destruct (decide (i = 0%nat)) as [->|Hi0].
      * rewrite Nat.add_0_r, He in Hi. by injection Hi as <-.
      * apply (le_trans k e x); [done|].
        apply (Hleaf (lb_lt k keys) (lb_lt k keys + i)%nat); try done. lia.
  - (* an inner node *)
    destruct Har as [?|Har]; [done|]. specialize (Hinner Hne).
    pose proof (kid_ok_srt _ _ Hinner) as Hsrt.
    destruct Hinner as (K1 & K2 & K3).
    pose proof (lbound_le (fun d => key_le d k) keys) as Hlb.
    fold (lb_le k keys) in Hlb.
    destruct (lookup_lt_is_Some_2 kids (lb_le k keys) ltac:(lia)) as [c Ec].
    rewrite (tseek_inner k (Tr p keys kids) c Ec). cbn [tkids tkeys].
    assert (Hin : c ∈ kids) by (eapply list_elem_of_lookup_2; eauto).
    rewrite Forall_forall in IH, Hsk, Hok.
    destruct (IH c Hin _ _ (Hok c Hin) (Hsk c Hin))
      as (pre & Hpre & Hlo & Hhi).
    exists (concat (map flat (take (lb_le k keys) kids)) ++ pre).
    split_and!.
    + rewrite flat_inner by done.
      rewrite <- (take_drop_middle _ _ _ Ec) at 1.
      change (c :: drop (S (lb_le k keys)) kids)
        with ([c] ++ drop (S (lb_le k keys)) kids).
      rewrite flat_middle. simpl. rewrite app_nil_r, Hpre.
      by rewrite <- !app_assoc.
    + apply Forall_app. split; [|done].
      apply Forall_forall. intros x Hx.
      apply list_elem_of_In, in_concat in Hx. destruct Hx as (l & Hl & Hx).
      apply in_map_iff in Hl. destruct Hl as (cj & <- & Hcj).
      apply list_elem_of_In in Hcj, Hx.
      apply list_elem_of_lookup in Hcj. destruct Hcj as [j Hj].
      apply lookup_take_Some in Hj. destruct Hj as [Hj Hjlt].
      destruct (lookup_lt_is_Some_2 keys (lb_le k keys - 1)%nat ltac:(lia))
        as [s Hs].
      pose proof (lbound_before (fun d => key_le d k) keys _ s Hs
                    ltac:(unfold lb_le in *; lia)) as Hsk'.
      cbv beta in Hsk'. apply key_le_le in Hsk'.
      apply (le_trans x s k); [|done].
      apply (K1 (lb_le k keys - 1)%nat j s cj x); try done. lia.
    + apply Forall_app. split; [done|].
      apply Forall_forall. intros x Hx.
      apply list_elem_of_In, in_concat in Hx. destruct Hx as (l & Hl & Hx).
      apply in_map_iff in Hl. destruct Hl as (cj & <- & Hcj).
      apply list_elem_of_In in Hcj, Hx.
      apply list_elem_of_lookup in Hcj. destruct Hcj as [j Hj].
      rewrite lookup_drop in Hj. apply lookup_lt_Some in Hj as Hjl.
      destruct (lookup_lt_is_Some_2 keys (lb_le k keys) ltac:(lia))
        as [s Hs].
      pose proof (lbound_at (fun d => key_le d k) keys s Hs) as Hsk'.
      cbv beta in Hsk'. apply key_le_false in Hsk'.
      apply (le_trans k s x); [by apply lt_le|].
      apply (K2 (lb_le k keys) (S (lb_le k keys) + j)%nat s cj x);
        try done. lia.
Qed.

(** ** [begin] *)

(** [begin] walks down the leftmost children to the first leaf. *)
Lemma begin_loop_spec pg hdr (fuel : nat) : forall t nxt n,
  rep ORDER pg t nxt -> pg !! tpid t = Some n -> (height t <= fuel)%nat ->
  exists m, begin_loop ORDER fuel n (mkTree pg hdr) = Some m /\
            pg !! first_leaf t = Some m.
Proof.
  induction fuel as [|fuel IH]; intros t nxt n Hr Hn Hh.
  { rewrite height_unfold in Hh. lia. }
  pose proof Hr as Hr'. apply rep_unfold in Hr'.
  destruct Hr' as (Hp & (n0 & Hn0 & Hnr) & Hrl).
  rewrite Hn in Hn0. injection Hn0 as <-.
  cbn [begin_loop]. rewrite first_leaf_unfold.
  destruct (tkids t) as [|k0 kids] eqn:Ek.
  - rewrite (node_rep_leaf_is_leaf ORDER t nxt n Hnr Ek). cbn [negb].
    by exists n.
  - rewrite (node_rep_inner_not_leaf ORDER pg t nxt n Hr Hnr)
      by (by rewrite Ek).
    cbn [negb].
    assert (Hc : get_child n 0 = tpid k0).
    { apply (node_rep_child ORDER n t nxt 0 k0 Hnr). by rewrite Ek. }
    rewrite Hc. cbn [rep_list] in Hrl. destruct Hrl as [Hr0 _].
    destruct (rep_node _ _ _ _ Hr0) as (n0 & Hn0 & _).
    rewrite (read_node_lookup ORDER _ _ _ _ Hn0).
    apply (IH k0 _ n0 Hr0 Hn0).
    assert (Hin : k0 ∈ tkids t) by (rewrite Ek; left).
    apply height_kid in Hin. lia.
Qed.

(** A tree with an entry is enumerated from its first leaf. *)
Lemma continues_root bt t :
  rep ORDER (pager bt) t 0 -> sized ORDER 0 (ord ORDER) t -> flat t <> [] ->
  exists m, pager bt !! first_leaf t = Some m /\
            iterates ORDER bt (mkIter 0 m) (flat t).
Proof.
  intros Hr Hs Hne.
  assert (Hc : continues ORDER bt (first_leaf t) (flat t ++ [])).
  { destruct (decide (tkids t = [])) as [Hleaf|Hinner].
    - apply (continues_tree ORDER ORDER_ge ORDER_even bt t 1%nat (ord ORDER) 0);
        try done; [|by left].
      apply sized_unfold in Hs. destruct Hs as (Hlen & Har & Hsk).
      apply sized_unfold. split_and!; try done; [|lia].
      rewrite flat_unfold, Hleaf in Hne.
      destruct (tkeys t); [done|simpl; lia].
    - apply rep_unfold in Hr. destruct Hr as (_ & _ & Hrl).
      apply sized_unfold in Hs. destruct Hs as (_ & _ & Hsk).
      rewrite first_leaf_unfold, flat_unfold.
      destruct (tkids t) as [|k0 kids] eqn:Ek; [done|].
      apply (continues_list ORDER bt (k0 :: kids) 0 []); try done; [|by left].
      rewrite Forall_forall in Hsk. apply Forall_forall.
      intros c Hc nxt' L' Hrc HL'.
      apply (continues_tree ORDER ORDER_ge ORDER_even bt c
               (half ORDER) (ord ORDER) nxt' L'); try done.
      + by apply Hsk.
      + by destruct (half_ord ORDER ORDER_ge ORDER_even) as (_ & ? & _). }
  rewrite app_nil_r in Hc.
  destruct Hc as [[_ Hnil]|[_ Hm]]; [done|exact Hm].
Qed.

(** [begin] on a tree that satisfies the invariant and has an entry. *)
Lemma begin_spec bt t :
  Inv ORDER bt t -> flat t <> [] ->
  exists it, begin ORDER bt = Some it /\ iterates ORDER bt it (flat t).
Proof.
  intros (Hrid & Hpid & Hrep & Hs & _ & _ & Hh & _) Hne.
  destruct (rep_node _ _ _ _ Hrep) as (n & Hn & Hnr).
  destruct (continues_root bt t Hrep Hs Hne) as (m & Hm & Hit).
  unfold begin. rewrite Hrid, <- Hpid.
  destruct bt as [pg hdr]. cbn [pager header] in *.
  rewrite (read_node_lookup ORDER _ _ _ _ Hn).
  destruct (begin_loop_spec pg hdr (depth_bound (mkTree pg hdr)) t 0 n
              Hrep Hn) as (m' & E & Hm').
  { unfold depth_bound. cbn [header]. lia. }
  rewrite E. rewrite Hm in Hm'. injection Hm' as <-.
  by exists (mkIter 0 m).
Qed.

(** ** The pages of a tree *)

Lemma rep_lookup pg t : forall nxt p,
  rep ORDER pg t nxt -> p ∈ pids t -> is_Some (pg !! p).
Proof.
  induction t as [pid keys kids IH] using tree_ind'. intros nxt p Hr Hp.
  apply rep_unfold in Hr. destruct Hr as (_ & (n & Hn & _) & Hrl).
  cbn [tpid tkids] in *. rewrite pids_unfold in Hp. cbn [tpid tkids] in Hp.
  apply elem_of_cons in Hp. destruct Hp as [->|Hp]; [by exists n|].
  apply elem_of_pids_kids in Hp. destruct Hp as (c & Hc & Hp).
  rewrite Forall_forall in IH.
  destruct (rep_list_elem _ _ _ _ Hrl Hc) as [nx Hrc].
  by apply (IH c Hc nx p).
Qed.

Lemma rep_page_id pg t : forall nxt p n,
  rep ORDER pg t nxt -> p ∈ pids t -> pg !! p = Some n -> page_id n = p.
Proof.
  induction t as [pid keys kids IH] using tree_ind'. intros nxt p n Hr Hp Hn.
  apply rep_unfold in Hr. destruct Hr as (_ & (n0 & Hn0 & Hnr) & Hrl).
  cbn [tpid tkids] in *. rewrite pids_unfold in Hp. cbn [tpid tkids] in Hp.
  apply elem_of_cons in Hp. destruct Hp as [->|Hp].
  - rewrite Hn0 in Hn. injection Hn as <-. by destruct Hnr as (? & _).
  - apply elem_of_pids_kids in Hp. destruct Hp as (c & Hc & Hp).
    rewrite Forall_forall in IH.
    destruct (rep_list_elem _ _ _ _ Hrl Hc) as [nx Hrc].
    by apply (IH c Hc nx p n).
Qed.

(** [insert] takes the pages it needs from [header.count] on. *)
Lemma tinsert_root_pids (fuel : nat) hc v t t' hc' :
  tinsert_root ORDER fuel hc v t = (t', hc') ->
  sized ORDER 0 (ord ORDER) t -> 0 <= hc ->
  pids t ≡ₚ seqZ 1 hc -> pids t' ≡ₚ seqZ 1 hc'.
Proof.
  intros E Hs Hhc Hp. unfold tinsert_root in E.
  destruct (half_ord ORDER ORDER_ge ORDER_even) as (H2 & H1 & Hord & _).
  destruct (tinsert ORDER fuel hc v t) as [t1 hc1] eqn:Ei.
  destruct (tinsert_basic ORDER ORDER_ge ORDER_even _ _ _ _ _ _ _ _
              Ei Hs (le_n _)) as (_ & _ & _ & Hle & Hs1 & Hp1 & _).
  assert (Hp1' : pids t1 ≡ₚ seqZ 1 hc1).
  { rewrite Hp1, Hp. replace hc1 with (hc + (hc1 - hc)) at 2 by lia.
    rewrite seqZ_app by lia. by replace (1 + hc) with (hc + 1) by lia. }
  destruct (overflowed ORDER t1) eqn:Eo.
  - unfold overflowed in Eo.
    apply sized_unfold in Hs1 as Hs1'. destruct Hs1' as (Hl1 & _ & _).
    assert (Hlen1 : length (tkeys t1) = S (ord ORDER)) by lia.
    destruct (tsplit ORDER (hc1 + 1) (hc1 + 2) t1) as [[l sep] r] eqn:Et.
    destruct (tsplit_basic ORDER ORDER_ge ORDER_even _ _ _ _ Hs1 Hlen1
                _ _ _ Et)
      as (_ & _ & _ & _ & Hpp & _).
    injection E as <- <-.
    rewrite pids_unfold. cbn [tpid tkids map concat]. rewrite app_nil_r, Hpp.
    replace (hc1 + 2) with (hc1 + 1 + 1) at 2 by lia.
    rewrite (seqZ_snoc 1 (hc1 + 1)) by lia.
    rewrite (seqZ_snoc 1 hc1) by lia. rewrite <- Hp1', (pids_unfold t1).
    replace (1 + hc1) with (hc1 + 1) by lia.
    replace (1 + (hc1 + 1)) with (hc1 + 2) by lia.
    rewrite <- (assoc (++)). cbn [app].
    rewrite (Permutation_app_comm _ [hc1 + 1; hc1 + 2]). cbn [app].
    rewrite perm_swap. apply perm_skip. rewrite perm_swap. done.
  - by injection E as <- <-.
Qed.

Lemma insert_all_pids (values : list T) : forall bt t,
  Inv ORDER bt t -> pids t ≡ₚ seqZ 1 (hcount (header bt)) ->
  exists bt' t', insert_all ORDER values bt = Some bt' /\
    Inv ORDER bt' t' /\ pids t' ≡ₚ seqZ 1 (hcount (header bt')).
Proof.
  induction values as [|v values IH]; intros bt t HI Hp.
  - by exists bt, t.
  - destruct (tinsert_root ORDER (depth_bound bt) (hcount (header bt)) v t)
      as [t1 hc1] eqn:E.
    destruct (insert_spec ORDER ORDER_ge ORDER_even v bt t HI t1 hc1 E)
      as (bt1 & E1 & HI1 & Hhc1).
    pose proof HI as (_ & Hpid & _ & Hs & _ & Hrg & _).
    assert (Hhc : 0 <= hcount (header bt)).
    { rewrite Forall_forall in Hrg.
      assert (H1 : tpid t ∈ pids t) by (rewrite pids_unfold; left).
      apply Hrg in H1. lia. }
    pose proof (tinsert_root_pids _ _ _ _ _ _ E Hs Hhc Hp) as Hp1.
    rewrite <- Hhc1 in Hp1.
    destruct (IH bt1 t1 HI1 Hp1) as (bt' & t' & E' & HI' & Hp').
    exists bt', t'. cbn [insert_all]. by rewrite E1.
Qed.

(** One [insert] on a tree that satisfies the invariants. *)
Lemma insert_one v bt t :
  Inv ORDER bt t -> ordered t ->
  exists bt' t', insert ORDER v bt = Some bt' /\
    Inv ORDER bt' t' /\ ordered t' /\ flat t' ≡ₚ v :: flat t.
Proof.
  intros HI Ho.
  destruct (insert_all_ordered ORDER ORDER_ge ORDER_even [v] bt t HI Ho)
    as (bt' & t' & E & HI' & Ho' & Hf).
  cbn [insert_all] in E.
  destruct (insert ORDER v bt) as [bt1|]; [|discriminate].
  injection E as ->. exists bt', t'. split_and!; try done.
  rewrite Hf. apply Permutation_app_comm.
Qed.

End Iter.

End BPTIter.

Module Sentinel.

Import BPTStructure BPTFind BPTOrder BPTIter.
Import BPT.
Local Open Scope Z_scope.

(** * Sentinel nodes and the memory they are built in

    [operator++] off the last entry and [end()] each build a node with
    page id -1 by [std::make_shared<node>(-1)], in a block of memory of
    their own.  [Node(int64_t)] default-constructs the keys of [data],
    and the default constructors of the key types leave the key bytes
    as the block held them.  Here the keys that a block holds when the
    node is built in it are an argument, [stale], of every function
    that builds such a node. *)

Section Sentinel.
Context {T : Type} `{KO : KeyOps T}.
Variable ORDER : Z.

Implicit Types (it : Iterator (T := T)) (bt : BplusTree (T := T))
               (stale : list T).

(** [Node(page_id)] built in a block whose key slots hold [stale]. *)
Definition Node_new (stale : list T) (pid : Z) : Node (T := T) :=
  {| page_id := pid; count := 0; right := 0;
     data := stale;
     children := replicate (Z.to_nat (ORDER + 2)) 0 |}.

(** [BplusTree::end()]. *)
Definition end_ (stale : list T) : Iterator (T := T) :=
  {| index := 0; current_pos := Node_new stale (-1) |}.

(** [operator++]; [stale] is the block of [that]. *)
Definition incr (stale : list T) (bt : BplusTree (T := T))
    (it : Iterator (T := T)) : Iterator (T := T) :=
  if index it <? count (current_pos it) - 1 then
    {| index := index it + 1; current_pos := current_pos it |}
  else if right (current_pos it) =? 0 then
    {| index := 0; current_pos := Node_new stale (-1) |}
  else
    {| index := 0;
       current_pos :=
         snd (recover (right (current_pos it)) (current_pos it) (pager bt)) |}.

(** [find_helper]; the block is the one of the [it++] at the end of a
    leaf. *)
Fixpoint find_helper (stale : list T) (fuel : nat) (value : T)
    (root : Node (T := T)) (bt : BplusTree (T := T))
  : option (Iterator (T := T)) :=
  match fuel with
  | O => None
  | S fuel' =>
      if negb (is_leaf root) then
        let pos := scan_le value root in
        let child := read_node ORDER (get_child root pos) bt in
        find_helper stale fuel' value child bt
      else
        let pos := scan_lt value root in
        let it := {| index := pos; current_pos := root |} in
        Some (if pos =? count root then incr stale bt it else it)
  end.

Definition find_geq (stale : list T) (value : T) (bt : BplusTree (T := T))
  : option (Iterator (T := T)) :=
  find_helper stale (depth_bound bt) value
              (read_node ORDER (root_id (header bt)) bt) bt.

(** [BplusTree::find]: [stale] is the block of the [it++] inside
    [find_helper], [stale_end] the block of the [end()] it returns. *)
Definition find (stale stale_end : list T) (value : T)
    (bt : BplusTree (T := T)) : option (Iterator (T := T)) :=
  match find_geq stale value bt with
  | Some it => Some (if key_eq (deref it) value then it else end_ stale_end)
  | None => None
  end.

(** The loop [for (; it != end(); ++it)], one turn for each pair of
    blocks: the first is the block of the [end()] that [it] is compared
    with, the second the block of the [++it] that follows. *)
Fixpoint entries_from (blocks : list (list T * list T))
    (bt : BplusTree (T := T)) (it : Iterator (T := T)) : list (Z * Z * T) :=
  match blocks with
  | [] => []
  | (e, s) :: rest =>
      if iter_ne it (end_ e) then
        (page_id (current_pos it), index it, deref it)
          :: entries_from rest bt (incr s bt it)
      else []
  end.

(** ** Sentinels *)

Lemma deref_end stale : deref (end_ stale) = nth 0 stale key_default.
Proof. reflexivity. Qed.

(** An iterator on a stored page differs from every [end()]. *)
Lemma iter_ne_on_page it stale :
  1 <= page_id (current_pos it) -> iter_ne it (end_ stale) = true.
Proof.
  intros Hp. unfold iter_ne, end_. cbn [current_pos index Node_new page_id].
  by assert ((page_id (current_pos it) =? -1) = false) as -> by lia.
Qed.

(** Two sentinels are compared by the keys their blocks hold. *)
Lemma iter_ne_sentinels (s e : list T) :
  iter_ne (end_ s) (end_ e)
  = negb (key_eq (nth 0 s key_default) (nth 0 e key_default)).
Proof. reflexivity. Qed.

(** [operator++] on a sentinel gives the sentinel of the new block. *)
Lemma incr_end (s s' : list T) bt : incr s bt (end_ s') = end_ s.
Proof. reflexivity. Qed.

Lemma entries_from_end (e s s' : list T) back bt :
  entries_from ((e, s) :: back) bt (end_ s')
  = if key_eq (nth 0 s' key_default) (nth 0 e key_default) then []
    else (-1, 0, nth 0 s' key_default) :: entries_from back bt (end_ s).
Proof.
  cbn [entries_from]. rewrite iter_ne_sentinels, incr_end.
  by destruct (key_eq _ _).
Qed.

(** ** Steps on stored pages *)

(** Every node of the index file carries a page id from 1 on. *)
Definition stored (bt : BplusTree (T := T)) : Prop :=
  forall q n, pager bt !! q = Some n -> 1 <= page_id n.

Lemma Inv_stored bt t : Inv ORDER bt t -> stored bt.
Proof.
  intros (_ & _ & Hrep & _ & _ & Hrg & _ & Hdom) q n Hn.
  assert (Hq : q ∈ pids t) by (apply Hdom; by exists n).
  rewrite (rep_page_id ORDER _ t 0 q n Hrep Hq Hn).
  rewrite Forall_forall in Hrg. apply Hrg in Hq. lia.
Qed.

Lemma iterates_end_inv bt L :
  iterates ORDER bt (BPT.end_ ORDER) L -> L = [].
Proof.
  inversion 1 as [|it' L' Hp _ Hit HL]; [done|].
  subst it'. cbn [BPT.end_ current_pos BPT.Node_new page_id] in Hp. lia.
Qed.

Lemma iterates_nil_page bt it :
  iterates ORDER bt it [] -> page_id (current_pos it) = -1.
Proof.
  intros Hit. remember [] as L eqn:EL.
  destruct Hit as [|it L Hp Hit]; [done|discriminate].
Qed.

Lemma iterates_nil_count bt it :
  iterates ORDER bt it [] -> count (current_pos it) = 0.
Proof.
  intros Hit. remember [] as L eqn:EL.
  destruct Hit as [|it L Hp Hit]; [done|discriminate].
Qed.

Lemma iterates_page bt it x L :
  iterates ORDER bt it (x :: L) ->
  1 <= page_id (current_pos it) /\ x = deref it /\
  iterates ORDER bt (BPT.incr ORDER bt it) L.
Proof. inversion 1; subst. done. Qed.

(** While entries are ahead the block plays no part, and off the last
    entry [operator++] gives the sentinel of its block. *)
Lemma incr_cases (s : list T) bt it x L :
  stored bt -> iterates ORDER bt it (x :: L) ->
  match L with
  | [] => incr s bt it = end_ s
  | _ :: _ => incr s bt it = BPT.incr ORDER bt it
  end.
Proof.
  intros Hst Hit. apply iterates_page in Hit. destruct Hit as (Hp & _ & Hit).
  unfold incr, BPT.incr in *.
  destruct (index it <? count (current_pos it) - 1).
  { destruct L; [|done]. apply iterates_nil_page in Hit.
    cbn [current_pos] in Hit. lia. }
  destruct (right (current_pos it) =? 0).
  { destruct L as [|y L]; [done|].
    apply iterates_page in Hit. destruct Hit as (Hp' & _).
    cbn [current_pos BPT.Node_new page_id] in Hp'. lia. }
  destruct L; [|done]. apply iterates_nil_page in Hit as Hpe. exfalso.
  cbn [current_pos] in Hpe.
  unfold recover in Hpe.
  destruct (pager bt !! right (current_pos it)) as [r|] eqn:Er;
    cbn [snd] in Hpe; [|lia].
  apply Hst in Er. lia.
Qed.

(** The loop along the entries that the iterator has ahead: they are
    visited whatever the blocks hold, and after the last of them the
    iterator is the sentinel of the block of the last [++]. *)
Lemma entries_from_iterates bt it L :
  stored bt -> iterates ORDER bt it L -> L <> [] ->
  forall front e s back, S (length front) = length L ->
  exists ents,
    entries_from (front ++ (e, s) :: back) bt it
      = ents ++ entries_from back bt (end_ s) /\
    map snd ents = L /\
    Forall (fun x => 1 <= x.1.1) ents.
Proof.
  intros Hst Hit. induction Hit as [|it L Hp Hit IH]; intros Hne; [done|].
  intros front e s back Hlen.
  assert (Hall : iterates ORDER bt it (deref it :: L))
    by (by apply iterates_step).
  destruct L as [|y L].
  - destruct front; [|simpl in Hlen; lia].
    cbn [app entries_from]. rewrite (iter_ne_on_page it e Hp).
    rewrite (incr_cases s bt it _ [] Hst Hall).
    exists [(page_id (current_pos it), index it, deref it)].
    split; [done|]. split; [done|]. by repeat constructor.
  - destruct front as [|[e0 s0] front]; [simpl in Hlen; lia|].
    cbn [app entries_from]. rewrite (iter_ne_on_page it e0 Hp).
    rewrite (incr_cases s0 bt it _ (y :: L) Hst Hall).
    destruct (IH ltac:(done) front e s back) as (ents & E & Hm & Hf).
    { simpl in Hlen |- *. lia. }
    exists ((page_id (current_pos it), index it, deref it) :: ents).
    rewrite E. split; [done|]. split; [by rewrite <- Hm|].
    by constructor.
Qed.

(** ** The search *)

(** What [read_node] returns: a node of the file, or the default node
    when the slot is empty. *)
Definition read (n : Node (T := T)) : Prop :=
  1 <= page_id n \/ n = BPT.Node_new ORDER (-1).

Lemma read_node_read bt id : stored bt -> read (read_node ORDER id bt).
Proof.
  intros Hst. unfold read_node, recover.
  destruct (pager bt !! id) as [r|] eqn:Er; cbn [snd].
  - left. by apply Hst in Er.
  - by right.
Qed.

(** [find_helper] returns what it returns with the one default key,
    where entries are ahead of it; where none is, it returns the
    sentinel of its block. *)
Lemma find_helper_iterates (s : list T) (k : T) bt (fuel : nat) :
  stored bt ->
  forall n itb L, read n ->
  BPT.find_helper ORDER fuel k n bt = Some itb ->
  iterates ORDER bt itb L ->
  find_helper s fuel k n bt
  = Some (match L with [] => end_ s | _ :: _ => itb end).
Proof.
  intros Hst. induction fuel as [|fuel IH]; intros n itb L Hn E Hit;
    [done|].
  cbn [BPT.find_helper find_helper] in *.
  destruct (negb (is_leaf n)).
  { apply (IH _ itb L); try done. by apply read_node_read. }
  injection E as E.
  destruct (scan_lt k n =? count n) eqn:Ep.
  - apply Z.eqb_eq in Ep. unfold incr, BPT.incr in *.
    cbn [index current_pos] in *. rewrite Ep in *.
    assert ((count n <? count n - 1) = false) as Hlt
      by (apply Z.ltb_ge; lia).
    rewrite Hlt in *.
    destruct (right n =? 0) eqn:Er.
    + subst itb. apply iterates_end_inv in Hit. by subst L.
    + destruct L as [|y L]; [|by subst itb].
      exfalso. apply iterates_nil_page in Hit as Hpe. rewrite <- E in Hpe.
      cbn [current_pos] in Hpe. unfold recover in Hpe.
      destruct (pager bt !! right n) as [r|] eqn:Erec; cbn [snd] in Hpe.
      * apply Hst in Erec. lia.
      * destruct Hn as [Hn|Hn]; [lia|]. subst n.
        cbn [BPT.Node_new right] in Er. done.
  - apply Z.eqb_neq in Ep.
    destruct L as [|y L]; [|by subst itb].
    exfalso. apply iterates_nil_count in Hit as Hc.
    apply iterates_nil_page in Hit as Hpe. rewrite <- E in Hc, Hpe.
    cbn [current_pos] in Hc, Hpe.
    assert (Hidx : index itb = 0).
    { remember [] as L eqn:EL. destruct Hit; [done|discriminate]. }
    rewrite <- E in Hidx. cbn [index] in Hidx.
    lia.
Qed.

Hypothesis ORDER_ge : 2 <= ORDER.
Hypothesis ORDER_even : ORDER mod 2 = 0.

(** [find_geq] on a tree that satisfies the invariant. *)
Lemma find_geq_sentinel (s : list T) (k : T) bt t :
  Inv ORDER bt t ->
  exists it, find_geq s k bt = Some it /\
    match tseek k t with
    | [] => it = end_ s
    | _ :: _ => iterates ORDER bt it (tseek k t)
    end.
Proof.
  intros HI. pose proof (Inv_stored bt t HI) as Hst.
  destruct (BPTFind.find_geq_spec ORDER ORDER_ge ORDER_even k bt t HI)
    as (itb & E & Hit).
  unfold BPT.find_geq in E. unfold find_geq.
  rewrite (find_helper_iterates s k bt _ Hst _ itb (tseek k t)
             (read_node_read bt _ Hst) E Hit).
  destruct (tseek k t); eexists; split; done.
Qed.

End Sentinel.

(** ** [find] on an ordered tree *)

Section Find.
Context {T : Type} `{KL : KeyLaws T}.
Variable ORDER : Z.
Hypothesis ORDER_ge : 2 <= ORDER.
Hypothesis ORDER_even : ORDER mod 2 = 0.

(** When the tree has an entry equal to [k], [find] stands at one, on a
    stored page.  When it has none, [find] returns a sentinel: the one
    of [end()], or, where the search ran off the last entry and the key
    in the block of that [++] equals [k], the sentinel of that block. *)
Lemma find_sentinel (s1 s2 : list T) (k : T) (bt : BplusTree (T := T)) t :
  Inv ORDER bt t -> ordered t ->
  exists it, find ORDER s1 s2 k bt = Some it /\
    ((exists x, x ∈ flat t /\ key_eq x k = true) ->
       1 <= page_id (current_pos it) /\ deref it ∈ flat t /\
       key_eq (deref it) k = true) /\
    (~ (exists x, x ∈ flat t /\ key_eq x k = true) ->
       it = end_ ORDER s2 \/
       (it = end_ ORDER s1 /\ tseek k t = [] /\
        key_eq (nth 0 s1 key_default) k = true)).
Proof.
  intros HI Ho. pose proof HI as (_ & _ & _ & Hs & _).
  destruct (find_geq_sentinel ORDER ORDER_ge ORDER_even s1 k bt t HI)
    as (it & E & Hit).
  destruct (tseek_suffix ORDER k t _ _ Hs) as [pre Hpre].
  unfold find. rewrite E.
  destruct (tseek k t) as [|y rest] eqn:Et.
  - (* the search ran off the end *)
    subst it. eexists. split; [reflexivity|]. split.
    + intros Hx.
      destruct (tseek_hit ORDER k t _ _ Ho Hs Hx) as (y & rest & Ey & _).
      congruence.
    + intros _. rewrite deref_end.
      destruct (key_eq (nth 0 s1 key_default) k); [right|left]; done.
  - (* the search stands at an entry *)
    apply iterates_page in Hit. destruct Hit as (Hp & -> & _).
    assert (Hin : deref it ∈ flat t).
    { rewrite Hpre. apply elem_of_app. right. left. }
    destruct (key_eq (deref it) k) eqn:Ek.
    + exists it. split; [done|]. split; [done|].
      intros Hn. exfalso. apply Hn. by exists (deref it).
    + eexists. split; [reflexivity|]. split; [|by left].
      intros Hx.
      destruct (tseek_hit ORDER k t _ _ Ho Hs Hx) as (y & rest' & Ey & Hy).
      rewrite Et in Ey. injection Ey as <- _. congruence.
Qed.

End Find.

End Sentinel.

Module NodeOps.

Import BPTStructure.
Import BPT.
Local Open Scope Z_scope.

(** * [Node::delete_in_node] *)

Section NodeOps.

Context {T : Type} `{KO : KeyOps T}.

(** The [for (i = pos; i < count(); i++)] loop moves entry [i + 1] to
    [i] and child [i + 2] to [i + 1]. *)
Fixpoint delete_in_node_loop (fuel : nat) (i : Z) (n : Node (T := T))
  : Node (T := T) :=
  match fuel with
  | O => n
  | S fuel' =>
      if i <? count n then
        let n1 := set_data n i (get_data n (i + 1)) in
        let n2 := set_child n1 (i + 1) (get_child n1 (i + 2)) in
        delete_in_node_loop fuel' (i + 1) n2
      else n
  end.

(** [delete_in_node(pos)]: the loop from [i = pos] on, then [count--],
    which takes one off the count. *)
Definition delete_in_node (pos : Z) (n : Node (T := T)) : Node (T := T) :=
  let n1 := delete_in_node_loop (Z.to_nat (count n - pos)) pos n in
  set_count n1 (count n1 - 1).

(** The loop, pointwise. *)
Lemma delete_in_node_loop_spec (fuel : nat) : forall i n,
  0 <= i -> fuel = Z.to_nat (count n - i) ->
  (Z.to_nat (count n) < length (data n))%nat ->
  (Z.to_nat (count n) + 1 < length (children n))%nat ->
  let n' := delete_in_node_loop fuel i n in
  page_id n' = page_id n /\ count n' = count n /\ right n' = right n /\
  length (data n') = length (data n) /\
  length (children n') = length (children n) /\
  (forall k : nat, data n' !! k =
     if decide (Z.to_nat i <= k < Z.to_nat (count n))%nat
     then data n !! S k else data n !! k) /\
  (forall k : nat, children n' !! k =
     if decide (Z.to_nat i + 1 <= k < Z.to_nat (count n) + 1)%nat
     then children n !! S k else children n !! k).
Proof.
  induction fuel as [|fuel IH]; intros i n Hi Hf Hd Hc n'; subst n'.
  - simpl. repeat split; auto; intros k; case_decide; auto; lia.
  - simpl. assert ((i <? count n) = true) as -> by lia.
    set (n1 := set_data n i (get_data n (i + 1))).
    set (n2 := set_child n1 (i + 1) (get_child n1 (i + 2))).
    destruct (IH (i + 1) n2) as (Hp & Hcnt & Hr & Hld & Hlc & HD & HC).
    { lia. } { subst n2 n1. simpl. lia. }
    { subst n2 n1. simpl. rewrite length_insert. lia. }
    { subst n2 n1. simpl. rewrite length_insert. lia. }
    split; [by rewrite Hp|]. split; [by rewrite Hcnt|].
    split; [by rewrite Hr|].
    split. { rewrite Hld. subst n2 n1; simpl. by rewrite length_insert. }
    split. { rewrite Hlc. subst n2 n1; simpl. by rewrite length_insert. }
    split.
    + intros k. rewrite HD. subst n2 n1. simpl.
      rewrite !list_lookup_insert. unfold get_data.
      repeat case_decide; try lia; auto.
      * destruct_and!. subst k. rewrite nth_lookup.
        replace (Z.to_nat (i + 1)) with (S (Z.to_nat i)) by lia.
        destruct (data n !! S (Z.to_nat i)) eqn:E1; [done|].
        apply lookup_ge_None_1 in E1. lia.
    + intros k. rewrite HC. subst n2 n1. simpl.
      rewrite !list_lookup_insert. unfold get_child. simpl.
      repeat case_decide; try lia; auto.
      * destruct_and!. subst k. rewrite nth_lookup.
        replace (Z.to_nat (i + 2)) with (S (Z.to_nat (i + 1))) by lia.
        destruct (children n !! S (Z.to_nat (i + 1))) eqn:E1; [done|].
        apply lookup_ge_None_1 in E1. lia.
Qed.

Ltac lk_norm :=
  repeat (rewrite ?lookup_take, ?lookup_drop, ?lookup_app_dec,
      ?lookup_cons_dec, ?length_take, ?length_drop, ?length_app,
      ?length_insert, ?list_lookup_insert, ?length_replicate; simpl length).

(** [delete_in_node] on a node whose arrays hold entry [count] and
    child [count + 1]. *)
Lemma delete_in_node_spec pos n :
  0 <= pos < count n ->
  (Z.to_nat (count n) < length (data n))%nat ->
  (Z.to_nat (count n) + 1 < length (children n))%nat ->
  let n' := delete_in_node pos n in
  page_id n' = page_id n /\ count n' = count n - 1 /\ right n' = right n /\
  length (data n') = length (data n) /\
  length (children n') = length (children n) /\
  take (Z.to_nat (count n) - 1) (data n') =
    take (Z.to_nat pos) (data n) ++
    drop (S (Z.to_nat pos)) (take (Z.to_nat (count n)) (data n)) /\
  take (Z.to_nat (count n)) (children n') =
    take (S (Z.to_nat pos)) (children n) ++
    drop (S (S (Z.to_nat pos))) (take (S (Z.to_nat (count n))) (children n)).
Proof.
  intros Hpos Hd Hc n'. subst n'. unfold delete_in_node.
  destruct (delete_in_node_loop_spec (Z.to_nat (count n - pos)) pos n)
    as (Hp & Hcnt & Hr & Hld & Hlc & HD & HC); auto; [lia|].
  cbn [set_count page_id count right data children].
  repeat split; auto.
  - lia.
  - apply list_eq. intros k. lk_norm. rewrite !HD.
    repeat case_decide; try lia; try done; try (f_equal; lia).
  - apply list_eq. intros k. lk_norm. rewrite !HC.
    repeat case_decide; try lia; try done; try (f_equal; lia).
Qed.

End NodeOps.

End NodeOps.

Module PagerBytes.

Import BPTStructure.
Local Open Scope Z_scope.

(** * [Pager::save], [Pager::erase] and [Pager::get_id] on bytes *)

Section Register.

(** [sizeof(Register)]. *)
Variable S : Z.

(** [write(buf, len)] at offset [off] of a file open for reading and
    writing: the bytes before [off] stay, a gap between the end of the
    file and [off] reads as zero bytes, and the bytes after the written
    range stay. *)
Definition write_at (file : list Byte.byte) (off : Z) (buf : list Byte.byte)
  : list Byte.byte :=
  let o := Z.to_nat off in
  take o file ++ replicate (o - length file) Byte.x00 ++ buf
    ++ drop (o + length buf) file.

(** [Pager::save(n, reg)]: [clear()], [seekp], [write].  A seek to a
    negative offset fails and the write after it transfers nothing. *)
Definition save (n : Z) (reg : list Byte.byte) (file : list Byte.byte)
  : list Byte.byte :=
  let off := Pager.offset S n in
  if off <? 0 then file else write_at file off reg.

(** [Pager::erase(n)]: [clear()], [seekg], and the one byte ['X']
    written at the position of the stream, which a file stream shares
    between reading and writing. *)
Definition erase (n : Z) (file : list Byte.byte) : list Byte.byte :=
  let off := Pager.offset S n in
  if off <? 0 then file else write_at file off [Byte.x58].

(** [Pager::get_id] on a stream without [failbit]: the size of the file
    in registers. *)
Definition get_id (file : list Byte.byte) : Z := Z.of_nat (length file) / S.

Lemma offset_small n : 0 <= n * S < 2 ^ 63 -> Pager.offset S n = n * S.
Proof.
  intros Hn. unfold Pager.offset.
  rewrite Z.mod_small by lia.
  by assert ((n * S <? 2 ^ 63) = true) as -> by lia.
Qed.

Lemma length_write_at file off buf :
  0 <= off ->
  length (write_at file off buf)
  = (length file `max` (Z.to_nat off + length buf))%nat.
Proof.
  intros Hoff. unfold write_at.
  rewrite !length_app, length_take, length_replicate, length_drop. lia.
Qed.

Lemma lookup_write_at file off buf (k : nat) :
  0 <= off ->
  write_at file off buf !! k =
    if decide (k < Z.to_nat off)%nat then
      if decide (k < length file)%nat then file !! k else Some Byte.x00
    else if decide (k < Z.to_nat off + length buf)%nat
         then buf !! (k - Z.to_nat off)%nat
         else file !! k.
Proof.
  intros Hoff. unfold write_at.
  rewrite !lookup_app_dec, !length_take, !length_replicate, lookup_take,
    lookup_drop.
  repeat case_decide; try lia; try done.
  - apply lookup_replicate_2. lia.
  - f_equal. lia.
  - f_equal. lia.
Qed.

(** Reading the register that was written. *)
Lemma read_at_write_at file off buf :
  0 <= off -> length buf = Z.to_nat S ->
  Pager.read_at S (write_at file off buf) off = buf.
Proof.
  intros Hoff Hlen. unfold Pager.read_at. apply list_eq. intros k.
  rewrite lookup_take, lookup_drop, lookup_write_at by done.
  repeat case_decide; try lia.
  - f_equal. lia.
  - symmetry. apply lookup_ge_None_2. lia.
Qed.

(** Reading a register of the old file that the write does not touch. *)
Lemma read_at_write_at_other file off buf off' :
  0 <= off -> 0 <= off' -> length buf = Z.to_nat S ->
  off' + S <= off \/ off + S <= off' ->
  off' + S <= Z.of_nat (length file) ->
  Pager.read_at S (write_at file off buf) off' = Pager.read_at S file off'.
Proof.
  intros Hoff Hoff' Hlen Hdis Hin. unfold Pager.read_at. apply list_eq.
  intros k. rewrite !lookup_take, !lookup_drop.
  case_decide; [|done].
  rewrite lookup_write_at by done.
  repeat case_decide; try lia; done.
Qed.

End Register.

End PagerBytes.

Module InvIdxSets.

Import InvIdx.
Local Open Scope Z_scope.

(** * Result sets of the inverted index *)

(** The order in which a [std::set] of pairs is kept. *)
Definition plt (a b : Z * Z) : Prop := pair_lt a b = true.

Lemma plt_irrefl a : ~ plt a a.
Proof. unfold plt, pair_lt. destruct a as [a1 a2]. simpl. lia. Qed.

Lemma plt_trans a b c : plt a b -> plt b c -> plt a c.
Proof.
  unfold plt, pair_lt. destruct a as [a1 a2], b as [b1 b2], c as [c1 c2].
  simpl. lia.
Qed.

Lemma plt_tricho a b : pair_lt a b = false -> pair_lt b a = false -> a = b.
Proof.
  unfold pair_lt. destruct a as [a1 a2], b as [b1 b2]. simpl. intros H1 H2.
  f_equal; lia.
Qed.

Lemma not_elem_of_above x (l : list (Z * Z)) :
  Forall (plt x) l -> x ∉ l.
Proof.
  intros Hl Hx. rewrite Forall_forall in Hl. by apply (plt_irrefl x), Hl.
Qed.

Lemma set_intersection_nil_r a : set_intersection a [] = [].
Proof. by destruct a. Qed.

Lemma set_intersection_cons x a y b :
  set_intersection (x :: a) (y :: b) =
    if pair_lt x y then set_intersection a (y :: b)
    else if pair_lt y x then set_intersection (x :: a) b
    else x :: set_intersection a b.
Proof. reflexivity. Qed.

(** [std::set_intersection] on two increasing ranges keeps what is in
    both. *)
Lemma elem_of_set_intersection a : forall b,
  StronglySorted plt a -> StronglySorted plt b ->
  forall z, z ∈ set_intersection a b <-> z ∈ a /\ z ∈ b.
Proof.
  induction a as [|x a IHa]; intros b.
  { intros _ _ z. simpl. split; [inversion 1|intros [H _]; inversion H]. }
  induction b as [|y b IHb]; intros Ha Hb z.
  { rewrite set_intersection_nil_r.
    split; [inversion 1|intros [_ H]; inversion H]. }
  rewrite set_intersection_cons.
  pose proof Ha as Ha'. pose proof Hb as Hb'.
  apply StronglySorted_inv in Ha' as [Hsa Hxa].
  apply StronglySorted_inv in Hb' as [Hsb Hyb].
  destruct (pair_lt x y) eqn:Exy; [|destruct (pair_lt y x) eqn:Eyx].
  - rewrite (IHa (y :: b) Hsa Hb z). rewrite !elem_of_cons.
    split; [tauto|]. intros [[->|Hz] Hzb]; [|tauto]. exfalso.
    destruct Hzb as [->|Hzb]; [by apply (plt_irrefl y)|].
    rewrite Forall_forall in Hyb.
    apply (plt_irrefl x), (plt_trans x y x); [done|by apply Hyb].
  - rewrite (IHb Ha Hsb z). rewrite !elem_of_cons.
    split; [tauto|]. intros [Hza [->|Hz]]; [|tauto]. exfalso.
    destruct Hza as [->|Hza]; [by apply (plt_irrefl x)|].
    rewrite Forall_forall in Hxa.
    apply (plt_irrefl y), (plt_trans y x y); [done|by apply Hxa].
  - assert (x = y) by (by apply plt_tricho). subst y.
    rewrite !elem_of_cons, (IHa b Hsa Hsb z).
    tauto.
Qed.

Lemma set_intersection_sorted a : forall b,
  StronglySorted plt a -> StronglySorted plt b ->
  StronglySorted plt (set_intersection a b).
Proof.
  induction a as [|x a IHa]; intros b.
  { intros _ _. constructor. }
  induction b as [|y b IHb]; intros Ha Hb.
  { rewrite set_intersection_nil_r. constructor. }
  rewrite set_intersection_cons.
  pose proof Ha as Ha'. pose proof Hb as Hb'.
  apply StronglySorted_inv in Ha' as [Hsa Hxa].
  apply StronglySorted_inv in Hb' as [Hsb Hyb].
  destruct (pair_lt x y) eqn:Exy; [|destruct (pair_lt y x) eqn:Eyx].
  - by apply IHa.
  - by apply IHb.
  - constructor; [by apply IHa|].
    apply Forall_forall. intros z Hz.
    apply (elem_of_set_intersection a b Hsa Hsb) in Hz as [Hz _].
    rewrite Forall_forall in Hxa. by apply Hxa.
Qed.

(** [intersection] on a vector of result sets. *)
Lemma intersection_fold rest : forall acc,
  StronglySorted plt acc -> Forall (StronglySorted plt) rest ->
  let res := fold_left (fun acc ri => set_intersection ri acc) rest acc in
  StronglySorted plt res /\
  forall z, z ∈ res <-> z ∈ acc /\ Forall (fun r => z ∈ r) rest.
Proof.
  induction rest as [|r rest IH]; intros acc Hacc Hrest res; subst res.
  - simpl. split; [done|]. intros z. split; [by intros ?|by intros [? _]].
  - apply Forall_cons in Hrest as [Hr Hrest]. cbn [fold_left].
    destruct (IH (set_intersection r acc)
                (set_intersection_sorted r acc Hr Hacc) Hrest) as [Hs Hm].
    split; [done|]. intros z. rewrite Hm, Forall_cons.
    rewrite (elem_of_set_intersection r acc Hr Hacc z). tauto.
Qed.

(** [std::set::insert] keeps the set increasing. *)
Lemma elem_of_set_insert x s z :
  z ∈ set_insert x s <-> z = x \/ z ∈ s.
Proof.
  induction s as [|y s IH]; simpl.
  - rewrite elem_of_cons, elem_of_nil. tauto.
  - destruct (pair_lt x y) eqn:Exy; [|destruct (pair_lt y x) eqn:Eyx].
    + rewrite !elem_of_cons. tauto.
    + rewrite !elem_of_cons, IH. tauto.
    + assert (x = y) by (by apply plt_tricho). subst y.
      rewrite !elem_of_cons. tauto.
Qed.


Section Find.

Variable hash_fn : string -> Z.
Variable uninit : Z.




End Find.

Lemma intersection_spec (rl : list (list (Z * Z))) :
  rl <> [] -> Forall (StronglySorted plt) rl ->
  StronglySorted plt (intersection rl) /\
  forall z, z ∈ intersection rl <-> Forall (fun r => z ∈ r) rl.
Proof.
  intros Hne Hs. destruct rl as [|r0 [|r1 rest]]; [done| |].
  - apply Forall_cons in Hs as [Hs0 _]. cbn [intersection].
    split; [done|]. intros z. rewrite Forall_cons, Forall_nil. tauto.
  - apply Forall_cons in Hs as [Hs0 Hs]. apply Forall_cons in Hs as [Hs1 Hs].
    cbn [intersection].
    destruct (intersection_fold rest (set_intersection r0 r1)
                (set_intersection_sorted r0 r1 Hs0 Hs1) Hs) as [Hsort Hm].
    split; [done|]. intros z. rewrite Hm, !Forall_cons.
    rewrite (elem_of_set_intersection r0 r1 Hs0 Hs1 z). tauto.
Qed.


End InvIdxSets.

Module TopKCount.

Import BPTStructure BPTFind BPTOrder BPTIter.
Import BPT.
Local Open Scope Z_scope.

(** * What [TopK::insert] counts *)

Lemma HashedKey_KeyLaws (uninit : Z) :
  @KeyLaws HashedKey (HashedKey_ops uninit).
Proof.
  split; cbn [key_lt key_le key_eq HashedKey_ops]; intros.
  - lia.
  - lia.
  - lia.
  - destruct (Z.leb_spec (hk_key a) (hk_key b)),
             (Z.ltb_spec (hk_key b) (hk_key a)); simpl; lia.
  - destruct (Z.eqb_spec (hk_key a) (hk_key b)),
             (Z.ltb_spec (hk_key a) (hk_key b)),
             (Z.ltb_spec (hk_key b) (hk_key a)); simpl; lia.
Qed.

(** ** C strings that [snprintf] copies whole *)

Lemma c_str_id (s : string) :
  ~ In NUL (list_ascii_of_string s) -> c_str s = s.
Proof.
  induction s as [|c s IH]; intros Hn; [done|].
  cbn [c_str]. cbn [list_ascii_of_string In] in Hn.
  destruct (Ascii.eqb_spec c NUL) as [->|_]; [tauto|].
  f_equal. apply IH. tauto.
Qed.

Lemma substring_all (s : string) (n : nat) :
  (String.length s <= n)%nat -> substring 0 n s = s.
Proof.
  revert n. induction s as [|c s IH]; intros n Hn.
  - by destruct n.
  - destruct n as [|n]; [simpl in Hn; lia|].
    cbn [substring]. f_equal. apply IH. simpl in Hn. lia.
Qed.

Lemma length_substring_0 (s : string) (n : nat) :
  (String.length (substring 0 n s) <= n)%nat.
Proof.
  revert n. induction s as [|c s IH]; intros n.
  - destruct n; simpl; lia.
  - destruct n as [|n]; [simpl; lia|].
    cbn [substring String.length]. specialize (IH n). lia.
Qed.

Lemma snprintf_id (s : string) :
  (String.length s < 64)%nat -> ~ In NUL (list_ascii_of_string s) ->
  snprintf 64 s = s.
Proof.
  intros Hl Hn. unfold snprintf. rewrite c_str_id by done.
  apply substring_all. lia.
Qed.

Lemma length_snprintf (s : string) :
  (String.length (snprintf 64 s) < 64)%nat.
Proof.
  unfold snprintf. pose proof (length_substring_0 (c_str s) (64 - 1)). lia.
Qed.

Section Count.

Variable hash_fn : string -> Z.
Variable uninit_key : Z.
Variable uninit_name : string.
#[local] Instance KO : KeyOps HashedKey := HashedKey_ops uninit_key.
#[local] Instance KL : KeyLaws HashedKey := HashedKey_KeyLaws uninit_key.

Definition hkey (w : string) : Z := size_t_wrap (hash_fn w).

(** [find] with the hash of [w]: it stands at a stored key with that
    hash when there is one, and at [end()], whose entry is the
    default-constructed key, when there is none. *)
Lemma find_hash w bt t :
  Inv 64 bt t -> ordered t ->
  exists it, find 64 (mkHK (hkey w) (-1)) bt = Some it /\
    ((deref it ∈ flat t /\ hk_key (deref it) = hkey w) \/
     ((forall x, x ∈ flat t -> hk_key x <> hkey w) /\
      deref it = mkHK uninit_key (-1))).
Proof.
  intros HI Ho.
  destruct (find_spec 64 ltac:(lia) ltac:(reflexivity)
              (mkHK (hkey w) (-1)) bt t HI Ho)
    as (it & E & Hhit & Hmiss).
  exists it. split; [done|].
  destruct (existsb (fun x => hk_key x =? hkey w) (flat t)) eqn:Ex.
  - left. apply existsb_exists in Ex. destruct Ex as (x & Hx & Hxk).
    destruct Hhit as (_ & Hin & Hk).
    { exists x. split; [by apply list_elem_of_In|].
      cbn [key_eq KO HashedKey_ops hk_key]. done. }
    split; [done|]. cbn [key_eq KO HashedKey_ops hk_key] in Hk. lia.
  - right.
    assert (Hno : forall x, x ∈ flat t -> hk_key x <> hkey w).
    { intros x Hx Hk.
      assert (Ht : existsb (fun x => hk_key x =? hkey w) (flat t) = true).
      { apply existsb_exists. exists x. split; [by apply list_elem_of_In|].
        lia. }
      congruence. }
    split; [done|]. rewrite Hmiss; [reflexivity|].
    intros (x & Hx & Hk). apply (Hno x Hx).
    cbn [key_eq KO HashedKey_ops hk_key] in Hk. lia.
Qed.

(** ** The state of the ranker after the words [done]

    The tree holds one key per record, the hash of the record's name
    with the record's slot; the names are distinct; every record counts
    the occurrences of its name. *)
Definition keyed (t : tree) (recs : list TopK.TkRecord) : Prop :=
  forall x, x ∈ flat t <->
    exists (i : nat) r, recs !! i = Some r /\
      x = mkHK (hkey (TopK.tkname r)) (Z.of_nat i).

Definition counted (done : list string) (tk : TopK.TopK) : Prop :=
  exists t, Inv 64 (TopK.bt tk) t /\ ordered t /\
    keyed t (TopK.record_manager tk) /\
    TopK.tk_id tk = Z.of_nat (length (TopK.record_manager tk)) /\
    NoDup (map TopK.tkname (TopK.record_manager tk)) /\
    (forall r, r ∈ TopK.record_manager tk ->
       TopK.tkname r ∈ done /\
       TopK.tk_count r =
         TopK.uint32_wrap
           (Z.of_nat (count_occ string_dec done (TopK.tkname r)))) /\
    (forall w, w ∈ done -> w ∈ map TopK.tkname (TopK.record_manager tk)).

Lemma counted_init : counted [] (TopK.init_topk uninit_key).
Proof.
  exists (Tr 1 [] []). split_and!.
  - apply (Inv_create 64); [lia|reflexivity].
  - apply ordered_create.
  - intros x. cbn [flat TopK.init_topk TopK.record_manager]. split.
    + intros Hx. by apply elem_of_nil in Hx.
    + intros (i & r & Hr & _). by rewrite lookup_nil in Hr.
  - reflexivity.
  - constructor.
  - intros r Hr. by apply elem_of_nil in Hr.
  - intros w Hw. by apply elem_of_nil in Hw.
Qed.

Lemma uint32_wrap_succ (n : nat) :
  TopK.uint32_wrap (TopK.uint32_wrap (Z.of_nat n) + 1)
  = TopK.uint32_wrap (Z.of_nat (S n)).
Proof.
  unfold TopK.uint32_wrap. rewrite Nat2Z.inj_succ.
  rewrite Zplus_mod_idemp_l. f_equal.
Qed.

(** The words that the ranker tells apart and copies whole. *)
Definition plain (ws : list string) : Prop :=
  (forall w, w ∈ ws ->
     (String.length w < 64)%nat /\ ~ In NUL (list_ascii_of_string w) /\
     w <> uninit_name) /\
  (forall a b, a ∈ ws -> b ∈ ws -> hkey a = hkey b -> a = b).

Lemma insert_counted (done : list string) (w : string) tk :
  counted done tk -> plain (done ++ [w]) ->
  exists tk', TopK.insert hash_fn uninit_key uninit_name w tk = Some tk' /\
              counted (done ++ [w]) tk'.
Proof.
  intros (t & HI & Ho & Hk & Hid & Hnd & Hcnt & Hall) [Hplain Hinj].
  destruct (Hplain w) as (Hlen & Hnul & Hun);
    [apply elem_of_app; right; left|].
  destruct (find_hash w (TopK.bt tk) t HI Ho) as (it & Ef & Hcase).
  unfold TopK.insert, TopK.KO. cbv zeta. fold (hkey w).
  unfold KO in *. rewrite Ef.
  destruct Hcase as [[Hin Hkey]|[Hno Hend]].
  - (* the name has a record *)
    apply Hk in Hin. destruct Hin as (i & r & Hr & Ed).
    rewrite Ed in Hkey |- *. cbn [hk_key hk_id] in Hkey |- *.
    assert (Hrin : r ∈ TopK.record_manager tk)
      by (apply list_elem_of_lookup; eauto).
    destruct (Hcnt r Hrin) as [Hrd Hrc].
    assert (Hname : TopK.tkname r = w).
    { apply Hinj; [apply elem_of_app; by left
                  |apply elem_of_app; right; left|done]. }
    unfold RecFile.recover.
    assert ((Z.of_nat i <? 0) = false) as -> by (apply Z.ltb_ge; lia).
    rewrite Nat2Z.id, Hr. cbn [snd].
    unfold TopK.string_ne_cstr. rewrite Hname, String.eqb_refl. cbn [negb].
    eexists. split; [reflexivity|].
    assert (Hi : (i < length (TopK.record_manager tk))%nat)
      by (by apply lookup_lt_Some in Hr).
    unfold RecFile.save.
    assert ((Z.of_nat i <? 0) = false) as -> by (apply Z.ltb_ge; lia).
    assert ((Z.of_nat i <? Z.of_nat (length (TopK.record_manager tk)))
            = true) as -> by (apply Z.ltb_lt; lia).
    rewrite Nat2Z.id.
    set (r1 := {| TopK.tk_count := TopK.uint32_wrap (TopK.tk_count r + 1);
                  TopK.tkname := w |}).
    assert (Hnames : map TopK.tkname (<[i := r1]> (TopK.record_manager tk))
                     = map TopK.tkname (TopK.record_manager tk)).
    { change (TopK.tkname <$> <[i:=r1]> (TopK.record_manager tk)
              = TopK.tkname <$> TopK.record_manager tk).
      rewrite list_fmap_insert. apply list_insert_id.
      rewrite list_lookup_fmap, Hr. cbn. by rewrite Hname. }
    exists t. cbn [TopK.bt TopK.record_manager TopK.tk_id].
    split_and!; try done.
    + intros x. rewrite (Hk x). split.
      * intros (j & r' & Hr' & ->).
        destruct (decide (j = i)) as [->|Hne].
        -- exists i, r1. rewrite list_lookup_insert.
           rewrite decide_True by done. split; [done|].
           rewrite Hr in Hr'. injection Hr' as <-. by rewrite Hname.
        -- exists j, r'. rewrite list_lookup_insert.
           rewrite decide_False by (intros [? _]; congruence). done.
      * intros (j & r' & Hr' & ->). rewrite list_lookup_insert in Hr'.
        case_decide as Hd.
        -- destruct Hd as [<- _]. injection Hr' as <-.
           exists i, r. split; [done|]. by rewrite Hname.
        -- by exists j, r'.
    + by rewrite length_insert.
    + by rewrite Hnames.
    + intros r' Hr'. apply list_elem_of_lookup in Hr' as [j Hr'].
      rewrite list_lookup_insert in Hr'. case_decide as Hd.
      * destruct Hd as [<- _]. injection Hr' as <-. cbn [r1 TopK.tkname
          TopK.tk_count]. split; [apply elem_of_app; right; left|].
        rewrite count_occ_app. cbn [count_occ].
        destruct (string_dec w w) as [_|Hww]; [|done].
        rewrite Hrc, Hname.
        replace (count_occ string_dec done w + 1)%nat
          with (S (count_occ string_dec done w)) by lia.
        apply uint32_wrap_succ.
      * assert (Hr'in : r' ∈ TopK.record_manager tk)
          by (apply list_elem_of_lookup; eauto).
        destruct (Hcnt r' Hr'in) as [Hd' Hc'].
        split; [apply elem_of_app; by left|].
        rewrite count_occ_app. cbn [count_occ].
        destruct (string_dec w (TopK.tkname r')) as [Hw|_].
        -- exfalso. assert (j = i) as ->;
             [|apply Hd; split; [done|by apply lookup_lt_Some in Hr]].
           apply (NoDup_lookup _ j i w Hnd).
           ++ change ((TopK.tkname <$> TopK.record_manager tk) !! j = Some w).
              rewrite list_lookup_fmap, Hr'. cbn. by rewrite Hw.
           ++ change ((TopK.tkname <$> TopK.record_manager tk) !! i = Some w).
              rewrite list_lookup_fmap, Hr. cbn. by rewrite Hname.
        -- by rewrite Nat.add_0_r.
    + intros w' Hw'. rewrite Hnames. apply elem_of_app in Hw' as [Hw'|Hw'].
      * by apply Hall.
      * apply list_elem_of_singleton in Hw'. subst w'. rewrite <- Hname.
        change (TopK.tkname r ∈ TopK.tkname <$> TopK.record_manager tk).
        by apply list_elem_of_fmap_2.
  - (* the name is new *)
    rewrite Hend. cbn [hk_id]. unfold RecFile.recover.
    assert ((-1 <? 0) = true) as -> by lia. cbn [snd].
    unfold TopK.string_ne_cstr. cbn [TopK.TkRecord_default TopK.tkname].
    assert (String.eqb w uninit_name = false) as ->
      by (by apply String.eqb_neq).
    cbn [negb].
    destruct (insert_one 64 ltac:(lia) ltac:(reflexivity)
                (mkHK (hkey w) (TopK.tk_id tk)) (TopK.bt tk) t HI Ho)
      as (bt1 & t1 & Ei & HI1 & Ho1 & Hf1).
    unfold KO in Ei. rewrite Ei. eexists. split; [reflexivity|].
    rewrite (snprintf_id w Hlen Hnul).
    unfold RecFile.save. rewrite Hid.
    assert ((Z.of_nat (length (TopK.record_manager tk)) <? 0) = false)
      as -> by (apply Z.ltb_ge; lia).
    rewrite Z.ltb_irrefl, Nat2Z.id, Nat.sub_diag. cbn [replicate app].
    set (r1 := {| TopK.tk_count := 1; TopK.tkname := w |}).
    assert (Hnew : w ∉ map TopK.tkname (TopK.record_manager tk)).
    { intros Hw.
      change (w ∈ TopK.tkname <$> TopK.record_manager tk) in Hw.
      apply list_elem_of_fmap in Hw as (r & -> & Hr).
      apply list_elem_of_lookup in Hr as [i Hr].
      apply (Hno (mkHK (hkey (TopK.tkname r)) (Z.of_nat i))); [|done].
      apply Hk. by exists i, r. }
    exists t1. cbn [TopK.bt TopK.record_manager TopK.tk_id].
    split_and!; try done.
    + intros x. rewrite Hf1, elem_of_cons, (Hk x). split.
      * intros [->|(j & r' & Hr' & ->)].
        -- exists (length (TopK.record_manager tk)), r1.
           split; [|by rewrite Hid]. rewrite lookup_app_r by lia.
           by rewrite Nat.sub_diag.
        -- exists j, r'. split; [|done]. by apply lookup_app_l_Some.
      * intros (j & r' & Hr' & ->).
        apply lookup_app_Some in Hr' as [Hr'|[Hj Hr']].
        -- right. by exists j, r'.
        -- left. destruct (j - length (TopK.record_manager tk))%nat eqn:Ej;
             [|by destruct n].
           injection Hr' as <-. cbn [r1 TopK.tkname]. rewrite Hid.
           f_equal. lia.
    + rewrite length_app. cbn [length]. lia.
    + rewrite map_app. cbn [map r1 TopK.tkname].
      apply NoDup_app. split; [done|]. split.
      * intros x Hx Hx'. apply list_elem_of_singleton in Hx'. by subst x.
      * apply NoDup_singleton.
    + intros r' Hr'. apply elem_of_app in Hr' as [Hr'|Hr'].
      * destruct (Hcnt r' Hr') as [Hd' Hc'].
        split; [apply elem_of_app; by left|].
        rewrite count_occ_app. cbn [count_occ].
        destruct (string_dec w (TopK.tkname r')) as [Hw|_].
        -- exfalso. apply Hnew. rewrite Hw.
           change (TopK.tkname r' ∈ TopK.tkname <$> TopK.record_manager tk).
           by apply list_elem_of_fmap_2.
        -- by rewrite Nat.add_0_r.
      * apply list_elem_of_singleton in Hr'. subst r'.
        cbn [r1 TopK.tkname TopK.tk_count].
        split; [apply elem_of_app; right; left|].
        rewrite count_occ_app. cbn [count_occ].
        destruct (string_dec w w) as [_|Hww]; [|done].
        assert (Hz : count_occ string_dec done w = 0%nat).
        { apply count_occ_not_In. intros Hw. apply Hnew, Hall.
          by apply list_elem_of_In. }
        rewrite Hz. reflexivity.
    + intros w' Hw'. rewrite map_app. apply elem_of_app.
      apply elem_of_app in Hw' as [Hw'|Hw'].
      * left. by apply Hall.
      * right. apply list_elem_of_singleton in Hw'. subst w'. left.
Qed.

Lemma plain_subseteq (l1 l2 : list string) :
  (forall w, w ∈ l1 -> w ∈ l2) -> plain l2 -> plain l1.
Proof.
  intros Hsub [Hp Hi]. split.
  - intros w Hw. by apply Hp, Hsub.
  - intros a b Ha Hb. apply Hi; by apply Hsub.
Qed.

Lemma insert_all_counted (rest : list string) : forall done tk,
  counted done tk -> plain (done ++ rest) ->
  exists tk', TopK.insert_all hash_fn uninit_key uninit_name rest tk
              = Some tk' /\
              counted (done ++ rest) tk'.
Proof.
  induction rest as [|w rest IH]; intros done tk Hc Hp.
  - exists tk. by rewrite app_nil_r.
  - destruct (insert_counted done w tk Hc) as (tk1 & E1 & Hc1).
    { apply (plain_subseteq (done ++ [w]) (done ++ w :: rest)); [|done].
      intros x Hx. rewrite elem_of_app in Hx. rewrite elem_of_app, elem_of_cons.
      destruct Hx as [?|Hx]; [by left|].
      apply list_elem_of_singleton in Hx. right. by left. }
    destruct (IH (done ++ [w]) tk1 Hc1) as (tk' & E' & Hc').
    { by rewrite <- app_assoc. }
    exists tk'. cbn [TopK.insert_all]. rewrite E1.
    split; [done|]. by rewrite <- app_assoc in Hc'.
Qed.

(** ** Names of 64 or more characters *)

Definition stored (tk : TopK.TopK) : Prop :=
  exists t, Inv 64 (TopK.bt tk) t /\ ordered t /\
    TopK.tk_id tk = Z.of_nat (length (TopK.record_manager tk)) /\
    (forall x, x ∈ flat t ->
       exists (i : nat) r, TopK.record_manager tk !! i = Some r /\
                           hk_id x = Z.of_nat i) /\
    (forall r, r ∈ TopK.record_manager tk ->
       (String.length (TopK.tkname r) < 64)%nat).

Lemma stored_init : stored (TopK.init_topk uninit_key).
Proof.
  exists (Tr 1 [] []). split_and!.
  - apply (Inv_create 64); [lia|reflexivity].
  - apply ordered_create.
  - reflexivity.
  - intros x Hx. by apply elem_of_nil in Hx.
  - intros r Hr. by apply elem_of_nil in Hr.
Qed.

Lemma eqb_length (a b : string) :
  String.length a <> String.length b -> String.eqb a b = false.
Proof.
  intros Hl. apply String.eqb_neq. intros ->. done.
Qed.

Lemma insert_long (w : string) tk :
  stored tk -> (64 <= String.length w)%nat -> w <> uninit_name ->
  exists tk', TopK.insert hash_fn uninit_key uninit_name w tk = Some tk' /\
    stored tk' /\
    TopK.record_manager tk' =
      TopK.record_manager tk ++ [TopK.mkTk 1 (snprintf 64 w)].
Proof.
  intros (t & HI & Ho & Hid & Hk & Hshort) Hlen Hun.
  destruct (find_hash w (TopK.bt tk) t HI Ho) as (it & Ef & Hcase).
  unfold TopK.insert, TopK.KO. cbv zeta. fold (hkey w).
  unfold KO in *. rewrite Ef.
  assert (Hne : TopK.string_ne_cstr w
            (TopK.tkname
               (RecFile.recover (hk_id (deref it))
                  (TopK.TkRecord_default uninit_name)
                  (TopK.record_manager tk)).2) = true).
  { unfold KO. unfold TopK.string_ne_cstr. apply negb_true_iff.
    destruct Hcase as [[Hin Hkey]|[Hno Hend]].
    - destruct (Hk _ Hin) as (i & r & Hr & Hi). rewrite Hi.
      unfold RecFile.recover.
      assert ((Z.of_nat i <? 0) = false) as -> by (apply Z.ltb_ge; lia).
      rewrite Nat2Z.id, Hr. cbn [snd].
      assert (Hrin : r ∈ TopK.record_manager tk)
        by (apply list_elem_of_lookup; eauto).
      apply eqb_length. specialize (Hshort r Hrin). lia.
    - rewrite Hend. cbn [hk_id]. unfold RecFile.recover.
      assert ((-1 <? 0) = true) as -> by lia. cbn [snd].
      cbn [TopK.TkRecord_default TopK.tkname]. by apply String.eqb_neq. }
  unfold KO in Hne. rewrite Hne.
  destruct (insert_one 64 ltac:(lia) ltac:(reflexivity)
              (mkHK (hkey w) (TopK.tk_id tk)) (TopK.bt tk) t HI Ho)
    as (bt1 & t1 & Ei & HI1 & Ho1 & Hf1).
  unfold KO in Ei. rewrite Ei. eexists. split; [reflexivity|].
  cbn [TopK.bt TopK.record_manager TopK.tk_id].
  assert (Hsave : RecFile.save TopK.TkRecord_zero (TopK.tk_id tk)
                    (TopK.mkTk 1 (snprintf 64 w)) (TopK.record_manager tk)
                  = TopK.record_manager tk ++ [TopK.mkTk 1 (snprintf 64 w)]).
  { unfold RecFile.save. rewrite Hid.
    assert ((Z.of_nat (length (TopK.record_manager tk)) <? 0) = false)
      as -> by (apply Z.ltb_ge; lia).
    by rewrite Z.ltb_irrefl, Nat2Z.id, Nat.sub_diag. }
  rewrite Hsave. split; [|done].
  exists t1. cbn [TopK.bt TopK.record_manager TopK.tk_id].
  split_and!; try done.
  - rewrite length_app. cbn [length]. lia.
  - intros x Hx. rewrite Hf1 in Hx. apply elem_of_cons in Hx as [->|Hx].
    + exists (length (TopK.record_manager tk)), (TopK.mkTk 1 (snprintf 64 w)).
      split; [|done]. rewrite lookup_app_r by lia. by rewrite Nat.sub_diag.
    + destruct (Hk x Hx) as (i & r & Hr & Hi). exists i, r.
      split; [|done]. by apply lookup_app_l_Some.
  - intros r Hr. apply elem_of_app in Hr as [Hr|Hr]; [by apply Hshort|].
    apply list_elem_of_singleton in Hr. subst r. cbn [TopK.tkname].
    apply length_snprintf.
Qed.

Lemma insert_all_long (ws : list string) : forall tk,
  stored tk ->
  (forall w, w ∈ ws -> (64 <= String.length w)%nat /\ w <> uninit_name) ->
  exists tk', TopK.insert_all hash_fn uninit_key uninit_name ws tk
              = Some tk' /\
    TopK.record_manager tk' =
      TopK.record_manager tk
        ++ map (fun w => TopK.mkTk 1 (snprintf 64 w)) ws.
Proof.
  induction ws as [|w ws IH]; intros tk Hs Hws.
  - exists tk. by rewrite app_nil_r.
  - destruct (Hws w) as [Hl Hu]; [left|].
    destruct (insert_long w tk Hs Hl Hu) as (tk1 & E1 & Hs1 & Hr1).
    destruct (IH tk1 Hs1) as (tk' & E' & Hr').
    { intros x Hx. apply Hws. by right. }
    exists tk'. cbn [TopK.insert_all]. rewrite E1. split; [done|].
    rewrite Hr', Hr1, <- app_assoc. done.
Qed.

End Count.

End TopKCount.

Module TopKRank.

Import BPTStructure BPTFind BPTOrder BPTIter TopKHeap TopKCount.
Local Open Scope Z_scope.

(** * From the inserted names to the printed ranking *)

Section Rank.

Variable hash_fn : string -> Z.
Variable uninit_key : Z.
Variable uninit_name : string.
Variables make_heap_greater pop_heap sort_greater
  : list TopK.TkRecord -> list TopK.TkRecord.

Hypothesis make_heap_perm : forall v, make_heap_greater v ≡ₚ v.
Hypothesis make_heap_min : forall v x rest,
  make_heap_greater v = x :: rest ->
  forall y, y ∈ rest -> TopK.tk_count x <= TopK.tk_count y.
Hypothesis pop_heap_last : forall x rest,
  exists rest', pop_heap (x :: rest) = rest' ++ [x] /\ rest' ≡ₚ rest.
Hypothesis sort_perm : forall v, sort_greater v ≡ₚ v.
Hypothesis sort_sorted : forall v, Sorted count_ge (sort_greater v).

(** [insert] leaves the vector of the ranking alone. *)
Lemma insert_vec w tk tk' :
  TopK.insert hash_fn uninit_key uninit_name w tk = Some tk' ->
  TopK.vec tk' = TopK.vec tk.
Proof.
  unfold TopK.insert. cbv zeta.
  destruct (BPT.find 64 _ (TopK.bt tk)) as [it|]; [|discriminate].
  destruct (TopK.string_ne_cstr _ _).
  - destruct (BPT.insert 64 _ (TopK.bt tk)) as [bt1|]; [|discriminate].
    by intros [= <-].
  - by intros [= <-].
Qed.

Lemma insert_all_vec ws : forall tk tk',
  TopK.insert_all hash_fn uninit_key uninit_name ws tk = Some tk' ->
  TopK.vec tk' = TopK.vec tk.
Proof.
  induction ws as [|w ws IH]; intros tk tk' E.
  - by injection E as <-.
  - cbn [TopK.insert_all] in E.
    destruct (TopK.insert hash_fn uninit_key uninit_name w tk) as [tk1|] eqn:E1;
      [|discriminate].
    rewrite (IH _ _ E). by apply (insert_vec w).
Qed.

Lemma sorted_by_count (l : list TopK.TkRecord) :
  StronglySorted count_ge l ->
  StronglySorted (fun a b : string * Z => b.2 <= a.2)
    (map (fun r => (TopK.tkname r, TopK.tk_count r)) l).
Proof.
  induction 1 as [|r l Hs IH Hr]; [constructor|].
  cbn [map]. constructor; [done|].
  apply Forall_forall. intros x Hx.
  change (x ∈ (fun r => (TopK.tkname r, TopK.tk_count r)) <$> l) in Hx.
  apply list_elem_of_fmap in Hx as (r' & -> & Hr').
  rewrite Forall_forall in Hr. by apply Hr.
Qed.

(** The ranking that [print(K)] emits after the names [ws] were
    inserted and [make_topk(N)] was run. *)
Lemma ranking (ws : list string) (N : Z) :
  plain hash_fn uninit_name ws -> 0 <= N < 2 ^ 15 ->
  exists tk,
    TopK.insert_all hash_fn uninit_key uninit_name ws
      (TopK.init_topk uninit_key) = Some tk /\
    forall K,
      0 <= K <= Z.of_nat (Nat.min (length (TopK.record_manager tk))
                                  (Z.to_nat N)) ->
      let out :=
        (TopK.print sort_greater K
           (TopK.make_topk uninit_name make_heap_greater pop_heap N tk)).1 in
      length out = Z.to_nat K /\
      StronglySorted (fun a b : string * Z => b.2 <= a.2) out /\
      NoDup (map fst out) /\
      (forall name c, (name, c) ∈ out ->
         name ∈ ws /\
         c = Z.of_nat (count_occ string_dec ws name) mod 2 ^ 32) /\
      (forall w, w ∈ ws -> w ∉ map fst out ->
         forall name c, (name, c) ∈ out ->
           Z.of_nat (count_occ string_dec ws w) mod 2 ^ 32 <= c).
Proof.
  intros Hplain HN.
  destruct (insert_all_counted hash_fn uninit_key uninit_name ws []
              (TopK.init_topk uninit_key)
              (counted_init hash_fn uninit_key) Hplain)
    as (tk & E & t & _ & _ & _ & _ & Hnd & Hcnt & Hall).
  cbn [app] in Hcnt, Hall.
  exists tk. split; [done|]. intros K HK.
  assert (Hv : TopK.vec tk = []) by (by rewrite (insert_all_vec _ _ _ E)).
  set (tk1 := TopK.make_topk uninit_name make_heap_greater pop_heap N tk).
  assert (HN' : 0 <= N < 2 ^ 64).
  { split; [lia|]. apply Z.lt_trans with (2 ^ 15); [lia|reflexivity]. }
  destruct (make_topk_best uninit_name make_heap_greater pop_heap
              make_heap_perm make_heap_min pop_heap_last N tk
              HN' Hv) as (rest & Hperm & Hlen & Hbest).
  fold tk1 in Hperm, Hlen, Hbest.
  destruct (print_sorted sort_greater sort_perm sort_sorted K tk1)
    as (sorted & Hps & Hso & Hout & Hlo).
  { rewrite Hlen. lia. }
  cbv zeta. rewrite Hout.
  set (f := fun r => (TopK.tkname r, TopK.tk_count r)).
  assert (Hin : forall r, r ∈ take (Z.to_nat K) sorted ->
                          r ∈ TopK.record_manager tk).
  { intros r Hr. rewrite Hperm. apply elem_of_app. left.
    rewrite <- Hps. eapply elem_of_sublist; [done|apply sublist_take]. }
  assert (Hsplit : sorted = take (Z.to_nat K) sorted
                            ++ drop (Z.to_nat K) sorted)
    by (by rewrite take_drop).
  split_and!.
  - subst f. by rewrite <- Hout.
  - apply sorted_by_count. rewrite Hsplit in Hso.
    by apply StronglySorted_app_1_l in Hso.
  - rewrite map_map. cbn [fst f].
    change (NoDup (TopK.tkname <$> take (Z.to_nat K) sorted)).
    rewrite fmap_take. eapply sublist_NoDup; [|apply sublist_take].
    change (NoDup (TopK.tkname <$> sorted)). rewrite Hps.
    change (NoDup (TopK.tkname <$> TopK.record_manager tk)) in Hnd.
    rewrite Hperm, fmap_app in Hnd. by apply NoDup_app in Hnd as [? _].
  - intros name c Hx.
    change ((name, c) ∈ f <$> take (Z.to_nat K) sorted) in Hx.
    apply list_elem_of_fmap in Hx as (r & Er & Hr).
    injection Er as -> ->. by apply Hcnt, Hin.
  - intros w Hw Hnot name c Hx.
    change ((name, c) ∈ f <$> take (Z.to_nat K) sorted) in Hx.
    apply list_elem_of_fmap in Hx as (r & Er & Hr).
    injection Er as -> ->.
    apply Hall in Hw.
    change (w ∈ TopK.tkname <$> TopK.record_manager tk) in Hw.
    apply list_elem_of_fmap in Hw as (r0 & -> & Hr0).
    destruct (Hcnt r0 Hr0) as [_ Hc0]. unfold TopK.uint32_wrap in Hc0.
    rewrite <- Hc0.
    rewrite Hperm in Hr0. apply elem_of_app in Hr0 as [Hr0|Hr0].
    + rewrite <- Hps, Hsplit in Hr0. apply elem_of_app in Hr0 as [Hr0|Hr0].
      * exfalso. apply Hnot. rewrite map_map. cbn [fst f].
        change (TopK.tkname r0 ∈ TopK.tkname <$> take (Z.to_nat K) sorted).
        by apply list_elem_of_fmap_2.
      * rewrite Hsplit in Hso.
        apply (StronglySorted_app_1_elem_of _ _ _ r r0 Hso Hr Hr0).
    + apply Hbest; [|done]. rewrite <- Hps. eapply elem_of_sublist; [done|apply sublist_take].
Qed.

End Rank.

End TopKRank.

Module InvIdxFind.

Import BPTStructure BPTFind BPTOrder BPTIter InvIdxSets TopKCount.
Import BPT.
Local Open Scope Z_scope.

(** * What a search of the inverted index returns *)

Section Sound.

Variable hash_fn : string -> Z.
Variable uninit : Z.
#[local] Instance KO : KeyOps HashedKey := HashedKey_ops uninit.
#[local] Instance KL : KeyLaws HashedKey := HashedKey_KeyLaws uninit.

(** The calls [invidx_manager.build(word_list, pos, len)] that reading
    a file makes, one per key, in order. *)
Fixpoint build_all (docs : list (list string * Z * Z))
    (ii : InvIdx.InvertedIndex) : option InvIdx.InvertedIndex :=
  match docs with
  | [] => Some ii
  | (source, p, l) :: rest =>
      match InvIdx.build hash_fn uninit source p l ii with
      | Some ii1 => build_all rest ii1
      | None => None
      end
  end.

(** The words that one call of [build] indexes, each with the position
    it is indexed under. *)
Definition postings (d : list string * Z * Z) : list (string * Z * Z) :=
  flat_map (fun s => map (fun w => (w, d.1.2, d.2)) (InvIdx.words s)) d.1.1.

(** The index after the postings [es]: record [i] holds the position
    of posting [i], and every key of the tree is the hash of a posting's
    word with the posting's slot. *)
Definition indexed (es : list (string * Z * Z)) (ii : InvIdx.InvertedIndex)
  : Prop :=
  exists t, Inv 64 (InvIdx.bt ii) t /\ ordered t /\
    InvIdx.ii_id ii = Z.of_nat (length es) /\
    InvIdx.record_manager ii = map (fun e => mkRecord e.1.2 e.2) es /\
    length (flat t) = length es /\
    forall x, x ∈ flat t ->
      exists (i : nat) e, es !! i = Some e /\
        x = mkHK (size_t_wrap (hash_fn e.1.1)) (Z.of_nat i).

Lemma indexed_init : indexed [] (InvIdx.init_ii uninit).
Proof.
  exists (Tr 1 [] []). split_and!; try done.
  - apply (Inv_create 64); [lia|reflexivity].
  - intros x Hx. by apply elem_of_nil in Hx.
Qed.

Lemma insert_words_indexed (ws : list string) (p l : Z) : forall es ii,
  indexed es ii ->
  exists ii', InvIdx.insert_words hash_fn uninit ws p l ii = Some ii' /\
              indexed (es ++ map (fun w => (w, p, l)) ws) ii'.
Proof.
  induction ws as [|w ws IH]; intros es ii Hi.
  - exists ii. by rewrite app_nil_r.
  - destruct Hi as (t & HI & Ho & Hid & Hrec & Hlen & Hk).
    cbn [InvIdx.insert_words].
    destruct (insert_one 64 ltac:(lia) ltac:(reflexivity)
                (mkHK (size_t_wrap (hash_fn w)) (InvIdx.ii_id ii))
                (InvIdx.bt ii) t HI Ho)
      as (bt1 & t1 & Ei & HI1 & Ho1 & Hf1).
    unfold InvIdx.KO. unfold KO in Ei. rewrite Ei.
    set (ii1 := InvIdx.mkII _ _ _).
    destruct (IH (es ++ [(w, p, l)]) ii1) as (ii' & E' & Hi').
    { exists t1. subst ii1.
      cbn [InvIdx.bt InvIdx.record_manager InvIdx.ii_id].
      split_and!; try done.
      - rewrite length_app. cbn [length]. lia.
      - unfold RecFile.save. rewrite Hid.
        assert ((Z.of_nat (length es) <? 0) = false) as ->
          by (apply Z.ltb_ge; lia).
        rewrite Hrec, length_map, Z.ltb_irrefl, Nat2Z.id, Nat.sub_diag.
        by rewrite map_app.
      - rewrite Hf1, length_app. cbn [length]. lia.
      - intros x Hx. rewrite Hf1 in Hx.
        apply elem_of_cons in Hx as [->|Hx].
        + exists (length es), (w, p, l). split; [|by rewrite Hid].
          rewrite lookup_app_r by lia. by rewrite Nat.sub_diag.
        + destruct (Hk x Hx) as (i & e & He & ->). exists i, e.
          split; [|done]. by apply lookup_app_l_Some. }
    exists ii'. split; [done|].
    by rewrite <- app_assoc in Hi'.
Qed.

Lemma build_indexed (source : list string) (p l : Z) : forall es ii,
  indexed es ii ->
  exists ii', InvIdx.build hash_fn uninit source p l ii = Some ii' /\
              indexed (es ++ postings (source, p, l)) ii'.
Proof.
  unfold postings. cbn [fst snd].
  induction source as [|s source IH]; intros es ii Hi.
  - exists ii. by rewrite app_nil_r.
  - cbn [InvIdx.build]. unfold InvIdx.insert.
    destruct (insert_words_indexed (InvIdx.words s) p l es ii Hi)
      as (ii1 & E1 & Hi1).
    rewrite E1.
    destruct (IH _ ii1 Hi1) as (ii' & E' & Hi').
    exists ii'. split; [done|]. cbn [flat_map].
    by rewrite app_assoc.
Qed.

Lemma build_all_indexed (docs : list (list string * Z * Z)) : forall es ii,
  indexed es ii ->
  exists ii', build_all docs ii = Some ii' /\
              indexed (es ++ flat_map postings docs) ii'.
Proof.
  induction docs as [|[[source p] l] docs IH]; intros es ii Hi.
  - exists ii. by rewrite app_nil_r.
  - cbn [build_all].
    destruct (build_indexed source p l es ii Hi) as (ii1 & E1 & Hi1).
    rewrite E1.
    destruct (IH _ ii1 Hi1) as (ii' & E' & Hi').
    exists ii'. split; [done|]. cbn [flat_map].
    by rewrite app_assoc.
Qed.

(** The loop of [find_single_value] along the entries that the
    iterator visits. *)
Lemma find_single_loop_sound ii it L (hash_code : Z) :
  iterates 64 (InvIdx.bt ii) it L -> hash_code <> uninit ->
  forall (fuel : nat) acc, (length L < fuel)%nat ->
  exists res,
    InvIdx.find_single_loop uninit fuel hash_code ii it acc = Some res /\
    forall z, z ∈ res ->
      z ∈ acc \/
      exists x, x ∈ L /\ hk_key x = hash_code /\
        let s := (RecFile.recover (hk_id x) Record_default
                    (InvIdx.record_manager ii)).2 in
        z = (pos s, len s).
Proof.
  intros Hit Hne. induction Hit as [|it L Hp Hit IH]; intros fuel acc Hf.
  - destruct fuel as [|fuel]; [simpl in Hf; lia|].
    exists acc. cbn [InvIdx.find_single_loop].
    assert (Hd : hk_key (deref (end_ 64)) = uninit) by reflexivity.
    unfold InvIdx.KO. unfold KO in *. rewrite Hd.
    assert ((uninit =? hash_code) = false) as -> by (apply Z.eqb_neq; lia).
    split; [done|]. intros z Hz. by left.
  - destruct fuel as [|fuel]; [simpl in Hf; lia|].
    cbn [InvIdx.find_single_loop]. unfold InvIdx.KO. unfold KO in *.
    destruct (hk_key (deref it) =? hash_code) eqn:Ek.
    + destruct (IH fuel
        (InvIdx.set_insert
           (pos (RecFile.recover (hk_id (deref it)) Record_default
                   (InvIdx.record_manager ii)).2,
            len (RecFile.recover (hk_id (deref it)) Record_default
                   (InvIdx.record_manager ii)).2) acc))
        as (res & E & Hres).
      { simpl in Hf. lia. }
      exists res. split; [exact E|]. intros z Hz.
      destruct (Hres z Hz) as [Hacc|(x & Hx & Hxk & Hz')].
      * apply elem_of_set_insert in Hacc as [->|Hacc]; [|by left].
        right. exists (deref it). split; [left|].
        split; [by apply Z.eqb_eq|done].
      * right. exists x. split; [by right|]. done.
    + exists acc. split; [done|]. intros z Hz. by left.
Qed.

(** [find_single_value] on the index built from [docs]. *)
Lemma find_single_value_sound (docs : list (list string * Z * Z))
    (v : string) :
  size_t_wrap (hash_fn v) <> uninit ->
  exists ii res,
    build_all docs (InvIdx.init_ii uninit) = Some ii /\
    InvIdx.find_single_value hash_fn uninit v ii = Some res /\
    forall p l, (p, l) ∈ res ->
      exists source, (source, p, l) ∈ docs /\
        exists s w, s ∈ source /\ w ∈ InvIdx.words s /\
          size_t_wrap (hash_fn w) = size_t_wrap (hash_fn v).
Proof.
  intros Hne.
  destruct (build_all_indexed docs [] _ indexed_init) as (ii & E & Hi).
  cbn [app] in Hi. destruct Hi as (t & HI & Ho & Hid & Hrec & Hlen & Hk).
  set (k := mkHK (size_t_wrap (size_t_wrap (hash_fn v) - 1)) (-1)).
  destruct (find_geq_spec 64 ltac:(lia) ltac:(reflexivity) k
              (InvIdx.bt ii) t HI) as (it & Eg & Hit).
  pose proof HI as (_ & _ & _ & Hs & _).
  destruct (tseek_suffix 64 k t _ _ Hs) as [pre Hpre].
  destruct (find_single_loop_sound ii it (tseek k t)
              (size_t_wrap (hash_fn v)) Hit Hne
              (S (S (Z.to_nat (InvIdx.ii_id ii)))) [])
    as (res & Er & Hres).
  { rewrite Hid, Nat2Z.id, <- Hlen, Hpre, length_app. lia. }
  exists ii, res. split; [done|]. split.
  { unfold InvIdx.find_single_value, InvIdx.KO. fold k.
    unfold KO in Eg. by rewrite Eg. }
  intros p l Hz. destruct (Hres _ Hz) as [Hnil|(x & Hx & Hxk & Hz')].
  { by apply elem_of_nil in Hnil. }
  assert (Hxt : x ∈ flat t) by (rewrite Hpre; apply elem_of_app; by right).
  destruct (Hk x Hxt) as (i & [[w p'] l'] & He & ->).
  cbn [hk_key hk_id fst snd] in *.
  unfold RecFile.recover in Hz'.
  assert ((Z.of_nat i <? 0) = false) as Hi0 by (apply Z.ltb_ge; lia).
  rewrite Hi0, Nat2Z.id, Hrec, list_lookup_fmap, He in Hz'.
  cbn in Hz'. injection Hz' as -> ->.
  apply list_elem_of_lookup_2, list_elem_of_In in He.
  apply in_flat_map in He as ([[source p0] l0] & Hd & Hpost).
  unfold postings in Hpost. cbn [fst snd] in Hpost.
  apply in_flat_map in Hpost as (s & Hs' & Hw).
  apply in_map_iff in Hw as (w' & Ew & Hw'). injection Ew as -> -> ->.
  exists source. split; [by apply list_elem_of_In|].
  exists s, w. split; [by apply list_elem_of_In|].
  split; [by apply list_elem_of_In|done].
Qed.




End Sound.

End InvIdxFind.

Module DBFind.

Import BPTStructure BPTFind BPTOrder.
Import BPT.
Local Open Scope Z_scope.

(** * What a prefix search of the primary index returns *)

(** ** The entries after an insert, for keys of any kind *)

Section Flat.

Context {T : Type} `{KO : KeyOps T}.
Variable ORDER : Z.
Hypothesis ORDER_ge : 2 <= ORDER.
Hypothesis ORDER_even : ORDER mod 2 = 0.

Lemma tinsert_flat (fuel : nat) : forall hc v t lo hi t' hc',
  tinsert ORDER fuel hc v t = (t', hc') ->
  sized ORDER lo hi t -> (hi <= ord ORDER)%nat -> (height t <= fuel)%nat ->
  flat t' ≡ₚ v :: flat t.
Proof.
  induction fuel as [|fuel IH]; intros hc v t lo hi t' hc' E Hs Hhi Hh.
  { rewrite height_unfold in Hh. lia. }
  destruct (half_ord ORDER ORDER_ge ORDER_even) as (H2 & H1 & Hord & _).
  simpl in E.
  pose proof (lbound_le (fun d => key_lt d v) (tkeys t)) as Hlb.
  fold (lb_lt v (tkeys t)) in Hlb.
  pose proof Hs as Hs'. apply sized_unfold in Hs'.
  destruct Hs' as (Hlen & Har & Hkids).
  destruct (tkids t !! lb_lt v (tkeys t)) as [c|] eqn:Ec.
  2:{ injection E as <- <-.
      assert (Hleaf : tkids t = []).
      { destruct Har as [?|Har]; [done|].
        apply lookup_ge_None_1 in Ec. lia. }
      rewrite !flat_unfold. cbn [tkids tkeys]. rewrite Hleaf.
      unfold ins_at. rewrite <- Permutation_middle. by rewrite take_drop. }
  assert (Hin : c ∈ tkids t) by (eapply list_elem_of_lookup_2; eauto).
  assert (Hsc : sized ORDER (half ORDER) (ord ORDER) c).
  { rewrite Forall_forall in Hkids. by apply Hkids. }
  assert (Hne : tkids t <> []) by (intros H0; rewrite H0 in Ec; done).
  destruct Har as [?|Har]; [done|].
  pose proof (take_drop_middle _ _ _ Ec) as Hmid.
  assert (Hft : flat t =
    concat (map flat (take (lb_lt v (tkeys t)) (tkids t))) ++ flat c ++
    concat (map flat (drop (S (lb_lt v (tkeys t))) (tkids t)))).
  { rewrite flat_unfold. destruct (tkids t) as [|k0 ks] eqn:Ek; [done|].
    rewrite <- Hmid at 1.
    change (c :: drop (S (lb_lt v (tkeys t))) (k0 :: ks))
      with ([c] ++ drop (S (lb_lt v (tkeys t))) (k0 :: ks)).
    rewrite flat_middle. simpl. by rewrite app_nil_r. }
  destruct (tinsert ORDER fuel hc v c) as [c' hc1] eqn:Ei.
  assert (Hhc : (height c <= fuel)%nat).
  { apply height_kid in Hin. lia. }
  pose proof (IH _ _ _ _ _ _ _ Ei Hsc (le_n _) Hhc) as Hfc.
  destruct (tinsert_basic ORDER ORDER_ge ORDER_even _ _ _ _ _ _ _ _
              Ei Hsc (le_n _)) as (_ & _ & _ & _ & Hsc' & _ & _).
  destruct (overflowed ORDER c') eqn:Eo.
  - unfold overflowed in Eo.
    apply sized_unfold in Hsc' as Hsc''. destruct Hsc'' as (Hlc' & _ & _).
    assert (Hlen' : length (tkeys c') = S (ord ORDER)) by lia.
    destruct (tsplit ORDER (tpid c') (hc1 + 1) c') as [[l sep] r] eqn:Et.
    destruct (tsplit_basic ORDER ORDER_ge ORDER_even _ _ _ _ Hsc' Hlen'
                _ _ _ Et)
      as (_ & _ & Hsl & _ & _ & _ & _ & _ & _ & _ & Hflr).
    injection E as <- <-.
    assert (Hk' : take (lb_lt v (tkeys t)) (tkids t) ++
                  l :: r :: drop (S (lb_lt v (tkeys t))) (tkids t) <> []).
    { intros H0. apply (f_equal length) in H0.
      rewrite length_app in H0. simpl in H0. lia. }
    rewrite flat_inner by done.
    change (l :: r :: drop (S (lb_lt v (tkeys t))) (tkids t))
      with ([l; r] ++ drop (S (lb_lt v (tkeys t))) (tkids t)).
    rewrite flat_middle, Hft. simpl. rewrite app_nil_r, Hflr, Hfc.
    cbn [app]. by rewrite <- Permutation_middle.
  - injection E as <- <-.
    assert (Hk' : take (lb_lt v (tkeys t)) (tkids t) ++
                  c' :: drop (S (lb_lt v (tkeys t))) (tkids t) <> []).
    { intros H0. apply (f_equal length) in H0.
      rewrite length_app in H0. simpl in H0. lia. }
    rewrite flat_inner by done.
    change (c' :: drop (S (lb_lt v (tkeys t))) (tkids t))
      with ([c'] ++ drop (S (lb_lt v (tkeys t))) (tkids t)).
    rewrite flat_middle, Hft. simpl. rewrite app_nil_r, Hfc.
    cbn [app]. by rewrite <- Permutation_middle.
Qed.

Lemma tinsert_root_flat (fuel : nat) hc v t t' hc' :
  tinsert_root ORDER fuel hc v t = (t', hc') ->
  sized ORDER 0 (ord ORDER) t -> (height t <= fuel)%nat ->
  flat t' ≡ₚ v :: flat t.
Proof.
  intros E Hs Hh. unfold tinsert_root in E.
  destruct (half_ord ORDER ORDER_ge ORDER_even) as (H2 & H1 & Hord & _).
  destruct (tinsert ORDER fuel hc v t) as [t1 hc1] eqn:Ei.
  pose proof (tinsert_flat _ _ _ _ _ _ _ _ Ei Hs (le_n _) Hh) as Hf.
  destruct (tinsert_basic ORDER ORDER_ge ORDER_even _ _ _ _ _ _ _ _
              Ei Hs (le_n _)) as (_ & _ & _ & _ & Hs1 & _ & _).
  destruct (overflowed ORDER t1) eqn:Eo.
  - unfold overflowed in Eo.
    apply sized_unfold in Hs1 as Hs1'. destruct Hs1' as (Hl1 & _ & _).
    assert (Hlen1 : length (tkeys t1) = S (ord ORDER)) by lia.
    destruct (tsplit ORDER (hc1 + 1) (hc1 + 2) t1) as [[l sep] r] eqn:Et.
    destruct (tsplit_basic ORDER ORDER_ge ORDER_even _ _ _ _ Hs1 Hlen1
                _ _ _ Et)
      as (_ & _ & Hsl & Hsr & _ & _ & _ & _ & _ & _ & Hflr).
    injection E as <- <-.
    rewrite flat_inner by done. simpl. by rewrite app_nil_r, Hflr.
  - by injection E as <- <-.
Qed.

(** One [insert], whatever the order of the keys is. *)
Lemma insert_flat v bt t :
  Inv ORDER bt t ->
  exists bt' t', insert ORDER v bt = Some bt' /\
    Inv ORDER bt' t' /\ flat t' ≡ₚ v :: flat t.
Proof.
  intros HI.
  destruct (tinsert_root ORDER (depth_bound bt) (hcount (header bt)) v t)
    as [t1 hc1] eqn:E.
  destruct (insert_spec ORDER ORDER_ge ORDER_even v bt t HI t1 hc1 E)
    as (bt1 & E1 & HI1 & _).
  pose proof HI as (_ & _ & _ & Hs & _ & _ & Hh & _).
  exists bt1, t1. split; [done|]. split; [done|].
  apply (tinsert_root_flat _ _ _ _ _ _ E Hs).
  unfold depth_bound. lia.
Qed.

End Flat.

(** ** [Database::insert] and [Database::find] *)

Section Sound.

Variable uninit : string.
#[local] Instance KO : KeyOps DB.Key := DB.Key_ops uninit.

(** The sub-database after the pairs [l] were inserted: record [i] is
    the record of pair [i], and every key of the tree is the text of a
    pair, cut to 63 characters, with the pair's slot. *)
Definition holds (l : list (Record_ * string)) (here : DB.SubDatabase)
  : Prop :=
  exists t, Inv 64 (DB.bt here) t /\
    DB.sub_id here = Z.of_nat (length l) /\
    DB.record_manager here = map fst l /\
    length (flat t) = length l /\
    forall x, x ∈ flat t ->
      exists (i : nat) e, l !! i = Some e /\
        x = DB.mkKey (snprintf 64 e.2) (Z.of_nat i).

Lemma holds_create : holds [] (DB.sub_create uninit).
Proof.
  exists (Tr 1 [] []). split_and!; try done.
  - apply (Inv_create 64); [lia|reflexivity].
  - intros x Hx. by apply elem_of_nil in Hx.
Qed.

Lemma insert_all_holds (l : list (Record_ * string)) : forall l0 here,
  holds l0 here ->
  exists here', DB.insert_all uninit l here = Some here' /\
                holds (l0 ++ l) here'.
Proof.
  induction l as [|[r k] l IH]; intros l0 here Hh.
  - exists here. by rewrite app_nil_r.
  - destruct Hh as (t & HI & Hid & Hrec & Hlen & Hk).
    cbn [DB.insert_all]. unfold DB.insert.
    destruct (insert_flat 64 ltac:(lia) ltac:(reflexivity)
                (DB.mkKey (snprintf 64 k) (DB.sub_id here))
                (DB.bt here) t HI)
      as (bt1 & t1 & Ei & HI1 & Hf1).
    unfold DB.KO. unfold KO in Ei. rewrite Ei.
    set (here1 := DB.mkSub _ _ _).
    destruct (IH (l0 ++ [(r, k)]) here1) as (here' & E' & Hh').
    { exists t1. subst here1.
      cbn [DB.bt DB.record_manager DB.sub_id].
      split_and!; try done.
      - rewrite length_app. cbn [length]. lia.
      - unfold RecFile.save. rewrite Hid.
        assert ((Z.of_nat (length l0) <? 0) = false) as ->
          by (apply Z.ltb_ge; lia).
        rewrite Hrec, length_map, Z.ltb_irrefl, Nat2Z.id, Nat.sub_diag.
        by rewrite map_app.
      - rewrite Hf1, length_app. cbn [length]. lia.
      - intros x Hx. rewrite Hf1 in Hx.
        apply elem_of_cons in Hx as [->|Hx].
        + exists (length l0), (r, k). split; [|by rewrite Hid].
          rewrite lookup_app_r by lia. by rewrite Nat.sub_diag.
        + destruct (Hk x Hx) as (i & e & He & ->). exists i, e.
          split; [|done]. by apply lookup_app_l_Some. }
    exists here'. split; [done|].
    by rewrite <- app_assoc in Hh'.
Qed.

(** A block of memory whose key buffers hold the texts [texts]; the
    default constructor of [Key] sets every [id] to -1. *)
Definition fresh (texts : list string) : list DB.Key :=
  map (fun s => DB.mkKey s (-1)) texts.

(** The [while (true)] loop of [Database::find], the [iter++] of turn
    [i] building its sentinel in the block [blocks !! i]: the vector
    [results] after these turns, and whether the loop has ended. *)
Fixpoint find_loop (blocks : list (list string)) (value : string)
    (here : DB.SubDatabase) (iter : Iterator (T := DB.Key))
    (results : list (Record_ * string)) : bool * list (Record_ * string) :=
  match blocks with
  | [] => (false, results)
  | b :: rest =>
      let cur := deref iter in
      if String.prefix value (DB.key cur) then
        let s := snd (RecFile.recover (DB.id cur) Record_default
                                      (DB.record_manager here)) in
        find_loop rest value here
                  (Sentinel.incr 64 (fresh b) (DB.bt here) iter)
                  (results ++ [(s, DB.key cur)])
      else (true, results)
  end.

(** [Database::find] up to the call of [select_in]: the vector
    [results] that is handed to [select_in], by value, and then
    returned.  [b0] is the block of the [it++] inside [find_geq]. *)
Definition find_results (b0 : list string) (blocks : list (list string))
    (value : string) (here : DB.SubDatabase)
  : option (bool * list (Record_ * string)) :=
  let k := {| DB.key := snprintf 64 value; DB.id := -1 |} in
  match Sentinel.find_geq 64 (fresh b0) k (DB.bt here) with
  | Some iter => Some (find_loop blocks value here iter [])
  | None => None
  end.

(** The text that the sentinel built in a block shows. *)
Definition shown (b : list string) : string := nth 0 b uninit.

Lemma deref_fresh (b : list string) :
  deref (Sentinel.end_ 64 (fresh b)) = DB.mkKey (shown b) (-1).
Proof.
  rewrite Sentinel.deref_end. unfold fresh, shown.
  change (@key_default DB.Key KO) with (DB.mkKey uninit (-1)).
  by rewrite (map_nth (fun s => DB.mkKey s (-1))).
Qed.

(** What the loop adds to [results]: a pair read at an entry of the
    tree, or the empty record with the text a sentinel shows. *)
Definition added (here : DB.SubDatabase) (L : list DB.Key)
    (bs : list (list string)) (value : string) (z : Record_ * string)
  : Prop :=
  String.prefix value z.2 = true /\
  ((exists x, x ∈ L /\
      z = ((RecFile.recover (DB.id x) Record_default
              (DB.record_manager here)).2, DB.key x)) \/
   (z.1 = Record_default /\ exists b, b ∈ bs /\ z.2 = shown b)).

(** The loop at a sentinel. *)
Lemma find_loop_sentinel here (value : string) (blocks : list (list string)) :
  forall b acc,
  exists ended res,
    find_loop blocks value here (Sentinel.end_ 64 (fresh b)) acc
      = (ended, res) /\
    (forall z, z ∈ res -> z ∈ acc \/ added here [] (b :: blocks) value z) /\
    (blocks <> [] -> String.prefix value (shown b) = false -> ended = true).
Proof.
  induction blocks as [|b1 blocks IH]; intros b acc.
  - exists false, acc. split; [done|]. split; [by left|done].
  - cbn [find_loop]. rewrite deref_fresh. cbn [DB.key DB.id].
    destruct (String.prefix value (shown b)) eqn:Ep.
    + rewrite Sentinel.incr_end.
      destruct (IH b1 (acc ++ [((RecFile.recover (-1) Record_default
                                   (DB.record_manager here)).2, shown b)]))
        as (ended & res & E & Hres & _).
      exists ended, res. split; [exact E|]. split; [|done].
      intros z Hz. destruct (Hres z Hz) as [Hacc|(Hp & [Hx|Hj])].
      * apply elem_of_app in Hacc as [Hacc|Hacc]; [by left|].
        apply list_elem_of_singleton in Hacc. subst z. right.
        split; [done|]. right. split; [done|].
        exists b. split; [left|done].
      * destruct Hx as (x & Hx & _). by apply elem_of_nil in Hx.
      * right. split; [done|]. right. destruct Hj as (Hd & b' & Hb' & Hk).
        split; [done|]. exists b'. split; [by right|done].
    + exists true, acc. split; [done|]. split; [by left|done].
Qed.

(** The loop along the entries that the iterator has ahead. *)
Lemma find_loop_entries here it L (value : string) :
  Sentinel.stored (DB.bt here) -> iterates 64 (DB.bt here) it L ->
  L <> [] ->
  forall blocks acc,
  exists ended res,
    find_loop blocks value here it acc = (ended, res) /\
    (forall z, z ∈ res -> z ∈ acc \/ added here L blocks value z) /\
    ((length L < length blocks)%nat ->
     Forall (fun b => String.prefix value (shown b) = false) blocks ->
     ended = true).
Proof.
  intros Hst Hit. induction Hit as [|it L Hp Hit IH]; intros Hne; [done|].
  intros blocks acc.
  assert (Hall : iterates 64 (DB.bt here) it (deref it :: L))
    by (by apply iterates_step).
  destruct blocks as [|b blocks].
  { exists false, acc. split; [done|]. split; [by left|].
    simpl. lia. }
  cbn [find_loop].
  destruct (String.prefix value (DB.key (deref it))) eqn:Ek.
  2:{ exists true, acc. split; [done|]. split; [by left|done]. }
  set (z0 := ((RecFile.recover (DB.id (deref it)) Record_default
                 (DB.record_manager here)).2, DB.key (deref it))).
  pose proof (Sentinel.incr_cases 64 (fresh b) (DB.bt here) it _ L Hst Hall)
    as Hincr.
  destruct L as [|y L].
  - rewrite Hincr.
    destruct (find_loop_sentinel here value blocks b (acc ++ [z0]))
      as (ended & res & E & Hres & Hend).
    exists ended, res. split; [exact E|]. split.
    + intros z Hz. destruct (Hres z Hz) as [Hacc|(Hpz & [Hx|Hj])].
      * apply elem_of_app in Hacc as [Hacc|Hacc]; [by left|].
        apply list_elem_of_singleton in Hacc. subst z. right.
        split; [done|]. left. exists (deref it). split; [left|done].
      * destruct Hx as (x & Hx & _). by apply elem_of_nil in Hx.
      * right. split; [done|]. by right.
    + intros Hlen Hno. apply Forall_cons in Hno. destruct Hno as [Hb _].
      apply Hend; [|done]. intros ->. simpl in Hlen. lia.
  - rewrite Hincr.
    destruct (IH ltac:(done) blocks (acc ++ [z0]))
      as (ended & res & E & Hres & Hend).
    exists ended, res. split; [exact E|]. split.
    + intros z Hz. destruct (Hres z Hz) as [Hacc|(Hpz & [Hx|Hj])].
      * apply elem_of_app in Hacc as [Hacc|Hacc]; [by left|].
        apply list_elem_of_singleton in Hacc. subst z. right.
        split; [done|]. left. exists (deref it). split; [left|done].
      * right. split; [done|]. left. destruct Hx as (x & Hx & Hzx).
        exists x. split; [by right|done].
      * right. split; [done|]. right. destruct Hj as (Hd & b' & Hb' & Hk).
        split; [done|]. exists b'. split; [by right|done].
    + intros Hlen Hno. apply Forall_cons in Hno. destruct Hno as [_ Hno].
      apply Hend; [|done]. simpl in Hlen |- *. lia.
Qed.

(** [Database::find] after the pairs [l] were inserted: every pair of
    [results] is an inserted record with the first 63 characters of its
    key, or the empty record with the text that a sentinel shows; the
    loop ends when no sentinel shows a text that starts with [value]. *)
Lemma find_results_sound (l : list (Record_ * string)) (value : string)
    (b0 : list string) (blocks : list (list string)) :
  exists here ended res,
    DB.insert_all uninit l (DB.sub_create uninit) = Some here /\
    find_results b0 blocks value here = Some (ended, res) /\
    (forall s k, (s, k) ∈ res ->
       String.prefix value k = true /\
       ((exists key0, (s, key0) ∈ l /\ k = snprintf 64 key0) \/
        (s = Record_default /\
         exists b, b ∈ b0 :: blocks /\ k = shown b))) /\
    ((length l < length blocks)%nat ->
     Forall (fun b => String.prefix value (shown b) = false)
            (b0 :: blocks) ->
     ended = true).
Proof.
  destruct (insert_all_holds l [] _ holds_create) as (here & E & Hh).
  cbn [app] in Hh. destruct Hh as (t & HI & Hid & Hrec & Hlen & Hk).
  set (k0 := DB.mkKey (snprintf 64 value) (-1)).
  pose proof (Sentinel.Inv_stored 64 _ t HI) as Hst.
  destruct (Sentinel.find_geq_sentinel 64 ltac:(lia) ltac:(reflexivity)
              (fresh b0) k0 (DB.bt here) t HI) as (it & Eg & Hit).
  pose proof HI as (_ & _ & _ & Hs & _).
  destruct (tseek_suffix 64 k0 t _ _ Hs) as [pre Hpre].
  assert (Hfr : exists ended res,
    find_loop blocks value here it [] = (ended, res) /\
    (forall z, z ∈ res ->
       added here (tseek k0 t) (b0 :: blocks) value z) /\
    ((length l < length blocks)%nat ->
     Forall (fun b => String.prefix value (shown b) = false)
            (b0 :: blocks) ->
     ended = true)).
  { destruct (tseek k0 t) as [|y rest] eqn:Et.
    - subst it.
      destruct (find_loop_sentinel here value blocks b0 [])
        as (ended & res & Er & Hres & Hend).
      exists ended, res. split; [done|]. split.
      + intros z Hz. destruct (Hres z Hz) as [Hnil|Ha]; [|done].
        by apply elem_of_nil in Hnil.
      + intros Hl Hno. apply Forall_cons in Hno. destruct Hno as [Hb _].
        apply Hend; [|done]. intros ->. simpl in Hl. lia.
    - destruct (find_loop_entries here it (y :: rest) value Hst Hit
                  ltac:(done) blocks [])
        as (ended & res & Er & Hres & Hend).
      exists ended, res. split; [done|]. split.
      + intros z Hz. destruct (Hres z Hz) as [Hnil|(Hp & [Hx|Hj])].
        * by apply elem_of_nil in Hnil.
        * split; [done|]. by left.
        * split; [done|]. right. destruct Hj as (Hd & b' & Hb' & Hkb).
          split; [done|]. exists b'. split; [by right|done].
      + intros Hl Hno. apply Forall_cons in Hno. destruct Hno as [_ Hno].
        apply Hend; [|done].
        rewrite <- Hlen, Hpre, length_app in Hl. lia. }
  destruct Hfr as (ended & res & Er & Hres & Hend).
  exists here, ended, res. split; [done|]. split.
  { unfold find_results. fold k0.
    by rewrite Eg, Er. }
  split; [|exact Hend].
  intros s k Hz. destruct (Hres _ Hz) as (Hp & [Hx|Hj]).
  - destruct Hx as (x & Hx & Hz').
    assert (Hxt : x ∈ flat t)
      by (rewrite Hpre; apply elem_of_app; by right).
    destruct (Hk x Hxt) as (i & [r key0] & He & ->).
    cbn [DB.key DB.id fst snd] in *.
    unfold RecFile.recover in Hz'.
    assert ((Z.of_nat i <? 0) = false) as Hi0 by (apply Z.ltb_ge; lia).
    rewrite Hi0, Nat2Z.id, Hrec, list_lookup_fmap, He in Hz'.
    cbn in Hz'. injection Hz' as -> ->.
    split; [done|]. left. exists key0. split; [|done].
    by apply list_elem_of_lookup_2 in He.
  - split; [done|]. by right.
Qed.

End Sound.

End DBFind.

Module Tokenizer.

Local Open Scope Z_scope.

(** * The command line ([CommandLine::tokenizer] of cmd.hh)

    A [std::string] is the list of its characters. *)

Inductive State := STRING_ARG | ARG | EMPTY.

Definition is_STRING_ARG (s : State) : bool :=
  match s with STRING_ARG => true | _ => false end.
Definition is_ARG (s : State) : bool :=
  match s with ARG => true | _ => false end.
Definition is_EMPTY (s : State) : bool :=
  match s with EMPTY => true | _ => false end.

(** The double quote and the blank. *)
Definition quote : ascii := ascii_of_nat 34.
Definition space : ascii := ascii_of_nat 32.

(** [input[i]]; [input[input.size()]] is the NUL character. *)
Definition at_ (input : list ascii) (i : Z) : ascii :=
  nth (Z.to_nat i) input NUL.

(** [input.substr(pos, len)] for [0 <= pos <= input.size()]; [len] is
    converted to [size_t], where a negative number is larger than any
    size. *)
Definition substr (input : list ascii) (pos len : Z) : list ascii :=
  if len <? 0 then drop (Z.to_nat pos) input
  else take (Z.to_nat len) (drop (Z.to_nat pos) input).

(** The body of the [for] loop: the five [if]s in turn, the first of
    which may step [i]. *)
Definition step (input : list ascii) (i : Z) (state : State) (begin : Z)
    (vec : list (list ascii)) : Z * State * Z * list (list ascii) :=
  let '(state, begin, i) :=
    if Ascii.eqb (at_ input i) quote && is_EMPTY state
    then (STRING_ARG, i, i + 1) else (state, begin, i) in
  let '(state, vec) :=
    if Ascii.eqb (at_ input i) quote && is_STRING_ARG state
    then (EMPTY, vec ++ [substr input (begin + 1) (i - begin - 1)])
    else (state, vec) in
  let '(state, begin) :=
    if negb (Ascii.eqb (at_ input i) space)
       && negb (Ascii.eqb (at_ input i) quote) && is_EMPTY state
    then (ARG, i) else (state, begin) in
  let '(state, vec) :=
    if Ascii.eqb (at_ input i) space && is_ARG state
    then (EMPTY, vec ++ [substr input begin (i - begin)])
    else (state, vec) in
  let vec :=
    if (i + 1 =? Z.of_nat (length input)) && is_ARG state
    then vec ++ [substr input begin (i - begin + 1)] else vec in
  (i, state, begin, vec).

(** [for (int i = 0; i < input.size(); i++)]. *)
Fixpoint tok_loop (fuel : nat) (input : list ascii) (i : Z) (state : State)
    (begin : Z) (vec : list (list ascii)) : list (list ascii) :=
  match fuel with
  | O => vec
  | S fuel' =>
      if i <? Z.of_nat (length input) then
        let '(i1, state1, begin1, vec1) := step input i state begin vec in
        tok_loop fuel' input (i1 + 1) state1 begin1 vec1
      else vec
  end.

(** [CommandLine::tokenizer(input)]; every turn of the loop steps [i],
    so [input.size()] turns are enough. *)
Definition tokenizer (input : list ascii) : list (list ascii) :=
  tok_loop (length input) input 0 EMPTY 0 [].

(** ** The loop as a machine over the rest of the input *)

(** The state of the loop with the text of the argument it is in. *)
Inductive Seen :=
  | Outside
  | Word (cur : list ascii)
  | Quoted (cur : list ascii).

(** What the loop adds to [vec] from the rest [l] of the input on. *)
Fixpoint run (s : Seen) (l : list ascii) : list (list ascii) :=
  match l with
  | [] => []
  | c :: r =>
      match s with
      | Outside =>
          if Ascii.eqb c quote then
            match r with
            | [] => []
            | c2 :: r2 =>
                if Ascii.eqb c2 quote then [] :: run Outside r2
                else run (Quoted [c2]) r2
            end
          else if Ascii.eqb c space then run Outside r
          else match r with
               | [] => [[c]]
               | _ => run (Word [c]) r
               end
      | Word cur =>
          if Ascii.eqb c space then cur :: run Outside r
          else match r with
               | [] => [cur ++ [c]]
               | _ => run (Word (cur ++ [c])) r
               end
      | Quoted cur =>
          if Ascii.eqb c quote then cur :: run Outside r
          else run (Quoted (cur ++ [c])) r
      end
  end.

Definition seen (input : list ascii) (state : State) (begin i : Z) : Seen :=
  match state with
  | EMPTY => Outside
  | ARG => Word (substr input begin (i - begin))
  | STRING_ARG => Quoted (substr input (begin + 1) (i - begin - 1))
  end.

Lemma drop_at (input : list ascii) (n : nat) :
  (n < length input)%nat ->
  drop n input = at_ input (Z.of_nat n) :: drop (S n) input.
Proof.
  intros Hn. unfold at_. rewrite Nat2Z.id.
  destruct (input !! n) as [c|] eqn:E.
  - rewrite (nth_lookup_Some _ _ _ _ E). by apply drop_S.
  - apply lookup_ge_None_1 in E. lia.
Qed.

Lemma substr_snoc (input : list ascii) (b n : nat) :
  (b <= n < length input)%nat ->
  substr input (Z.of_nat b) (Z.of_nat n - Z.of_nat b + 1)
  = substr input (Z.of_nat b) (Z.of_nat n - Z.of_nat b)
    ++ [at_ input (Z.of_nat n)].
Proof.
  intros Hn. unfold substr.
  assert ((Z.of_nat n - Z.of_nat b + 1 <? 0) = false) as ->
    by (apply Z.ltb_ge; lia).
  assert ((Z.of_nat n - Z.of_nat b <? 0) = false) as ->
    by (apply Z.ltb_ge; lia).
  rewrite Nat2Z.id.
  replace (Z.to_nat (Z.of_nat n - Z.of_nat b + 1))
    with (S (n - b)) by lia.
  replace (Z.to_nat (Z.of_nat n - Z.of_nat b)) with (n - b)%nat by lia.
  assert (Hl : drop b input !! (n - b)%nat = Some (at_ input (Z.of_nat n))).
  { rewrite lookup_drop. replace (b + (n - b))%nat with n by lia.
    unfold at_. rewrite Nat2Z.id.
    destruct (input !! n) as [c|] eqn:E.
    - by rewrite (nth_lookup_Some _ _ _ _ E).
    - apply lookup_ge_None_1 in E. lia. }
  by rewrite (take_S_r _ _ _ Hl).
Qed.

Lemma substr_nil (input : list ascii) (p : Z) : substr input p 0 = [].
Proof. unfold substr. simpl. by rewrite take_0. Qed.

Lemma substr_one (input : list ascii) (n : nat) :
  (n < length input)%nat ->
  substr input (Z.of_nat n) 1 = [at_ input (Z.of_nat n)].
Proof.
  intros Hn.
  replace 1 with (Z.of_nat n - Z.of_nat n + 1) by lia.
  rewrite substr_snoc by lia.
  replace (Z.of_nat n - Z.of_nat n) with 0 by lia. by rewrite substr_nil.
Qed.

Ltac side :=
  first [lia | by intros | intros; discriminate | intros; lia].

(** The loop from position [n] on adds what the machine does. *)
Lemma tok_loop_run (input : list ascii) (fuel : nat) :
  forall (n : nat) (state : State) (b : nat) (vec : list (list ascii)),
  (n <= length input)%nat -> (length input - n <= fuel)%nat ->
  (state = ARG -> (b < n)%nat) -> (state = STRING_ARG -> (b < n)%nat) ->
  tok_loop fuel input (Z.of_nat n) state (Z.of_nat b) vec
  = vec ++ run (seen input state (Z.of_nat b) (Z.of_nat n)) (drop n input).
Proof.
  induction fuel as [|fuel IH]; intros n state b vec Hn Hf Ha Hs.
  { assert (n = length input) by lia. subst n.
    rewrite drop_all. cbn [tok_loop]. destruct (seen _ _ _ _);
      by rewrite app_nil_r. }
  cbn [tok_loop].
  destruct (Z.ltb_spec (Z.of_nat n) (Z.of_nat (length input))) as [Hlt|Hge].
  2:{ assert (n = length input) by lia. subst n.
      rewrite drop_all. destruct (seen _ _ _ _); by rewrite app_nil_r. }
  assert (Hn' : (n < length input)%nat) by lia.
  rewrite (drop_at input n Hn').
  assert (Hend : forall (m : nat), (m < length input)%nat ->
            (Z.of_nat m + 1 =? Z.of_nat (length input)) = true ->
            drop (S m) input = []).
  { intros m Hm He. apply drop_ge. lia. }
  assert (Hmore : forall (m : nat), (m < length input)%nat ->
            (Z.of_nat m + 1 =? Z.of_nat (length input)) = false ->
            exists c' r', drop (S m) input = c' :: r').
  { intros m Hm He. destruct (drop (S m) input) as [|c' r'] eqn:Ed.
    - apply (f_equal length) in Ed. rewrite length_drop in Ed.
      simpl in Ed. lia.
    - by exists c', r'. }
  assert (Hqs : forall c, Ascii.eqb c quote = true ->
                          Ascii.eqb c space = true -> False).
  { intros c Hq Hsp. apply Ascii.eqb_eq in Hq, Hsp. subst c. discriminate. }
  destruct state; unfold step; cbn [seen run];
    destruct (Ascii.eqb (at_ input (Z.of_nat n)) quote) eqn:Eq;
    destruct (Ascii.eqb (at_ input (Z.of_nat n)) space) eqn:Esp;
    try (exfalso; by eapply Hqs);
    do 5 (cbn [andb negb is_EMPTY is_ARG is_STRING_ARG];
          rewrite ?Eq, ?Esp, ?andb_false_r, ?andb_true_r);
    try replace (Z.of_nat n + 1) with (Z.of_nat (S n)) by lia;
    try (assert (Hb : (b < n)%nat) by (first [by apply Ha | by apply Hs])).
  - (* the closing quote *)
    rewrite (IH (S n) EMPTY b) by side.
    cbn [seen]. by rewrite <- app_assoc.
  - (* a blank inside the quotes *)
    rewrite (IH (S n) STRING_ARG b) by side.
    cbn [seen]. do 3 f_equal.
    replace (Z.of_nat (S n) - Z.of_nat b - 1)
      with (Z.of_nat n - Z.of_nat (S b) + 1) by lia.
    replace (Z.of_nat b + 1) with (Z.of_nat (S b)) by lia.
    replace (Z.of_nat n - Z.of_nat b - 1)
      with (Z.of_nat n - Z.of_nat (S b)) by lia.
    apply substr_snoc. specialize (Hs eq_refl). lia.
  - (* another character inside the quotes *)
    rewrite (IH (S n) STRING_ARG b) by side.
    cbn [seen]. do 3 f_equal.
    replace (Z.of_nat (S n) - Z.of_nat b - 1)
      with (Z.of_nat n - Z.of_nat (S b) + 1) by lia.
    replace (Z.of_nat b + 1) with (Z.of_nat (S b)) by lia.
    replace (Z.of_nat n - Z.of_nat b - 1)
      with (Z.of_nat n - Z.of_nat (S b)) by lia.
    apply substr_snoc. specialize (Hs eq_refl). lia.
  - (* a quote inside an argument *)
    specialize (Ha eq_refl).
    replace (Z.of_nat n + 1) with (Z.of_nat (S n)) by lia.
    destruct (Z.eqb_spec (Z.of_nat (S n)) (Z.of_nat (length input)))
      as [Ee|Ee].
    + assert (Hd : drop (S n) input = []) by (apply drop_ge; lia).
      rewrite (IH (S n) ARG b) by side.
      rewrite Hd. cbn [run]. rewrite app_nil_r.
      do 2 f_equal. apply substr_snoc. lia.
    + destruct (drop (S n) input) as [|c' r'] eqn:Ed.
      { apply (f_equal length) in Ed. rewrite length_drop in Ed.
        simpl in Ed. lia. }
      rewrite (IH (S n) ARG b) by side.
      rewrite Ed. cbn [seen]. do 3 f_equal.
      replace (Z.of_nat (S n) - Z.of_nat b)
        with (Z.of_nat n - Z.of_nat b + 1) by lia.
      apply substr_snoc. lia.
  - (* the blank after an argument *)
    rewrite (IH (S n) EMPTY b) by side.
    cbn [seen]. by rewrite <- app_assoc.
  - (* another character of an argument *)
    specialize (Ha eq_refl).
    replace (Z.of_nat n + 1) with (Z.of_nat (S n)) by lia.
    destruct (Z.eqb_spec (Z.of_nat (S n)) (Z.of_nat (length input)))
      as [Ee|Ee].
    + assert (Hd : drop (S n) input = []) by (apply drop_ge; lia).
      rewrite (IH (S n) ARG b) by side.
      rewrite Hd. cbn [run]. rewrite app_nil_r.
      do 2 f_equal. apply substr_snoc. lia.
    + destruct (drop (S n) input) as [|c' r'] eqn:Ed.
      { apply (f_equal length) in Ed. rewrite length_drop in Ed.
        simpl in Ed. lia. }
      rewrite (IH (S n) ARG b) by side.
      rewrite Ed. cbn [seen]. do 3 f_equal.
      replace (Z.of_nat (S n) - Z.of_nat b)
        with (Z.of_nat n - Z.of_nat b + 1) by lia.
      apply substr_snoc. lia.
  - (* an opening quote: the turn goes on at the next character *)
    replace (Z.of_nat n + 1) with (Z.of_nat (S n)) by lia.
    destruct (drop (S n) input) as [|c2 r2] eqn:Ed.
    + assert (HSn : S n = length input).
      { apply (f_equal length) in Ed. rewrite length_drop in Ed.
        simpl in Ed. lia. }
      assert (Hnul : at_ input (Z.of_nat (S n)) = NUL).
      { unfold at_. rewrite Nat2Z.id. apply nth_overflow. lia. }
      rewrite Hnul.
      assert (Ascii.eqb NUL quote = false) as -> by reflexivity.
      assert (Ascii.eqb NUL space = false) as -> by reflexivity.
      do 5 (cbn [andb negb is_EMPTY is_ARG is_STRING_ARG];
            rewrite ?Eq2, ?andb_false_r, ?andb_true_r).
      replace (Z.of_nat (S n) + 1) with (Z.of_nat (S (S n))) by lia.
      destruct fuel as [|fuel']; [by rewrite app_nil_r|].
      cbn [tok_loop].
      assert ((Z.of_nat (S (S n)) <? Z.of_nat (length input)) = false)
        as -> by (apply Z.ltb_ge; lia).
      by rewrite app_nil_r.
    + assert (HSn : (S n < length input)%nat).
      { apply (f_equal length) in Ed. rewrite length_drop in Ed.
        simpl in Ed. lia. }
      pose proof (drop_at input (S n) HSn) as Hd2.
      rewrite Ed in Hd2. injection Hd2 as Hc2 Hr2.
      rewrite <- Hc2.
      replace (Z.of_nat (S n) + 1) with (Z.of_nat (S (S n))) by lia.
      destruct (Ascii.eqb c2 quote) eqn:Eq2.
      * do 5 (cbn [andb negb is_EMPTY is_ARG is_STRING_ARG];
              rewrite ?Eq2, ?andb_false_r, ?andb_true_r).
        replace (Z.of_nat (S n) + 1) with (Z.of_nat (S (S n))) by lia.
        rewrite (IH (S (S n)) EMPTY n) by side.
        cbn [seen]. rewrite <- Hr2, <- app_assoc. cbn [app].
        do 2 f_equal.
        replace (Z.of_nat (S n) - Z.of_nat n - 1) with 0 by lia.
        apply substr_nil.
      * do 5 (cbn [andb negb is_EMPTY is_ARG is_STRING_ARG];
              rewrite ?Eq2, ?andb_false_r, ?andb_true_r).
        replace (Z.of_nat (S n) + 1) with (Z.of_nat (S (S n))) by lia.
        rewrite (IH (S (S n)) STRING_ARG n) by side.
        cbn [seen]. rewrite <- Hr2. do 3 f_equal.
        replace (Z.of_nat (S (S n)) - Z.of_nat n - 1) with 1 by lia.
        replace (Z.of_nat n + 1) with (Z.of_nat (S n)) by lia.
        rewrite substr_one by done. by rewrite <- Hc2.
  - (* a blank between arguments *)
    by rewrite (IH (S n) EMPTY b) by side.
  - (* the first character of an argument *)
    replace (Z.of_nat n + 1) with (Z.of_nat (S n)) by lia.
    destruct (Z.eqb_spec (Z.of_nat (S n)) (Z.of_nat (length input)))
      as [Ee|Ee].
    + assert (Hd : drop (S n) input = []) by (apply drop_ge; lia).
      rewrite (IH (S n) ARG n) by side.
      rewrite Hd. cbn [run]. rewrite app_nil_r.
      do 2 f_equal.
      replace (Z.of_nat n - Z.of_nat n + 1) with 1 by lia.
      by apply substr_one.
    + destruct (drop (S n) input) as [|c' r'] eqn:Ed.
      { apply (f_equal length) in Ed. rewrite length_drop in Ed.
        simpl in Ed. lia. }
      rewrite (IH (S n) ARG n) by side.
      rewrite Ed. cbn [seen]. do 3 f_equal.
      replace (Z.of_nat (S n) - Z.of_nat n) with 1 by lia.
      by apply substr_one.
Qed.

Lemma tokenizer_run (input : list ascii) :
  tokenizer input = run Outside input.
Proof.
  unfold tokenizer.
  change 0 with (Z.of_nat 0).
  rewrite (tok_loop_run input (length input) 0 EMPTY 0 []); try done; lia.
Qed.

(** ** Arguments without and with quotes *)

(** An argument typed without quotes: it has a character, no blank,
    and does not begin with a quote. *)
Definition plain_word (w : list ascii) : Prop :=
  w <> [] /\ (space ∉ w) /\ hd NUL w <> quote.

(** The arguments, each followed by a blank. *)
Definition spaced (ws : list (list ascii)) : list ascii :=
  concat (map (fun w => w ++ [space]) ws).

(** The arguments with a blank between them. *)
Fixpoint joined (ws : list (list ascii)) : list ascii :=
  match ws with
  | [] => []
  | [w] => w
  | w :: r => w ++ space :: joined r
  end.

Lemma eqb_space_false (c : ascii) (w : list ascii) :
  space ∉ c :: w -> Ascii.eqb c space = false.
Proof.
  intros Hn. apply Ascii.eqb_neq. intros ->. apply Hn. left.
Qed.

Lemma eqb_quote_false (c : ascii) (w : list ascii) :
  quote ∉ c :: w -> Ascii.eqb c quote = false.
Proof.
  intros Hn. apply Ascii.eqb_neq. intros ->. apply Hn. left.
Qed.

Lemma run_word (w : list ascii) : forall cur rest,
  space ∉ w ->
  run (Word cur) (w ++ space :: rest) = (cur ++ w) :: run Outside rest.
Proof.
  induction w as [|c w IH]; intros cur rest Hn.
  - cbn [app run]. rewrite Ascii.eqb_refl. by rewrite app_nil_r.
  - cbn [app run]. rewrite (eqb_space_false c w Hn).
    destruct (w ++ space :: rest) as [|c' r'] eqn:E.
    { by destruct w. }
    rewrite <- E, IH by (by apply not_elem_of_cons in Hn as [_ ?]).
    by rewrite <- app_assoc.
Qed.

Lemma run_word_end (w : list ascii) : forall cur,
  space ∉ w -> w <> [] -> run (Word cur) w = [cur ++ w].
Proof.
  induction w as [|c w IH]; intros cur Hn Hne; [done|].
  cbn [run]. rewrite (eqb_space_false c w Hn).
  destruct w as [|c' w']; [done|].
  rewrite IH; [|by apply not_elem_of_cons in Hn as [_ ?]|done].
  by rewrite <- app_assoc.
Qed.

Lemma run_plain (w rest : list ascii) :
  plain_word w ->
  run Outside (w ++ space :: rest) = w :: run Outside rest.
Proof.
  intros (Hne & Hsp & Hq). destruct w as [|c w]; [done|].
  cbn [hd] in Hq. cbn [app run].
  assert (Ascii.eqb c quote = false) as -> by (by apply Ascii.eqb_neq).
  rewrite (eqb_space_false c w Hsp).
  destruct (w ++ space :: rest) as [|c' r'] eqn:E.
  { by destruct w. }
  rewrite <- E.
  by rewrite (run_word w [c] rest)
    by (by apply not_elem_of_cons in Hsp as [_ ?]).
Qed.

Lemma run_plain_end (w : list ascii) :
  plain_word w -> run Outside w = [w].
Proof.
  intros (Hne & Hsp & Hq). destruct w as [|c w]; [done|].
  cbn [hd] in Hq. cbn [run].
  assert (Ascii.eqb c quote = false) as -> by (by apply Ascii.eqb_neq).
  rewrite (eqb_space_false c w Hsp).
  destruct w as [|c' w']; [done|].
  by rewrite run_word_end
    by (first [by apply not_elem_of_cons in Hsp as [_ ?] | done]).
Qed.

Lemma run_spaced (ws : list (list ascii)) (rest : list ascii) :
  Forall plain_word ws ->
  run Outside (spaced ws ++ rest) = ws ++ run Outside rest.
Proof.
  unfold spaced. induction 1 as [|w ws Hw Hws IH]; [done|].
  cbn [map concat]. rewrite <- !app_assoc. cbn [app].
  rewrite run_plain by done. by rewrite IH.
Qed.

Lemma run_joined (ws : list (list ascii)) :
  Forall plain_word ws -> run Outside (joined ws) = ws.
Proof.
  induction 1 as [|w ws Hw Hws IH]; [done|].
  cbn [joined]. destruct ws as [|w' ws'].
  - by apply run_plain_end.
  - rewrite run_plain by done. by rewrite IH.
Qed.

Lemma run_quoted (s : list ascii) : forall cur rest,
  quote ∉ s ->
  run (Quoted cur) (s ++ quote :: rest) = (cur ++ s) :: run Outside rest.
Proof.
  induction s as [|c s IH]; intros cur rest Hn.
  - cbn [app run]. rewrite Ascii.eqb_refl. by rewrite app_nil_r.
  - cbn [app run]. rewrite (eqb_quote_false c s Hn).
    rewrite IH by (by apply not_elem_of_cons in Hn as [_ ?]).
    by rewrite <- app_assoc.
Qed.

Lemma run_quoted_open (s : list ascii) : forall cur,
  quote ∉ s -> run (Quoted cur) s = [].
Proof.
  induction s as [|c s IH]; intros cur Hn; [done|].
  cbn [run]. rewrite (eqb_quote_false c s Hn).
  apply IH. by apply not_elem_of_cons in Hn as [_ ?].
Qed.

Lemma run_string (s rest : list ascii) :
  quote ∉ s ->
  run Outside (quote :: s ++ quote :: rest) = s :: run Outside rest.
Proof.
  intros Hn. cbn [run]. rewrite Ascii.eqb_refl.
  destruct s as [|c s].
  - cbn [app]. by rewrite Ascii.eqb_refl.
  - cbn [app]. rewrite (eqb_quote_false c s Hn).
    by rewrite run_quoted by (by apply not_elem_of_cons in Hn as [_ ?]).
Qed.

Lemma run_string_open (s : list ascii) :
  quote ∉ s -> run Outside (quote :: s) = [].
Proof.
  intros Hn. cbn [run]. rewrite Ascii.eqb_refl.
  destruct s as [|c s]; [done|].
  rewrite (eqb_quote_false c s Hn).
  apply run_quoted_open. by apply not_elem_of_cons in Hn as [_ ?].
Qed.

Lemma run_blanks (n : nat) : run Outside (replicate n space) = [].
Proof.
  induction n as [|n IH]; [done|].
  cbn [replicate run]. by rewrite IH.
Qed.

End Tokenizer.

Module ReadXml.

(** * The keys that reading a file makes ([on_end_element] of
      read_xml.hh)

    A [std::string] is the list of its characters. *)

Definition blank : ascii := ascii_of_nat 32.
Definition dot : ascii := ascii_of_nat 46.

(** Whether [s] begins with [pat]. *)
Fixpoint starts_with (pat s : list ascii) : bool :=
  match pat, s with
  | [], _ => true
  | _ :: _, [] => false
  | p :: pat', c :: s' => Ascii.eqb p c && starts_with pat' s'
  end.

(** [s.find(pat)]: the first position at which [pat] occurs in [s];
    [None] is [npos]. *)
Fixpoint find (pat s : list ascii) : option nat :=
  if starts_with pat s then Some 0%nat
  else match s with
       | [] => None
       | _ :: r => option_map S (find pat r)
       end.

(** [k.resize(n, c)]. *)
Definition resize (n : nat) (c : ascii) (k : list ascii) : list ascii :=
  take n k ++ replicate (n - length k) c.

(** The key that [push_back_helper(k)] appends to the key list. *)
Definition push_back_helper (k : list ascii) : list ascii :=
  let k1 := if (64 <? length k)%nat
            then take (64 - 3) k ++ [dot; dot; dot] else k in
  resize 64 blank k1.

(** [it.substr(0, it.find("  "))], the key as it is given to the
    indices; [substr(0, npos)] is the whole string. *)
Definition cut_padding (it : list ascii) : list ascii :=
  match find [blank; blank] it with
  | Some p => take p it
  | None => it
  end.

(** ** Properties *)

Lemma length_push_back_helper (k : list ascii) :
  length (push_back_helper k) = 64%nat.
Proof.
  unfold push_back_helper, resize.
  destruct (Nat.ltb_spec 64 (length k)).
  - rewrite !length_app, !length_take, !length_app, !length_take,
      length_replicate. cbn [length]. lia.
  - rewrite length_app, length_take, length_replicate. lia.
Qed.

(** A key without two blanks in a row and without a blank at its end. *)
Definition tidy (k : list ascii) : Prop :=
  find [blank; blank] k = None /\ last k <> Some blank.

Lemma find_none_starts (pat s : list ascii) :
  find pat s = None -> starts_with pat s = false.
Proof.
  destruct s; simpl; destruct (starts_with pat _); done.
Qed.

Lemma find_none_tail (pat : list ascii) c s :
  find pat (c :: s) = None -> find pat s = None.
Proof.
  cbn [find]. destruct (starts_with pat (c :: s)); [done|].
  by destruct (find pat s).
Qed.

Lemma find_blanks (k : list ascii) (n : nat) :
  tidy k -> (2 <= n)%nat ->
  find [blank; blank] (k ++ replicate n blank) = Some (length k).
Proof.
  intros [Hf Hl] Hn. induction k as [|c k IH].
  - destruct n as [|[|n]]; try lia. reflexivity.
  - pose proof (find_none_starts _ _ Hf) as Hs.
    pose proof (find_none_tail _ _ _ Hf) as Hf'.
    assert (Hl' : last k <> Some blank).
    { destruct k as [|c' k']; [done|]. by rewrite last_cons_cons in Hl. }
    cbn [app find].
    assert (Hs' : starts_with [blank; blank]
                    (c :: k ++ replicate n blank) = false).
    { destruct k as [|c' k'].
      - cbn [app]. cbn [last] in Hl.
        cbn [starts_with]. destruct (Ascii.eqb_spec blank c) as [<-|_];
          [done|done].
      - exact Hs. }
    rewrite Hs', (IH Hf' Hl'). reflexivity.
Qed.

Lemma find_snoc (k : list ascii) (c : ascii) :
  find [blank; blank] k = None -> c <> blank ->
  find [blank; blank] (k ++ [c]) = None.
Proof.
  intros Hf Hc. induction k as [|a k IH].
  - cbn [app find starts_with]. by rewrite andb_false_r.
  - pose proof (find_none_starts _ _ Hf) as Hs.
    pose proof (find_none_tail _ _ _ Hf) as Hf'.
    cbn [app find].
    assert (Hs' : starts_with [blank; blank] (a :: k ++ [c]) = false).
    { destruct k as [|b k'].
      - cbn [app starts_with].
        destruct (Ascii.eqb_spec blank c) as [E|_]; [by subst c|].
        by rewrite andb_false_r.
      - exact Hs. }
    rewrite Hs', (IH Hf'). reflexivity.
Qed.

Lemma find_snoc_blank (k : list ascii) :
  tidy k -> find [blank; blank] (k ++ [blank]) = None.
Proof.
  intros [Hf Hl]. induction k as [|a k IH]; [done|].
  pose proof (find_none_starts _ _ Hf) as Hs.
  pose proof (find_none_tail _ _ _ Hf) as Hf'.
  assert (Hl' : last k <> Some blank).
  { destruct k as [|c' k']; [done|]. by rewrite last_cons_cons in Hl. }
  cbn [app find].
  assert (Hs' : starts_with [blank; blank] (a :: k ++ [blank]) = false).
  { destruct k as [|b k'].
    - cbn [app starts_with]. cbn [last] in Hl.
      destruct (Ascii.eqb_spec blank a) as [<-|_]; [done|done].
    - exact Hs. }
  rewrite Hs', (IH Hf' Hl'). reflexivity.
Qed.

(** A key of at most 62 characters comes back from the padding. *)
Lemma cut_push_short (k : list ascii) :
  (length k <= 62)%nat -> tidy k -> cut_padding (push_back_helper k) = k.
Proof.
  intros Hl Ht. unfold push_back_helper, resize, cut_padding.
  assert ((64 <? length k)%nat = false) as -> by (apply Nat.ltb_ge; lia).
  rewrite firstn_all2 by lia.
  rewrite (find_blanks k (64 - length k) Ht) by lia.
  by rewrite take_app_length.
Qed.

(** A key of 63 characters keeps one blank of the padding. *)
Lemma cut_push_63 (k : list ascii) :
  length k = 63%nat -> tidy k ->
  cut_padding (push_back_helper k) = k ++ [blank].
Proof.
  intros Hl Ht. unfold push_back_helper, resize, cut_padding.
  assert ((64 <? length k)%nat = false) as -> by (apply Nat.ltb_ge; lia).
  rewrite firstn_all2 by lia. rewrite Hl. cbn [Nat.sub replicate].
  by rewrite (find_snoc_blank k Ht).
Qed.

(** A key of more than 64 characters is cut to 61 and three dots. *)
Lemma cut_push_long (k : list ascii) :
  (64 < length k)%nat -> find [blank; blank] (take 61 k) = None ->
  cut_padding (push_back_helper k) = take 61 k ++ [dot; dot; dot].
Proof.
  intros Hl Hf. unfold push_back_helper, resize, cut_padding.
  assert ((64 <? length k)%nat = true) as -> by (apply Nat.ltb_lt; lia).
  cbn [Nat.sub].
  assert (Hlen : length (take 61 k ++ [dot; dot; dot]) = 64%nat).
  { rewrite length_app, length_take. cbn [length]. lia. }
  rewrite firstn_all2 by lia. rewrite Hlen. cbn [Nat.sub replicate].
  rewrite app_nil_r.
  assert (Hn : find [blank; blank] (take 61 k ++ [dot; dot; dot]) = None).
  { change [dot; dot; dot] with ([dot] ++ [dot] ++ [dot]).
    rewrite !app_assoc.
    repeat (apply find_snoc; [|discriminate]). exact Hf. }
  by rewrite Hn.
Qed.

(** ** Keys with several names *)

Definition semicolon : ascii := ascii_of_nat 59.
Definition hyphen : ascii := ascii_of_nat 45.

(** The two separators, [" - "] and ["; "]. *)
Definition dash_sep : list ascii := [blank; hyphen; blank].
Definition semi_sep : list ascii := [semicolon; blank].

(** The [while] loop of [on_end_element] and the [push_back_helper]
    after it.  [flag] compares the two positions as [size_t], where
    [npos] is the largest value; [erase(0, n)] takes away the first [n]
    characters.  Every turn shortens [key], so [fuel] above its length
    is never used up. *)
Fixpoint split_loop (fuel : nat) (key : list ascii) : list (list ascii) :=
  match fuel with
  | O => []
  | S fuel' =>
      match find dash_sep key, find semi_sep key with
      | None, None => [push_back_helper key]
      | Some p, None =>
          push_back_helper (take p key) :: split_loop fuel' (drop (p + 3) key)
      | None, Some p =>
          push_back_helper (take p key) :: split_loop fuel' (drop (p + 2) key)
      | Some pd, Some ps =>
          if (pd <? ps)%nat
          then push_back_helper (take pd key)
                 :: split_loop fuel' (drop (pd + 3) key)
          else push_back_helper (take ps key)
                 :: split_loop fuel' (drop (ps + 2) key)
      end
  end.

Definition split_keys (key : list ascii) : list (list ascii) :=
  split_loop (S (length key)) key.

(** The names with ["; "] between them. *)
Fixpoint semi_joined (names : list (list ascii)) : list ascii :=
  match names with
  | [] => []
  | [n] => n
  | n :: r => n ++ semi_sep ++ semi_joined r
  end.

Lemma find_dash_none (s : list ascii) :
  hyphen ∉ s -> find dash_sep s = None.
Proof.
  induction s as [|c s IH]; intros Hn; [done|].
  cbn [find].
  assert (Hs : starts_with dash_sep (c :: s) = false).
  { unfold dash_sep. cbn [starts_with]. destruct s as [|c2 s2].
    - by rewrite andb_false_r.
    - destruct (Ascii.eqb_spec hyphen c2) as [E|_].
      + exfalso. subst c2. apply Hn. right. left.
      + cbn [andb]. by rewrite andb_false_r. }
  rewrite Hs, IH; [done|]. by apply not_elem_of_cons in Hn as [_ ?].
Qed.

Lemma find_semi_first (n rest : list ascii) :
  semicolon ∉ n -> find semi_sep (n ++ semi_sep ++ rest) = Some (length n).
Proof.
  induction n as [|c n IH]; intros Hn.
  - cbn [app semi_sep find starts_with]. by rewrite !Ascii.eqb_refl.
  - cbn [app find].
    assert (Hs : starts_with semi_sep (c :: n ++ semi_sep ++ rest) = false).
    { unfold semi_sep at 1. cbn [starts_with].
      destruct (Ascii.eqb_spec semicolon c) as [E|_]; [|done].
      exfalso. subst c. apply Hn. left. }
    rewrite Hs, IH; [done|]. by apply not_elem_of_cons in Hn as [_ ?].
Qed.

Lemma find_semi_none (s : list ascii) :
  semicolon ∉ s -> find semi_sep s = None.
Proof.
  induction s as [|c s IH]; intros Hn; [done|].
  cbn [find].
  assert (Hs : starts_with semi_sep (c :: s) = false).
  { unfold semi_sep. cbn [starts_with].
    destruct (Ascii.eqb_spec semicolon c) as [E|_]; [|done].
    exfalso. subst c. apply Hn. left. }
  rewrite Hs, IH; [done|]. by apply not_elem_of_cons in Hn as [_ ?].
Qed.

(** A name that holds neither separator character. *)
Definition single (n : list ascii) : Prop :=
  (semicolon ∉ n) /\ (hyphen ∉ n).

Lemma semi_joined_no_hyphen (names : list (list ascii)) :
  Forall single names -> hyphen ∉ semi_joined names.
Proof.
  induction 1 as [|n names [_ Hn] Hns IH]; [by apply not_elem_of_nil|].
  cbn [semi_joined]. destruct names as [|n' names']; [done|].
  rewrite !not_elem_of_app. split; [done|]. split; [|done].
  unfold semi_sep. intros Hin.
  repeat (apply elem_of_cons in Hin as [Hin|Hin]; [discriminate|]).
  by apply elem_of_nil in Hin.
Qed.

Lemma split_loop_joined (names : list (list ascii)) : forall fuel : nat,
  names <> [] -> Forall single names ->
  (length (semi_joined names) < fuel)%nat ->
  split_loop fuel (semi_joined names) = map push_back_helper names.
Proof.
  induction names as [|n names IH]; intros fuel Hne Hs Hf; [done|].
  apply Forall_cons in Hs as [[Hsemi Hhy] Hs].
  destruct fuel as [|fuel]; [lia|].
  destruct names as [|n' names'].
  - cbn [semi_joined split_loop map].
    by rewrite (find_dash_none n Hhy), (find_semi_none n Hsemi).
  - cbn [split_loop].
    rewrite (find_dash_none (semi_joined (n :: n' :: names')))
      by (apply semi_joined_no_hyphen; constructor; done).
    change (semi_joined (n :: n' :: names'))
      with (n ++ semi_sep ++ semi_joined (n' :: names')) in *.
    rewrite (find_semi_first n _ Hsemi).
    rewrite take_app_length.
    rewrite app_assoc.
    rewrite (drop_app_length' (n ++ semi_sep))
      by (rewrite length_app; unfold semi_sep; cbn [length]; lia).
    cbn [map]. f_equal.
    rewrite (IH fuel); [done|done|done|].
    rewrite app_assoc in Hf.
    rewrite !length_app in Hf. unfold semi_sep in Hf. cbn [length] in Hf.
    lia.
Qed.

End ReadXml.

Import BPTStructure BPTFind BPTOrder TopKHeap.
Import BPT.
Local Open Scope Z_scope.

(** * The claims *)

(** ** Trees of the repository: [ORDER = 64] *)

Lemma ORDER64_ge : 2 <= 64.
Proof. lia. Qed.

Lemma ORDER64_even : 64 mod 2 = 0.
Proof. reflexivity. Qed.

(** The entries of a tree in iteration order, as
    [for (it = begin(); it != end(); ++it)] visits them, each with the
    page and the slot the iterator stands at.  The loop stops here at
    the first sentinel; [Sentinel.entries_from] has the content of the
    blocks of the sentinels, which the code compares there, as
    arguments. *)
Fixpoint entries_from {T} `{KeyOps T} (fuel : nat)
    (bt : BplusTree (T := T)) (it : Iterator) : list (Z * Z * T) :=
  match fuel with
  | O => []
  | S fuel' =>
      if iter_ne it (end_ 64) then
        (page_id (current_pos it), index it, deref it)
          :: entries_from fuel' bt (incr 64 bt it)
      else []
  end.

Definition entries {T} `{KeyOps T} (fuel : nat) (bt : BplusTree (T := T))
  : list (Z * Z * T) :=
  match begin 64 bt with
  | Some it => entries_from fuel bt it
  | None => []
  end.

(** Keys [0 .. n-1], each with its own number as id. *)
Definition ascending (n : nat) : list HashedKey :=
  map (fun i => mkHK i i) (seqZ 0 (Z.of_nat n)).

(** C1: after any sequence of inserts into a fresh tree of order 64 the
    insertions all return, every stored node holds at most 64 keys, and
    every node but the root holds at least 32. *)
Theorem C1_node_counts {T} `{KeyOps T} (values : list T) :
  exists bt, insert_all 64 values (create 64) = Some bt /\
    forall p n, pager bt !! p = Some n ->
      0 <= count n <= 64 /\ (p <> root_id (header bt) -> 32 <= count n).
Proof.
  destruct (insert_all_spec 64 ORDER64_ge ORDER64_even values _ _
              (Inv_create 64 ORDER64_ge ORDER64_even))
    as (bt & t & E & HI).
  exists bt. split; [exact E|]. intros p n Hn.
  apply (Inv_count 64 ORDER64_ge ORDER64_even bt t p n HI Hn).
Qed.

(** The operators of the hashed keys are those of a total preorder. *)
Lemma HashedKey_laws (uninit : Z) : @KeyLaws HashedKey (HashedKey_ops uninit).
Proof.
  split; cbn [key_lt key_le key_eq HashedKey_ops]; intros.
  - lia.
  - lia.
  - lia.
  - destruct (Z.leb_spec (hk_key a) (hk_key b)),
             (Z.ltb_spec (hk_key b) (hk_key a)); simpl; lia.
  - destruct (Z.eqb_spec (hk_key a) (hk_key b)),
             (Z.ltb_spec (hk_key a) (hk_key b)),
             (Z.ltb_spec (hk_key b) (hk_key a)); simpl; lia.
Qed.

(** A block of memory whose 65 key slots hold the key bytes [k]; the
    default constructor of the key sets [id] to -1. *)
Definition block (k : Z) : list HashedKey := replicate 65 (mkHK k (-1)).

(** [find] after any inserts, whatever the blocks of its sentinels
    hold: it stands on a stored page at an entry equal to [k] exactly
    when a key equal to [k] was inserted, and at a sentinel, page id
    -1, when none was. *)
Lemma find_stored_iff_inserted {T} `{KeyLaws T} (values : list T) (k : T)
    (s1 s2 : list T) :
  exists bt it,
    insert_all 64 values (create 64) = Some bt /\
    Sentinel.find 64 s1 s2 k bt = Some it /\
    ((1 <= page_id (current_pos it) /\ key_eq (deref it) k = true) <->
     (exists x, x ∈ values /\ key_eq x k = true)) /\
    (~ (exists x, x ∈ values /\ key_eq x k = true) ->
     it = Sentinel.end_ 64 s2 \/
     (it = Sentinel.end_ 64 s1 /\ key_eq (nth 0 s1 key_default) k = true)).
Proof.
  destruct (insert_all_ordered 64 ORDER64_ge ORDER64_even values _ _
              (Inv_create 64 ORDER64_ge ORDER64_even) ordered_create)
    as (bt & t & E & HI & Ho & Hf).
  cbn [flat app] in Hf.
  destruct (Sentinel.find_sentinel 64 ORDER64_ge ORDER64_even s1 s2 k bt t HI Ho)
    as (it & Ef & Hhit & Hmiss).
  assert (Hmem : (exists x, x ∈ flat t /\ key_eq x k = true) <->
                 (exists x, x ∈ values /\ key_eq x k = true)).
  { split; intros (x & Hx & Hxk); exists x; split; try done.
    - by rewrite <- Hf.
    - by rewrite Hf. }
  exists bt, it. split; [done|]. split; [done|]. split.
  - split.
    + intros [Hp Hk].
      destruct (existsb (fun x => key_eq x k) values) eqn:Ex.
      * apply existsb_exists in Ex. destruct Ex as (x & Hx & Hxk).
        exists x. split; [|done]. by apply list_elem_of_In.
      * exfalso.
        assert (Hno : ~ (exists x, x ∈ flat t /\ key_eq x k = true)).
        { rewrite Hmem. intros (x & Hx & Hxk).
          assert (Ht : existsb (fun x => key_eq x k) values = true).
          { apply existsb_exists. exists x. split; [|done].
            by apply list_elem_of_In. }
          congruence. }
        destruct (Hmiss Hno) as [->|[-> _]];
          cbn [Sentinel.end_ current_pos Sentinel.Node_new page_id] in Hp;
          lia.
    + intros Hx. apply Hmem in Hx.
      destruct (Hhit Hx) as (Hp & _ & Hk). done.
  - intros Hno. rewrite <- Hmem in Hno.
    destruct (Hmiss Hno) as [->|(-> & _ & Hk)]; [by left|by right].
Qed.

(** C2: [find] on a key that was never inserted returns a sentinel, and
    whether that sentinel differs from [end()] is decided by the keys
    that two blocks of memory happened to hold.  With the keys 5, 3 and
    8 in a fresh tree, [find(4)] returns the iterator of its own
    [end()], in a block that holds the key bytes [a]; compared with a
    second [end()], in a block that holds [b], it differs exactly when
    [a] and [b] differ, as they do for 0 and 3.  [find(9)] runs off the
    last entry; when the block of that [++] holds the key bytes 9 it
    returns the sentinel of that block, an iterator that yields a key
    equal to 9 and differs from [end()], though 9 was never inserted.
    What holds whatever the blocks hold: [find k] stands on a stored
    page at an entry equal to [k] exactly when a key equal to [k] was
    inserted. *)
Theorem C2_find_miss_compares_stale_keys (uninit : Z) :
  let KO := HashedKey_ops uninit in
  (exists bt : BplusTree (T := HashedKey),
     insert_all 64 [mkHK 5 0; mkHK 3 1; mkHK 8 2] (create 64) = Some bt /\
     (forall s1 a b,
        Sentinel.find 64 s1 (block a) (mkHK 4 (-1)) bt
          = Some (Sentinel.end_ 64 (block a)) /\
        iter_ne (Sentinel.end_ 64 (block a)) (Sentinel.end_ 64 (block b))
          = negb (a =? b)) /\
     iter_ne (Sentinel.end_ 64 (block 0)) (Sentinel.end_ 64 (block 3)) = true /\
     (forall s2 b,
        Sentinel.find 64 (block 9) s2 (mkHK 9 (-1)) bt
          = Some (Sentinel.end_ 64 (block 9)) /\
        key_eq (deref (Sentinel.end_ 64 (block 9))) (mkHK 9 (-1)) = true /\
        iter_ne (Sentinel.end_ 64 (block 9)) (Sentinel.end_ 64 (block b))
          = negb (9 =? b))) /\
  (forall (values : list HashedKey) (k : HashedKey) (s1 s2 : list HashedKey),
     exists bt it,
       insert_all 64 values (create 64) = Some bt /\
       Sentinel.find 64 s1 s2 k bt = Some it /\
       ((1 <= page_id (current_pos it) /\ key_eq (deref it) k = true) <->
        (exists x, x ∈ values /\ key_eq x k = true)) /\
       (~ (exists x, x ∈ values /\ key_eq x k = true) ->
        page_id (current_pos it) = -1)).
Proof.
  intros KO. split.
  - eexists. split; [vm_compute; reflexivity|].
    split; [|split; [reflexivity|]].
    + intros s1 a b. split; reflexivity.
    + intros s2 b. split; [reflexivity|]. split; reflexivity.
  - intros values k s1 s2.
    destruct (@find_stored_iff_inserted HashedKey KO (HashedKey_laws uninit)
                values k s1 s2) as (bt & it & E & Ef & Hiff & Hmiss).
    exists bt, it. split; [done|]. split; [done|]. split; [done|].
    intros Hno. by destruct (Hmiss Hno) as [->|[-> _]].
Qed.

(** What [find_geq] returns, with the page and the slot it stands at. *)
Definition where_geq {T} `{KeyOps T} (k : T) (bt : BplusTree (T := T))
  : option (Z * Z * T) :=
  match find_geq 64 k bt with
  | Some it => Some (page_id (current_pos it), index it, deref it)
  | None => None
  end.

(** The first entry in iteration order whose key is not below [k]. *)
Definition first_geq {T} `{KeyOps T} (k : T) (bt : BplusTree (T := T))
  : option (Z * Z * T) :=
  List.find (fun e => negb (key_lt (snd e) k)) (entries 100 bt).

(** C3: after the keys 0..64 and a second key 32 (id 100), the second
    32 is the last entry of the left leaf (page 2, slot 32) and the
    first entry in iteration order whose key is not below 32, yet
    [find_geq] of 32 stands at the first slot of the right leaf. *)
Theorem C3_find_geq_passes_equal_key :
  let KO := HashedKey_ops 0 in
  exists bt,
    insert_all 64 (ascending 65 ++ [mkHK 32 100]) (create 64) = Some bt /\
    first_geq (mkHK 32 (-1)) bt = Some (2, 32, mkHK 32 100) /\
    where_geq (mkHK 32 (-1)) bt = Some (3, 0, mkHK 32 32).
Proof.
  intros KO.
  assert (P : match insert_all 64 (ascending 65 ++ [mkHK 32 100]) (create 64)
              with
              | Some bt => Some (first_geq (mkHK 32 (-1)) bt,
                                 where_geq (mkHK 32 (-1)) bt)
              | None => None
              end = Some (Some (2, 32, mkHK 32 100), Some (3, 0, mkHK 32 32))).
  { vm_compute. reflexivity. }
  destruct (insert_all 64 (ascending 65 ++ [mkHK 32 100]) (create 64))
    as [bt|]; [|discriminate P].
  exists bt. split; [reflexivity|]. injection P as P1 P2. by split.
Qed.

(** C5: after the keys 0..2112 in ascending order the root has split
    for the second time; page 68, the left half of the old root, is an
    internal node whose [right] is 69. *)
Theorem C5_internal_node_with_right :
  let KO := HashedKey_ops 0 in
  exists bt n,
    insert_all 64 (ascending 2113) (create 64) = Some bt /\
    pager bt !! 68 = Some n /\ is_leaf n = false /\ right n = 69.
Proof.
  intros KO.
  assert (P : match insert_all 64 (ascending 2113) (create 64) with
              | Some bt =>
                  option_map (fun n => (is_leaf n, right n)) (pager bt !! 68)
              | None => None
              end = Some (false, 69)).
  { vm_compute. reflexivity. }
  destruct (insert_all 64 (ascending 2113) (create 64)) as [bt|];
    [|discriminate P].
  exists bt. destruct (pager bt !! 68) as [n|]; [|discriminate P].
  exists n. simpl in P. injection P as P1 P2. by split_and!.
Qed.

(** ** Primary index *)

Definition digit (n : nat) : ascii := ascii_of_nat (48 + n).

(** The key texts k00 .. k99. *)
Definition kname (n : nat) : string :=
  String "k" (String (digit (n / 10)) (String (digit (n mod 10)) EmptyString)).

(** 65 entries k00 .. k64 with extents (10 i, 10), then k32 once more
    with the extent (1000, 7). *)
Definition C4_entries : list (Record_ * string) :=
  map (fun i => (mkRecord (Z.of_nat i * 10) 10, kname i)) (seq 0 65)
  ++ [(mkRecord 1000 7, kname 32)].

(** C4: with the entries above, two of which have the key text k32, the
    search for the prefix k32 returns one of the two. *)
Theorem C4_prefix_search_misses_duplicate :
  exists db,
    DB.insert_all EmptyString C4_entries (DB.sub_create EmptyString) = Some db /\
    DB.find EmptyString "k32" db = Some [(mkRecord 320 10, "k32"%string)] /\
    filter (fun e => bool_decide (String.prefix "k32" (snd e) = true)) C4_entries
      = [(mkRecord 320 10, "k32"%string); (mkRecord 1000 7, "k32"%string)].
Proof.
  assert (P : match DB.insert_all EmptyString C4_entries
                      (DB.sub_create EmptyString) with
              | Some db => Some (DB.find EmptyString "k32" db)
              | None => None
              end = Some (Some [(mkRecord 320 10, "k32"%string)])).
  { vm_compute. reflexivity. }
  destruct (DB.insert_all EmptyString C4_entries (DB.sub_create EmptyString))
    as [db|]; [|discriminate P].
  exists db. split; [reflexivity|]. injection P as P. split; [exact P|].
  vm_compute. reflexivity.
Qed.

(** ** Inverted index and ranker *)

(** The values of [std::hash<std::string>] in libstdc++ (64-bit) on the
    four words used below; the value on any other word plays no part
    and is given as 0. *)
Definition std_hash (s : string) : Z :=
  if String.eqb s "w0045856" then 15521396933460335439
  else if String.eqb s "GHst201f" then 15521396933460335440
  else if String.eqb s "Knuth001" then 10052695122650674731
  else if String.eqb s "A0014177QCstlTmB" then 10052695122650674731
  else 0.

(** C6: the hash of GHst201f is the hash of w0045856 plus one.  With
    w0045856 indexed at the extent (0, 10) and GHst201f at (10, 12),
    the search for GHst201f starts at the entry of w0045856, whose key
    is not the hash looked for, and returns nothing. *)
Theorem C6_search_misses_indexed_word :
  std_hash "GHst201f" = std_hash "w0045856" + 1 /\
  exists ii1 ii2,
    InvIdx.build std_hash 0 ["w0045856"%string] 0 10 (InvIdx.init_ii 0)
      = Some ii1 /\
    InvIdx.build std_hash 0 ["GHst201f"%string] 10 12 ii1 = Some ii2 /\
    InvIdx.find std_hash 0 ["w0045856"%string] ii2
      = Some [(mkRecord 0 10, EmptyString)] /\
    InvIdx.find std_hash 0 ["GHst201f"%string] ii2 = Some [].
Proof.
  split; [reflexivity|].
  assert (P :
    match InvIdx.build std_hash 0 ["w0045856"%string] 0 10 (InvIdx.init_ii 0)
    with
    | Some ii1 =>
        match InvIdx.build std_hash 0 ["GHst201f"%string] 10 12 ii1 with
        | Some ii2 =>
            Some (InvIdx.find std_hash 0 ["w0045856"%string] ii2,
                  InvIdx.find std_hash 0 ["GHst201f"%string] ii2)
        | None => None
        end
    | None => None
    end = Some (Some [(mkRecord 0 10, EmptyString)], Some [])).
  { vm_compute. reflexivity. }
  destruct (InvIdx.build std_hash 0 ["w0045856"%string] 0 10 (InvIdx.init_ii 0))
    as [ii1|]; [|discriminate P].
  destruct (InvIdx.build std_hash 0 ["GHst201f"%string] 10 12 ii1)
    as [ii2|] eqn:E2; [|discriminate P].
  exists ii1, ii2. injection P as P1 P2. by split_and!.
Qed.

(** C7: Knuth001 and A0014177QCstlTmB have the same hash.  After
    Knuth001, A0014177QCstlTmB and Knuth001 again, the record of
    Knuth001 still has the count 1 and a third record was appended:
    the search found the entry of the other name. *)
Theorem C7_colliding_names_counted_apart :
  std_hash "Knuth001" = std_hash "A0014177QCstlTmB" /\
  exists tk,
    TopK.insert_all std_hash 0 EmptyString
      ["Knuth001"; "A0014177QCstlTmB"; "Knuth001"]%string (TopK.init_topk 0)
      = Some tk /\
    TopK.record_manager tk =
      [TopK.mkTk 1 "Knuth001"; TopK.mkTk 1 "A0014177QCstlTmB";
       TopK.mkTk 1 "Knuth001"].
Proof.
  split; [reflexivity|].
  assert (P :
    option_map TopK.record_manager
      (TopK.insert_all std_hash 0 EmptyString
         ["Knuth001"; "A0014177QCstlTmB"; "Knuth001"]%string
         (TopK.init_topk 0))
    = Some [TopK.mkTk 1 "Knuth001"; TopK.mkTk 1 "A0014177QCstlTmB";
            TopK.mkTk 1 "Knuth001"]).
  { vm_compute. reflexivity. }
  destruct (TopK.insert_all std_hash 0 EmptyString
              ["Knuth001"; "A0014177QCstlTmB"; "Knuth001"]%string
              (TopK.init_topk 0)) as [tk|]; [|discriminate P].
  exists tk. split; [done|]. simpl in P. by injection P.
Qed.




(** The library algorithms by sorting: a vector in non-decreasing order
    of count is a heap for [std::greater]. *)
Definition count_le (a b : TopK.TkRecord) : Prop :=
  TopK.tk_count a <= TopK.tk_count b.

#[local] Instance count_le_dec : RelDecision count_le.
Proof. intros a b. unfold count_le. apply _. Defined.

#[local] Instance count_ge_dec : RelDecision count_ge.
Proof. intros a b. unfold count_ge. apply _. Defined.

Definition heap_by_sorting (v : list TopK.TkRecord) : list TopK.TkRecord :=
  merge_sort count_le v.
Definition pop_by_rotating (v : list TopK.TkRecord) : list TopK.TkRecord :=
  match v with [] => [] | x :: rest => rest ++ [x] end.
Definition sort_by_merging (v : list TopK.TkRecord) : list TopK.TkRecord :=
  merge_sort count_ge v.

Lemma heap_by_sorting_min v x rest :
  heap_by_sorting v = x :: rest ->
  forall y, y ∈ rest -> TopK.tk_count x <= TopK.tk_count y.
Proof.
  intros E.
  assert (Hs : StronglySorted count_le (heap_by_sorting v)).
  { apply StronglySorted_merge_sort.
    - intros a b c. unfold count_le. lia.
    - intros a b. unfold count_le. lia. }
  rewrite E in Hs. apply StronglySorted_inv in Hs. destruct Hs as [_ Hf].
  by rewrite Forall_forall in Hf.
Qed.

Lemma sort_by_merging_sorted v : Sorted count_ge (sort_by_merging v).
Proof.
  apply Sorted_merge_sort. intros a b. unfold count_ge. lia.
Qed.



(** ** Pager *)

(** C9: opening a file that is there but cannot be read raises
    [DatabaseNotExist]; no file makes the constructor raise
    [DatabaseOpeningError]; and with [create] set a file that is
    there keeps its bytes, the second [open] failing on the stream that
    is already open. *)
Theorem C9_pager_constructor :
  Pager.Pager_ctor Pager.Unreadable false = inl Pager.DatabaseNotExist /\
  (forall f create,
     Pager.Pager_ctor f create <> inl Pager.DatabaseOpeningError) /\
  (forall c, Pager.Pager_ctor (Pager.Present c) true =
     inr {| Pager.is_open := true; Pager.fail := true;
            Pager.content := c; Pager.empty := true |}).
Proof.
  split; [reflexivity|]. split.
  - intros [| |c] [|]; simpl; discriminate.
  - reflexivity.
Qed.

(** C10: [recover] returns true exactly when the register is not empty
    and the offset of slot [n] is a position inside the file, that is
    when at least one byte was read; when it returns false the register
    is what it was. *)
Theorem C10_recover_reports_bytes_read (S n : Z) (reg file : list Byte.byte) :
  (fst (Pager.recover S n reg file) = true <->
     0 < S /\ 0 <= Pager.offset S n < Z.of_nat (length file)) /\
  (fst (Pager.recover S n reg file) = false ->
     snd (Pager.recover S n reg file) = reg).
Proof.
  unfold Pager.recover, Pager.read_at. cbn [fst snd].
  destruct (Z.ltb_spec (Pager.offset S n) 0) as [Hneg|Hpos].
  - simpl. split; [|done]. split; [done|lia].
  - set (got := take (Z.to_nat S) (drop (Z.to_nat (Pager.offset S n)) file)).
    assert (Hlen : length got =
                   Nat.min (Z.to_nat S)
                           (length file - Z.to_nat (Pager.offset S n))).
    { unfold got. by rewrite length_take, length_drop. }
    split.
    + rewrite Z.ltb_lt. lia.
    + rewrite Z.ltb_ge. intros Hz.
      assert (Hnil : got = []) by (apply nil_length_inv; lia).
      by rewrite Hnil.
Qed.

Import BPTStructure BPTFind BPTOrder TopKHeap BPTIter NodeOps PagerBytes InvIdxSets TopKCount TopKRank InvIdxFind DBFind Tokenizer ReadXml.
Import BPT.
Local Open Scope Z_scope.

(** * Further properties of the code *)

(** ** Iteration over the tree *)

(** X1: after the keys of a non-empty list were inserted into a fresh
    tree, the loop from [begin()] to [end()] first visits exactly the
    inserted keys, each as often as it was inserted, in non-decreasing
    order and each on a stored page, whatever the blocks of its
    sentinels hold.  After them the iterator is the sentinel built by
    the last [++], and from a sentinel on the loop stops exactly when
    the key in the sentinel's block equals the key in the block of the
    [end()] it is compared with; otherwise it visits that stale key. *)
Theorem X1_iteration_sorted {T} `{KeyLaws T} (values : list T) :
  values <> [] ->
  exists bt it,
    insert_all 64 values (create 64) = Some bt /\
    begin 64 bt = Some it /\
    (forall front e s back, S (length front) = length values ->
       exists ents,
         Sentinel.entries_from 64 (front ++ (e, s) :: back) bt it
           = ents ++ Sentinel.entries_from 64 back bt (Sentinel.end_ 64 s) /\
         map snd ents ≡ₚ values /\
         StronglySorted (fun a b => key_lt b a = false) (map snd ents) /\
         Forall (fun x => 1 <= x.1.1) ents) /\
    (forall e s s' back,
       Sentinel.entries_from 64 ((e, s) :: back) bt (Sentinel.end_ 64 s')
       = if key_eq (nth 0 s' key_default) (nth 0 e key_default) then []
         else (-1, 0, nth 0 s' key_default)
                :: Sentinel.entries_from 64 back bt (Sentinel.end_ 64 s)).
Proof.
  intros Hne.
  destruct (insert_all_ordered 64 ORDER64_ge ORDER64_even values _ _
              (Inv_create 64 ORDER64_ge ORDER64_even) ordered_create)
    as (bt & t & E & HI & Ho & Hf).
  cbn [flat app] in Hf.
  assert (Hft : flat t <> []).
  { intros E0. rewrite E0 in Hf. symmetry in Hf.
    by apply Permutation_nil_r in Hf. }
  destruct (begin_spec 64 ORDER64_ge ORDER64_even bt t HI Hft)
    as (it & Eb & Hit).
  exists bt, it. split; [done|]. split; [done|]. split.
  - intros front e s back Hlen.
    destruct (Sentinel.entries_from_iterates 64 bt it (flat t)
                (Sentinel.Inv_stored 64 bt t HI) Hit Hft front e s back)
      as (ents & Ee & Hm & Hp).
    { by rewrite (Permutation_length Hf). }
    exists ents. split; [done|]. rewrite Hm. split; [done|].
    split; [|done].
    pose proof HI as (_ & _ & _ & Hs & _).
    apply (flat_sorted 64 t _ _ Ho Hs).
  - intros e s s' back. apply Sentinel.entries_from_end.
Qed.

(** The theorem at the keys 5, 3, 8. *)
Lemma X1_iteration_sorted_witness :
  exists (bt : BplusTree (T := HashedKey)) it,
    @insert_all _ (HashedKey_ops 0) 64 [mkHK 5 0; mkHK 3 1; mkHK 8 2]
                (@create _ (HashedKey_ops 0) 64) = Some bt /\
    @begin _ (HashedKey_ops 0) 64 bt = Some it /\
    (forall front e s back,
       S (length front) = length [mkHK 5 0; mkHK 3 1; mkHK 8 2] ->
       exists ents,
         @Sentinel.entries_from _ (HashedKey_ops 0) 64
            (front ++ (e, s) :: back) bt it
           = ents ++ @Sentinel.entries_from _ (HashedKey_ops 0) 64 back bt
                       (Sentinel.end_ 64 s) /\
         map snd ents ≡ₚ [mkHK 5 0; mkHK 3 1; mkHK 8 2] /\
         StronglySorted
           (fun a b => @key_lt _ (HashedKey_ops 0) b a = false)
           (map snd ents) /\
         Forall (fun x => 1 <= x.1.1) ents) /\
    (forall e s s' back,
       @Sentinel.entries_from _ (HashedKey_ops 0) 64 ((e, s) :: back) bt
          (Sentinel.end_ 64 s')
       = if @key_eq _ (HashedKey_ops 0)
              (nth 0 s' (@key_default _ (HashedKey_ops 0)))
              (nth 0 e (@key_default _ (HashedKey_ops 0)))
         then []
         else (-1, 0, nth 0 s' (@key_default _ (HashedKey_ops 0)))
                :: @Sentinel.entries_from _ (HashedKey_ops 0) 64 back bt
                     (Sentinel.end_ 64 s)).
Proof.
  apply (@X1_iteration_sorted HashedKey (HashedKey_ops 0) (HashedKey_laws 0)
           [mkHK 5 0; mkHK 3 1; mkHK 8 2]).
  discriminate.
Defined.

(** X2: on a tree without entries [begin()] stands on page 1, the
    root, at slot 0 of a node whose count is 0, and it differs from
    [end()] whatever the block of [end()] holds: the loop from
    [begin()] to [end()] runs its body once on a tree without entries,
    at a slot that no [insert] wrote; the [++] that follows gives the
    sentinel of its block. *)
Theorem X2_empty_tree_begin_is_not_end {T} `{KeyOps T} (e s : list T) :
  exists it, begin 64 (create (T := T) 64) = Some it /\
    page_id (current_pos it) = 1 /\ index it = 0 /\
    count (current_pos it) = 0 /\
    iter_ne it (Sentinel.end_ 64 e) = true /\
    Sentinel.incr 64 s (create 64) it = Sentinel.end_ 64 s.
Proof.
  eexists. split; [reflexivity|]. by vm_compute.
Qed.

(** X3: after any inserts into a fresh tree, [find_geq k] splits the
    inserted keys in two: the keys [seen], none less than [k], in
    non-decreasing order, and the others, none greater than [k].  When
    [seen] is empty [find_geq k] returns the sentinel of the block of
    its [++]; otherwise it returns an iterator from which the loop to
    [end()] first visits exactly [seen], on stored pages, whatever the
    blocks of the sentinels hold, and then stands at the sentinel built
    by the last [++]. *)
Theorem X3_find_geq_split {T} `{KeyLaws T} (values : list T) (k : T) :
  exists bt seen rest,
    insert_all 64 values (create 64) = Some bt /\
    rest ++ seen ≡ₚ values /\
    Forall (fun x => key_lt k x = false) rest /\
    Forall (fun x => key_lt x k = false) seen /\
    StronglySorted (fun a b => key_lt b a = false) seen /\
    forall s0, exists it,
      Sentinel.find_geq 64 s0 k bt = Some it /\
      match seen with
      | [] => it = Sentinel.end_ 64 s0
      | _ :: _ =>
          forall front e s back, S (length front) = length seen ->
          exists ents,
            Sentinel.entries_from 64 (front ++ (e, s) :: back) bt it
              = ents ++ Sentinel.entries_from 64 back bt (Sentinel.end_ 64 s) /\
            map snd ents = seen /\
            Forall (fun x => 1 <= x.1.1) ents
      end.
Proof.
  destruct (insert_all_ordered 64 ORDER64_ge ORDER64_even values _ _
              (Inv_create 64 ORDER64_ge ORDER64_even) ordered_create)
    as (bt & t & E & HI & Ho & Hf).
  cbn [flat app] in Hf.
  pose proof HI as (_ & _ & _ & Hs & _).
  destruct (tseek_bounds 64 k t _ _ Ho Hs) as (pre & Epre & Hlo & Hhi).
  pose proof (flat_sorted 64 t _ _ Ho Hs) as Hsorted.
  exists bt, (tseek k t), pre. split; [done|].
  split; [by rewrite <- Epre|]. split; [done|]. split; [done|].
  split. { rewrite Epre in Hsorted. apply StronglySorted_app in Hsorted. tauto. }
  intros s0.
  destruct (Sentinel.find_geq_sentinel 64 ORDER64_ge ORDER64_even s0 k bt t HI)
    as (it & Eg & Hit).
  exists it. split; [done|].
  destruct (tseek k t) as [|y L] eqn:Et; [done|].
  intros front e s back Hlen.
  apply (Sentinel.entries_from_iterates 64 bt it (y :: L)
           (Sentinel.Inv_stored 64 bt t HI) Hit ltac:(done) front e s back
           Hlen).
Qed.

(** The theorem at the keys 5, 3, 8 and the search for 4. *)
Lemma X3_find_geq_split_witness :
  exists (bt : BplusTree (T := HashedKey)) seen rest,
    @insert_all _ (HashedKey_ops 0) 64 [mkHK 5 0; mkHK 3 1; mkHK 8 2]
                (@create _ (HashedKey_ops 0) 64) = Some bt /\
    rest ++ seen ≡ₚ [mkHK 5 0; mkHK 3 1; mkHK 8 2] /\
    Forall (fun x => @key_lt _ (HashedKey_ops 0) (mkHK 4 (-1)) x = false)
           rest /\
    Forall (fun x => @key_lt _ (HashedKey_ops 0) x (mkHK 4 (-1)) = false)
           seen /\
    StronglySorted
      (fun a b => @key_lt _ (HashedKey_ops 0) b a = false) seen /\
    forall s0, exists it,
      @Sentinel.find_geq _ (HashedKey_ops 0) 64 s0 (mkHK 4 (-1)) bt
        = Some it /\
      match seen with
      | [] => it = Sentinel.end_ 64 s0
      | _ :: _ =>
          forall front e s back, S (length front) = length seen ->
          exists ents,
            @Sentinel.entries_from _ (HashedKey_ops 0) 64
               (front ++ (e, s) :: back) bt it
              = ents ++ @Sentinel.entries_from _ (HashedKey_ops 0) 64 back bt
                          (Sentinel.end_ 64 s) /\
            map snd ents = seen /\
            Forall (fun x => 1 <= x.1.1) ents
      end.
Proof.
  exact (@X3_find_geq_split HashedKey (HashedKey_ops 0) (HashedKey_laws 0)
           [mkHK 5 0; mkHK 3 1; mkHK 8 2] (mkHK 4 (-1))).
Defined.

(** X4: after any inserts into a fresh tree the root is still page 1,
    the index file holds a node in exactly the slots 1 to
    [header.count], and the node in slot [p] carries the page id [p]. *)
Theorem X4_pages {T} `{KeyOps T} (values : list T) :
  exists bt, insert_all 64 values (create 64) = Some bt /\
    root_id (header bt) = 1 /\
    (forall p, is_Some (pager bt !! p) <-> 1 <= p <= hcount (header bt)) /\
    (forall p n, pager bt !! p = Some n -> page_id n = p).
Proof.
  destruct (insert_all_pids 64 ORDER64_ge ORDER64_even values _ _
              (Inv_create 64 ORDER64_ge ORDER64_even))
    as (bt & t & E & HI & Hp).
  { reflexivity. }
  pose proof HI as (Hrid & _ & Hrep & _ & _ & _ & _ & Hdom).
  exists bt. split; [done|]. split; [done|]. split.
  - intros p. split.
    + intros Hs. apply Hdom in Hs. rewrite Hp in Hs.
      apply elem_of_seqZ in Hs. lia.
    + intros Hr. apply (rep_lookup 64 _ t 0 p Hrep).
      rewrite Hp. apply elem_of_seqZ. lia.
  - intros p n Hn. apply (rep_page_id 64 _ t 0 p n Hrep); [|done].
    apply Hdom. by exists n.
Qed.

(** ** The entries of one node *)

(** X5: [insert_in_node(pos, value)] on a node with [count <= ORDER]
    entries and [0 <= pos <= count] puts [value] at slot [pos], moves
    the entries from [pos] on one slot up, adds one to [count], and
    leaves child [pos] in slots [pos] and [pos + 1] with the later
    children moved one slot up. *)
Theorem X5_insert_in_node_contract {T} `{KeyOps T} (ORDER pos : Z) (v : T)
    (n : Node (T := T)) :
  0 <= pos <= count n -> count n <= ORDER ->
  length (data n) = Z.to_nat (ORDER + 1) ->
  length (children n) = Z.to_nat (ORDER + 2) ->
  let n' := insert_in_node pos v n in
  let c := Z.to_nat (count n) in
  let p := Z.to_nat pos in
  page_id n' = page_id n /\ right n' = right n /\
  count n' = count n + 1 /\
  take (c + 1) (data n') =
    take p (data n) ++ v :: drop p (take c (data n)) /\
  take (c + 2) (children n') =
    take (p + 1) (children n) ++ drop p (take (c + 1) (children n)).
Proof.
  intros Hpos Hc Hd Hk n' c p.
  destruct (insert_in_node_spec pos v n Hpos)
    as (Hp & Hcnt & Hr & _ & _ & HD & HC & _); [lia|lia|].
  fold n' c p in Hp, Hcnt, Hr, HD, HC.
  split; [done|]. split; [done|]. split; [done|]. split; [|done].
  rewrite HD. unfold ins_at. f_equal. rewrite take_take. f_equal.
  subst p c. lia.
Qed.

(** The theorem at an inner node of order 4 with the keys 5 and 9 and
    the children 2, 3 and 4, and the key 7 put at slot 1: 9 moves to
    slot 2, child 3 stays in slots 1 and 2, child 4 moves to slot 3. *)
Definition node_5_9 : Node (T := HashedKey) :=
  {| page_id := 1; count := 2; right := 0;
     data := [mkHK 5 0; mkHK 9 1; mkHK 0 (-1); mkHK 0 (-1); mkHK 0 (-1)];
     children := [2; 3; 4; 0; 0; 0] |}.

Lemma X5_insert_in_node_contract_witness :
  let n := node_5_9 in
  let n' := @insert_in_node _ (HashedKey_ops 0) 1 (mkHK 7 2) n in
  let c := Z.to_nat (count n) in
  let p := Z.to_nat 1 in
  page_id n' = page_id n /\ right n' = right n /\
  count n' = count n + 1 /\
  take (c + 1) (data n') =
    take p (data n) ++ mkHK 7 2 :: drop p (take c (data n)) /\
  take (c + 2) (children n') =
    take (p + 1) (children n) ++ drop p (take (c + 1) (children n)).
Proof.
  apply (@X5_insert_in_node_contract HashedKey (HashedKey_ops 0) 4 1
           (mkHK 7 2) node_5_9);
    [simpl; lia | simpl; lia | reflexivity | reflexivity].
Defined.

(** X6: on a node with fewer than [ORDER] entries, [delete_in_node(pos)]
    after [insert_in_node(pos, value)] gives back the count, the
    entries and the children in use, the page id and the right link. *)
Theorem X6_delete_after_insert {T} `{KeyOps T} (ORDER pos : Z) (v : T)
    (n : Node (T := T)) :
  0 <= pos <= count n -> count n < ORDER ->
  length (data n) = Z.to_nat (ORDER + 1) ->
  length (children n) = Z.to_nat (ORDER + 2) ->
  let n' := delete_in_node pos (insert_in_node pos v n) in
  let c := Z.to_nat (count n) in
  page_id n' = page_id n /\ right n' = right n /\
  count n' = count n /\
  take c (data n') = take c (data n) /\
  take (c + 1) (children n') = take (c + 1) (children n).
Proof.
  intros Hpos Hc Hd Hk n' c.
  destruct (insert_in_node_spec pos v n Hpos)
    as (Hp & Hcnt & Hr & Hld & Hlc & HD & HC & _); [lia|lia|].
  set (n1 := insert_in_node pos v n) in *.
  destruct (delete_in_node_spec pos n1)
    as (Hp' & Hcnt' & Hr' & _ & _ & HD' & HC'); [lia|lia|lia|].
  fold n' in Hp', Hcnt', Hr', HD', HC'.
  split; [congruence|]. split; [congruence|]. split; [lia|].
  rewrite Hcnt in HD', HC'.
  replace (Z.to_nat (count n + 1) - 1)%nat with c in HD' by (subst c; lia).
  replace (Z.to_nat (count n + 1)) with (c + 1)%nat in HD', HC'
    by (subst c; lia).
  replace (S (c + 1)) with (c + 2)%nat in HC' by lia.
  fold c in HD, HC.
  split.
  - rewrite HD'. rewrite HD.
    assert (Ht : take (Z.to_nat pos) (data n1) =
                 take (Z.to_nat pos) (take c (data n))).
    { replace (take (Z.to_nat pos) (data n1))
        with (take (Z.to_nat pos) (take (c + 1) (data n1)))
        by (rewrite take_take; f_equal; subst c; lia).
      rewrite HD. unfold ins_at. rewrite take_app_le.
      - rewrite take_take. f_equal. lia.
      - rewrite !length_take. subst c. lia. }
    rewrite Ht. unfold ins_at.
    assert (Hl : length (take (Z.to_nat pos) (take c (data n)))
                 = Z.to_nat pos).
    { rewrite !length_take. subst c. lia. }
    rewrite drop_app_ge by lia. rewrite Hl.
    replace (S (Z.to_nat pos) - Z.to_nat pos)%nat with 1%nat by lia.
    cbn [drop]. rewrite drop_0. apply take_drop.
  - rewrite HC'. rewrite HC.
    assert (Ht : take (S (Z.to_nat pos)) (children n1) =
                 take (Z.to_nat pos + 1) (children n)).
    { replace (take (S (Z.to_nat pos)) (children n1))
        with (take (S (Z.to_nat pos)) (take (c + 2) (children n1)))
        by (rewrite take_take; f_equal; subst c; lia).
      rewrite HC. rewrite take_app_le.
      - rewrite take_take. f_equal. lia.
      - rewrite length_take. subst c. lia. }
    rewrite Ht.
    assert (Hl : length (take (Z.to_nat pos + 1) (children n))
                 = (Z.to_nat pos + 1)%nat).
    { rewrite length_take. subst c. lia. }
    rewrite drop_app_ge by lia. rewrite Hl.
    replace (S (S (Z.to_nat pos)) - (Z.to_nat pos + 1))%nat with 1%nat by lia.
    rewrite drop_drop.
    replace (Z.to_nat pos + 1)%nat with (Z.to_nat pos + 1)%nat by lia.
    rewrite <- (take_drop (Z.to_nat pos + 1) (take (c + 1) (children n)))
      at 2.
    f_equal. rewrite take_take. f_equal. subst c. lia.
Qed.

(** The theorem at the inner node with the keys 5 and 9 and the key 7
    put at slot 1 and taken out again. *)
Lemma X6_delete_after_insert_witness :
  let n := node_5_9 in
  let n' := @delete_in_node _ (HashedKey_ops 0) 1
              (@insert_in_node _ (HashedKey_ops 0) 1 (mkHK 7 2) n) in
  let c := Z.to_nat (count n) in
  page_id n' = page_id n /\ right n' = right n /\
  count n' = count n /\
  take c (data n') = take c (data n) /\
  take (c + 1) (children n') = take (c + 1) (children n).
Proof.
  apply (@X6_delete_after_insert HashedKey (HashedKey_ops 0) 4 1
           (mkHK 7 2) node_5_9);
    [simpl; lia | simpl; lia | reflexivity | reflexivity].
Defined.

(** ** The pager on bytes *)

(** X7: a register saved in slot [n] is what [recover] reads from slot
    [n], and [recover] reports success, whatever the file held before
    and however far past its end the slot lies, as long as the byte
    offset [n * sizeof(Register)] fits 63 bits. *)
Theorem X7_save_recover_round_trip (S n : Z)
    (reg reg0 file : list Byte.byte) :
  0 < S -> 0 <= n -> n * S < 2 ^ 63 ->
  length reg = Z.to_nat S -> length reg0 = Z.to_nat S ->
  Pager.recover S n reg0 (PagerBytes.save S n reg file) = (true, reg).
Proof.
  intros HS Hn Hoff Hreg Hreg0.
  assert (Ho : Pager.offset S n = n * S) by (apply offset_small; lia).
  unfold Pager.recover, PagerBytes.save. rewrite Ho.
  assert ((n * S <? 0) = false) as -> by lia.
  rewrite read_at_write_at by (done || lia).
  rewrite Hreg, <- Hreg0, drop_all, app_nil_r.
  by assert ((0 <? Z.of_nat (length reg0)) = true) as -> by lia.
Qed.

(** The theorem at registers of two bytes and slot 3 of a file of two
    bytes. *)
Lemma X7_save_recover_round_trip_witness :
  Pager.recover 2 3 [Byte.x00; Byte.x00]
    (PagerBytes.save 2 3 [Byte.x41; Byte.x42] [Byte.x01; Byte.x02])
  = (true, [Byte.x41; Byte.x42]).
Proof.
  apply (X7_save_recover_round_trip 2 3 [Byte.x41; Byte.x42]
           [Byte.x00; Byte.x00] [Byte.x01; Byte.x02]);
    first [lia | reflexivity].
Defined.

(** X8: after [save] in slot [n] the file ends where it ended before
    or at the end of slot [n], whichever is later, and every other slot
    that the file already held reads as it did. *)
Theorem X8_save_keeps_other_slots (S n : Z) (reg file : list Byte.byte) :
  0 < S -> 0 <= n -> n * S < 2 ^ 63 -> length reg = Z.to_nat S ->
  Z.of_nat (length (PagerBytes.save S n reg file))
  = Z.of_nat (length file) `max` ((n + 1) * S) /\
  forall m r,
    0 <= m -> m <> n -> (m + 1) * S <= Z.of_nat (length file) ->
    Z.of_nat (length file) < 2 ^ 63 ->
    Pager.recover S m r (PagerBytes.save S n reg file)
    = Pager.recover S m r file.
Proof.
  intros HS Hn Hoff Hreg.
  assert (Ho : Pager.offset S n = n * S) by (apply offset_small; lia).
  split.
  - unfold PagerBytes.save. rewrite Ho.
    assert ((n * S <? 0) = false) as -> by lia.
    rewrite length_write_at by lia. rewrite Hreg. lia.
  - intros m r Hm Hne Hin Hfile.
    assert (Ho' : Pager.offset S m = m * S) by (apply offset_small; nia).
    unfold Pager.recover, PagerBytes.save. rewrite Ho, Ho'.
    assert ((n * S <? 0) = false) as -> by lia.
    assert ((m * S <? 0) = false) as -> by nia.
    rewrite read_at_write_at_other; try done; nia.
Qed.

(** The theorem at registers of two bytes and a save in slot 3 of a
    file that holds the slots 0 and 1. *)
Lemma X8_save_keeps_other_slots_witness :
  Z.of_nat (length (PagerBytes.save 2 3 [Byte.x41; Byte.x42]
                      [Byte.x01; Byte.x02; Byte.x03; Byte.x04]))
  = Z.of_nat (length [Byte.x01; Byte.x02; Byte.x03; Byte.x04])
      `max` ((3 + 1) * 2) /\
  forall m r,
    0 <= m -> m <> 3 ->
    (m + 1) * 2
      <= Z.of_nat (length [Byte.x01; Byte.x02; Byte.x03; Byte.x04]) ->
    Z.of_nat (length [Byte.x01; Byte.x02; Byte.x03; Byte.x04]) < 2 ^ 63 ->
    Pager.recover 2 m r
      (PagerBytes.save 2 3 [Byte.x41; Byte.x42]
         [Byte.x01; Byte.x02; Byte.x03; Byte.x04])
    = Pager.recover 2 m r [Byte.x01; Byte.x02; Byte.x03; Byte.x04].
Proof.
  apply (X8_save_keeps_other_slots 2 3 [Byte.x41; Byte.x42]
           [Byte.x01; Byte.x02; Byte.x03; Byte.x04]);
    first [reflexivity | simpl; lia].
Defined.

(** X9: [erase(n)] on a slot inside the file overwrites the first byte
    of the slot with the letter X and changes no other byte; [recover]
    on the erased slot still reports success. *)
Theorem X9_erase_marks_first_byte (S n : Z) (r file : list Byte.byte) :
  0 < S -> 0 <= n -> (n + 1) * S <= Z.of_nat (length file) ->
  Z.of_nat (length file) < 2 ^ 63 ->
  PagerBytes.erase S n file = <[Z.to_nat (n * S) := Byte.x58]> file /\
  fst (Pager.recover S n r (PagerBytes.erase S n file)) = true.
Proof.
  intros HS Hn Hin Hfile.
  assert (Ho : Pager.offset S n = n * S) by (apply offset_small; nia).
  assert (E : PagerBytes.erase S n file = <[Z.to_nat (n * S) := Byte.x58]> file).
  { unfold PagerBytes.erase. rewrite Ho.
    assert ((n * S <? 0) = false) as -> by nia.
    apply list_eq. intros k.
    rewrite lookup_write_at by nia. rewrite list_lookup_insert.
    cbn [length]. repeat case_decide; try lia; try done.
    destruct_and!. subst k.
    by replace (Z.to_nat (n * S) - Z.to_nat (n * S))%nat with 0%nat by lia. }
  split; [done|]. rewrite E.
  unfold Pager.recover. rewrite Ho.
  assert ((n * S <? 0) = false) as -> by nia.
  cbn [fst]. unfold Pager.read_at.
  rewrite length_take, length_drop, length_insert.
  apply Z.ltb_lt. nia.
Qed.

(** The theorem at registers of two bytes and slot 1 of a file of four
    bytes. *)
Lemma X9_erase_marks_first_byte_witness :
  PagerBytes.erase 2 1 [Byte.x01; Byte.x02; Byte.x03; Byte.x04]
  = <[Z.to_nat (1 * 2) := Byte.x58]>
      [Byte.x01; Byte.x02; Byte.x03; Byte.x04] /\
  fst (Pager.recover 2 1 [Byte.x00; Byte.x00]
         (PagerBytes.erase 2 1 [Byte.x01; Byte.x02; Byte.x03; Byte.x04])) = true.
Proof.
  apply (X9_erase_marks_first_byte 2 1 [Byte.x00; Byte.x00]
           [Byte.x01; Byte.x02; Byte.x03; Byte.x04]);
    first [reflexivity | simpl; lia].
Defined.

(** ** The inverted index *)

(** X10: on a non-empty vector of result sets, each increasing as a
    [std::set] is, [intersection] returns an increasing set that holds
    exactly the positions present in every one of them. *)
Theorem X10_intersection_members (rl : list (list (Z * Z))) :
  rl <> [] ->
  Forall (StronglySorted (fun a b => InvIdx.pair_lt a b = true)) rl ->
  StronglySorted (fun a b => InvIdx.pair_lt a b = true)
                 (InvIdx.intersection rl) /\
  forall z, z ∈ InvIdx.intersection rl <-> Forall (fun r => z ∈ r) rl.
Proof.
  intros Hne Hs. by apply intersection_spec.
Qed.

(** The theorem at three result sets. *)
Lemma X10_intersection_members_witness :
  StronglySorted (fun a b => InvIdx.pair_lt a b = true)
    (InvIdx.intersection [[(1, 2); (3, 4)]; [(3, 4); (5, 6)]; [(3, 4)]]) /\
  forall z,
    z ∈ InvIdx.intersection [[(1, 2); (3, 4)]; [(3, 4); (5, 6)]; [(3, 4)]]
    <-> Forall (fun r => z ∈ r)
               [[(1, 2); (3, 4)]; [(3, 4); (5, 6)]; [(3, 4)]].
Proof.
  apply (X10_intersection_members
           [[(1, 2); (3, 4)]; [(3, 4); (5, 6)]; [(3, 4)]]).
  - discriminate.
  - repeat constructor.
Defined.

(** A hash for the witness: the code of the first character. *)
Definition first_char_hash (s : string) : Z :=
  match s with
  | EmptyString => 0
  | String c _ => Z.of_N (N_of_ascii c)
  end.



(** ** The top-K ranker *)

(** X12: when the inserted names are shorter than 64 characters, hold
    no NUL, differ from what an uninitialised name buffer holds, and no
    two different ones have the same hash, then every [TopK::insert]
    returns and the record file holds one record per distinct name,
    whose count is the number of times the name was inserted, modulo
    2^32. *)
Theorem X12_topk_counts (hash_fn : string -> Z) (uninit_key : Z)
    (uninit_name : string) (ws : list string) :
  (forall w, w ∈ ws ->
     (String.length w < 64)%nat /\ ~ In NUL (list_ascii_of_string w) /\
     w <> uninit_name) ->
  (forall a b, a ∈ ws -> b ∈ ws ->
     size_t_wrap (hash_fn a) = size_t_wrap (hash_fn b) -> a = b) ->
  exists tk,
    TopK.insert_all hash_fn uninit_key uninit_name ws
      (TopK.init_topk uninit_key) = Some tk /\
    NoDup (map TopK.tkname (TopK.record_manager tk)) /\
    (forall w, w ∈ ws <-> w ∈ map TopK.tkname (TopK.record_manager tk)) /\
    (forall r, r ∈ TopK.record_manager tk ->
       TopK.tk_count r
       = Z.of_nat (count_occ string_dec ws (TopK.tkname r)) mod 2 ^ 32).
Proof.
  intros Hplain Hinj.
  destruct (insert_all_counted hash_fn uninit_key uninit_name ws []
              (TopK.init_topk uninit_key)
              (counted_init hash_fn uninit_key))
    as (tk & E & t & _ & _ & _ & _ & Hnd & Hcnt & Hall).
  { split; [exact Hplain|exact Hinj]. }
  cbn [app] in Hcnt, Hall.
  exists tk. split; [done|]. split; [done|]. split.
  - intros w. split; [apply Hall|].
    intros Hw. change (w ∈ TopK.tkname <$> TopK.record_manager tk) in Hw.
    apply list_elem_of_fmap in Hw as (r & -> & Hr). by apply Hcnt.
  - intros r Hr. by apply Hcnt.
Qed.

(** The theorem at the names a, b, a. *)
Lemma X12_topk_counts_witness :
  exists tk,
    TopK.insert_all first_char_hash 0 EmptyString
      ["a"; "b"; "a"]%string (TopK.init_topk 0) = Some tk /\
    NoDup (map TopK.tkname (TopK.record_manager tk)) /\
    (forall w, w ∈ ["a"; "b"; "a"]%string
       <-> w ∈ map TopK.tkname (TopK.record_manager tk)) /\
    (forall r, r ∈ TopK.record_manager tk ->
       TopK.tk_count r
       = Z.of_nat (count_occ string_dec ["a"; "b"; "a"]%string
                     (TopK.tkname r)) mod 2 ^ 32).
Proof.
  apply (X12_topk_counts first_char_hash 0 EmptyString
           ["a"; "b"; "a"]%string).
  - intros w Hw.
    repeat (apply elem_of_cons in Hw as [->|Hw]);
      try (by apply elem_of_nil in Hw);
      (split; [simpl; lia|]; split; [|discriminate]);
      simpl; intros [H|[]]; discriminate.
  - intros a b Ha Hb.
    repeat (apply elem_of_cons in Ha as [->|Ha]);
      try (by apply elem_of_nil in Ha);
      repeat (apply elem_of_cons in Hb as [->|Hb]);
      try (by apply elem_of_nil in Hb);
      first [reflexivity | vm_compute; discriminate].
Defined.

(** X13: names of 64 or more characters are never counted together:
    when every inserted name is that long and differs from what an
    uninitialised name buffer holds, each [TopK::insert] appends a
    record of its own with count 1 and the first 63 characters of the
    name, also for a name that was inserted before. *)
Theorem X13_topk_long_names_apart (hash_fn : string -> Z) (uninit_key : Z)
    (uninit_name : string) (ws : list string) :
  (forall w, w ∈ ws -> (64 <= String.length w)%nat /\ w <> uninit_name) ->
  exists tk,
    TopK.insert_all hash_fn uninit_key uninit_name ws
      (TopK.init_topk uninit_key) = Some tk /\
    TopK.record_manager tk
    = map (fun w => TopK.mkTk 1 (snprintf 64 w)) ws.
Proof.
  intros Hws.
  destruct (insert_all_long hash_fn uninit_key uninit_name ws
              (TopK.init_topk uninit_key)
              (stored_init uninit_key) Hws)
    as (tk & E & Hr).
  exists tk. split; [done|]. by rewrite Hr.
Qed.

(** A name of 64 characters. *)
Definition name64 : string :=
  string_of_list_ascii (repeat "a"%char 64).

(** The theorem at a name of 64 characters inserted twice. *)
Lemma X13_topk_long_names_apart_witness :
  exists tk,
    TopK.insert_all first_char_hash 0 EmptyString [name64; name64]
      (TopK.init_topk 0) = Some tk /\
    TopK.record_manager tk
    = map (fun w => TopK.mkTk 1 (snprintf 64 w)) [name64; name64].
Proof.
  apply (X13_topk_long_names_apart first_char_hash 0 EmptyString
           [name64; name64]).
  intros w Hw.
  repeat (apply elem_of_cons in Hw as [->|Hw]);
    try (by apply elem_of_nil in Hw);
    (split; [apply Nat.leb_le; reflexivity|discriminate]).
Defined.

(** ** What the searches return *)

(** X14: on the inverted index built by any sequence of [build] calls,
    [find_single_value(v)] returns when the hash of [v] differs from
    what an uninitialised key holds, and every position it returns is
    the position given to a [build] call whose source holds a word with
    the hash of [v]. *)
Theorem X14_find_single_value_sound (hash_fn : string -> Z) (uninit : Z)
    (docs : list (list string * Z * Z)) (v : string) :
  size_t_wrap (hash_fn v) <> uninit ->
  exists ii res,
    build_all hash_fn uninit docs (InvIdx.init_ii uninit) = Some ii /\
    InvIdx.find_single_value hash_fn uninit v ii = Some res /\
    forall p l, (p, l) ∈ res ->
      exists source, (source, p, l) ∈ docs /\
        exists s w, s ∈ source /\ w ∈ InvIdx.words s /\
          size_t_wrap (hash_fn w) = size_t_wrap (hash_fn v).
Proof.
  apply find_single_value_sound.
Qed.

(** The theorem at one call of [build] and the word a. *)
Lemma X14_find_single_value_sound_witness :
  exists ii res,
    build_all first_char_hash 0 [(["a b"%string], 0, 10)]
      (InvIdx.init_ii 0) = Some ii /\
    InvIdx.find_single_value first_char_hash 0 "a" ii = Some res /\
    forall p l, (p, l) ∈ res ->
      exists source, (source, p, l) ∈ [(["a b"%string], 0, 10)] /\
        exists s w, s ∈ source /\ w ∈ InvIdx.words s /\
          size_t_wrap (first_char_hash w)
          = size_t_wrap (first_char_hash "a").
Proof.
  apply (X14_find_single_value_sound first_char_hash 0
           [(["a b"%string], 0, 10)] "a").
  vm_compute. discriminate.
Defined.

(** X15: after any sequence of [Database::insert] calls on a new
    sub-database, every pair in the vector that the loop of
    [Database::find(value)] builds has a text that starts with [value]
    and is either a record that was inserted, with the first 63
    characters of the key it was inserted under, or the empty record
    with the text that a sentinel shows, the stale text of its block.
    The loop has ended after more turns than there are entries when no
    sentinel shows a text that starts with [value]. *)
Theorem X15_database_find_results (uninit : string)
    (l : list (Record_ * string)) (value : string)
    (b0 : list string) (blocks : list (list string)) :
  exists here ended res,
    DB.insert_all uninit l (DB.sub_create uninit) = Some here /\
    find_results uninit b0 blocks value here = Some (ended, res) /\
    (forall s k, (s, k) ∈ res ->
       String.prefix value k = true /\
       ((exists key0, (s, key0) ∈ l /\ k = snprintf 64 key0) \/
        (s = Record_default /\
         exists b, b ∈ b0 :: blocks /\ k = shown uninit b))) /\
    ((length l < length blocks)%nat ->
     Forall (fun b => String.prefix value (shown uninit b) = false)
            (b0 :: blocks) ->
     ended = true).
Proof.
  apply find_results_sound.
Qed.

(** ** The command line *)

(** X16: arguments that have a character, no blank and no quote in
    front, typed with one blank between them, are what [tokenizer]
    returns. *)
Theorem X16_tokenizer_words (ws : list (list ascii)) :
  Forall plain_word ws -> tokenizer (joined ws) = ws.
Proof.
  intros Hws. rewrite tokenizer_run. by apply run_joined.
Qed.

(** The theorem at the command [find author Knuth]. *)
Lemma X16_tokenizer_words_witness :
  tokenizer (joined (map list_ascii_of_string
                       ["find"; "author"; "Knuth"]%string))
  = map list_ascii_of_string ["find"; "author"; "Knuth"]%string.
Proof.
  apply (X16_tokenizer_words
           (map list_ascii_of_string ["find"; "author"; "Knuth"]%string)).
  repeat constructor; try discriminate;
    intros Hin; repeat (apply elem_of_cons in Hin as [Hin|Hin];
                        [discriminate|]); by apply elem_of_nil in Hin.
Defined.

(** X17: after arguments that are each followed by a blank, a text
    between two quotes is one argument, blanks included, and the empty
    text between two quotes is the empty argument. *)
Theorem X17_tokenizer_quoted (ws : list (list ascii)) (s : list ascii) :
  Forall plain_word ws -> quote ∉ s ->
  tokenizer (spaced ws ++ quote :: s ++ [quote]) = ws ++ [s].
Proof.
  intros Hws Hs. rewrite tokenizer_run, run_spaced by done.
  by rewrite (run_string s []).
Qed.

(** The theorem at the command [find author], followed by the quoted
    text [Donald Knuth]. *)
Lemma X17_tokenizer_quoted_witness :
  tokenizer (spaced (map list_ascii_of_string ["find"; "author"]%string)
             ++ quote :: list_ascii_of_string "Donald Knuth"
             ++ [quote])
  = map list_ascii_of_string ["find"; "author"]%string
    ++ [list_ascii_of_string "Donald Knuth"].
Proof.
  apply (X17_tokenizer_quoted
           (map list_ascii_of_string ["find"; "author"]%string)
           (list_ascii_of_string "Donald Knuth")).
  - repeat constructor; try discriminate;
      intros Hin; repeat (apply elem_of_cons in Hin as [Hin|Hin];
                          [discriminate|]); by apply elem_of_nil in Hin.
  - intros Hin. repeat (apply elem_of_cons in Hin as [Hin|Hin];
                        [discriminate|]). by apply elem_of_nil in Hin.
Defined.

(** X18: a quote that is not closed takes the rest of the line with
    it: [tokenizer] returns the arguments before the quote and nothing
    of the text after it. *)
Theorem X18_tokenizer_open_quote (ws : list (list ascii)) (s : list ascii) :
  Forall plain_word ws -> quote ∉ s ->
  tokenizer (spaced ws ++ quote :: s) = ws.
Proof.
  intros Hws Hs. rewrite tokenizer_run, run_spaced by done.
  by rewrite (run_string_open s), app_nil_r.
Qed.

(** The theorem at the command [find author], followed by a quote and
    the text [Knuth]. *)
Lemma X18_tokenizer_open_quote_witness :
  tokenizer (spaced (map list_ascii_of_string ["find"; "author"]%string)
             ++ quote :: list_ascii_of_string "Knuth")
  = map list_ascii_of_string ["find"; "author"]%string.
Proof.
  apply (X18_tokenizer_open_quote
           (map list_ascii_of_string ["find"; "author"]%string)
           (list_ascii_of_string "Knuth")).
  - repeat constructor; try discriminate;
      intros Hin; repeat (apply elem_of_cons in Hin as [Hin|Hin];
                          [discriminate|]); by apply elem_of_nil in Hin.
  - intros Hin. repeat (apply elem_of_cons in Hin as [Hin|Hin];
                        [discriminate|]). by apply elem_of_nil in Hin.
Defined.

(** X24: on the empty line and on a line of blanks [tokenizer] returns
    no argument at all, so that the constructor of [CommandLine], which
    takes [vec[0]] as the command, reads the first element of an empty
    vector. *)
Theorem X24_tokenizer_blank_line (n : nat) :
  tokenizer (replicate n space) = [].
Proof.
  rewrite tokenizer_run. apply run_blanks.
Qed.

(** ** The keys read from a file *)

(** X19: [push_back_helper] always appends a key of 64 characters, and
    a key of at most 62 characters that has no two blanks in a row and
    no blank at its end is what cutting the padded key at its first
    two blanks gives back. *)
Theorem X19_padding_round_trip (k : list ascii) :
  length (push_back_helper k) = 64%nat /\
  ((length k <= 62)%nat -> tidy k ->
   cut_padding (push_back_helper k) = k).
Proof.
  split.
  - apply length_push_back_helper.
  - intros Hl Ht. by apply cut_push_short.
Qed.

(** The theorem at the name [Donald E. Knuth]. *)
Lemma X19_padding_round_trip_witness :
  length (push_back_helper (list_ascii_of_string "Donald E. Knuth"))
  = 64%nat /\
  cut_padding (push_back_helper (list_ascii_of_string "Donald E. Knuth"))
  = list_ascii_of_string "Donald E. Knuth".
Proof.
  destruct (X19_padding_round_trip (list_ascii_of_string "Donald E. Knuth"))
    as [Hlen Hcut].
  split; [exact Hlen|]. apply Hcut.
  - simpl. lia.
  - split; [reflexivity|]. intros H. vm_compute in H. discriminate.
Defined.

(** X20: a key of exactly 63 characters, with no two blanks in a row
    and no blank at its end, does not come back: it is given to the
    indices with one blank of the padding at its end. *)
Theorem X20_padding_63_keeps_blank (k : list ascii) :
  length k = 63%nat -> tidy k ->
  cut_padding (push_back_helper k) = k ++ [blank].
Proof.
  apply cut_push_63.
Qed.

(** The theorem at 63 times the letter a. *)
Lemma X20_padding_63_keeps_blank_witness :
  cut_padding (push_back_helper (repeat "a"%char 63))
  = repeat "a"%char 63 ++ [blank].
Proof.
  apply (X20_padding_63_keeps_blank (repeat "a"%char 63)).
  - reflexivity.
  - split; [reflexivity|]. intros H. vm_compute in H. discriminate.
Defined.

(** X21: a key of more than 64 characters whose first 61 have no two
    blanks in a row is given to the indices as its first 61 characters
    and three dots. *)
Theorem X21_padding_cuts_long_keys (k : list ascii) :
  (64 < length k)%nat -> ReadXml.find [blank; blank] (take 61 k) = None ->
  cut_padding (push_back_helper k) = take 61 k ++ [dot; dot; dot].
Proof.
  apply cut_push_long.
Qed.

(** The theorem at 70 times the letter a. *)
Lemma X21_padding_cuts_long_keys_witness :
  cut_padding (push_back_helper (repeat "a"%char 70))
  = take 61 (repeat "a"%char 70) ++ [dot; dot; dot].
Proof.
  apply (X21_padding_cuts_long_keys (repeat "a"%char 70)).
  - apply Nat.ltb_lt. reflexivity.
  - reflexivity.
Defined.

(** X22: a text of names that hold no semicolon and no hyphen, with a
    semicolon and a blank between them, is split into exactly these
    names, each padded by [push_back_helper]. *)
Theorem X22_split_keys_names (names : list (list ascii)) :
  names <> [] -> Forall single names ->
  split_keys (semi_joined names) = map push_back_helper names.
Proof.
  intros Hne Hs. unfold split_keys. apply split_loop_joined; try done. lia.
Qed.

(** The theorem at two names. *)
Lemma X22_split_keys_names_witness :
  split_keys (semi_joined (map list_ascii_of_string
                             ["Ada Lovelace"; "Alan Turing"]%string))
  = map push_back_helper
      (map list_ascii_of_string ["Ada Lovelace"; "Alan Turing"]%string).
Proof.
  apply (X22_split_keys_names
           (map list_ascii_of_string
              ["Ada Lovelace"; "Alan Turing"]%string)).
  - discriminate.
  - repeat constructor;
      intros Hin; repeat (apply elem_of_cons in Hin as [Hin|Hin];
                          [discriminate|]); by apply elem_of_nil in Hin.
Defined.

(** ** From the names to the ranking *)

(** X23: when [std::make_heap] with [std::greater] permutes the vector
    and puts a record of least count first, [std::pop_heap], called
    without a comparison on that vector, moves the first record to the
    end and permutes the others, and [std::sort] with [std::greater]
    permutes the vector into non-increasing order of count, and the
    names are shorter than 64 characters, hold no NUL, differ from what
    an uninitialised name buffer holds and have different hashes, then
    after the names [ws] were inserted and [make_topk(N)], [N] not
    negative, was run on the empty vector, [print(K)] with [K] at most
    [N] and at most the number of distinct names emits [K] lines with
    distinct names, each with the number of times the name was inserted
    (modulo 2^32), in non-increasing order of that number, and no name
    that is left out was inserted more often than a name that is
    printed. *)
Theorem X23_topk_ranking (hash_fn : string -> Z) (uninit_key : Z)
    (uninit_name : string)
    (make_heap_greater pop_heap sort_greater
       : list TopK.TkRecord -> list TopK.TkRecord)
    (ws : list string) (N : Z) :
  (forall v, make_heap_greater v ≡ₚ v) ->
  (forall v x rest, make_heap_greater v = x :: rest ->
     forall y, y ∈ rest -> TopK.tk_count x <= TopK.tk_count y) ->
  (forall x rest,
     exists rest', pop_heap (x :: rest) = rest' ++ [x] /\ rest' ≡ₚ rest) ->
  (forall v, sort_greater v ≡ₚ v) ->
  (forall v, Sorted count_ge (sort_greater v)) ->
  (forall w, w ∈ ws ->
     (String.length w < 64)%nat /\ ~ In NUL (list_ascii_of_string w) /\
     w <> uninit_name) ->
  (forall a b, a ∈ ws -> b ∈ ws ->
     size_t_wrap (hash_fn a) = size_t_wrap (hash_fn b) -> a = b) ->
  0 <= N < 2 ^ 15 ->
  exists tk,
    TopK.insert_all hash_fn uninit_key uninit_name ws
      (TopK.init_topk uninit_key) = Some tk /\
    forall K,
      0 <= K <= Z.of_nat (Nat.min (length (TopK.record_manager tk))
                                  (Z.to_nat N)) ->
      let out :=
        (TopK.print sort_greater K
           (TopK.make_topk uninit_name make_heap_greater pop_heap N tk)).1 in
      length out = Z.to_nat K /\
      StronglySorted (fun a b : string * Z => b.2 <= a.2) out /\
      NoDup (map fst out) /\
      (forall name c, (name, c) ∈ out ->
         name ∈ ws /\
         c = Z.of_nat (count_occ string_dec ws name) mod 2 ^ 32) /\
      (forall w, w ∈ ws -> w ∉ map fst out ->
         forall name c, (name, c) ∈ out ->
           Z.of_nat (count_occ string_dec ws w) mod 2 ^ 32 <= c).
Proof.
  intros Hmp Hmm Hpop Hsp Hss Hplain Hinj HN.
  apply (ranking hash_fn uninit_key uninit_name make_heap_greater pop_heap
           sort_greater Hmp Hmm Hpop Hsp Hss ws N); [|done].
  split; [exact Hplain|exact Hinj].
Qed.

(** The theorem at the names a, b, a, the algorithms by sorting and
    [make_topk(2)]. *)
Lemma X23_topk_ranking_witness :
  exists tk,
    TopK.insert_all first_char_hash 0 EmptyString ["a"; "b"; "a"]%string
      (TopK.init_topk 0) = Some tk /\
    forall K,
      0 <= K <= Z.of_nat (Nat.min (length (TopK.record_manager tk))
                                  (Z.to_nat 2)) ->
      let out :=
        (TopK.print sort_by_merging K
           (TopK.make_topk EmptyString heap_by_sorting pop_by_rotating
              2 tk)).1 in
      length out = Z.to_nat K /\
      StronglySorted (fun a b : string * Z => b.2 <= a.2) out /\
      NoDup (map fst out) /\
      (forall name c, (name, c) ∈ out ->
         name ∈ ["a"; "b"; "a"]%string /\
         c = Z.of_nat (count_occ string_dec ["a"; "b"; "a"]%string name)
             mod 2 ^ 32) /\
      (forall w, w ∈ ["a"; "b"; "a"]%string -> w ∉ map fst out ->
         forall name c, (name, c) ∈ out ->
           Z.of_nat (count_occ string_dec ["a"; "b"; "a"]%string w)
             mod 2 ^ 32 <= c).
Proof.
  apply (X23_topk_ranking first_char_hash 0 EmptyString heap_by_sorting
           pop_by_rotating sort_by_merging ["a"; "b"; "a"]%string 2).
  - intros v. apply merge_sort_Permutation.
  - apply heap_by_sorting_min.
  - intros x rest. by exists rest.
  - intros v. apply merge_sort_Permutation.
  - apply sort_by_merging_sorted.
  - intros w Hw.
    repeat (apply elem_of_cons in Hw as [->|Hw]);
      try (by apply elem_of_nil in Hw);
      (split; [simpl; lia|]; split; [|discriminate]);
      simpl; intros [H|[]]; discriminate.
  - intros a b Ha Hb.
    repeat (apply elem_of_cons in Ha as [->|Ha]);
      try (by apply elem_of_nil in Ha);
      repeat (apply elem_of_cons in Hb as [->|Hb]);
      try (by apply elem_of_nil in Hb);
      first [reflexivity | vm_compute; discriminate].
  - lia.
Defined.
